(** * ESP32Sim: the interpreter and pin runtime, embedded in Rocq

    The development follows the three source files of the simulator core:
    - [PinManager.js]    the table of simulated pins,
    - [ArduinoParser.js] the statement extractor, evaluator and executor,
    - [Engine.js]        the run loop, serial buffering and circuit export.

    JavaScript objects used as dictionaries are finite maps keyed by the
    property name.  For the pin table the lookup goes on to
    [Object.prototype], as it does in the source; the tables of the parser
    (variables, functions, local variables) are modelled on their own
    properties, so a sketch that uses a property name of [Object.prototype]
    as an identifier is outside the model.  Numbers are exact rationals
    extended with NaN and the two infinities (rounding of binary floating
    point is not modelled), strings are byte strings, and regular
    expressions are values of a small regex syntax run by a backtracking
    matcher with the ECMAScript priorities. *)

From Stdlib Require Import ZArith QArith Qabs Qround Qcanon Ascii String List.
From stdpp Require Import base gmap strings pretty list.

Local Open Scope Z_scope.

(** ** JavaScript values *)

Module JS.

(** A JavaScript number: a finite value, NaN, +Infinity or -Infinity. *)
Inductive num : Type :=
| Fin (q : Q)
| NaN
| PInf
| NInf.

(** The values the interpreter manipulates: numbers, strings and
    [undefined]. *)
Inductive jsval : Type :=
| VNum (n : num)
| VStr (s : string)
| VUndef.

Definition zero : jsval := VNum (Fin 0).
Definition one : jsval := VNum (Fin 1).
Definition of_Z (z : Z) : jsval := VNum (Fin (inject_Z z)).

(** *** Characters *)

Definition dquote : ascii := "034"%char.
Definition squote : ascii := "039"%char.
Definition newline : ascii := "010"%char.
Definition tab : ascii := "009"%char.
Definition backslash : ascii := "092"%char.

Definition code (c : ascii) : Z := Z.of_nat (nat_of_ascii c).

Definition is_digit (c : ascii) : bool := (48 <=? code c) && (code c <=? 57).
Definition is_lower (c : ascii) : bool := (97 <=? code c) && (code c <=? 122).
Definition is_upper (c : ascii) : bool := (65 <=? code c) && (code c <=? 90).
(** [\w] *)
Definition is_word (c : ascii) : bool :=
  is_digit c || is_lower c || is_upper c || (code c =? 95).
(** [\s] and the characters removed by [trim], on the ASCII range. *)
Definition is_space (c : ascii) : bool :=
  (code c =? 32) || ((9 <=? code c) && (code c <=? 13)).
Definition is_hex (c : ascii) : bool :=
  is_digit c || ((97 <=? code c) && (code c <=? 102))
             || ((65 <=? code c) && (code c <=? 70)).

Definition digit_val (c : ascii) : Z :=
  if is_digit c then code c - 48
  else if is_lower c then code c - 87
  else if is_upper c then code c - 55
  else 0.

Definition digit_char (d : Z) : ascii := ascii_of_nat (Z.to_nat (48 + d)).

(** *** Strings as character lists *)

Abbreviation chars := list_ascii_of_string.
Abbreviation str := string_of_list_ascii.

Fixpoint drop_spaces (l : list ascii) : list ascii :=
  match l with
  | c :: l' => if is_space c then drop_spaces l' else l
  | [] => []
  end.

Definition trim_chars (l : list ascii) : list ascii :=
  rev (drop_spaces (rev (drop_spaces l))).

(** [String.prototype.trim] *)
Definition trim (s : string) : string := str (trim_chars (chars s)).

Fixpoint starts_with (p l : list ascii) : bool :=
  match p, l with
  | [], _ => true
  | a :: p', b :: l' => if Ascii.eqb a b then starts_with p' l' else false
  | _ :: _, [] => false
  end.

(** [s.startsWith(p)] and [s.endsWith(p)] *)
Definition startsWith (s p : string) : bool := starts_with (chars p) (chars s).
Definition endsWith (s p : string) : bool :=
  starts_with (rev (chars p)) (rev (chars s)).

(** [s.slice(1, -1)] *)
Definition slice_1_m1 (s : string) : string :=
  str (tail (removelast (chars s))).

(** [s.slice(0, -1)] *)
Definition slice_0_m1 (s : string) : string := str (removelast (chars s)).

(** [s.slice(1)] *)
Definition slice_1 (s : string) : string := str (tail (chars s)).

(** [s.indexOf(p)] as an option, [None] standing for [-1]. *)
Fixpoint index_of_from (i : nat) (p l : list ascii) : option nat :=
  if starts_with p l then Some i
  else match l with
       | [] => None
       | _ :: l' => index_of_from (S i) p l'
       end.

Definition indexOf (s p : string) : option nat :=
  index_of_from 0 (chars p) (chars s).

Definition includes (s p : string) : bool :=
  match indexOf s p with Some _ => true | None => false end.

(** [s.split(sep)] for a non-empty literal separator. *)
Fixpoint split_chars (fuel : nat) (sep : list ascii) (cur : list ascii)
         (l : list ascii) : list string :=
  match fuel with
  | O => [str (rev cur ++ l)]
  | S fuel' =>
      match l with
      | [] => [str (rev cur)]
      | c :: l' =>
          if starts_with sep l
          then str (rev cur) :: split_chars fuel' sep [] (skipn (length sep) l)
          else split_chars fuel' sep (c :: cur) l'
      end
  end.

Definition split (s sep : string) : list string :=
  split_chars (S (String.length s)) (chars sep) [] (chars s).

(** *** Numbers *)

Definition Qlt_bool (x y : Q) : bool := negb (Qle_bool y x).

Definition is_int (q : Q) : bool := Qeq_bool q (inject_Z (Qfloor q)).

(** Digits of the fraction [r / d], for [0 <= r < d]. *)
Fixpoint frac_digits (fuel : nat) (r d : Z) : list ascii :=
  match fuel with
  | O => []
  | S fuel' =>
      if r =? 0 then []
      else digit_char ((r * 10) / d) :: frac_digits fuel' ((r * 10) mod d) d
  end.

(** Decimal text of a rational: integers print without a fraction, other
    values print at most sixteen fractional digits (the exponent notation of
    very large and very small numbers is not modelled). *)
Definition Q_to_string (q : Q) : string :=
  let q := Qred q in
  let n := Z.abs (Qnum q) in
  let d := Z.pos (Qden q) in
  let sign := if Qnum q <? 0 then "-"%string else ""%string in
  let ip := pretty (n / d) in
  match frac_digits 16 (n mod d) d with
  | [] => sign +:+ ip
  | ds => sign +:+ ip +:+ "." +:+ str ds
  end.

Definition num_to_string (n : num) : string :=
  match n with
  | Fin q => Q_to_string q
  | NaN => "NaN"
  | PInf => "Infinity"
  | NInf => "-Infinity"
  end.

(** [String(v)], and the key under which [obj[v]] is looked up. *)
Definition String_ (v : jsval) : string :=
  match v with
  | VNum n => num_to_string n
  | VStr s => s
  | VUndef => "undefined"
  end.

Fixpoint digits_value (base : Z) (acc : Z) (l : list ascii) : Z :=
  match l with
  | [] => acc
  | c :: l' => digits_value base (acc * base + digit_val c) l'
  end.

Fixpoint span (p : ascii -> bool) (l : list ascii) : list ascii * list ascii :=
  match l with
  | c :: l' => if p c then let '(a, b) := span p l' in (c :: a, b) else ([], l)
  | [] => ([], [])
  end.

Definition pow10 (n : nat) : Z := 10 ^ Z.of_nat n.

(** The value of [ip.fp e ex] for digit lists [ip], [fp] and exponent [ex]. *)
Definition decimal_value (ip fp : list ascii) (ex : Z) : Q :=
  let m := digits_value 10 0 (ip ++ fp) in
  let e := ex - Z.of_nat (length fp) in
  Qred (if 0 <=? e then inject_Z (m * 10 ^ e)
        else Qmake m (Z.to_pos (10 ^ (- e)))).

(** [parseFloat] on a text already checked against [-?\d+(\.\d+)?]: the
    decimal value of the text.  The source rounds this value to the nearest
    binary64 number; the two agree on the integers from -2^53 to 2^53 and on
    every text that denotes a binary64 number. *)
Definition parseFloat (s : string) : num :=
  let l := chars s in
  let '(neg, l) := match l with
                   | c :: l' => if Ascii.eqb c "-" then (true, l') else (false, l)
                   | [] => (false, [])
                   end in
  let '(ip, rest) := span is_digit l in
  let fp := match rest with
            | c :: r => if Ascii.eqb c "." then fst (span is_digit r) else []
            | [] => []
            end in
  match ip with
  | [] => NaN
  | _ => let v := decimal_value ip fp 0 in Fin (if neg then Qred (- v) else v)
  end.

(** [parseInt(s, 16)] on a text already checked against [0x[0-9a-fA-F]+]. *)
Definition parseInt16 (s : string) : num :=
  match chars s with
  | _ :: _ :: ds =>
      match fst (span is_hex ds) with
      | [] => NaN
      | hs => Fin (inject_Z (digits_value 16 0 hs))
      end
  | _ => NaN
  end.

(** [parseInt(s)] on a text of decimal digits. *)
Definition parseInt10 (s : string) : Z := digits_value 10 0 (chars s).

Definition all_chars (p : ascii -> bool) (l : list ascii) : bool := forallb p l.

(** Unsigned decimal literal, with optional fraction and exponent. *)
Definition unsigned_decimal (l : list ascii) : num :=
  if starts_with (chars "Infinity") l
  then (match skipn 8 l with [] => PInf | _ => NaN end)
  else
    let '(ip, r1) := span is_digit l in
    let '(fp, r2) := match r1 with
                     | c :: r => if Ascii.eqb c "." then span is_digit r else ([], r1)
                     | [] => ([], [])
                     end in
    match ip ++ fp with
    | [] => NaN
    | _ =>
        match r2 with
        | [] => Fin (decimal_value ip fp 0)
        | c :: r =>
            if Ascii.eqb c "e" || Ascii.eqb c "E" then
              let '(eneg, r) := match r with
                                | s :: r' =>
                                    if Ascii.eqb s "-" then (true, r')
                                    else if Ascii.eqb s "+" then (false, r')
                                    else (false, r)
                                | [] => (false, [])
                                end in
              match r with
              | [] => NaN
              | _ => if all_chars is_digit r
                     then let e := digits_value 10 0 r in
                          Fin (decimal_value ip fp (if eneg then - e else e))
                     else NaN
              end
            else NaN
        end
    end.

Definition num_neg (n : num) : num :=
  match n with
  | Fin q => Fin (Qred (- q))
  | NaN => NaN
  | PInf => NInf
  | NInf => PInf
  end.

Definition radix_literal (base : Z) (ok : ascii -> bool) (ds : list ascii) : num :=
  match ds with
  | [] => NaN
  | _ => if all_chars ok ds then Fin (inject_Z (digits_value base 0 ds)) else NaN
  end.

(** [Number(s)] for a string: the StringToNumber grammar. *)
Definition string_to_num (s : string) : num :=
  match trim_chars (chars s) with
  | [] => Fin 0
  | c :: r =>
      let l := c :: r in
      if starts_with (chars "0x") l || starts_with (chars "0X") l
      then radix_literal 16 is_hex (skipn 2 l)
      else if starts_with (chars "0b") l || starts_with (chars "0B") l
      then radix_literal 2 (fun c => (code c =? 48) || (code c =? 49)) (skipn 2 l)
      else if starts_with (chars "0o") l || starts_with (chars "0O") l
      then radix_literal 8 (fun c => (48 <=? code c) && (code c <=? 55)) (skipn 2 l)
      else if Ascii.eqb c "-" then num_neg (unsigned_decimal r)
      else if Ascii.eqb c "+" then unsigned_decimal r
      else unsigned_decimal l
  end.

(** [Number(v)] *)
Definition Number_ (v : jsval) : num :=
  match v with
  | VNum n => n
  | VStr s => string_to_num s
  | VUndef => NaN
  end.

(** Truthiness: [0], [NaN], the empty string and [undefined] are falsy. *)
Definition truthy (v : jsval) : bool :=
  match v with
  | VNum (Fin q) => negb (Qeq_bool q 0)
  | VNum NaN => false
  | VNum _ => true
  | VStr s => negb (String.eqb s "")
  | VUndef => false
  end.

(** [a < b] on numbers; any comparison with NaN is false. *)
Definition num_ltb (a b : num) : bool :=
  match a, b with
  | NaN, _ | _, NaN => false
  | Fin x, Fin y => Qlt_bool x y
  | NInf, NInf => false
  | NInf, _ => true
  | _, PInf => match a with PInf => false | _ => true end
  | _, _ => false
  end.

Definition num_eqb (a b : num) : bool :=
  match a, b with
  | Fin x, Fin y => Qeq_bool x y
  | PInf, PInf | NInf, NInf => true
  | _, _ => false
  end.

Definition num_leb (a b : num) : bool := num_ltb a b || num_eqb a b.

Definition is_nan (n : num) : bool := match n with NaN => true | _ => false end.

(** [Math.max(a, b)] and [Math.min(a, b)] on numbers. *)
Definition Math_max (a b : num) : num :=
  if is_nan a || is_nan b then NaN else if num_ltb a b then b else a.
Definition Math_min (a b : num) : num :=
  if is_nan a || is_nan b then NaN else if num_ltb b a then b else a.

(** *** Arithmetic *)

(** Sign of a number other than NaN. *)
Definition num_sign (n : num) : comparison :=
  match n with
  | Fin q => Qcompare q 0
  | PInf => Gt
  | NInf => Lt
  | NaN => Eq
  end.

Definition signed_inf (c : comparison) : num :=
  match c with Gt => PInf | Lt => NInf | Eq => NaN end.

Definition mul_sign (a b : comparison) : comparison :=
  match a, b with
  | Eq, _ | _, Eq => Eq
  | Gt, c | c, Gt => c
  | Lt, Lt => Gt
  end.

Definition num_add (a b : num) : num :=
  match a, b with
  | NaN, _ | _, NaN => NaN
  | Fin x, Fin y => Fin (Qred (x + y))
  | PInf, NInf | NInf, PInf => NaN
  | PInf, _ | _, PInf => PInf
  | NInf, _ | _, NInf => NInf
  end.

Definition num_sub (a b : num) : num := num_add a (num_neg b).

Definition num_mul (a b : num) : num :=
  match a, b with
  | NaN, _ | _, NaN => NaN
  | Fin x, Fin y => Fin (Qred (x * y))
  | _, _ => signed_inf (mul_sign (num_sign a) (num_sign b))
  end.

(** Division; a zero divisor counts as positive zero. *)
Definition num_div (a b : num) : num :=
  match a, b with
  | NaN, _ | _, NaN => NaN
  | Fin x, Fin y =>
      if Qeq_bool y 0 then signed_inf (Qcompare x 0) else Fin (Qred (x / y))
  | Fin _, _ => Fin 0
  | _, Fin y => signed_inf (mul_sign (num_sign a)
                                     (if Qeq_bool y 0 then Gt else Qcompare y 0))
  | _, _ => NaN
  end.

Definition Math_floor (n : num) : num :=
  match n with Fin q => Fin (inject_Z (Qfloor q)) | _ => n end.

Definition Math_round (n : num) : num :=
  match n with Fin q => Fin (inject_Z (Qfloor (q + (1 # 2)))) | _ => n end.

Definition Math_abs (n : num) : num :=
  match n with
  | Fin q => Fin (Qred (Qabs q))
  | NaN => NaN
  | _ => PInf
  end.

(** [a + b]: concatenation as soon as one operand is a string, the sum of
    the numbers otherwise. *)
Definition js_add (a b : jsval) : jsval :=
  match a, b with
  | VStr _, _ | _, VStr _ => VStr (String_ a +:+ String_ b)
  | _, _ => VNum (num_add (Number_ a) (Number_ b))
  end.
Definition js_sub (a b : jsval) : jsval := VNum (num_sub (Number_ a) (Number_ b)).
Definition js_mul (a b : jsval) : jsval := VNum (num_mul (Number_ a) (Number_ b)).
Definition js_div (a b : jsval) : jsval := VNum (num_div (Number_ a) (Number_ b)).

(** [v || 0] *)
Definition or_zero (o : option jsval) : jsval :=
  match o with
  | Some v => if truthy v then v else zero
  | None => zero
  end.

(** *** Comparison *)

Fixpoint chars_ltb (a b : list ascii) : bool :=
  match a, b with
  | [], [] => false
  | [], _ :: _ => true
  | _ :: _, [] => false
  | x :: a', y :: b' =>
      if code x <? code y then true
      else if code y <? code x then false
      else chars_ltb a' b'
  end.

(** [a < b]: two strings compare as texts, anything else as numbers. *)
Definition js_lt (a b : jsval) : bool :=
  match a, b with
  | VStr x, VStr y => chars_ltb (chars x) (chars y)
  | _, _ => num_ltb (Number_ a) (Number_ b)
  end.

(** [a <= b] *)
Definition js_le (a b : jsval) : bool :=
  match a, b with
  | VStr x, VStr y => negb (chars_ltb (chars y) (chars x))
  | _, _ => num_leb (Number_ a) (Number_ b)
  end.

(** [a == b]: [undefined] equals itself only. *)
Definition js_eq (a b : jsval) : bool :=
  match a, b with
  | VStr x, VStr y => String.eqb x y
  | VUndef, VUndef => true
  | VUndef, _ | _, VUndef => false
  | _, _ => num_eqb (Number_ a) (Number_ b)
  end.

(** *** [toFixed] *)

Definition pad_left (w : nat) (l : list ascii) : list ascii :=
  repeat "0"%char (w - length l) ++ l.

(** [n.toFixed(f)]; [None] stands for the RangeError raised when [f] is not
    between 0 and 100. *)
Definition toFixed (f : Z) (n : num) : option string :=
  if (f <? 0) || (100 <? f) then None
  else Some
    match n with
    | Fin q =>
        let scaled := Qfloor (Qabs q * inject_Z (10 ^ f) + (1 # 2)) in
        let ip := pretty (scaled / 10 ^ f) in
        let fp := pad_left (Z.to_nat f) (chars (pretty (scaled mod 10 ^ f))) in
        let sign := if Qlt_bool q 0 then "-"%string else ""%string in
        if f =? 0 then sign +:+ ip else sign +:+ ip +:+ "." +:+ str fp
    | _ => num_to_string n
    end.

End JS.

Import JS.

(** ** PinManager.js *)

Module PinManager.

(** One entry of the pin table.  The GPIO entries carry every field; the
    power rails are created with [number], [mode], [value] and [connected]
    only, so the remaining fields are optional. *)
Record Pin : Type := {
  number : jsval;
  mode : string;
  value : jsval;
  analogValue : option jsval;
  pwmValue : option jsval;
  isADC : option bool;
  isDAC : option bool;
  connected : option (string * string)
}.

Definition set_mode (m : string) (p : Pin) : Pin :=
  {| number := number p; mode := m; value := value p;
     analogValue := analogValue p; pwmValue := pwmValue p;
     isADC := isADC p; isDAC := isDAC p; connected := connected p |}.

Definition set_value (v : jsval) (p : Pin) : Pin :=
  {| number := number p; mode := mode p; value := v;
     analogValue := analogValue p; pwmValue := pwmValue p;
     isADC := isADC p; isDAC := isDAC p; connected := connected p |}.

Definition set_analogValue (v : jsval) (p : Pin) : Pin :=
  {| number := number p; mode := mode p; value := value p;
     analogValue := Some v; pwmValue := pwmValue p;
     isADC := isADC p; isDAC := isDAC p; connected := connected p |}.

Definition set_pwmValue (v : jsval) (p : Pin) : Pin :=
  {| number := number p; mode := mode p; value := value p;
     analogValue := analogValue p; pwmValue := Some v;
     isADC := isADC p; isDAC := isDAC p; connected := connected p |}.

Definition set_connected (c : option (string * string)) (p : Pin) : Pin :=
  {| number := number p; mode := mode p; value := value p;
     analogValue := analogValue p; pwmValue := pwmValue p;
     isADC := isADC p; isDAC := isDAC p; connected := c |}.

(** *** What [this.pins[pin]] finds

    The pin table is a plain object: a key that is not its own is looked up
    in [Object.prototype].  The names below are the own properties of
    [Object.prototype] in a browser (ECMA-262, 20.1.3 and B.2.2):
    [__proto__] is an accessor that yields [Object.prototype] itself, each
    of the others is a function.  All of them are objects, so the test
    [if (this.pins[pin])] succeeds for them and the operations write on
    them. *)
Definition inherited_names : list string :=
  ["constructor"; "__defineGetter__"; "__defineSetter__"; "hasOwnProperty";
   "__lookupGetter__"; "__lookupSetter__"; "isPrototypeOf";
   "propertyIsEnumerable"; "toString"; "valueOf"; "__proto__";
   "toLocaleString"].

Definition is_inherited (k : string) : bool :=
  existsb (String.eqb k) inherited_names.

(** The five properties the operations write, as own properties of an
    object that is not an entry of the pin table; [None] is an absent
    property.  [connected] holds [null] or an object of type [C]. *)
Record props (C : Type) : Type := {
  has_mode : option string;
  has_value : option jsval;
  has_analogValue : option jsval;
  has_pwmValue : option jsval;
  has_connected : option (option C)
}.

Arguments has_mode {C} _.
Arguments has_value {C} _.
Arguments has_analogValue {C} _.
Arguments has_pwmValue {C} _.
Arguments has_connected {C} _.

Definition no_props {C} : props C :=
  {| has_mode := None; has_value := None; has_analogValue := None;
     has_pwmValue := None; has_connected := None |}.

(** An object [{ componentId, pinName }] held by the property [connected]
    of an inherited object, with the properties written on it since: it is
    the object that [this.pins["connected"]] finds while
    [Object.prototype.connected] holds it. *)
Definition link : Type := (string * string) * props (string * string).

(** One assignment [target.field = value]. *)
Inductive assignment : Type :=
| SetMode (m : string)
| SetValue (v : jsval)
| SetAnalogValue (v : jsval)
| SetPwmValue (v : jsval)
| SetConnected (c : option (string * string)).

Definition field_name (a : assignment) : string :=
  match a with
  | SetMode _ => "mode"
  | SetValue _ => "value"
  | SetAnalogValue _ => "analogValue"
  | SetPwmValue _ => "pwmValue"
  | SetConnected _ => "connected"
  end.

Definition assign_pin (a : assignment) (p : Pin) : Pin :=
  match a with
  | SetMode m => set_mode m p
  | SetValue v => set_value v p
  | SetAnalogValue v => set_analogValue v p
  | SetPwmValue v => set_pwmValue v p
  | SetConnected c => set_connected c p
  end.

(** The assignment on an object that is not an entry; [fresh] makes the
    object a [connected] property is set to. *)
Definition assign_props {C} (fresh : string * string -> C) (a : assignment)
           (x : props C) : props C :=
  match a with
  | SetMode m =>
      {| has_mode := Some m; has_value := has_value x;
         has_analogValue := has_analogValue x; has_pwmValue := has_pwmValue x;
         has_connected := has_connected x |}
  | SetValue v =>
      {| has_mode := has_mode x; has_value := Some v;
         has_analogValue := has_analogValue x; has_pwmValue := has_pwmValue x;
         has_connected := has_connected x |}
  | SetAnalogValue v =>
      {| has_mode := has_mode x; has_value := has_value x;
         has_analogValue := Some v; has_pwmValue := has_pwmValue x;
         has_connected := has_connected x |}
  | SetPwmValue v =>
      {| has_mode := has_mode x; has_value := has_value x;
         has_analogValue := has_analogValue x; has_pwmValue := Some v;
         has_connected := has_connected x |}
  | SetConnected c =>
      {| has_mode := has_mode x; has_value := has_value x;
         has_analogValue := has_analogValue x; has_pwmValue := has_pwmValue x;
         has_connected := Some (fresh <$> c) |}
  end.

(** What [this.pins[pin]] evaluates to, [undefined] apart: an entry of the
    table; an object inherited from [Object.prototype], with the properties
    written on it; or the value of a property that an operation addressed
    to [__proto__] has written on [Object.prototype] itself, which is a
    string or a number, [null], or the object of a connection. *)
Inductive found : Type :=
| Entry (p : Pin)
| Inherited (k : string) (own : props link)
| Linked (c : link)
| Primitive (v : jsval)
| Null.

(** The manager: the pin table, the subscribed callbacks (by identifier),
    the record of every callback invocation [cb(pin, this.pins[pin])], an
    object being recorded with its own properties at the time of the call,
    and the properties the manager has written on the objects of
    [Object.prototype], under the names of [inherited_names]. *)
Record t : Type := {
  pins : gmap string Pin;
  listeners : list nat;
  calls : list (nat * jsval * option found);
  inherited : gmap string (props link)
}.

Definition with_pins (m : gmap string Pin) (pm : t) : t :=
  {| pins := m; listeners := listeners pm; calls := calls pm;
     inherited := inherited pm |}.

Definition with_inherited (m : gmap string (props link)) (pm : t) : t :=
  {| pins := pins pm; listeners := listeners pm; calls := calls pm;
     inherited := m |}.

(** The properties written on the inherited object of name [k]. *)
Definition written (pm : t) (k : string) : props link :=
  match inherited pm !! k with Some x => x | None => no_props end.

(** Those written on [Object.prototype], which every object inherits. *)
Definition proto (pm : t) : props link := written pm "__proto__".

(** [this.pins[k]]; [None] is [undefined]. *)
Definition lookup (pm : t) (k : string) : option found :=
  match pins pm !! k with
  | Some p => Some (Entry p)
  | None =>
      if is_inherited k then Some (Inherited k (written pm k))
      else if String.eqb k "mode"
      then (fun m => Primitive (VStr m)) <$> has_mode (proto pm)
      else if String.eqb k "value" then Primitive <$> has_value (proto pm)
      else if String.eqb k "analogValue"
      then Primitive <$> has_analogValue (proto pm)
      else if String.eqb k "pwmValue" then Primitive <$> has_pwmValue (proto pm)
      else if String.eqb k "connected"
      then (fun c => match c with Some l => Linked l | None => Null end)
             <$> has_connected (proto pm)
      else None
  end.

(** The test [if (this.pins[pin])]. *)
Definition present (f : option found) : bool :=
  match f with
  | Some (Entry _) | Some (Inherited _ _) | Some (Linked _) => true
  | Some (Primitive v) => truthy v
  | Some Null | None => false
  end.

(** The objects the operations can write on. *)
Definition writable (f : option found) : bool :=
  match f with
  | Some (Entry _) | Some (Inherited _ _) | Some (Linked _) => true
  | _ => false
  end.

Definition with_connected {C} (c : option (option C)) (x : props C) : props C :=
  {| has_mode := has_mode x; has_value := has_value x;
     has_analogValue := has_analogValue x; has_pwmValue := has_pwmValue x;
     has_connected := c |}.

(** [this.pins[k].field = value] on what the lookup finds.  On a string or
    a number the assignment throws a TypeError, the body of a class being
    strict code ([fault] below), and nothing is written. *)
Definition assign (k : string) (a : assignment) (pm : t) : t :=
  match lookup pm k with
  | Some (Entry p) => with_pins (<[k := assign_pin a p]> (pins pm)) pm
  | Some (Inherited _ own) =>
      with_inherited
        (<[k := assign_props (fun c => (c, no_props)) a own]> (inherited pm)) pm
  | Some (Linked (c, x)) =>
      with_inherited
        (<["__proto__"%string :=
             with_connected (Some (Some (c, assign_props (fun c => c) a x)))
                            (proto pm)]> (inherited pm))
        pm
  | _ => pm
  end.

(** [target.value], [target.analogValue]: an own property, or the one
    [Object.prototype] supplies. *)
Definition read_value (pm : t) (f : found) : option jsval :=
  match f with
  | Entry p => Some (value p)
  | Inherited _ own =>
      match has_value own with Some v => Some v | None => has_value (proto pm) end
  | Linked (_, x) =>
      match has_value x with Some v => Some v | None => has_value (proto pm) end
  | Primitive _ | Null => has_value (proto pm)
  end.

Definition read_analogValue (pm : t) (f : found) : option jsval :=
  match f with
  | Entry p =>
      match analogValue p with
      | Some v => Some v
      | None => has_analogValue (proto pm)
      end
  | Inherited _ own =>
      match has_analogValue own with
      | Some v => Some v
      | None => has_analogValue (proto pm)
      end
  | Linked (_, x) =>
      match has_analogValue x with
      | Some v => Some v
      | None => has_analogValue (proto pm)
      end
  | Primitive _ | Null => has_analogValue (proto pm)
  end.

Definition gpios : list Z :=
  [0; 1; 2; 3; 4; 5; 12; 13; 14; 15; 16; 17; 18; 19; 21; 22; 23; 25; 26; 27;
   32; 33; 34; 35; 36; 39].
Definition adcPins : list Z :=
  [32; 33; 34; 35; 36; 39; 25; 26; 27; 14; 12; 13; 4; 0; 2; 15].
Definition dacPins : list Z := [25; 26].

Definition gpio_entry (pin : Z) : Pin :=
  {| number := of_Z pin; mode := "INPUT"; value := zero;
     analogValue := Some zero; pwmValue := Some zero;
     isADC := Some (existsb (Z.eqb pin) adcPins);
     isDAC := Some (existsb (Z.eqb pin) dacPins);
     connected := None |}.

Definition rail_entry (name : string) (v : jsval) : Pin :=
  {| number := VStr name; mode := "POWER"; value := v;
     analogValue := None; pwmValue := None; isADC := None; isDAC := None;
     connected := None |}.

Definition initPins (pm : t) : t :=
  let table :=
    fold_left (fun m pin => <[String_ (of_Z pin) := gpio_entry pin]> m)
              gpios (pins pm) in
  let table := <["3V3" := rail_entry "3V3" one]> table in
  let table := <["GND" := rail_entry "GND" zero]> table in
  let table := <["VIN" := rail_entry "VIN" one]> table in
  with_pins table pm.

(** [new PinManager()], where nothing has been written on an object of
    [Object.prototype]. *)
Definition new : t :=
  initPins {| pins := ∅; listeners := []; calls := []; inherited := ∅ |}.

Definition notify (pin : jsval) (pm : t) : t :=
  {| pins := pins pm; listeners := listeners pm;
     calls := calls pm ++
              map (fun cb => (cb, pin, lookup pm (String_ pin))) (listeners pm);
     inherited := inherited pm |}.

(** Each operation gives the manager as the call leaves it, whether it
    returns or throws; [fault] tells when it throws. *)
Definition pinMode (pin : jsval) (m : string) (pm : t) : t :=
  let k := String_ pin in
  if writable (lookup pm k) then notify pin (assign k (SetMode m) pm) else pm.

Definition digitalWrite (pin : jsval) (v : jsval) (pm : t) : t :=
  let k := String_ pin in
  if writable (lookup pm k)
  then notify pin (assign k (SetValue (if truthy v then one else zero)) pm)
  else pm.

Definition digitalRead (pin : jsval) (pm : t) : jsval :=
  match lookup pm (String_ pin) with
  | Some f =>
      if present (Some f)
      then match read_value pm f with Some v => v | None => VUndef end
      else zero
  | None => zero
  end.

Definition analogRead (pin : jsval) (pm : t) : jsval :=
  match lookup pm (String_ pin) with
  | Some f =>
      if present (Some f) then or_zero (read_analogValue pm f) else zero
  | None => zero
  end.

Definition analogWrite (pin : jsval) (v : jsval) (pm : t) : t :=
  let k := String_ pin in
  if writable (lookup pm k) then
    let pm :=
      assign k (SetPwmValue
                  (VNum (Math_max (Fin 0) (Math_min (Fin 255) (Number_ v))))) pm in
    let pm :=
      assign k (SetValue (if num_ltb (Fin 0) (Number_ v) then one else zero)) pm in
    notify pin pm
  else pm.

Definition setAnalogValue (pin : jsval) (v : jsval) (pm : t) : t :=
  let k := String_ pin in
  if writable (lookup pm k)
  then assign k (SetAnalogValue
                   (VNum (Math_max (Fin 0) (Math_min (Fin 4095) (Number_ v))))) pm
  else pm.

Definition connectPin (pin : jsval) (componentId pinName : string) (pm : t) : t :=
  let k := String_ pin in
  if writable (lookup pm k)
  then assign k (SetConnected (Some (componentId, pinName))) pm
  else pm.

Definition disconnectPin (pin : jsval) (pm : t) : t :=
  let k := String_ pin in
  if writable (lookup pm k) then assign k (SetConnected None) pm else pm.

Definition onChange (callback : nat) (pm : t) : t :=
  {| pins := pins pm; listeners := listeners pm ++ [callback];
     calls := calls pm; inherited := inherited pm |}.

(** The keys in the order [Object.keys] lists them: the integer keys in
    ascending order, then the rails in insertion order. *)
Definition keys : list string :=
  map (fun pin => String_ (of_Z pin)) gpios ++ ["3V3"; "GND"; "VIN"].

Definition reset (pm : t) : t :=
  fold_left (fun pm pin => notify (VStr pin) pm) keys (initPins pm).

Definition getState (pm : t) : gmap string Pin := pins pm.

(** The operations a client can apply after construction. *)
Inductive op : Type :=
| OpPinMode (pin : jsval) (m : string)
| OpDigitalWrite (pin v : jsval)
| OpAnalogWrite (pin v : jsval)
| OpSetAnalogValue (pin v : jsval)
| OpConnectPin (pin : jsval) (componentId pinName : string)
| OpDisconnectPin (pin : jsval).

Definition apply_op (pm : t) (o : op) : t :=
  match o with
  | OpPinMode pin m => pinMode pin m pm
  | OpDigitalWrite pin v => digitalWrite pin v pm
  | OpAnalogWrite pin v => analogWrite pin v pm
  | OpSetAnalogValue pin v => setAnalogValue pin v pm
  | OpConnectPin pin c n => connectPin pin c n pm
  | OpDisconnectPin pin => disconnectPin pin pm
  end.

Definition run_ops (ops : list op) (pm : t) : t := fold_left apply_op ops pm.

Definition op_pin (o : op) : jsval :=
  match o with
  | OpPinMode pin _ | OpDigitalWrite pin _ | OpAnalogWrite pin _
  | OpSetAnalogValue pin _ | OpConnectPin pin _ _ | OpDisconnectPin pin => pin
  end.

(** The property an operation assigns first. *)
Definition first_field (o : op) : string :=
  match o with
  | OpPinMode _ _ => "mode"
  | OpDigitalWrite _ _ => "value"
  | OpAnalogWrite _ _ => "pwmValue"
  | OpSetAnalogValue _ _ => "analogValue"
  | OpConnectPin _ _ _ | OpDisconnectPin _ => "connected"
  end.

(** The TypeError of an operation: the test [if (this.pins[pin])] succeeds
    on a string or a number that is truthy, and the assignment of a property
    to it throws.  The result names the property and the value. *)
Definition fault (pm : t) (o : op) : option (string * jsval) :=
  match lookup pm (String_ (op_pin o)) with
  | Some (Primitive v) => if truthy v then Some (first_field o, v) else None
  | _ => None
  end.

(** What an operation makes of the entry it is addressed to. *)
Definition entry_after (o : op) (p : Pin) : Pin :=
  match o with
  | OpPinMode _ m => set_mode m p
  | OpDigitalWrite _ v => set_value (if truthy v then one else zero) p
  | OpAnalogWrite _ v =>
      set_value (if num_ltb (Fin 0) (Number_ v) then one else zero)
        (set_pwmValue
           (VNum (Math_max (Fin 0) (Math_min (Fin 255) (Number_ v)))) p)
  | OpSetAnalogValue _ v =>
      set_analogValue
        (VNum (Math_max (Fin 0) (Math_min (Fin 4095) (Number_ v)))) p
  | OpConnectPin _ c n => set_connected (Some (c, n)) p
  | OpDisconnectPin _ => set_connected None p
  end.

Definition rails : list string := ["3V3"; "GND"; "VIN"].

(** Mode and value of a pin, as a pair. *)
Definition mode_value (pm : t) (k : string) : option (string * jsval) :=
  (fun p => (mode p, value p)) <$> pins pm !! k.

(** The power rails are as [initPins] created them. *)
Definition rails_intact (pm : t) : Prop :=
  mode_value pm "3V3" = Some ("POWER"%string, one) /\
  mode_value pm "GND" = Some ("POWER"%string, zero) /\
  mode_value pm "VIN" = Some ("POWER"%string, one).

(** The operations that write neither [mode] nor [value], and the others
    when they are addressed to a pin that is not a power rail. *)
Definition spares_rails (o : op) : Prop :=
  match o with
  | OpSetAnalogValue _ _ | OpConnectPin _ _ _ | OpDisconnectPin _ => True
  | _ => String_ (op_pin o) ∉ rails
  end.

(** The clamp of a number [d] to the interval from [lo] to [hi].  NaN,
    which lies in no interval, is left as it is: the statements that use
    [clamp] say apart what holds of NaN. *)
Definition clamp (lo hi d : num) : num :=
  if num_leb d lo then lo else if num_leb hi d then hi else d.

End PinManager.

(** ** Regular expressions *)

Module Regex.

(** The fragment of the ECMAScript pattern syntax the sources use. *)
Inductive re : Type :=
| Eps
| Chr (p : ascii -> bool)
| Seq (a b : re)
| Alt (a b : re)
| Star (greedy : bool) (r : re)
| Group (i : nat) (r : re)
| Bol (multiline : bool)
| Eol (multiline : bool)
| WordB.

Definition is_line_end (c : ascii) : bool := (code c =? 10) || (code c =? 13).

(** [.] *)
Definition dot : re := Chr (fun c => negb (is_line_end c)).
(** [[\s\S]] *)
Definition anychar : re := Chr (fun _ => true).
Definition ch (c : ascii) : re := Chr (Ascii.eqb c).
Definition oneof (s : string) : re := Chr (fun c => existsb (Ascii.eqb c) (chars s)).
Definition noneof (s : string) : re :=
  Chr (fun c => negb (existsb (Ascii.eqb c) (chars s))).
Definition seq (l : list re) : re := fold_right Seq Eps l.
Definition alt (l : list re) : re :=
  match l with
  | [] => Chr (fun _ => false)
  | r :: l' => fold_left Alt l' r
  end.
Definition lit (s : string) : re := seq (map ch (chars s)).
Definition plus (greedy : bool) (r : re) : re := Seq r (Star greedy r).
Definition opt (r : re) : re := Alt r Eps.
(** [\s*], [\s+], [\w+], [\d+] *)
Definition sp : re := Star true (Chr is_space).
Definition sp1 : re := plus true (Chr is_space).
Definition word : re := plus true (Chr is_word).
Definition digits : re := plus true (Chr is_digit).
(** [(.+?)] and [(.+)] as group [i] *)
Definition lazy (i : nat) : re := Group i (plus false dot).
Definition greedy (i : nat) : re := Group i (plus true dot).

(** A position in the subject: the consumed characters, most recent first,
    the characters ahead, and the groups captured so far. *)
Record mstate : Type := {
  before : list ascii;
  ahead : list ascii;
  caps : list (nat * string)
}.

Definition advance (st : mstate) : option (ascii * mstate) :=
  match ahead st with
  | c :: l => Some (c, {| before := c :: before st; ahead := l; caps := caps st |})
  | [] => None
  end.

Definition at_word (o : option ascii) : bool :=
  match o with Some c => is_word c | None => false end.

Definition orelse {A} (x y : option A) : option A :=
  match x with Some _ => x | None => y end.

(** Backtracking matcher in continuation-passing style: [k] is what has to
    match after [r].  Alternatives are tried left to right, a greedy star
    tries one more iteration before the continuation and a lazy one the
    continuation first; an iteration that consumes nothing is rejected. *)
Fixpoint run (r : re) (st : mstate) (k : mstate -> option mstate)
  : option mstate :=
  match r with
  | Eps => k st
  | Chr p =>
      match advance st with
      | Some (c, st') => if p c then k st' else None
      | None => None
      end
  | Seq a b => run a st (fun st' => run b st' k)
  | Alt a b => orelse (run a st k) (run b st k)
  | Star g r1 =>
      (fix loop (n : nat) (st : mstate) {struct n} : option mstate :=
         match n with
         | O => k st
         | S n' =>
             let again :=
               run r1 st (fun st' =>
                 if (length (ahead st') <? length (ahead st))%nat
                 then loop n' st' else None) in
             if g then orelse again (k st) else orelse (k st) again
         end) (S (length (ahead st))) st
  | Group i r1 =>
      run r1 st (fun st' =>
        let n := (length (ahead st) - length (ahead st'))%nat in
        k {| before := before st'; ahead := ahead st';
             caps := (i, str (firstn n (ahead st))) :: caps st' |})
  | Bol m =>
      match before st with
      | [] => k st
      | c :: _ => if m && is_line_end c then k st else None
      end
  | Eol m =>
      match ahead st with
      | [] => k st
      | c :: _ => if m && is_line_end c then k st else None
      end
  | WordB =>
      if xorb (at_word (head (before st))) (at_word (head (ahead st)))
      then k st else None
  end.

(** The result of a successful match: [m.index], [m[0]] and the groups. *)
Record result : Type := {
  index : nat;
  whole : string;
  groups : list (nat * string)
}.

(** [m[i]], [None] standing for [undefined]. *)
Definition group (m : result) (i : nat) : option string :=
  snd <$> List.find (fun p => Nat.eqb (fst p) i) (groups m).

(** [m[i]] for a group that took part in the match. *)
Definition grp (m : result) (i : nat) : string :=
  match group m i with Some s => s | None => "" end.

Definition match_at (r : re) (bef l : list ascii) : option result :=
  match run r {| before := bef; ahead := l; caps := [] |} Some with
  | Some st =>
      Some {| index := length bef;
              whole := str (firstn (length l - length (ahead st)) l);
              groups := caps st |}
  | None => None
  end.

(** Leftmost match at or after the current position. *)
Fixpoint search (r : re) (bef l : list ascii) : option result :=
  match match_at r bef l with
  | Some m => Some m
  | None =>
      match l with
      | [] => None
      | c :: l' => search r (c :: bef) l'
      end
  end.

(** [s.match(r)] and [r.exec(s)] for a pattern without the [g] flag. *)
Definition exec (r : re) (s : string) : option result := search r [] (chars s).

(** [r.test(s)] *)
Definition test (r : re) (s : string) : bool :=
  match exec r s with Some _ => true | None => false end.

(** All matches of a pattern with the [g] flag, left to right, each search
    resuming where the previous match ended (one character further after an
    empty match). *)
Fixpoint scan (fuel : nat) (r : re) (bef l : list ascii) : list result :=
  match fuel with
  | O => []
  | S fuel' =>
      match search r bef l with
      | None => []
      | Some m =>
          let skipped := (index m - length bef)%nat in
          let len := String.length (whole m) in
          let stop := (skipped + len)%nat in
          let bef' := rev (firstn stop l) ++ bef in
          let l' := skipn stop l in
          match len, l' with
          | O, [] => [m]
          | O, c :: l'' => m :: scan fuel' r (c :: bef') l''
          | _, _ => m :: scan fuel' r bef' l'
          end
      end
  end.

Definition matches (r : re) (s : string) : list result :=
  scan (S (String.length s)) r [] (chars s).

(** The subject with each match replaced by the text paired with it. *)
Fixpoint splice (pos : nat) (l : list ascii) (ms : list (result * string))
  : list ascii :=
  match ms with
  | [] => l
  | (m, by_) :: ms' =>
      let gap := (index m - pos)%nat in
      let len := String.length (whole m) in
      firstn gap l ++ chars by_ ++
      splice (index m + len) (skipn (gap + len) l) ms'
  end.

(** [s.replace(r, f)] for a pattern with the [g] flag. *)
Definition replace_all (r : re) (f : result -> string) (s : string) : string :=
  str (splice 0 (chars s) (map (fun m => (m, f m)) (matches r s))).

(** [s.replace(r, f)] for a pattern without the [g] flag. *)
Definition replace_first (r : re) (f : result -> string) (s : string) : string :=
  match exec r s with
  | Some m => str (splice 0 (chars s) [(m, f m)])
  | None => s
  end.

(** [(s.match(r) || []).length] for a pattern with the [g] flag. *)
Definition count (r : re) (s : string) : nat := length (matches r s).

(** A pattern that cannot match without consuming a character. *)
Fixpoint consumes (r : re) : bool :=
  match r with
  | Chr _ => true
  | Seq a b => consumes a || consumes b
  | Alt a b => consumes a && consumes b
  | Group _ r1 => consumes r1
  | _ => false
  end.

(** The numbers of the groups of a pattern. *)
Fixpoint ids (r : re) : list nat :=
  match r with
  | Seq a b | Alt a b => ids a ++ ids b
  | Star _ r1 => ids r1
  | Group i r1 => i :: ids r1
  | _ => []
  end.

(** [st'] is a position the matcher can reach from [st] through [r]: not
    further from the end, strictly nearer if [r] consumes, and with new
    groups that belong to [r] and fit into what was ahead. *)
Definition reached (r : re) (st st' : mstate) : Prop :=
  (length (ahead st') <= length (ahead st))%nat /\
  (consumes r = true -> (length (ahead st') < length (ahead st))%nat) /\
  exists new,
    caps st' = new ++ caps st /\
    Forall (fun ig => In (fst ig) (ids r) /\
                      (String.length (snd ig) <= length (ahead st))%nat) new.

End Regex.

Import Regex.

(** ** ArduinoParser.js: the statement extractor *)

Module ArduinoParser.

(** A user-defined function: parameter names and tokenized body. *)
Record func : Type := {
  params : list string;
  body : list string
}.

(** The fields of the parser object ([pinManager] and [serialCallback] are
    references to the engine's pin manager and to [Engine.handleSerial]). *)
Record t : Type := {
  variables : gmap string jsval;
  functions : gmap string func;
  setupCode : list string;
  loopCode : list string;
  running : bool;
  startTime : Z;
  speed : num
}.

Definition new : t :=
  {| variables := ∅; functions := ∅; setupCode := []; loopCode := [];
     running := false; startTime := 0; speed := Fin 1 |}.

Definition with_variables (v : gmap string jsval) (p : t) : t :=
  {| variables := v; functions := functions p; setupCode := setupCode p;
     loopCode := loopCode p; running := running p; startTime := startTime p;
     speed := speed p |}.

Definition with_running (b : bool) (p : t) : t :=
  {| variables := variables p; functions := functions p;
     setupCode := setupCode p; loopCode := loopCode p; running := b;
     startTime := startTime p; speed := speed p |}.

Definition with_startTime (z : Z) (p : t) : t :=
  {| variables := variables p; functions := functions p;
     setupCode := setupCode p; loopCode := loopCode p; running := running p;
     startTime := z; speed := speed p |}.

Definition setSpeed (s : num) (p : t) : t :=
  {| variables := variables p; functions := functions p;
     setupCode := setupCode p; loopCode := loopCode p; running := running p;
     startTime := startTime p; speed := s |}.

(** *** The patterns of the source, in the order they appear *)

Definition types (l : list string) : re := alt (map lit l).

(** [/\/\/.*$/gm] *)
Definition re_line_comment : re := seq [lit "//"; Star true dot; Eol true].
(** [/\/\*[\s\S]*?\*\//g] *)
Definition re_block_comment : re := seq [lit "/*"; Star false anychar; lit "*/"].
(** [/void\s+setup\s*\(\s*\)\s*\{/] *)
Definition re_setup : re :=
  seq [lit "void"; sp1; lit "setup"; sp; ch "("; sp; ch ")"; sp; ch "{"].
(** [/void\s+loop\s*\(\s*\)\s*\{/] *)
Definition re_loop : re :=
  seq [lit "void"; sp1; lit "loop"; sp; ch "("; sp; ch ")"; sp; ch "{"].
(** The [g] pattern of custom functions: a return type among [void|int|float|double|bool|String|long|unsigned], [\s+(\w+)\s*\(], group 2 of any characters but a closing parenthesis, and [\)\s*\{]. *)
Definition re_func : re :=
  seq [types ["void"; "int"; "float"; "double"; "bool"; "String"; "long";
              "unsigned"];
       sp1; Group 1 word; sp; ch "("; Group 2 (Star true (noneof ")"));
       ch ")"; sp; ch "{"].
(** [/^(void|int|float|double|bool|String)\s+\w+\s*\(/] *)
Definition re_signature : re :=
  seq [Bol false;
       Group 1 (types ["void"; "int"; "float"; "double"; "bool"; "String"]);
       sp1; word; sp; ch "("].
(** [/#define\s+(\w+)\s+(.+)/] *)
Definition re_define : re :=
  seq [lit "#define"; sp1; Group 1 word; sp1; greedy 2].
Definition decl_types : re :=
  alt [lit "int"; lit "float"; lit "double"; lit "bool"; lit "long";
       seq [lit "unsigned"; sp1; lit "long"]; lit "byte"; lit "char";
       lit "String"].
(** [/^(?:const\s+)?(?:int|float|double|bool|long|unsigned\s+long|byte|char|String)\s+(\w+)\s*(?:=\s*(.+))?;/] *)
Definition re_var : re :=
  seq [Bol false; opt (seq [lit "const"; sp1]); decl_types; sp1; Group 1 word;
       sp; opt (seq [ch "="; sp; greedy 2]); ch ";"].
(** [/^(if|else if|else|for|while)\b/] *)
Definition re_control : re :=
  seq [Bol false;
       Group 1 (alt [lit "if"; lit "else if"; lit "else"; lit "for";
                     lit "while"]);
       WordB].
(** [/\{/g] and [/\}/g] *)
Definition re_open : re := ch "{".
Definition re_close : re := ch "}".
(** [/^-?\d+(\.\d+)?$/] *)
Definition re_number : re :=
  seq [Bol false; opt (ch "-"); digits; opt (Group 1 (seq [ch "."; digits]));
       Eol false].
(** [/^0x[0-9a-fA-F]+$/] *)
Definition re_hex : re :=
  seq [Bol false; lit "0x"; plus true (Chr is_hex); Eol false].

(** *** [extractBlock] *)

(** The scan of [extractBlock]: [i] is the current index, [depth] the brace
    depth and [start] the index after the opening brace ([-1] at first).
    The result is the pair of bounds handed to [substring]. *)
Fixpoint block_bounds (l : list ascii) (i : Z) (depth : Z) (start : Z)
  : option (Z * Z) :=
  match l with
  | [] => None
  | c :: l' =>
      if Ascii.eqb c "{" then
        block_bounds l' (i + 1) (depth + 1) (if depth =? 0 then i + 1 else start)
      else if Ascii.eqb c "}" then
        if depth - 1 =? 0 then Some (start, i)
        else block_bounds l' (i + 1) (depth - 1) start
      else block_bounds l' (i + 1) depth start
  end.

(** [s.substring(a, b)] for [a <= b]; a negative bound counts as [0]. *)
Definition substring (a b : Z) (s : string) : string :=
  let a := Z.to_nat (Z.max 0 a) in
  let b := Z.to_nat (Z.max 0 b) in
  str (firstn (b - a) (skipn a (chars s))).

Definition extractBlock (code : string) (startIdx : nat) : string :=
  match block_bounds (skipn startIdx (chars code)) (Z.of_nat startIdx) 0 (-1) with
  | Some (a, b) => trim (substring a b code)
  | None => ""
  end.

(** *** [tokenize] *)

Definition brace_balance (line : string) : Z :=
  Z.of_nat (Regex.count re_open line) - Z.of_nat (Regex.count re_close line).

(** The inner [while] of [tokenize]: lines are appended to the block until
    the brace count is no longer positive or the lines run out. *)
Fixpoint absorb (block : string) (braceCount : Z) (lines : list string)
  : string * list string :=
  match lines with
  | [] => (block, [])
  | l :: rest =>
      if 0 <? braceCount
      then absorb (block +:+ String newline (trim l))
                  (braceCount + brace_balance l) rest
      else (block, lines)
  end.

Fixpoint tokenize_lines (fuel : nat) (lines : list string) : list string :=
  match fuel with
  | O => []
  | S fuel' =>
      match lines with
      | [] => []
      | l :: rest =>
          let line := trim l in
          if String.eqb line "" || String.eqb line "{" || String.eqb line "}"
          then tokenize_lines fuel' rest
          else if Regex.test re_control line then
            if negb (includes line "{") then
              match rest with
              | next :: rest' =>
                  (line +:+ String newline (trim next))
                    :: tokenize_lines fuel' rest'
              | [] => [line]
              end
            else
              let '(block, rest') := absorb line (brace_balance line) rest in
              block :: tokenize_lines fuel' rest'
          else
            let line := if endsWith line ";" then trim (slice_0_m1 line)
                        else line in
            if String.eqb line "" then tokenize_lines fuel' rest
            else line :: tokenize_lines fuel' rest
      end
  end.

Definition lines_of (code : string) : list string := split code (String newline "").

Definition tokenize (code : string) : list string :=
  let lines := lines_of code in
  tokenize_lines (length lines) lines.

(** *** [splitArgs] *)

Fixpoint split_args (l : list ascii) (depth : Z) (current : list ascii)
  : list string :=
  match l with
  | [] =>
      let last := trim (str (rev current)) in
      if String.eqb last "" then [] else [last]
  | c :: l' =>
      if Ascii.eqb c "(" then split_args l' (depth + 1) (c :: current)
      else if Ascii.eqb c ")" then split_args l' (depth - 1) (c :: current)
      else if Ascii.eqb c "," && (depth =? 0)
      then trim (str (rev current)) :: split_args l' depth []
      else split_args l' depth (c :: current)
  end.

Definition splitArgs (argsStr : string) : list string :=
  split_args (chars argsStr) 0 [].

(** *** [parseValue] *)

Definition parseValue (vars : gmap string jsval) (s : string) : jsval :=
  let s := trim s in
  let s := if endsWith s ";" then trim (slice_0_m1 s) else s in
  if String.eqb s "true" || String.eqb s "HIGH" then one
  else if String.eqb s "false" || String.eqb s "LOW" then zero
  else if Regex.test re_number s then VNum (parseFloat s)
  else if Regex.test re_hex s then VNum (parseInt16 s)
  else if startsWith s (String dquote "") && endsWith s (String dquote "")
  then VStr (slice_1_m1 s)
  else match vars !! s with
       | Some v => v
       | None => zero
       end.

(** *** [extractGlobals] *)

Definition global_of_line (vars : gmap string jsval) (line : string)
  : gmap string jsval :=
  let trimmed := trim line in
  if Regex.test re_signature trimmed then vars
  else if startsWith trimmed "#" then
    match Regex.exec re_define trimmed with
    | Some m => <[grp m 1 := parseValue vars (trim (grp m 2))]> vars
    | None => vars
    end
  else
    match Regex.exec re_var trimmed with
    | Some m =>
        <[grp m 1 := match Regex.group m 2 with
                     | Some e => if String.eqb e "" then zero
                                 else parseValue vars (trim e)
                     | None => zero
                     end]> vars
    | None => vars
    end.

Definition extractGlobals (code : string) (vars : gmap string jsval)
  : gmap string jsval :=
  fold_left global_of_line (lines_of code) vars.

(** *** [parse] *)

(** The last whitespace-separated word: [p.trim().split(/\s+/).pop()]. *)
Definition last_word (p : string) : string :=
  str (rev (fst (span (fun c => negb (is_space c)) (rev (trim_chars (chars p)))))).

Definition param_names (ps : string) : list string :=
  filter (fun s => s ≠ ""%string) (map last_word (split ps ",")).

(** The index of the opening brace that ends a match. *)
Definition brace_index (m : result) : nat :=
  (index m + String.length (whole m) - 1)%nat.

Definition block_of (code : string) (r : re) : list string :=
  match Regex.exec r code with
  | Some m => tokenize (extractBlock code (brace_index m))
  | None => []
  end.

Definition add_function (code : string) (fs : gmap string func) (m : result)
  : gmap string func :=
  let name := grp m 1 in
  if String.eqb name "setup" || String.eqb name "loop" then fs
  else <[name := {| params := param_names (grp m 2);
                    body := tokenize (extractBlock code (brace_index m)) |}]> fs.

Definition strip_comments (code : string) : string :=
  Regex.replace_all re_block_comment (fun _ => ""%string)
    (Regex.replace_all re_line_comment (fun _ => ""%string) code).

Definition parse (code : string) (p : t) : t :=
  let code := strip_comments code in
  {| variables := extractGlobals code ∅;
     functions := fold_left (add_function code) (Regex.matches re_func code) ∅;
     setupCode := block_of code re_setup;
     loopCode := block_of code re_loop;
     running := running p; startTime := startTime p; speed := speed p |}.

End ArduinoParser.

(** ** Engine.js: the state of the engine and of its host *)

Module Engine.

(** A peripheral descriptor: its pins, its type tag and whether it has a
    [reset] hook. *)
Record peripheral : Type := {
  connectedPins : option (list jsval);
  type : string;
  has_reset : bool
}.

(** The fields of the engine object.  Callback lists hold subscriber
    identifiers; [serialCalls] and [statusCalls] record every invocation
    [listener(output, type, elapsed)] and [cb(status)], and
    [peripheralResets] every call of a peripheral's [reset] hook. *)
Record t : Type := {
  pinManager : PinManager.t;
  parser : ArduinoParser.t;
  running : bool;
  peripherals : list (string * peripheral);
  serialListeners : list nat;
  statusListeners : list nat;
  startTime : Z;
  speed : num;
  serialBuffer : string;
  serialCalls : list (nat * string * string * string);
  statusCalls : list (nat * string);
  peripheralResets : list string
}.

(** [new Engine()] *)
Definition new : t :=
  {| pinManager := PinManager.new; parser := ArduinoParser.new;
     running := false; peripherals := []; serialListeners := [];
     statusListeners := []; startTime := 0; speed := Fin 1;
     serialBuffer := ""; serialCalls := []; statusCalls := [];
     peripheralResets := [] |}.

Definition with_pinManager (x : PinManager.t) (e : t) : t :=
  {| pinManager := x; parser := parser e; running := running e;
     peripherals := peripherals e; serialListeners := serialListeners e;
     statusListeners := statusListeners e; startTime := startTime e;
     speed := speed e; serialBuffer := serialBuffer e;
     serialCalls := serialCalls e; statusCalls := statusCalls e;
     peripheralResets := peripheralResets e |}.

Definition with_parser (x : ArduinoParser.t) (e : t) : t :=
  {| pinManager := pinManager e; parser := x; running := running e;
     peripherals := peripherals e; serialListeners := serialListeners e;
     statusListeners := statusListeners e; startTime := startTime e;
     speed := speed e; serialBuffer := serialBuffer e;
     serialCalls := serialCalls e; statusCalls := statusCalls e;
     peripheralResets := peripheralResets e |}.

Definition with_running (x : bool) (e : t) : t :=
  {| pinManager := pinManager e; parser := parser e; running := x;
     peripherals := peripherals e; serialListeners := serialListeners e;
     statusListeners := statusListeners e; startTime := startTime e;
     speed := speed e; serialBuffer := serialBuffer e;
     serialCalls := serialCalls e; statusCalls := statusCalls e;
     peripheralResets := peripheralResets e |}.

Definition with_peripherals (x : list (string * peripheral)) (e : t) : t :=
  {| pinManager := pinManager e; parser := parser e; running := running e;
     peripherals := x; serialListeners := serialListeners e;
     statusListeners := statusListeners e; startTime := startTime e;
     speed := speed e; serialBuffer := serialBuffer e;
     serialCalls := serialCalls e; statusCalls := statusCalls e;
     peripheralResets := peripheralResets e |}.

Definition with_serialListeners (x : list nat) (e : t) : t :=
  {| pinManager := pinManager e; parser := parser e; running := running e;
     peripherals := peripherals e; serialListeners := x;
     statusListeners := statusListeners e; startTime := startTime e;
     speed := speed e; serialBuffer := serialBuffer e;
     serialCalls := serialCalls e; statusCalls := statusCalls e;
     peripheralResets := peripheralResets e |}.

Definition with_statusListeners (x : list nat) (e : t) : t :=
  {| pinManager := pinManager e; parser := parser e; running := running e;
     peripherals := peripherals e; serialListeners := serialListeners e;
     statusListeners := x; startTime := startTime e;
     speed := speed e; serialBuffer := serialBuffer e;
     serialCalls := serialCalls e; statusCalls := statusCalls e;
     peripheralResets := peripheralResets e |}.

Definition with_startTime (x : Z) (e : t) : t :=
  {| pinManager := pinManager e; parser := parser e; running := running e;
     peripherals := peripherals e; serialListeners := serialListeners e;
     statusListeners := statusListeners e; startTime := x;
     speed := speed e; serialBuffer := serialBuffer e;
     serialCalls := serialCalls e; statusCalls := statusCalls e;
     peripheralResets := peripheralResets e |}.

Definition with_speed (x : num) (e : t) : t :=
  {| pinManager := pinManager e; parser := parser e; running := running e;
     peripherals := peripherals e; serialListeners := serialListeners e;
     statusListeners := statusListeners e; startTime := startTime e;
     speed := x; serialBuffer := serialBuffer e;
     serialCalls := serialCalls e; statusCalls := statusCalls e;
     peripheralResets := peripheralResets e |}.

Definition with_serialBuffer (x : string) (e : t) : t :=
  {| pinManager := pinManager e; parser := parser e; running := running e;
     peripherals := peripherals e; serialListeners := serialListeners e;
     statusListeners := statusListeners e; startTime := startTime e;
     speed := speed e; serialBuffer := x;
     serialCalls := serialCalls e; statusCalls := statusCalls e;
     peripheralResets := peripheralResets e |}.

Definition with_serialCalls (x : list (nat * string * string * string)) (e : t) : t :=
  {| pinManager := pinManager e; parser := parser e; running := running e;
     peripherals := peripherals e; serialListeners := serialListeners e;
     statusListeners := statusListeners e; startTime := startTime e;
     speed := speed e; serialBuffer := serialBuffer e;
     serialCalls := x; statusCalls := statusCalls e;
     peripheralResets := peripheralResets e |}.

Definition with_statusCalls (x : list (nat * string)) (e : t) : t :=
  {| pinManager := pinManager e; parser := parser e; running := running e;
     peripherals := peripherals e; serialListeners := serialListeners e;
     statusListeners := statusListeners e; startTime := startTime e;
     speed := speed e; serialBuffer := serialBuffer e;
     serialCalls := serialCalls e; statusCalls := x;
     peripheralResets := peripheralResets e |}.

Definition with_peripheralResets (x : list string) (e : t) : t :=
  {| pinManager := pinManager e; parser := parser e; running := running e;
     peripherals := peripherals e; serialListeners := serialListeners e;
     statusListeners := statusListeners e; startTime := startTime e;
     speed := speed e; serialBuffer := serialBuffer e;
     serialCalls := serialCalls e; statusCalls := statusCalls e;
     peripheralResets := x |}.

(** What the user does while the sketch is suspended. *)
Inductive action : Type :=
| Stop
| SetSpeed (s : num)
| SetAnalogValue (pin v : jsval).

(** The engine inside its host: [now] is the value of [Date.now()], in
    milliseconds; [agenda] lists the user's actions with the time each one
    takes place; [draws] counts the calls of [Math.random] so far. *)
Record World : Type := {
  engine : t;
  now : Z;
  agenda : list (Z * action);
  draws : nat
}.

Definition with_engine (e : t) (w : World) : World :=
  {| engine := e; now := now w; agenda := agenda w; draws := draws w |}.

Definition boot (e : t) (t0 : Z) (ag : list (Z * action)) : World :=
  {| engine := e; now := t0; agenda := ag; draws := 0 |}.

End Engine.

Import Engine.

(** What the interpreter takes from the JavaScript host: the square root and
    the power function, the sequence of values [Math.random] returns, the
    evaluation of an arithmetic text by the [Function] constructor, with
    [None] when it throws, the compilation by [new RegExp] of a pattern text
    that is not a plain word, the message of the SyntaxError that
    [JSON.parse] raises on a text, and the message of the TypeError that the
    assignment of a property to a string or a number raises in strict code. *)
Class Host : Type := {
  Math_sqrt : num -> num;
  Math_pow : num -> num -> num;
  Math_random : nat -> Q;
  eval_arith : string -> option jsval;
  RegExp_ : string -> option re;
  SyntaxError_message : string -> string;
  TypeError_message : string -> jsval -> string
}.

(** ** The interpreter monad *)

(** A computation ends with a value, with a thrown exception (the message
    and the state at that point), or runs out of fuel. *)
Inductive outcome (A : Type) : Type :=
| Ok (a : A) (w : World)
| Throw (msg : string) (w : World)
| OutOfFuel.

Arguments Ok {A} a w.
Arguments Throw {A} msg w.
Arguments OutOfFuel {A}.

Definition M (A : Type) : Type := World -> outcome A.

Definition ret {A} (a : A) : M A := fun w => Ok a w.

Definition bind {A B} (m : M A) (k : A -> M B) : M B :=
  fun w =>
    match m w with
    | Ok a w' => k a w'
    | Throw msg w' => Throw msg w'
    | OutOfFuel => OutOfFuel
    end.

Definition throw {A} (msg : string) : M A := fun w => Throw msg w.
Definition timeout {A} : M A := fun _ => OutOfFuel.
(** A side effect on the world. *)
Definition effect (f : World -> World) : M unit := fun w => Ok tt (f w).
(** A read of the world. *)
Definition ask {A} (f : World -> A) : M A := fun w => Ok (f w) w.

Declare Scope interp_scope.
Delimit Scope interp_scope with interp.
Notation "'let*' x ':=' m 'in' k" := (bind m (fun x => k))
  (at level 10, x name, m at level 100, k at level 200) : interp_scope.
Notation "m ';;' k" := (bind m (fun _ => k))
  (at level 100, k at level 200, right associativity) : interp_scope.

Fixpoint mapM {A B} (f : A -> M B) (l : list A) : M (list B) :=
  match l with
  | [] => ret []
  | a :: l' => bind (f a) (fun b => bind (mapM f l') (fun bs => ret (b :: bs)))
  end.

(** [l.every(f)] and [l.some(f)], which stop at the first decisive element. *)
Fixpoint every {A} (f : A -> M bool) (l : list A) : M bool :=
  match l with
  | [] => ret true
  | a :: l' => bind (f a) (fun b => if b then every f l' else ret false)
  end.

Fixpoint some {A} (f : A -> M bool) (l : list A) : M bool :=
  match l with
  | [] => ret false
  | a :: l' => bind (f a) (fun b => if b then ret true else some f l')
  end.

(** ** Engine.js: serial output, status, stop *)

Definition toFixed3 (n : num) : string :=
  match toFixed 3 n with Some s => s | None => "" end.

Definition handleSerial (text type : string) (w : World) : World :=
  let e := engine w in
  if String.eqb type "print"
  then with_engine (with_serialBuffer (serialBuffer e +:+ text) e) w
  else
    let output := serialBuffer e +:+ text in
    let e := with_serialBuffer "" e in
    let elapsed :=
      toFixed3 (num_div (Fin (inject_Z (now w - Engine.startTime e))) (Fin 1000)) in
    with_engine
      (with_serialCalls
         (serialCalls e ++
          map (fun listener => (listener, output, type, elapsed))
              (serialListeners e)) e) w.

Definition onSerial (callback : nat) (w : World) : World :=
  with_engine
    (with_serialListeners (serialListeners (engine w) ++ [callback]) (engine w)) w.

Definition onStatus (callback : nat) (w : World) : World :=
  with_engine
    (with_statusListeners (statusListeners (engine w) ++ [callback]) (engine w)) w.

Definition notifyStatus (status : string) (w : World) : World :=
  let e := engine w in
  with_engine
    (with_statusCalls
       (statusCalls e ++ map (fun cb => (cb, status)) (statusListeners e)) e) w.

Definition stop (w : World) : World :=
  let e := engine w in
  let e := Engine.with_running false e in
  let e := with_parser (ArduinoParser.with_running false (parser e)) e in
  notifyStatus "stopped" (with_engine e w).

Definition setSpeed (s : num) (w : World) : World :=
  let e := with_speed s (engine w) in
  with_engine (with_parser (ArduinoParser.setSpeed s (parser e)) e) w.

Definition getElapsedTime (w : World) : num :=
  let e := engine w in
  if Engine.startTime e =? 0 then Fin 0
  else num_div (num_mul (Fin (inject_Z (now w - Engine.startTime e)))
                        (Engine.speed e)) (Fin 1000).

(** What an action of the user does to the engine. *)
Definition perform (a : action) (w : World) : World :=
  match a with
  | Stop => stop w
  | SetSpeed s => setSpeed s w
  | SetAnalogValue pin v =>
      with_engine
        (with_pinManager
           (PinManager.setAnalogValue pin v (pinManager (engine w))) (engine w)) w
  end.

(** The delay [setTimeout] waits for: the whole milliseconds of a finite
    duration, nothing for a duration that is not finite. *)
Definition timer_delay (d : num) : Z :=
  match d with Fin q => Z.max 0 (Qfloor q) | _ => 0 end.

(** [setTimeout(resume, d)] followed by the suspension of the caller: the
    actions of the user that fall before the wake-up time take place, then
    the caller resumes with the clock at that time. *)
Definition suspend (d : num) : M unit :=
  fun w =>
    let wake := now w + timer_delay d in
    let due := List.filter (fun ta => fst ta <=? wake) (agenda w) in
    let later := List.filter (fun ta => negb (fst ta <=? wake)) (agenda w) in
    let w' := fold_left (fun w ta => perform (snd ta) w) due w in
    Ok tt {| engine := engine w'; now := wake; agenda := later;
             draws := draws w' |}.

(** [ArduinoParser.sleep] *)
Definition sleep (ms : num) : M unit := suspend (Math_max (Fin 1) ms).

(** ** ArduinoParser.js: the evaluator *)

Module Pat.

(** A call [name ( a1 , ... , an )] with lazy arguments, anchored at the
    start only: [^name\s*\(\s*(.+?)\s*,\s* ... (.+?)\s*\)]. *)
Definition sep_args (n : nat) : list re :=
  flat_map (fun i => match i with
                     | 1%nat => [lazy 1]
                     | _ => [sp; ch ","; sp; lazy i]
                     end) (List.seq 1 n).

Definition call (name : re) (n : nat) : re :=
  Regex.seq ([Bol false; name; sp; ch "("; sp] ++ sep_args n ++ [sp; ch ")"]).

Definition re_digitalRead : re := call (lit "digitalRead") 1.
Definition re_analogRead : re := call (lit "analogRead") 1.
Definition re_map : re := call (lit "map") 5.
Definition re_constrain : re := call (lit "constrain") 3.
(** [^random\s*\(\s*], an optional [(.+?)\s*,\s*], then [(.+?)\s*\)] *)
Definition re_random : re :=
  Regex.seq [Bol false; lit "random"; sp; ch "("; sp;
             opt (Regex.seq [lazy 1; sp; ch ","; sp]); lazy 2; sp; ch ")"].
Definition re_abs : re := call (lit "abs") 1.
Definition re_sqrt : re := call (lit "sqrt") 1.
(** [/^(min|max)\s*\(\s*(.+?)\s*,\s*(.+?)\s*\)/] *)
Definition re_minmax : re :=
  Regex.seq [Bol false; Group 1 (Alt (lit "min") (lit "max")); sp; ch "("; sp;
             lazy 2; sp; ch ","; sp; lazy 3; sp; ch ")"].
Definition re_pow : re := call (lit "pow") 2.
Definition re_isnan : re := call (lit "isnan") 1.
(** [\bname\b] *)
Definition whole_word (name : string) : re := Regex.seq [WordB; lit name; WordB].
(** [/^[\d\s\+\-\*\/\%\.\(\)]+$/] *)
Definition re_arith : re :=
  Regex.seq [Bol false;
             plus true (Chr (fun c => is_digit c || is_space c ||
                                      existsb (Ascii.eqb c) (chars "+-*/%.()")));
             Eol false].

End Pat.

(** The form [evaluateExpr] recognizes in a trimmed text, the tests being
    made in the order of the source. *)
Inductive expr_form : Type :=
| EConst (v : jsval)
| ENumber (n : num)
| EString (s : string)
| EMillis
| EMicros
| EDigitalRead (a : string)
| EAnalogRead (a : string)
| EMap (a b c d e : string)
| EConstrain (a b c : string)
| ERandom (lo : option string) (hi : string)
| EAbs (a : string)
| ESqrt (a : string)
| EMinMax (is_min : bool) (a b : string)
| EPow (a b : string)
| EIsnan (a : string)
| EOther.

Definition quote1 : string := String dquote "".
Definition quote2 : string := String squote "".

Definition classify_expr (expr : string) : expr_form :=
  if String.eqb expr "HIGH" then EConst one
  else if String.eqb expr "LOW" then EConst zero
  else if String.eqb expr "true" then EConst one
  else if String.eqb expr "false" then EConst zero
  else if String.eqb expr "INPUT" then EConst (VStr "INPUT")
  else if String.eqb expr "OUTPUT" then EConst (VStr "OUTPUT")
  else if String.eqb expr "INPUT_PULLUP" then EConst (VStr "INPUT_PULLUP")
  else if Regex.test ArduinoParser.re_number expr then ENumber (parseFloat expr)
  else if Regex.test ArduinoParser.re_hex expr then ENumber (parseInt16 expr)
  else if (startsWith expr quote1 && endsWith expr quote1)
          || (startsWith expr quote2 && endsWith expr quote2)
  then EString (slice_1_m1 expr)
  else if String.eqb expr "millis()" then EMillis
  else if String.eqb expr "micros()" then EMicros
  else match Regex.exec Pat.re_digitalRead expr with
  | Some m => EDigitalRead (grp m 1)
  | None =>
  match Regex.exec Pat.re_analogRead expr with
  | Some m => EAnalogRead (grp m 1)
  | None =>
  match Regex.exec Pat.re_map expr with
  | Some m => EMap (grp m 1) (grp m 2) (grp m 3) (grp m 4) (grp m 5)
  | None =>
  match Regex.exec Pat.re_constrain expr with
  | Some m => EConstrain (grp m 1) (grp m 2) (grp m 3)
  | None =>
  match Regex.exec Pat.re_random expr with
  | Some m => ERandom (Regex.group m 1) (grp m 2)
  | None =>
  match Regex.exec Pat.re_abs expr with
  | Some m => EAbs (grp m 1)
  | None =>
  match Regex.exec Pat.re_sqrt expr with
  | Some m => ESqrt (grp m 1)
  | None =>
  match Regex.exec Pat.re_minmax expr with
  | Some m => EMinMax (String.eqb (grp m 1) "min") (grp m 2) (grp m 3)
  | None =>
  match Regex.exec Pat.re_pow expr with
  | Some m => EPow (grp m 1) (grp m 2)
  | None =>
  match Regex.exec Pat.re_isnan expr with
  | Some m => EIsnan (grp m 1)
  | None => EOther
  end end end end end end end end end end.

Section Evaluator.

Context {host : Host}.

Local Open Scope interp_scope.

(** Stable insertion of a name before the shorter ones. *)
Fixpoint insert_by_length (name : string) (l : list string) : list string :=
  match l with
  | [] => [name]
  | x :: l' =>
      if (String.length x <? String.length name)%nat then name :: l
      else x :: insert_by_length name l'
  end.

(** [Object.keys(allVars).sort((a, b) => b.length - a.length)]; names of
    equal length stay in the order of the key list of the map. *)
Definition sortedNames (allVars : gmap string jsval) : list string :=
  fold_left (fun acc name => insert_by_length name acc)
            (fst <$> map_to_list allVars) [].

(** [new RegExp("\\b" + name + "\\b", "g")] *)
Definition name_pattern (name : string) : option re :=
  if forallb is_word (chars name) then Some (Pat.whole_word name)
  else RegExp_ ("\b" +:+ name +:+ "\b").

(** The loop that replaces the names of numeric variables by their values;
    [None] when the construction of a pattern throws. *)
Fixpoint substitute (allVars : gmap string jsval) (names : list string)
         (evalExpr : string) : option string :=
  match names with
  | [] => Some evalExpr
  | name :: rest =>
      match allVars !! name with
      | Some (VNum n) =>
          match name_pattern name with
          | Some r =>
              substitute allVars rest
                (Regex.replace_all r (fun _ => num_to_string n) evalExpr)
          | None => None
          end
      | _ => substitute allVars rest evalExpr
      end
  end.

Definition replace_word (name value : string) (s : string) : string :=
  Regex.replace_all (Pat.whole_word name) (fun _ => value) s.

(** The [try] block at the end of [evaluateExpr], and the final [return 0]. *)
Definition arithmetic_fallback (expr : string)
           (variables localVars : gmap string jsval) : jsval :=
  let allVars := localVars ∪ variables in
  match substitute allVars (sortedNames allVars) expr with
  | None => zero
  | Some evalExpr =>
      let evalExpr := replace_word "LOW" "0" (replace_word "HIGH" "1" evalExpr) in
      let evalExpr := replace_word "false" "0" (replace_word "true" "1" evalExpr) in
      if Regex.test Pat.re_arith evalExpr then
        match eval_arith evalExpr with
        | Some v => v
        | None => zero
        end
      else zero
  end.

(** [Math.random()] *)
Definition random : M num :=
  fun w => Ok (Fin (Math_random (draws w)))
              {| engine := engine w; now := now w; agenda := agenda w;
                 draws := S (draws w) |}.

Definition elapsed_scaled (w : World) : num :=
  let p := parser (engine w) in
  num_mul (Fin (inject_Z (now w - ArduinoParser.startTime p)))
          (ArduinoParser.speed p).

Fixpoint evaluateExpr (fuel : nat) (expr : string)
         (localVars : gmap string jsval) {struct fuel} : M jsval :=
  match fuel with
  | O => timeout
  | S fuel' =>
      let eval e := evaluateExpr fuel' e localVars in
      let expr := trim expr in
      match classify_expr expr with
      | EConst v => ret v
      | ENumber n => ret (VNum n)
      | EString s => ret (VStr s)
      | EMillis => ask (fun w => VNum (Math_floor (elapsed_scaled w)))
      | EMicros =>
          ask (fun w => VNum (Math_floor (num_mul (elapsed_scaled w) (Fin 1000))))
      | EDigitalRead a =>
          let* pin := eval a in
          ask (fun w => PinManager.digitalRead pin (pinManager (engine w)))
      | EAnalogRead a =>
          let* pin := eval a in
          ask (fun w => PinManager.analogRead pin (pinManager (engine w)))
      | EMap a b c d e =>
          let* val := eval a in
          let* inMin := eval b in
          let* inMax := eval c in
          let* outMin := eval d in
          let* outMax := eval e in
          ret (VNum (Math_round (Number_
                 (js_add (js_div (js_mul (js_sub val inMin) (js_sub outMax outMin))
                                 (js_sub inMax inMin))
                         outMin))))
      | EConstrain a b c =>
          let* val := eval a in
          let* lo := eval b in
          let* hi := eval c in
          ret (VNum (Math_max (Number_ lo) (Math_min (Number_ hi) (Number_ val))))
      | ERandom lo hi =>
          let* min := match lo with
                      | Some a => if String.eqb a "" then ret zero else eval a
                      | None => ret zero
                      end in
          let* max := eval hi in
          let* r := random in
          ret (js_add (VNum (Math_floor (num_mul r (Number_ (js_sub max min))))) min)
      | EAbs a => let* v := eval a in ret (VNum (Math_abs (Number_ v)))
      | ESqrt a => let* v := eval a in ret (VNum (Math_sqrt (Number_ v)))
      | EMinMax is_min a b =>
          let* x := eval a in
          let* y := eval b in
          ret (VNum (if is_min then Math_min (Number_ x) (Number_ y)
                     else Math_max (Number_ x) (Number_ y)))
      | EPow a b =>
          let* x := eval a in
          let* y := eval b in
          ret (VNum (Math_pow (Number_ x) (Number_ y)))
      | EIsnan a =>
          let* v := eval a in
          ret (if is_nan (Number_ v) then one else zero)
      | EOther =>
          match localVars !! expr with
          | Some v => ret v
          | None =>
              ask (fun w =>
                let variables := ArduinoParser.variables (parser (engine w)) in
                match variables !! expr with
                | Some v => v
                | None => arithmetic_fallback expr variables localVars
                end)
          end
      end
  end.

(** The comparison operators, in the order [evaluateCondition] tries them. *)
Definition comparison_ops : list string := [">="; "<="; "!="; "=="; ">"; "<"].

Definition first_op (expr : string) : option (string * nat) :=
  List.find (fun _ => true)
    (omap (fun op => (fun idx => (op, idx)) <$> indexOf expr op) comparison_ops).

Definition compare_with (op : string) (left right : jsval) : bool :=
  if String.eqb op "==" then js_eq left right
  else if String.eqb op "!=" then negb (js_eq left right)
  else if String.eqb op ">" then js_lt right left
  else if String.eqb op "<" then js_lt left right
  else if String.eqb op ">=" then js_le right left
  else js_le left right.

Fixpoint evaluateCondition (fuel : nat) (expr : string)
         (localVars : gmap string jsval) {struct fuel} : M bool :=
  match fuel with
  | O => timeout
  | S fuel' =>
      let expr := trim expr in
      if includes expr "&&" then
        every (fun p => evaluateCondition fuel' (trim p) localVars)
              (split expr "&&")
      else if includes expr "||" then
        some (fun p => evaluateCondition fuel' (trim p) localVars)
             (split expr "||")
      else if startsWith expr "!" then
        let* b := evaluateCondition fuel' (trim (slice_1 expr)) localVars in
        ret (negb b)
      else
        match first_op expr with
        | Some (op, idx) =>
            let l := chars expr in
            let* left := evaluateExpr fuel (trim (str (firstn idx l))) localVars in
            let* right :=
              evaluateExpr fuel
                (trim (str (skipn (idx + String.length op) l))) localVars in
            ret (compare_with op left right)
        | None =>
            let* v := evaluateExpr fuel expr localVars in
            ret (truthy v)
        end
  end.


End Evaluator.

(** ** ArduinoParser.js: the executor *)

Module StmtPat.

(** [/^delay\s*\(\s*(.+)\s*\)/] *)
Definition re_delay : re :=
  Regex.seq [Bol false; lit "delay"; sp; ch "("; sp; greedy 1; sp; ch ")"].
(** [/^delayMicroseconds\s*\(\s*(.+)\s*\)/] *)
Definition re_delayMicroseconds : re :=
  Regex.seq [Bol false; lit "delayMicroseconds"; sp; ch "("; sp; greedy 1; sp;
             ch ")"].
(** [/^Serial\.begin\s*\(/] *)
Definition re_serial_begin : re :=
  Regex.seq [Bol false; lit "Serial.begin"; sp; ch "("].
(** [^Serial\.(print|println)\s*\(\s*], group 2 of any characters of the
    line, greedy, then [\s*\)] *)
Definition re_print : re :=
  Regex.seq [Bol false; lit "Serial."; Group 1 (Alt (lit "print") (lit "println"));
             sp; ch "("; sp; Group 2 (Star true dot); sp; ch ")"].
(** [^Serial\.printf\s*\(\s*], a quoted group 1 [(.+?)], [\s*], an optional
    comma followed by [\s*] and the greedy group 2 of the remaining
    characters, then [\s*\)] *)
Definition re_printf : re :=
  Regex.seq [Bol false; lit "Serial.printf"; sp; ch "("; sp; ch dquote; lazy 1;
             ch dquote; sp;
             opt (Regex.seq [ch ","; sp; Group 2 (Star true dot)]); sp; ch ")"].
(** [/%(?:\.(\d+))?([dfsuclx%])/g] *)
Definition re_format : re :=
  Regex.seq [ch "%"; opt (Regex.seq [ch "."; Group 1 digits]);
             Group 2 (oneof "dfsuclx%")].
(** [/\\n/g] and [/\\t/g] *)
Definition re_escaped_n : re := Regex.seq [ch backslash; ch "n"].
Definition re_escaped_t : re := Regex.seq [ch backslash; ch "t"].
Definition re_pinMode : re := Pat.call (lit "pinMode") 2.
Definition re_digitalWrite : re := Pat.call (lit "digitalWrite") 2.
Definition re_analogWrite : re := Pat.call (lit "analogWrite") 2.
Definition re_ledcWrite : re := Pat.call (lit "ledcWrite") 2.
(** [/^tone\s*\(\s*(.+?)\s*,\s*(.+?)(?:\s*,\s*(.+?))?\s*\)/] *)
Definition re_tone : re :=
  Regex.seq [Bol false; lit "tone"; sp; ch "("; sp; lazy 1; sp; ch ","; sp;
             lazy 2; opt (Regex.seq [sp; ch ","; sp; lazy 3]); sp; ch ")"].
Definition re_noTone : re := Pat.call (lit "noTone") 1.
(** [/^(?:(?:int|float|double|bool|long|unsigned\s+long|byte|char|String)\s+)?(\w+)\s*([\+\-\*\/]?=)\s*(.+)/] *)
Definition re_assign : re :=
  Regex.seq [Bol false; opt (Regex.seq [ArduinoParser.decl_types; sp1]);
             Group 1 word; sp;
             Group 2 (Regex.seq [opt (oneof "+-*/"); ch "="]); sp; greedy 3].
(** [/^(\w+)\s*(\+\+|--)$/] *)
Definition re_incdec : re :=
  Regex.seq [Bol false; Group 1 word; sp; Group 2 (Alt (lit "++") (lit "--"));
             Eol false].
(** [^(?:else\s+)?if\s*\(\s*(.+?)\s*\)\s*\{], the lazy group 2 of any
    characters, [\}], and the greedy group 3 of any characters *)
Definition re_if : re :=
  Regex.seq [Bol false; opt (Regex.seq [lit "else"; sp1]); lit "if"; sp; ch "(";
             sp; lazy 1; sp; ch ")"; sp; ch "{"; Group 2 (Star false anychar);
             ch "}"; Group 3 (Star true anychar)].
(** [^else\s*\{], the greedy group 1 of any characters, and [\}] *)
Definition re_else : re :=
  Regex.seq [Bol false; lit "else"; sp; ch "{"; Group 1 (Star true anychar);
             ch "}"].
(** [^for\s*\(\s*(.+?)\s*;\s*(.+?)\s*;\s*(.+?)\s*\)\s*\{], the greedy group
    4 of any characters, and [\}] *)
Definition re_for : re :=
  Regex.seq [Bol false; lit "for"; sp; ch "("; sp; lazy 1; sp; ch ";"; sp;
             lazy 2; sp; ch ";"; sp; lazy 3; sp; ch ")"; sp; ch "{";
             Group 4 (Star true anychar); ch "}"].
(** [^while\s*\(\s*(.+?)\s*\)\s*\{], the greedy group 2 of any characters,
    and [\}] *)
Definition re_while : re :=
  Regex.seq [Bol false; lit "while"; sp; ch "("; sp; lazy 1; sp; ch ")"; sp;
             ch "{"; Group 2 (Star true anychar); ch "}"].
(** [/^(\w+)\s*\(\s*(.*?)\s*\)/] *)
Definition re_call : re :=
  Regex.seq [Bol false; Group 1 word; sp; ch "("; sp; Group 2 (Star false dot);
             sp; ch ")"].
(** [/;$/] *)
Definition re_last_semicolon : re := Regex.seq [ch ";"; Eol false].

End StmtPat.

(** The form [executeStatement] recognizes in a statement, the tests being
    made in the order of the source. *)
Inductive stmt_form : Type :=
| SDelay (e : string)
| SDelayMicroseconds (e : string)
| SSerialBegin
| SPrint (println : bool) (arg : string)
| SPrintf (fmt : string) (args : option string)
| SPinMode (pin mode : string)
| SDigitalWrite (pin raw : string)
| SAnalogWrite (pin v : string)
| SLedcWrite (channel duty : string)
| STone (pin freq : string)
| SNoTone (pin : string)
| SAssign (name op expr : string)
| SIncDec (name op : string)
| SIfElse
| SFor (init cond step body : string)
| SWhile (cond body : string)
| SCall (name args : string)
| SNone.

Definition classify (stmt : string) : stmt_form :=
  match Regex.exec StmtPat.re_delay stmt with
  | Some m => SDelay (grp m 1)
  | None =>
  match Regex.exec StmtPat.re_delayMicroseconds stmt with
  | Some m => SDelayMicroseconds (grp m 1)
  | None =>
  if Regex.test StmtPat.re_serial_begin stmt then SSerialBegin else
  match Regex.exec StmtPat.re_print stmt with
  | Some m => SPrint (String.eqb (grp m 1) "println") (trim (grp m 2))
  | None =>
  match Regex.exec StmtPat.re_printf stmt with
  | Some m => SPrintf (grp m 1) (Regex.group m 2)
  | None =>
  match Regex.exec StmtPat.re_pinMode stmt with
  | Some m => SPinMode (grp m 1) (trim (grp m 2))
  | None =>
  match Regex.exec StmtPat.re_digitalWrite stmt with
  | Some m => SDigitalWrite (grp m 1) (trim (grp m 2))
  | None =>
  match Regex.exec StmtPat.re_analogWrite stmt with
  | Some m => SAnalogWrite (grp m 1) (grp m 2)
  | None =>
  match Regex.exec StmtPat.re_ledcWrite stmt with
  | Some m => SLedcWrite (grp m 1) (grp m 2)
  | None =>
  match Regex.exec StmtPat.re_tone stmt with
  | Some m => STone (grp m 1) (grp m 2)
  | None =>
  match Regex.exec StmtPat.re_noTone stmt with
  | Some m => SNoTone (grp m 1)
  | None =>
  match Regex.exec StmtPat.re_assign stmt with
  | Some m => SAssign (grp m 1) (grp m 2) (trim (grp m 3))
  | None =>
  match Regex.exec StmtPat.re_incdec stmt with
  | Some m => SIncDec (grp m 1) (grp m 2)
  | None =>
  if startsWith stmt "if" || startsWith stmt "else if" || startsWith stmt "else"
  then SIfElse else
  match Regex.exec StmtPat.re_for stmt with
  | Some m => SFor (grp m 1) (grp m 2) (grp m 3) (grp m 4)
  | None =>
  match Regex.exec StmtPat.re_while stmt with
  | Some m => SWhile (grp m 1) (grp m 2)
  | None =>
  match Regex.exec StmtPat.re_call stmt with
  | Some m => SCall (grp m 1) (grp m 2)
  | None => SNone
  end end end end end end end end end end end end end end end.

(** The two branches of [executeIfElse]. *)
Inductive if_form : Type :=
| IfThen (condition body rest : string)
| IfElse (body : string)
| IfNone.

Definition classify_if (stmt : string) : if_form :=
  match Regex.exec StmtPat.re_if stmt with
  | Some m => IfThen (grp m 1) (grp m 2) (trim (grp m 3))
  | None =>
      match Regex.exec StmtPat.re_else stmt with
      | Some m => IfElse (grp m 1)
      | None => IfNone
      end
  end.

(** The message of the RangeError [toFixed] raises. *)
Definition toFixed_error : string :=
  "toFixed() digits argument must be between 0 and 100".

(** One call of the replacement function of [Serial.printf]; [val] is
    [args[argIdx]], absent when the arguments ran out. *)
Definition format_spec (m : result) (val : option jsval) : option string :=
  let n := match val with Some v => Number_ v | None => NaN end in
  let type := grp m 2 in
  match Regex.group m 1 with
  | Some precision =>
      if String.eqb type "f" then toFixed (parseInt10 precision) n
      else if String.eqb type "d" || String.eqb type "u"
      then Some (num_to_string (Math_floor n))
      else Some (match val with Some v => String_ v | None => "undefined" end)
  | None =>
      if String.eqb type "d" || String.eqb type "u"
      then Some (num_to_string (Math_floor n))
      else Some (match val with Some v => String_ v | None => "undefined" end)
  end.

Fixpoint format_all (ms : list result) (args : list jsval) (argIdx : nat)
  : option (list (result * string)) :=
  match ms with
  | [] => Some []
  | m :: ms' =>
      if String.eqb (grp m 2) "%" then
        (fun rest => (m, "%"%string) :: rest) <$> format_all ms' args argIdx
      else
        match format_spec m (args !! argIdx) with
        | Some text =>
            (fun rest => (m, text) :: rest) <$> format_all ms' args (S argIdx)
        | None => None
        end
  end.

Definition unescape (s : string) : string :=
  Regex.replace_all StmtPat.re_escaped_t (fun _ => String tab "")
    (Regex.replace_all StmtPat.re_escaped_n (fun _ => String newline "") s).

(** The text [Serial.printf] sends; [None] when [toFixed] throws. *)
Definition printf_text (fmt : string) (args : list jsval) : option string :=
  match format_all (Regex.matches StmtPat.re_format fmt) args 0 with
  | Some reps => Some (unescape (str (Regex.splice 0 (chars fmt) reps)))
  | None => None
  end.

(** The right-hand side of an assignment, from the previous value of the
    target and the value of the expression. *)
Definition assigned (op : string) (old : option jsval) (v : jsval)
  : option jsval :=
  if String.eqb op "=" then Some v
  else if String.eqb op "+=" then Some (js_add (or_zero old) v)
  else if String.eqb op "-=" then Some (js_sub (or_zero old) v)
  else if String.eqb op "*=" then Some (js_mul (or_zero old) v)
  else if String.eqb op "/=" then Some (js_div (or_zero old) v)
  else None.

Definition set_variables (vars : gmap string jsval) (w : World) : World :=
  with_engine
    (with_parser (ArduinoParser.with_variables vars (parser (engine w)))
                 (engine w)) w.

(** [target[name] = f(target[name])] where [target] is [localVars] when the
    name is bound there and [this.variables] otherwise. *)
Definition store (name : string) (f : option jsval -> option jsval)
           (localVars : gmap string jsval) : M (gmap string jsval) :=
  match localVars !! name with
  | Some old =>
      ret (match f (Some old) with
           | Some v => <[name := v]> localVars
           | None => localVars
           end)
  | None =>
      fun w =>
        let vars := ArduinoParser.variables (parser (engine w)) in
        match f (vars !! name) with
        | Some v => Ok localVars (set_variables (<[name := v]> vars) w)
        | None => Ok localVars w
        end
  end.

(** The effect of a pin operation of the sketch on the world. *)
Definition with_pin_op (o : PinManager.op) (w : World) : World :=
  with_engine
    (with_pinManager (PinManager.apply_op (pinManager (engine w)) o) (engine w)) w.

Definition is_running (w : World) : bool :=
  ArduinoParser.running (parser (engine w)).

Section Executor.

Context {host : Host}.

Local Open Scope interp_scope.

(** A call of a method of the pin manager: it throws when the assignment
    does, and has its effect otherwise. *)
Definition on_pins (o : PinManager.op) : M unit :=
  fun w =>
    match PinManager.fault (pinManager (engine w)) o with
    | Some (field, v) => Throw (TypeError_message field v) w
    | None => Ok tt (with_pin_op o w)
    end.

(** [params.forEach((p, i) => funcLocals[p] = args[i] ? eval(args[i]) : 0)] *)
Fixpoint bind_params (fuel : nat) (ps : list string) (args : list string)
         (i : nat) (localVars funcLocals : gmap string jsval)
  : M (gmap string jsval) :=
  match ps with
  | [] => ret funcLocals
  | p :: ps' =>
      let* v := match args !! i with
                | Some a => if String.eqb a "" then ret zero
                            else evaluateExpr fuel a localVars
                | None => ret zero
                end in
      bind_params fuel ps' args (S i) localVars (<[p := v]> funcLocals)
  end.

(** [execute], [executeStatement] and [executeIfElse], with the two loops
    of [executeStatement] as functions of their own.  Each of them returns
    the local table, which the source updates in place. *)
Fixpoint execute (fuel : nat) (statements : list string)
         (localVars : gmap string jsval) {struct fuel}
  : M (gmap string jsval) :=
  match fuel with
  | O => timeout
  | S fuel' =>
      match statements with
      | [] => ret localVars
      | stmt :: rest =>
          fun w =>
            if negb (is_running w) then Ok localVars w
            else (let* localVars := executeStatement fuel' stmt localVars in
                  execute fuel' rest localVars) w
      end
  end

with executeStatement (fuel : nat) (stmt : string)
       (localVars : gmap string jsval) {struct fuel}
  : M (gmap string jsval) :=
  match fuel with
  | O => timeout
  | S fuel' =>
      fun w =>
      if negb (is_running w) then Ok localVars w else
      (match classify stmt with
       | SDelay e =>
           let* ms := evaluateExpr fuel e localVars in
           let* speed := ask (fun w => ArduinoParser.speed (parser (engine w))) in
           sleep (num_div (Number_ ms) speed);;
           ret localVars
       | SDelayMicroseconds e =>
           let* us := evaluateExpr fuel e localVars in
           let* speed := ask (fun w => ArduinoParser.speed (parser (engine w))) in
           sleep (Math_max (Fin 1)
                    (num_div (num_div (Number_ us) (Fin 1000)) speed));;
           ret localVars
       | SSerialBegin =>
           effect (handleSerial "[System] Serial initialized" "system");;
           ret localVars
       | SPrint println arg =>
           let* output :=
             if String.eqb arg "" then ret ""%string
             else if startsWith arg quote1 && endsWith arg quote1
             then ret (slice_1_m1 arg)
             else if startsWith arg quote2 && endsWith arg quote2
             then ret (slice_1_m1 arg)
             else let* val := evaluateExpr fuel arg localVars in
                  ret (String_ val) in
           effect (handleSerial (unescape output)
                                (if println then "println" else "print"));;
           ret localVars
       | SPrintf fmt argstr =>
           let* args :=
             match argstr with
             | Some a =>
                 if String.eqb a "" then ret []
                 else mapM (fun a => evaluateExpr fuel a localVars)
                           (ArduinoParser.splitArgs a)
             | None => ret []
             end in
           match printf_text fmt args with
           | Some text => effect (handleSerial text "printf");; ret localVars
           | None => throw toFixed_error
           end
       | SPinMode pin mode =>
           let* pin := evaluateExpr fuel pin localVars in
           on_pins (PinManager.OpPinMode pin mode);;
           ret localVars
       | SDigitalWrite pin raw =>
           let* pin := evaluateExpr fuel pin localVars in
           let* value :=
             if String.eqb raw "HIGH" then ret one
             else if String.eqb raw "LOW" then ret zero
             else evaluateExpr fuel raw localVars in
           on_pins (PinManager.OpDigitalWrite pin value);;
           ret localVars
       | SAnalogWrite pin v =>
           let* pin := evaluateExpr fuel pin localVars in
           let* value := evaluateExpr fuel v localVars in
           on_pins (PinManager.OpAnalogWrite pin value);;
           ret localVars
       | SLedcWrite channel duty =>
           let* channel := evaluateExpr fuel channel localVars in
           let* duty := evaluateExpr fuel duty localVars in
           on_pins (PinManager.OpAnalogWrite channel duty);;
           ret localVars
       | STone pin freq =>
           let* pin := evaluateExpr fuel pin localVars in
           let* freq := evaluateExpr fuel freq localVars in
           on_pins (PinManager.OpAnalogWrite pin (of_Z 128));;
           ret localVars
       | SNoTone pin =>
           let* pin := evaluateExpr fuel pin localVars in
           on_pins (PinManager.OpAnalogWrite pin zero);;
           ret localVars
       | SAssign name op expr =>
           let* value := evaluateExpr fuel expr localVars in
           store name (fun old => assigned op old value) localVars
       | SIncDec name op =>
           store name
                 (fun old => Some (if String.eqb op "++"
                                   then js_add (or_zero old) one
                                   else js_sub (or_zero old) one))
                 localVars
       | SIfElse => executeIfElse fuel' stmt localVars
       | SFor init cond step body =>
           let* localVars :=
             executeStatement fuel'
               (Regex.replace_first StmtPat.re_last_semicolon (fun _ => ""%string)
                                    init)
               localVars in
           for_loop fuel' cond step body localVars
       | SWhile cond body => while_loop fuel' cond body 0 localVars
       | SCall name args =>
           let* fs := ask (fun w => ArduinoParser.functions (parser (engine w))) in
           match fs !! name with
           | Some func =>
               let args := if String.eqb args "" then []
                           else ArduinoParser.splitArgs args in
               let* funcLocals :=
                 bind_params fuel (ArduinoParser.params func) args 0 localVars ∅ in
               execute fuel' (ArduinoParser.body func) (funcLocals ∪ localVars);;
               ret localVars
           | None => ret localVars
           end
       | SNone => ret localVars
       end) w
  end

with for_loop (fuel : nat) (cond step body : string)
       (localVars : gmap string jsval) {struct fuel}
  : M (gmap string jsval) :=
  match fuel with
  | O => timeout
  | S fuel' =>
      fun w =>
        if negb (is_running w) then Ok localVars w
        else (let* holds := evaluateCondition fuel cond localVars in
              if holds then
                let* localVars :=
                  execute fuel' (ArduinoParser.tokenize body) localVars in
                let* localVars := executeStatement fuel' step localVars in
                sleep (Fin 1);;
                for_loop fuel' cond step body localVars
              else ret localVars) w
  end

with while_loop (fuel : nat) (cond body : string) (iterations : Z)
       (localVars : gmap string jsval) {struct fuel}
  : M (gmap string jsval) :=
  match fuel with
  | O => timeout
  | S fuel' =>
      fun w =>
        if negb (is_running w) then Ok localVars w
        else (let* holds := evaluateCondition fuel cond localVars in
              if holds then
                let* localVars :=
                  execute fuel' (ArduinoParser.tokenize body) localVars in
                (if (iterations + 1) mod 100 =? 0 then sleep (Fin 1) else ret tt);;
                while_loop fuel' cond body (iterations + 1) localVars
              else ret localVars) w
  end

with executeIfElse (fuel : nat) (stmt : string)
       (localVars : gmap string jsval) {struct fuel}
  : M (gmap string jsval) :=
  match fuel with
  | O => timeout
  | S fuel' =>
      match classify_if stmt with
      | IfThen condition body rest =>
          let* holds := evaluateCondition fuel condition localVars in
          if holds then execute fuel' (ArduinoParser.tokenize body) localVars
          else if startsWith rest "else if" || startsWith rest "else"
          then executeIfElse fuel' rest localVars
          else ret localVars
      | IfElse body => execute fuel' (ArduinoParser.tokenize body) localVars
      | IfNone => ret localVars
      end
  end.

(** ** Engine.js: the run loop *)

(** The [while (this.running)] loop of [start]. *)
Fixpoint run_loop (fuel : nat) : M unit :=
  match fuel with
  | O => timeout
  | S fuel' =>
      fun w =>
        if negb (Engine.running (engine w)) then Ok tt w
        else (let* loopCode :=
                ask (fun w => ArduinoParser.loopCode (parser (engine w))) in
              execute fuel loopCode ∅;;
              suspend (Fin 1);;
              run_loop fuel') w
  end.

(** The body of the [try] block of [start]. *)
Definition run_sketch (fuel : nat) (code : string) : M unit :=
  effect (fun w => with_engine
                     (with_parser (ArduinoParser.parse code (parser (engine w)))
                                  (engine w)) w);;
  (let* setupCode := ask (fun w => ArduinoParser.setupCode (parser (engine w))) in
   execute fuel setupCode ∅);;
  run_loop fuel.

(** What [start] does before the [try] block. *)
Definition launch (w : World) : World :=
  let e := engine w in
  let e := Engine.with_running true e in
  let e := with_parser (ArduinoParser.with_running true (parser e)) e in
  let e := Engine.with_startTime (now w) e in
  let e := with_parser (ArduinoParser.with_startTime (Engine.startTime e) (parser e)) e in
  let e := with_parser (ArduinoParser.setSpeed (Engine.speed e) (parser e)) e in
  notifyStatus "running" (with_engine e w).

(** What [start] does after the [try] statement. *)
Definition finish (w : World) : World :=
  if negb (Engine.running (engine w)) then notifyStatus "stopped" w else w.

Definition start (fuel : nat) (code : string) : M unit :=
  fun w =>
    if Engine.running (engine w) then Ok tt w
    else
      match run_sketch fuel code (launch w) with
      | Ok _ w' => Ok tt (finish w')
      | Throw msg w' =>
          Ok tt (finish (notifyStatus "error"
                           (handleSerial ("[Error] " +:+ msg) "error" w')))
      | OutOfFuel => OutOfFuel
      end.

Definition call_reset (resets : list string) (ip : string * peripheral)
  : list string :=
  if has_reset (snd ip) then resets ++ [fst ip] else resets.

Definition reset (w : World) : World :=
  let w := stop w in
  let e := engine w in
  let e := with_pinManager (PinManager.reset (pinManager e)) e in
  let e := with_parser (ArduinoParser.with_variables ∅ (parser e)) e in
  let e := with_serialBuffer "" e in
  let w := notifyStatus "idle" (with_engine e w) in
  let e := engine w in
  with_engine
    (with_peripheralResets
       (fold_left call_reset (peripherals e) (peripheralResets e)) e) w.

(** [Map.prototype.set]: an existing key keeps its place. *)
Fixpoint map_set {A} (id : string) (x : A) (l : list (string * A))
  : list (string * A) :=
  match l with
  | [] => [(id, x)]
  | (k, y) :: l' => if String.eqb k id then (k, x) :: l'
                    else (k, y) :: map_set id x l'
  end.

Definition map_get {A} (id : string) (l : list (string * A)) : option A :=
  snd <$> List.find (fun ky => String.eqb (fst ky) id) l.

Definition map_delete {A} (id : string) (l : list (string * A))
  : list (string * A) :=
  List.filter (fun ky => negb (String.eqb (fst ky) id)) l.

(** The loop [for (const pin of pins)] that calls one method of the pin
    manager for each pin.  It ends at the first call that throws; the flag
    tells whether it ran to its end. *)
Fixpoint each_pin (o : jsval -> PinManager.op) (pins : list jsval)
         (pm : PinManager.t) : PinManager.t * bool :=
  match pins with
  | [] => (pm, true)
  | pin :: rest =>
      match PinManager.fault pm (o pin) with
      | Some _ => (pm, false)
      | None => each_pin o rest (PinManager.apply_op pm (o pin))
      end
  end.

(** [registerPeripheral] and [removePeripheral] are called by the user
    interface; they give the engine as the call leaves it, also when a
    method of the pin manager throws. *)
Definition registerPeripheral (id : string) (p : peripheral) (w : World) : World :=
  let e := with_peripherals (map_set id p (peripherals (engine w))) (engine w) in
  let pm :=
    match connectedPins p with
    | Some pins =>
        fst (each_pin (fun pin => PinManager.OpConnectPin pin id (type p))
                      pins (pinManager e))
    | None => pinManager e
    end in
  with_engine (with_pinManager pm e) w.

Definition removePeripheral (id : string) (w : World) : World :=
  let e := engine w in
  let '(pm, done) :=
    match map_get id (peripherals e) with
    | Some p =>
        match connectedPins p with
        | Some pins => each_pin PinManager.OpDisconnectPin pins (pinManager e)
        | None => (pinManager e, true)
        end
    | None => (pinManager e, true)
    end in
  with_engine
    (with_peripherals
       (if done then map_delete id (peripherals e) else peripherals e)
       (with_pinManager pm e)) w.

End Executor.

(** ** The host's JSON object *)

Module Json.

(** The values [JSON.stringify] prints and [JSON.parse] builds.  An object
    is the list of its properties in enumeration order. *)
#[local] Unset Elimination Schemes.

Inductive t : Type :=
| Null
| Bool (b : bool)
| Number (n : num)
| Str (s : string)
| Array (l : list t)
| Object (fields : list (string * t)).

#[local] Set Elimination Schemes.

(** *** [JSON.stringify(value, null, 2)] *)

Definition hex_char (d : Z) : ascii :=
  if d <? 10 then digit_char d else ascii_of_nat (Z.to_nat (87 + d)).

(** The escape of one character inside a string literal. *)
Definition escape_char (c : ascii) : list ascii :=
  if Ascii.eqb c dquote then [backslash; dquote]
  else if Ascii.eqb c backslash then [backslash; backslash]
  else if code c =? 8 then [backslash; "b"%char]
  else if code c =? 9 then [backslash; "t"%char]
  else if code c =? 10 then [backslash; "n"%char]
  else if code c =? 12 then [backslash; "f"%char]
  else if code c =? 13 then [backslash; "r"%char]
  else if code c <? 32
  then [backslash; "u"%char; "0"%char; "0"%char;
        hex_char (code c / 16); hex_char (code c mod 16)]
  else [c].

Definition quote (s : string) : list ascii :=
  dquote :: flat_map escape_char (chars s) ++ [dquote].

Definition is_finite (n : num) : bool :=
  match n with Fin _ => true | _ => false end.

Definition number_text (n : num) : list ascii :=
  if is_finite n then chars (num_to_string n) else chars "null".

Definition gap : list ascii := chars "  ".

(** The text of a value whose own line is indented by [ind]. *)
Fixpoint text (ind : list ascii) (v : t) : list ascii :=
  match v with
  | Null => chars "null"
  | Bool b => chars (if b then "true" else "false")
  | Number n => number_text n
  | Str s => quote s
  | Array [] => chars "[]"
  | Array (x :: l) =>
      let ind' := ind ++ gap in
      "["%char :: newline :: ind' ++ text ind' x ++
      flat_map (fun y => ","%char :: newline :: ind' ++ text ind' y) l ++
      newline :: ind ++ ["]"%char]
  | Object [] => chars "{}"
  | Object ((k, x) :: l) =>
      let ind' := ind ++ gap in
      "{"%char :: newline :: ind' ++ quote k ++ chars ": " ++ text ind' x ++
      flat_map (fun ky => let '(k, y) := ky in
                          ","%char :: newline :: ind' ++ quote k ++ chars ": " ++
                          text ind' y) l ++
      newline :: ind ++ ["}"%char]
  end.

Definition stringify (v : t) : string := str (text [] v).

(** *** [JSON.parse] *)

Definition is_ws (c : ascii) : bool :=
  (code c =? 32) || (code c =? 9) || (code c =? 10) || (code c =? 13).

Fixpoint skip_ws (l : list ascii) : list ascii :=
  match l with
  | c :: l' => if is_ws c then skip_ws l' else l
  | [] => []
  end.

Definition hex4 (a b c d : ascii) : option Z :=
  if is_hex a && is_hex b && is_hex c && is_hex d
  then Some (digits_value 16 0 [a; b; c; d]) else None.

(** The characters of a string literal after its opening quote, up to the
    closing quote.  Escapes beyond one byte are outside the model. *)
Fixpoint parse_chars (l : list ascii) (acc : list ascii)
  : option (string * list ascii) :=
  match l with
  | [] => None
  | c :: l' =>
      if Ascii.eqb c dquote then Some (str (rev acc), l')
      else if Ascii.eqb c backslash then
        match l' with
        | e :: l'' =>
            if Ascii.eqb e dquote then parse_chars l'' (dquote :: acc)
            else if Ascii.eqb e backslash then parse_chars l'' (backslash :: acc)
            else if Ascii.eqb e "/" then parse_chars l'' ("/"%char :: acc)
            else if Ascii.eqb e "b" then parse_chars l'' ("008"%char :: acc)
            else if Ascii.eqb e "f" then parse_chars l'' ("012"%char :: acc)
            else if Ascii.eqb e "n" then parse_chars l'' ("010"%char :: acc)
            else if Ascii.eqb e "r" then parse_chars l'' ("013"%char :: acc)
            else if Ascii.eqb e "t" then parse_chars l'' ("009"%char :: acc)
            else if Ascii.eqb e "u" then
              match l'' with
              | a :: b :: x :: y :: l3 =>
                  match hex4 a b x y with
                  | Some n => if n <? 256
                              then parse_chars l3 (ascii_of_nat (Z.to_nat n) :: acc)
                              else None
                  | None => None
                  end
              | _ => None
              end
            else None
        | [] => None
        end
      else if code c <? 32 then None
      else parse_chars l' (c :: acc)
  end.

Definition is_number_char (c : ascii) : bool :=
  is_digit c || existsb (Ascii.eqb c) (chars "+-.eE").

(** The number grammar: an optional minus sign, [0] or a digit from 1 to 9
    followed by digits, an optional fraction [\.\d+] and an optional exponent
    [[eE][+-]?\d+]. *)
Definition re_json_number : re :=
  Regex.seq [Bol false; opt (ch "-");
             Alt (ch "0") (Regex.seq [Chr (fun c => (49 <=? code c) && (code c <=? 57));
                                      Star true (Chr is_digit)]);
             opt (Regex.seq [ch "."; digits]);
             opt (Regex.seq [oneof "eE"; opt (oneof "+-"); digits]);
             Eol false].

Definition parse_number (l : list ascii) : option (t * list ascii) :=
  let '(tok, rest) := span is_number_char l in
  if Regex.test re_json_number (str tok)
  then Some (Number (string_to_num (str tok)), rest)
  else None.

Definition is_index (k : string) : bool :=
  let l := chars k in
  match l with
  | [] => false
  | c :: r =>
      forallb is_digit l
      && (match r with [] => true | _ => negb (Ascii.eqb c "0") end)
      && (digits_value 10 0 l <? 2 ^ 32 - 1)
  end.

Definition index_value (k : string) : Z := digits_value 10 0 (chars k).

(** [obj[k] = v]: an existing property keeps its place. *)
Fixpoint set_property (k : string) (v : t) (fs : list (string * t))
  : list (string * t) :=
  match fs with
  | [] => [(k, v)]
  | (k', v') :: fs' =>
      if String.eqb k' k then (k', v) :: fs'
      else (k', v') :: set_property k v fs'
  end.

Fixpoint insert_index (kv : string * t) (fs : list (string * t))
  : list (string * t) :=
  match fs with
  | [] => [kv]
  | kv' :: fs' =>
      if index_value (fst kv) <? index_value (fst kv') then kv :: fs
      else kv' :: insert_index kv fs'
  end.

(** The enumeration order of the properties of an object built from the
    members in the order of the text: array indices first, in ascending
    order, then the other keys in the order they were first set. *)
Definition enumerate (members : list (string * t)) : list (string * t) :=
  let fs := fold_left (fun fs kv => set_property (fst kv) (snd kv) fs) members [] in
  fold_right insert_index [] (List.filter (fun kv => is_index (fst kv)) fs)
  ++ List.filter (fun kv => negb (is_index (fst kv))) fs.

Fixpoint parse_value (fuel : nat) (l : list ascii) {struct fuel}
  : option (t * list ascii) :=
  match fuel with
  | O => None
  | S fuel' =>
      match skip_ws l with
      | [] => None
      | c :: r =>
          if Ascii.eqb c dquote then
            match parse_chars r [] with
            | Some (s, r') => Some (Str s, r')
            | None => None
            end
          else if Ascii.eqb c "[" then
            match skip_ws r with
            | c' :: r' =>
                if Ascii.eqb c' "]" then Some (Array [], r')
                else parse_elements fuel' r []
            | [] => None
            end
          else if Ascii.eqb c "{" then
            match skip_ws r with
            | c' :: r' =>
                if Ascii.eqb c' "}" then Some (Object [], r')
                else parse_members fuel' r []
            | [] => None
            end
          else if starts_with (chars "null") (c :: r)
          then Some (Null, skipn 4 (c :: r))
          else if starts_with (chars "true") (c :: r)
          then Some (Bool true, skipn 4 (c :: r))
          else if starts_with (chars "false") (c :: r)
          then Some (Bool false, skipn 5 (c :: r))
          else parse_number (c :: r)
      end
  end

with parse_elements (fuel : nat) (l : list ascii) (acc : list t) {struct fuel}
  : option (t * list ascii) :=
  match fuel with
  | O => None
  | S fuel' =>
      match parse_value fuel' l with
      | Some (v, r) =>
          match skip_ws r with
          | c :: r' =>
              if Ascii.eqb c "," then parse_elements fuel' r' (v :: acc)
              else if Ascii.eqb c "]" then Some (Array (rev (v :: acc)), r')
              else None
          | [] => None
          end
      | None => None
      end
  end

with parse_members (fuel : nat) (l : list ascii) (acc : list (string * t))
       {struct fuel} : option (t * list ascii) :=
  match fuel with
  | O => None
  | S fuel' =>
      match skip_ws l with
      | q :: r =>
          if Ascii.eqb q dquote then
            match parse_chars r [] with
            | Some (k, r1) =>
                match skip_ws r1 with
                | c :: r2 =>
                    if Ascii.eqb c ":" then
                      match parse_value fuel' r2 with
                      | Some (v, r3) =>
                          match skip_ws r3 with
                          | c' :: r4 =>
                              if Ascii.eqb c' ","
                              then parse_members fuel' r4 ((k, v) :: acc)
                              else if Ascii.eqb c' "}"
                              then Some (Object (enumerate (rev ((k, v) :: acc))), r4)
                              else None
                          | [] => None
                          end
                      | None => None
                      end
                    else None
                | [] => None
                end
            | None => None
            end
          else None
      | [] => None
      end
  end.

(** [JSON.parse(s)]; [None] stands for the SyntaxError. *)
Definition parse (s : string) : option t :=
  match parse_value (S (String.length s)) (chars s) with
  | Some (v, r) => match skip_ws r with [] => Some v | _ => None end
  | None => None
  end.

(** *** Values that survive the round trip *)

(** A number whose text is a JSON number that reads back as the number. *)
Definition number_ok (n : num) : Prop :=
  is_finite n = true ∧
  chars (num_to_string n) ≠ [] ∧
  forallb is_number_char (chars (num_to_string n)) = true ∧
  Regex.test re_json_number (num_to_string n) = true ∧
  string_to_num (num_to_string n) = n.

(** The values [JSON.stringify] represents faithfully: numbers that read
    back, and objects whose properties are listed in enumeration order. *)
Fixpoint representable (v : t) : Prop :=
  match v with
  | Number n => number_ok n
  | Array l => fold_right (fun x acc => representable x ∧ acc) True l
  | Object fs =>
      enumerate fs = fs ∧
      fold_right (fun ky acc => representable (snd ky) ∧ acc) True fs
  | _ => True
  end.

(** The fuel [parse_value] needs beyond the first unit. *)
Fixpoint weight (v : t) : nat :=
  match v with
  | Array l => S (fold_right (fun x acc => S (weight x + acc)) O l)
  | Object fs => S (fold_right (fun ky acc => S (weight (snd ky) + acc)) O fs)
  | _ => O
  end.

(** What may follow a value: anything but a character of a number. *)
Definition delimited (rest : list ascii) : Prop :=
  match rest with
  | [] => True
  | c :: _ => is_number_char c = false
  end.

(** The text of the members of an object after the first one. *)
Definition member_text (ind' : list ascii) (ky : string * t) : list ascii :=
  let '(k, y) := ky in
  ","%char :: newline :: ind' ++ quote k ++ chars ": " ++ text ind' y.

(** The round trip of one value: after white space, the text of the value
    followed by a delimiter reads back as the value. *)
Definition reads_back (v : t) : Prop :=
  representable v ->
  forall fuel ws ind rest,
    (weight v < fuel)%nat -> forallb is_ws ws = true ->
    forallb is_ws ind = true -> delimited rest ->
    parse_value fuel (ws ++ text ind v ++ rest) = Some (v, rest).

End Json.

(** ** Engine.js: export and import of the circuit *)

Module Circuit.

(** A placed component and a wire as the presentation layer keeps them; a
    property that is [undefined] is absent. *)
Record component : Type := {
  type : option Json.t;
  id : option Json.t;
  attrs : option Json.t;
  position : option Json.t
}.

Record wire : Type := {
  from : option Json.t;
  to : option Json.t;
  color : option Json.t
}.

(** Truthiness of a property. *)
Definition truthy (o : option Json.t) : bool :=
  match o with
  | None | Some Json.Null | Some (Json.Bool false) => false
  | Some (Json.Number n) => JS.truthy (VNum n)
  | Some (Json.Str s) => negb (String.eqb s "")
  | Some _ => true
  end.

(** An object literal, as [JSON.stringify] sees it: the properties whose
    value is [undefined] are skipped. *)
Definition literal (props : list (string * option Json.t)) : Json.t :=
  Json.Object (omap (fun ko => (fun v => (fst ko, v)) <$> snd ko) props).

Definition part (c : component) : Json.t :=
  literal [("type"%string, type c);
           ("id"%string, id c);
           ("attrs"%string, if truthy (attrs c) then attrs c
                            else Some (Json.Object []));
           ("position"%string, position c)].

Definition connection (w : wire) : Json.t :=
  literal [("from"%string, from w); ("to"%string, to w);
           ("color"%string, color w)].

(** The structure [exportCircuit] hands to [JSON.stringify]. *)
Definition structure (components : list component) (wires : list wire)
  : Json.t :=
  Json.Object
    [("version"%string, Json.Number (Fin 1));
     ("editor"%string, Json.Str "esp32-simulator");
     ("parts"%string, Json.Array (map part components));
     ("connections"%string, Json.Array (map connection wires))].

Definition exportCircuit (components : list component) (wires : list wire)
  : string :=
  Json.stringify (structure components wires).

(** [obj[k]] *)
Definition get (k : string) (v : Json.t) : option Json.t :=
  match v with
  | Json.Object fs => snd <$> List.find (fun kv => String.eqb (fst kv) k) fs
  | _ => None
  end.

Definition defined_ok (o : option Json.t) : Prop :=
  match o with
  | Some v => Json.representable v
  | None => True
  end.

(** The properties of a component, and of a wire, are JSON-representable. *)
Definition component_ok (c : component) : Prop :=
  defined_ok (type c) ∧ defined_ok (id c) ∧ defined_ok (attrs c) ∧
  defined_ok (position c).

Definition wire_ok (w : wire) : Prop :=
  defined_ok (from w) ∧ defined_ok (to w) ∧ defined_ok (color w).

End Circuit.

(** [Engine.importCircuit]: the parsed structure, or [null] ([None]) after
    reporting the error on the serial line. *)
Definition importCircuit {host : Host} (json : string) (w : World)
  : option Json.t * World :=
  match Json.parse json with
  | Some v => (Some v, w)
  | None =>
      (None,
       handleSerial ("[Error] Invalid circuit file: " +:+ SyntaxError_message json)
                    "error" w)
  end.

(** A circuit of one LED wired to pin 2. *)
Definition led : Circuit.component :=
  {| Circuit.type := Some (Json.Str "led");
     Circuit.id := Some (Json.Str "led-1");
     Circuit.attrs := None;
     Circuit.position :=
       Some (Json.Object [("x"%string, Json.Number (Fin (241 # 2)));
                          ("y"%string, Json.Number (Fin (-8)))]) |}.

Definition led_wire : Circuit.wire :=
  {| Circuit.from :=
       Some (Json.Object [("compId"%string, Json.Str "board");
                          ("pin"%string, Json.Str "2")]);
     Circuit.to :=
       Some (Json.Object [("compId"%string, Json.Str "led-1");
                          ("pin"%string, Json.Str "anode")]);
     Circuit.color := Some (Json.Str "#ff0000") |}.

(** ** Vocabulary of the statements below *)

Definition variables_of (w : World) : gmap string jsval :=
  ArduinoParser.variables (parser (engine w)).

Definition functions_of (w : World) : gmap string ArduinoParser.func :=
  ArduinoParser.functions (parser (engine w)).

(** No [stop()] is on the user's agenda: the running flag stays set. *)
Definition no_stop (w : World) : Prop :=
  Forall (fun ta => snd ta ≠ Stop) (agenda w).

(** The sketch is running and nothing will stop it. *)
Definition steady (w : World) : Prop := is_running w = true ∧ no_stop w.

(** The value a name has for a statement: the local table first, then the
    global one. *)
Definition lookup_var (localVars : gmap string jsval) (w : World)
           (name : string) : option jsval :=
  match localVars !! name with
  | Some v => Some v
  | None => variables_of w !! name
  end.

(** ** Sketches and statements the properties are stated on *)

Definition for_cond : string := "i < 5".
Definition for_step : string := "i++".
Definition for_body : string := " x += 1; ".
Definition for_stmt : string := "for (int i = 0; i < 5; i++) { x += 1; }".

(** A host to run the examples on: exact square roots of squares of
    integers over integers and fifteen decimals otherwise, powers with an
    integer exponent, a fixed sequence of random values, no arithmetic text
    accepted and no pattern compiled. *)
Definition sample_sqrt (n : num) : num :=
  match n with
  | Fin q =>
      if Qlt_bool q 0 then NaN
      else Fin (Qred (Qmake (Z.sqrt (Qnum q * 10 ^ 30 / Z.pos (Qden q)))
                            (Z.to_pos (10 ^ 15))))
  | NaN | NInf => NaN
  | PInf => PInf
  end.

Definition sample_pow (x y : num) : num :=
  match x, y with
  | Fin a, Fin b => if is_int b then Fin (Qred (Qpower a (Qfloor b))) else NaN
  | _, _ => NaN
  end.

Definition sample_host : Host :=
  {| Math_sqrt := sample_sqrt;
     Math_pow := sample_pow;
     Math_random := fun n => Qred (Qmake ((Z.of_nat n * 7 + 3) mod 10) 10);
     eval_arith := fun _ => None;
     RegExp_ := fun _ => None;
     SyntaxError_message := fun _ => "Unexpected end of JSON input";
     TypeError_message := fun field v =>
       "Cannot create property '" +:+ field +:+ "' on " +:+
       match v with
       | VStr s => "string '" +:+ s +:+ "'"
       | _ => "number '" +:+ String_ v +:+ "'"
       end |}.

Definition line (s : string) : string := s +:+ String newline "".
Definition quoted (s : string) : string := quote1 +:+ s +:+ quote1.
Definition lines (l : list string) : string := fold_right (fun s acc => line s +:+ acc) ""%string l.

(** The expression ["a" + "b"]. *)
Definition concat_expr : string := quoted "a" +:+ " + " +:+ quoted "b".

(** A sketch whose setup waits ten seconds and then prints. *)
Definition delay_sketch : string :=
  lines ["void setup() {";
         "  delay(10000);";
         "  Serial.println(" +:+ quoted "after" +:+ ");";
         "}";
         "void loop() {";
         "}"].

(** A sketch whose loop asks [toFixed] for 101 digits. *)
Definition faulty_sketch : string :=
  lines ["void setup() {";
         "  Serial.print(" +:+ quoted "abc" +:+ ");";
         "}";
         "void loop() {";
         "  Serial.printf(" +:+ quoted "%.101f" +:+ ", 1);";
         "  Serial.println(" +:+ quoted "after" +:+ ");";
         "}"].

(** A sketch whose setup prints the value of [1 +], a text the [Function]
    constructor rejects, and whose loop is empty. *)
Definition unfinished_sketch : string :=
  lines ["void setup() {";
         "  Serial.println(1 +);";
         "}";
         "void loop() {";
         "}"].

(** A function that assigns to its parameter [n], to the name [y] and to
    the name [total]. *)
Definition bump : ArduinoParser.func :=
  {| ArduinoParser.params := ["n"];
     ArduinoParser.body := ["n += 1"; "y = 7"; "total += n"] |}.

(** A function of two parameters that stores both in global variables. *)
Definition pair_up : ArduinoParser.func :=
  {| ArduinoParser.params := ["a"; "b"];
     ArduinoParser.body := ["first = a"; "second = b"] |}.

(** An engine with one serial subscriber and one status subscriber. *)
Definition observed : Engine.t :=
  with_serialListeners [0%nat] (with_statusListeners [0%nat] Engine.new).

(** A world in which a sketch with the given tables is running. *)
Definition running_world (vars : gmap string jsval)
           (fs : gmap string ArduinoParser.func) (t0 : Z)
           (ag : list (Z * action)) : World :=
  boot
    (Engine.with_running true
       (with_parser
          {| ArduinoParser.variables := vars; ArduinoParser.functions := fs;
             ArduinoParser.setupCode := []; ArduinoParser.loopCode := [];
             ArduinoParser.running := true; ArduinoParser.startTime := t0;
             ArduinoParser.speed := Fin 1 |}
          (Engine.with_startTime t0 observed)))
    t0 ag.

(** What an observer reads off a computation that returned. *)
Definition observe {A B} (f : A -> World -> B) (o : outcome A) : option B :=
  match o with
  | Ok a w => Some (f a w)
  | _ => None
  end.

(** The world an exception was thrown in ([d] when there was none). *)
Definition thrown_in {A} (o : outcome A) (d : World) : World :=
  match o with
  | Throw _ w => w
  | _ => d
  end.

(** A computation that yields a value in every world. *)
Definition returns {A} (m : M A) : Prop :=
  forall w, exists a w', m w = Ok a w'.

(** The texts [evaluateExpr] evaluates again are strictly shorter than the
    text [s] they were taken from. *)
Definition short_args (s : string) (f : expr_form) : Prop :=
  let short a := (String.length a < String.length s)%nat in
  match f with
  | EDigitalRead a | EAnalogRead a | EAbs a | ESqrt a | EIsnan a => short a
  | EMap a b c d e => short a /\ short b /\ short c /\ short d /\ short e
  | EConstrain a b c => short a /\ short b /\ short c
  | ERandom lo hi => (forall a, lo = Some a -> short a) /\ short hi
  | EMinMax _ a b | EPow a b => short a /\ short b
  | _ => True
  end.

(** A computation that raises no exception, whatever the world. *)
Definition never_throws {A} (m : M A) : Prop :=
  forall w msg w', m w <> Throw msg w'.

(** ** Vocabulary of the further properties *)

(** The managers a client can obtain: a fresh one, and whatever the
    operations, a subscription or a reset make of one. *)
Inductive pin_reachable : PinManager.t -> Prop :=
| reach_new : pin_reachable PinManager.new
| reach_op pm o : pin_reachable pm -> pin_reachable (PinManager.apply_op pm o)
| reach_onChange pm cb :
    pin_reachable pm -> pin_reachable (PinManager.onChange cb pm)
| reach_reset pm : pin_reachable pm -> pin_reachable (PinManager.reset pm).

(** The operations that end with [this.notify(pin)]. *)
Definition notifies (o : PinManager.op) : bool :=
  match o with
  | PinManager.OpPinMode _ _ | PinManager.OpDigitalWrite _ _
  | PinManager.OpAnalogWrite _ _ => true
  | _ => false
  end.

(** The invocations [notify(pin)] makes: one for each subscriber, in the
    order of subscription, with what [this.pins[pin]] is at that time. *)
Definition notified (pin : jsval) (pm : PinManager.t)
  : list (nat * jsval * option PinManager.found) :=
  map (fun cb => (cb, pin, PinManager.lookup pm (String_ pin)))
      (PinManager.listeners pm).

(** Texts whose braces match. *)
Inductive nested : list ascii -> Prop :=
| nested_nil : nested []
| nested_char c l :
    c <> "{"%char -> c <> "}"%char -> nested l -> nested (c :: l)
| nested_block a l :
    nested a -> nested l -> nested ("{"%char :: a ++ "}"%char :: l).

(** Texts whose parentheses match. *)
Inductive enclosed : list ascii -> Prop :=
| enclosed_nil : enclosed []
| enclosed_char c l :
    c <> "("%char -> c <> ")"%char -> enclosed l -> enclosed (c :: l)
| enclosed_paren a l :
    enclosed a -> enclosed l -> enclosed ("("%char :: a ++ ")"%char :: l).

(** Texts whose parentheses match and that have no comma outside them. *)
Inductive argument : list ascii -> Prop :=
| argument_nil : argument []
| argument_char c l :
    c <> "("%char -> c <> ")"%char -> c <> ","%char -> argument l ->
    argument (c :: l)
| argument_paren a l :
    enclosed a -> argument l -> argument ("("%char :: a ++ ")"%char :: l).

(** [l.join(sep)] *)
Fixpoint Array_join (sep : string) (l : list string) : string :=
  match l with
  | [] => ""
  | [a] => a
  | a :: l' => a +:+ sep +:+ Array_join sep l'
  end.

(** A computation whose final state, reached by returning or by throwing,
    is related by [R] to the state it started in. *)
Definition respects (R : World -> World -> Prop) {A} (m : M A) : Prop :=
  forall w,
    match m w with
    | Ok _ w' | Throw _ w' => R w w'
    | OutOfFuel => True
    end.

(** The effect of one call of [Math.random] on the world. *)
Definition with_draw (w : World) : World :=
  {| engine := engine w; now := now w; agenda := agenda w;
     draws := S (draws w) |}.

(** A relation that holds across each elementary step of an execution:
    sending serial text, a notifying pin operation, a write to the global
    variables, a call of [Math.random] and a suspension. *)
Record closed (R : World -> World -> Prop) : Prop := {
  closed_refl : forall w, R w w;
  closed_trans : forall a b c, R a b -> R b c -> R a c;
  closed_serial : forall text type w, R w (handleSerial text type w);
  closed_pins : forall o w, notifies o = true -> R w (with_pin_op o w);
  closed_variables : forall vars w, R w (set_variables vars w);
  closed_random : forall w, R w (with_draw w);
  closed_suspend : forall d, respects R (suspend d)
}.

(** What stays of a pin whatever is written to it. *)
Definition wiring (p : PinManager.Pin)
  : jsval * option bool * option bool * option (string * string) :=
  (PinManager.number p, PinManager.isADC p, PinManager.isDAC p,
   PinManager.connected p).

(** The parts of the engine no statement writes to: the parsed program and
    the start times, the subscriptions, the peripherals, and the wiring of
    the pins. *)
Definition same_frame (w w' : World) : Prop :=
  let p := parser (engine w) in
  let p' := parser (engine w') in
  ArduinoParser.functions p' = ArduinoParser.functions p /\
  ArduinoParser.setupCode p' = ArduinoParser.setupCode p /\
  ArduinoParser.loopCode p' = ArduinoParser.loopCode p /\
  ArduinoParser.startTime p' = ArduinoParser.startTime p /\
  Engine.startTime (engine w') = Engine.startTime (engine w) /\
  serialListeners (engine w') = serialListeners (engine w) /\
  statusListeners (engine w') = statusListeners (engine w) /\
  peripherals (engine w') = peripherals (engine w) /\
  PinManager.listeners (pinManager (engine w'))
  = PinManager.listeners (pinManager (engine w)) /\
  forall k, wiring <$> PinManager.pins (pinManager (engine w')) !! k
            = wiring <$> PinManager.pins (pinManager (engine w)) !! k.

(** The parts of the engine only the user writes to: the running flags, the
    speed, and the analog inputs. *)
Definition same_controls (w w' : World) : Prop :=
  Engine.running (engine w') = Engine.running (engine w) /\
  is_running w' = is_running w /\
  Engine.speed (engine w') = Engine.speed (engine w) /\
  ArduinoParser.speed (parser (engine w')) = ArduinoParser.speed (parser (engine w)) /\
  forall k, PinManager.analogValue <$> PinManager.pins (pinManager (engine w')) !! k
            = PinManager.analogValue <$> PinManager.pins (pinManager (engine w)) !! k.

(** While the user does nothing, the controls stay as they are. *)
Definition undisturbed (w w' : World) : Prop :=
  agenda w = [] -> agenda w' = [] /\ same_controls w w'.

(** The state a computation returned in, [d] when it did not return. *)
Definition returned_in {A} (o : outcome A) (d : World) : World :=
  match o with
  | Ok _ w => w
  | _ => d
  end.

(** Nothing but the count of the calls of [Math.random] differs. *)
Definition same_engine (w w' : World) : Prop :=
  engine w' = engine w /\ now w' = now w /\ agenda w' = agenda w.

(** A computation that raises an exception only in a state in which the
    running flag of the parser is set. *)
Definition alive {A} (m : M A) : Prop :=
  forall w msg w', m w = Throw msg w' -> is_running w' = true.

(** The same, of a computation that is started in such a state. *)
Definition alive_from {A} (m : M A) : Prop :=
  forall w msg w',
    is_running w = true -> m w = Throw msg w' -> is_running w' = true.

(** A computation that raises no exception and writes nothing to the
    engine. *)
Definition reading {A} (m : M A) : Prop :=
  never_throws m /\ respects same_engine m.

(** The running flag of the engine and that of the parser agree. *)
Definition in_step (w : World) : Prop :=
  Engine.running (engine w) = is_running w.

Definition keeps_step (w w' : World) : Prop := in_step w -> in_step w'.

(** The program a parser holds. *)
Definition program (p : ArduinoParser.t)
  : gmap string ArduinoParser.func * list string * list string :=
  (ArduinoParser.functions p, ArduinoParser.setupCode p,
   ArduinoParser.loopCode p).

Definition same_program (w w' : World) : Prop :=
  program (parser (engine w')) = program (parser (engine w)).


(** What [reset] keeps: the parsed program, the start times, the speed, the
    subscriptions and the registered peripherals. *)
Definition same_frame_program (w w' : World) : Prop :=
  let p := parser (engine w) in
  let p' := parser (engine w') in
  (ArduinoParser.functions p', ArduinoParser.setupCode p',
   ArduinoParser.loopCode p', ArduinoParser.startTime p', ArduinoParser.speed p')
  = (ArduinoParser.functions p, ArduinoParser.setupCode p,
     ArduinoParser.loopCode p, ArduinoParser.startTime p, ArduinoParser.speed p) /\
  (Engine.startTime (engine w'), Engine.speed (engine w'))
  = (Engine.startTime (engine w), Engine.speed (engine w)) /\
  (serialListeners (engine w'), statusListeners (engine w'),
   peripherals (engine w'))
  = (serialListeners (engine w), statusListeners (engine w),
     peripherals (engine w)) /\
  PinManager.listeners (pinManager (engine w'))
  = PinManager.listeners (pinManager (engine w)).

(** The two operations of the bookkeeping. *)
Definition bookkeeping (o : PinManager.op) : Prop :=
  match o with
  | PinManager.OpConnectPin _ _ _ | PinManager.OpDisconnectPin _ => True
  | _ => False
  end.

(** A pin for which the lookup finds an entry of the table, or nothing
    that passes the test [if (this.pins[pin])]. *)
Definition settled (pm : PinManager.t) (pin : jsval) : Prop :=
  match PinManager.lookup pm (String_ pin) with
  | Some (PinManager.Inherited _ _) | Some (PinManager.Linked _) => False
  | Some (PinManager.Primitive v) => truthy v = false
  | _ => True
  end.

(** A pin no component is connected to: a declared pin that is
    unconnected, or a pin for which the lookup finds nothing that passes
    the test. *)
Definition free_pin (pm : PinManager.t) (pin : jsval) : Prop :=
  settled pm pin /\
  forall p, PinManager.pins pm !! String_ pin = Some p ->
            PinManager.connected p = None.

(** What a greedy and a lazy repetition of one character class compute:
    the continuation is tried after the longest run of characters of the
    class first, or after the shortest. *)
Fixpoint greedy_chr (p : ascii -> bool) (k : Regex.mstate -> option Regex.mstate)
         (b l : list ascii) (cs : list (nat * string)) : option Regex.mstate :=
  let here := k {| Regex.before := b; Regex.ahead := l; Regex.caps := cs |} in
  match l with
  | c :: l' =>
      if p c then Regex.orelse (greedy_chr p k (c :: b) l' cs) here else here
  | [] => here
  end.

Fixpoint lazy_chr (p : ascii -> bool) (k : Regex.mstate -> option Regex.mstate)
         (b l : list ascii) (cs : list (nat * string)) : option Regex.mstate :=
  Regex.orelse
    (k {| Regex.before := b; Regex.ahead := l; Regex.caps := cs |})
    (match l with
     | c :: l' => if p c then lazy_chr p k (c :: b) l' cs else None
     | [] => None
     end).

(** The characters of an argument written without white space, without a
    line break and without the separator [x]. *)
Definition plain (x c : ascii) : bool :=
  negb (Regex.is_line_end c) && negb (is_space c) && negb (Ascii.eqb x c).

(** ** The matcher never looks behind the match *)

Module RegexFacts.

Lemma length_str (l : list ascii) : String.length (str l) = length l.
Proof. induction l as [|c l IH]; cbn; [done|]. by rewrite IH. Qed.

Lemma reached_refl (r : re) (st : mstate) :
  consumes r = false → reached r st st.
Proof.
  intros Hc. split; [lia|]. split; [congruence|].
  exists []. split; [reflexivity|constructor].
Qed.

Lemma reached_weaken (r r' : re) (st st' : mstate) :
  (∀ i, In i (ids r) → In i (ids r')) →
  (consumes r' = true → consumes r = true) →
  reached r st st' → reached r' st st'.
Proof.
  intros Hi Hc (H1 & H2 & new & E & Hn). split; [exact H1|].
  split; [intros H; apply H2, Hc, H|].
  exists new. split; [exact E|].
  eapply Forall_impl; [exact Hn|]. intros ig [Ha Hb]. split; [by apply Hi|exact Hb].
Qed.

(** Whatever [run r] answers was answered by the continuation, at a position
    reached through [r]. *)
Lemma run_reached (r : re) :
  ∀ st k res, run r st k = Some res →
              ∃ st', k st' = Some res ∧ reached r st st'.
Proof.
  induction r as [|p|a IHa b IHb|a IHa b IHb|g r1 IH|i r1 IH|m|m|];
    intros st k res H.
  - cbn [run] in H. exists st. split; [exact H|]. by apply reached_refl.
  - cbn [run] in H. unfold advance in H. destruct (ahead st) as [|c l] eqn:E; [discriminate|].
    destruct (p c); [|discriminate].
    eexists. split; [exact H|]. unfold reached. cbn [ahead caps]. rewrite E.
    cbn [length]. split; [lia|]. split; [lia|]. exists []. split; [reflexivity|constructor].
  - cbn [run] in H. apply IHa in H as (st1 & H & R1 & S1 & n1 & E1 & F1).
    apply IHb in H as (st2 & H & R2 & S2 & n2 & E2 & F2).
    exists st2. split; [exact H|]. split; [lia|]. split.
    + cbn [consumes]. intros [Hc|Hc]%orb_true_iff;
        [specialize (S1 Hc)|specialize (S2 Hc)]; lia.
    + exists (n2 ++ n1). split; [by rewrite E2, E1, app_assoc|].
      apply Forall_app. split.
      * eapply Forall_impl; [exact F2|]. intros ig [Ha Hb]. cbn [ids].
        split; [apply in_or_app; by right | lia].
      * eapply Forall_impl; [exact F1|]. intros ig [Ha Hb]. cbn [ids].
        split; [apply in_or_app; by left | lia].
  - cbn [run] in H. unfold orelse in H. destruct (run a st k) as [x|] eqn:Ea.
    + apply IHa in Ea as (st1 & Hk & R). exists st1.
      split; [congruence|]. eapply reached_weaken; [| |exact R].
      * intros j Hj. cbn [ids]. apply in_or_app. by left.
      * cbn [consumes]. by intros [? ?]%andb_true_iff.
    + apply IHb in H as (st1 & Hk & R). exists st1.
      split; [exact Hk|]. eapply reached_weaken; [| |exact R].
      * intros j Hj. cbn [ids]. apply in_or_app. by right.
      * cbn [consumes]. by intros [? ?]%andb_true_iff.
  - pose (loop :=
      fix loop (n : nat) (st : mstate) {struct n} : option mstate :=
        match n with
        | O => k st
        | S n' =>
            let again :=
              run r1 st (fun st' =>
                if (length (ahead st') <? length (ahead st))%nat
                then loop n' st' else None) in
            if g then orelse again (k st) else orelse (k st) again
        end).
    change (loop (S (length (ahead st))) st = Some res) in H.
    revert H. generalize (S (length (ahead st))). intros n. revert st res.
    induction n as [|n IHn]; intros st res H.
    + exists st. split; [exact H|]. by apply reached_refl.
    + assert (Hagain :
        ∀ x, run r1 st (fun st' =>
                 if (length (ahead st') <? length (ahead st))%nat
                 then loop n st' else None) = Some x →
             ∃ st', k st' = Some x ∧ reached (Star g r1) st st').
      { intros x Hx. apply IH in Hx as (st1 & Hx & R1 & _ & n1 & E1 & F1).
        destruct (length (ahead st1) <? length (ahead st))%nat; [|discriminate].
        apply IHn in Hx as (st2 & Hx & R2 & _ & n2 & E2 & F2).
        exists st2. split; [exact Hx|]. split; [lia|]. split; [discriminate|].
        exists (n2 ++ n1). split; [by rewrite E2, E1, app_assoc|].
        apply Forall_app. split.
        - eapply Forall_impl; [exact F2|]. intros ig [Ha Hb]. split; [exact Ha|lia].
        - exact F1. }
      change (loop (S n) st) with
        (if g
         then orelse (run r1 st (fun st' =>
                        if (length (ahead st') <? length (ahead st))%nat
                        then loop n st' else None)) (k st)
         else orelse (k st) (run r1 st (fun st' =>
                        if (length (ahead st') <? length (ahead st))%nat
                        then loop n st' else None))) in H.
      unfold orelse in H. destruct g.
      * destruct (run r1 st _) as [x|] eqn:Ea.
        -- injection H as <-. by apply Hagain.
        -- exists st. split; [exact H|]. by apply reached_refl.
      * destruct (k st) as [x|] eqn:Ek.
        -- injection H as <-. exists st. split; [exact Ek|]. by apply reached_refl.
        -- by apply Hagain.
  - cbn [run] in H. apply IH in H as (st1 & H & R1 & S1 & n1 & E1 & F1).
    eexists. split; [exact H|]. cbn [ahead caps consumes ids].
    split; [exact R1|]. split; [exact S1|].
    exists ((i, str (firstn (length (ahead st) - length (ahead st1)) (ahead st))) :: n1).
    split; [by rewrite E1|]. constructor.
    + cbn [fst snd]. split; [by left|]. rewrite length_str, length_firstn. lia.
    + eapply Forall_impl; [exact F1|]. intros ig [Ha Hb]. split; [by right|exact Hb].
  - cbn [run] in H. exists st. split; [|by apply reached_refl].
    destruct (before st) as [|c l]; [exact H|].
    destruct (m && is_line_end c); [exact H|discriminate].
  - cbn [run] in H. exists st. split; [|by apply reached_refl].
    destruct (ahead st) as [|c l]; [exact H|].
    destruct (m && is_line_end c); [exact H|discriminate].
  - cbn [run] in H. exists st. split; [|by apply reached_refl].
    destruct (xorb _ _); [exact H|discriminate].
Qed.


Lemma length_chars (s : string) : length (chars s) = String.length s.
Proof. induction s as [|c s IH]; cbn; [done|]. by rewrite IH. Qed.

(** A pattern that starts with [^] matches at the start of the subject or
    not at all. *)
Lemma search_anchored (r : re) (c : ascii) (bef l : list ascii) :
  search (Seq (Bol false) r) (c :: bef) l = None.
Proof.
  revert c bef. induction l as [|d l IH]; intros c bef; cbn [search];
    unfold match_at; cbn [run before andb]; [reflexivity|apply IH].
Qed.

(** In a match of [^XY], where [X] consumes, the groups of [Y] are strictly
    shorter than the subject. *)
Lemma exec_short (X Y : re) (s : string) (m : result) :
  consumes X = true →
  exec (Seq (Bol false) (Seq X Y)) s = Some m →
  (0 < String.length s)%nat ∧
  ∀ j a, ¬ In j (ids X) → group m j = Some a →
         (String.length a < String.length s)%nat.
Proof.
  intros HX H. unfold exec in H. rewrite <- length_chars.
  assert (Hm : match_at (Seq (Bol false) (Seq X Y)) [] (chars s) = Some m).
  { destruct (chars s) as [|c l]; cbn [search] in H;
      destruct (match_at _ [] _) as [x|]; try exact H; try discriminate.
    by rewrite search_anchored in H. }
  clear H. unfold match_at in Hm.
  destruct (run _ _ Some) as [st|] eqn:R; [|discriminate].
  injection Hm as <-. cbn [run before] in R.
  apply run_reached in R as (st1 & R & R1 & S1 & n1 & E1 & F1).
  apply run_reached in R as (st2 & R & R2 & S2 & n2 & E2 & F2).
  injection R as ->. specialize (S1 HX). cbn [ahead caps] in *.
  split; [lia|]. intros j a Hj Hg. unfold group in Hg. cbn [groups] in Hg.
  destruct (List.find _ _) as [[j' a']|] eqn:Ef; [|discriminate].
  injection Hg as ->. apply find_some in Ef as [Hin Hjj]. cbn [fst] in Hjj.
  apply Nat.eqb_eq in Hjj as ->. rewrite E2, E1, app_nil_r in Hin.
  apply in_app_or in Hin as [Hin|Hin].
  - apply (proj1 (List.Forall_forall _ _) F2) in Hin as [_ Hin]. cbn [snd] in Hin. lia.
  - apply (proj1 (List.Forall_forall _ _) F1) in Hin as [Hin _]. by destruct Hj.
Qed.

Lemma exec_short_grp (X Y : re) (s : string) (m : result) (j : nat) :
  consumes X = true → ¬ In j (ids X) →
  exec (Seq (Bol false) (Seq X Y)) s = Some m →
  (String.length (grp m j) < String.length s)%nat.
Proof.
  intros HX Hj H. destruct (exec_short X Y s m HX H) as [H0 Hg].
  unfold grp. destruct (group m j) as [a|] eqn:E; [by eapply Hg|exact H0].
Qed.

Lemma length_drop_spaces (l : list ascii) :
  (length (drop_spaces l) <= length l)%nat.
Proof.
  induction l as [|c l IH]; cbn [drop_spaces]; [done|].
  destruct (is_space c); cbn [length]; lia.
Qed.

Lemma length_trim (s : string) : (String.length (trim s) <= String.length s)%nat.
Proof.
  unfold trim, trim_chars. rewrite length_str, length_rev.
  etrans; [apply length_drop_spaces|]. rewrite length_rev.
  etrans; [apply length_drop_spaces|]. by rewrite length_chars.
Qed.

End RegexFacts.

(** * Properties *)

(** ** The pin table *)

Module PinFacts.

Import PinManager.

Lemma lookup_with_pins m pm : pins (with_pins m pm) = m.
Proof. reflexivity. Qed.

Lemma pins_notify pin pm : pins (notify pin pm) = pins pm.
Proof. reflexivity. Qed.

(** An entry of the table is what the lookup finds first. *)
Lemma lookup_entry (pm : t) (k : string) (p : Pin) :
  pins pm !! k = Some p → lookup pm k = Some (Entry p).
Proof. intros H. unfold lookup. by rewrite H. Qed.

Lemma lookup_entry_inv (pm : t) (k : string) (p : Pin) :
  lookup pm k = Some (Entry p) → pins pm !! k = Some p.
Proof.
  unfold lookup. destruct (pins pm !! k) as [q|]; [by intros [= ->]|].
  repeat case_match; try discriminate;
    intros (y & _ & Hy)%fmap_Some; try discriminate;
    by destruct y.
Qed.

(** An assignment changes the entry it is addressed to, and no other part
    of the table. *)
Lemma pins_assign (k : string) (a : assignment) (pm : t) :
  pins (assign k a pm)
  = match pins pm !! k with
    | Some p => <[k := assign_pin a p]> (pins pm)
    | None => pins pm
    end.
Proof.
  unfold assign. destruct (pins pm !! k) as [p|] eqn:E.
  - by rewrite (lookup_entry _ _ _ E).
  - destruct (lookup pm k) as [[q|k' own|[c x]|v|]|] eqn:L; try reflexivity.
    apply lookup_entry_inv in L. congruence.
Qed.

Lemma listeners_assign (k : string) (a : assignment) (pm : t) :
  listeners (assign k a pm) = listeners pm.
Proof.
  unfold assign. by destruct (lookup pm k) as [[q|k' own|[c x]|v|]|].
Qed.

Lemma calls_assign (k : string) (a : assignment) (pm : t) :
  calls (assign k a pm) = calls pm.
Proof.
  unfold assign. by destruct (lookup pm k) as [[q|k' own|[c x]|v|]|].
Qed.

Lemma writable_entry (pm : t) (k : string) (p : Pin) :
  pins pm !! k = Some p → writable (lookup pm k) = true.
Proof. intros H. by rewrite (lookup_entry _ _ _ H). Qed.

(** The pin table after an operation: the entry the operation is addressed
    to is rewritten, and nothing else. *)
Lemma pins_apply_op (pm : t) (o : op) :
  pins (apply_op pm o)
  = match pins pm !! String_ (op_pin o) with
    | Some p => <[String_ (op_pin o) := entry_after o p]> (pins pm)
    | None => pins pm
    end.
Proof.
  destruct o; cbn [apply_op op_pin entry_after];
    unfold pinMode, digitalWrite, analogWrite, setAnalogValue, connectPin,
           disconnectPin; cbn zeta;
    (destruct (writable (lookup pm (String_ pin))) eqn:W;
     [|destruct (pins pm !! String_ pin) as [p|] eqn:E;
       [by rewrite (writable_entry _ _ _ E) in W|reflexivity]]);
    rewrite ?pins_notify, !pins_assign;
    destruct (pins pm !! String_ pin) as [p|] eqn:E; rewrite ?E;
    try reflexivity.
  all: rewrite lookup_insert_eq; cbn [assign_pin]; by rewrite insert_insert_eq.
Qed.

Lemma listeners_apply_op (pm : t) (o : op) :
  listeners (apply_op pm o) = listeners pm.
Proof.
  destruct o; cbn [apply_op];
    unfold pinMode, digitalWrite, analogWrite, setAnalogValue, connectPin,
           disconnectPin; cbn zeta;
    destruct (writable _); try reflexivity;
    cbn [notify listeners]; by rewrite !listeners_assign.
Qed.

(** On an entry of the table an operation rewrites the entry and, when it
    is one that notifies, calls the subscribers. *)
Lemma apply_op_entry (pm : t) (o : op) (p : Pin) :
  pins pm !! String_ (op_pin o) = Some p →
  apply_op pm o
  = (if notifies o then notify (op_pin o) else fun pm => pm)
      (with_pins (<[String_ (op_pin o) := entry_after o p]> (pins pm)) pm).
Proof.
  intros Hp. pose proof (lookup_entry _ _ _ Hp) as L.
  destruct o; cbn [apply_op op_pin entry_after notifies] in *;
    unfold pinMode, digitalWrite, analogWrite, setAnalogValue, connectPin,
           disconnectPin; cbn zeta; rewrite L; cbn [writable];
    unfold assign; rewrite ?L; try reflexivity.
  erewrite lookup_entry by (cbn [pins with_pins]; apply lookup_insert_eq).
  cbn [assign_pin with_pins pins listeners calls inherited].
  by rewrite insert_insert_eq.
Qed.

(** The lookup depends on the entry under the key and on what has been
    written on the inherited objects. *)
Lemma lookup_ext (pm pm' : t) (k : string) :
  pins pm' !! k = pins pm !! k → inherited pm' = inherited pm →
  lookup pm' k = lookup pm k.
Proof. intros H1 H2. unfold lookup, proto, written. by rewrite H1, H2. Qed.

Lemma digitalRead_ext (pm pm' : t) (pin : jsval) :
  pins pm' !! String_ pin = pins pm !! String_ pin →
  inherited pm' = inherited pm →
  digitalRead pin pm' = digitalRead pin pm.
Proof.
  intros H1 H2. unfold digitalRead. rewrite (lookup_ext pm pm') by done.
  destruct (lookup pm (String_ pin)) as [f|]; [|reflexivity].
  destruct (present (Some f)); [|reflexivity].
  unfold read_value, proto, written. by rewrite H2.
Qed.

Lemma analogRead_ext (pm pm' : t) (pin : jsval) :
  pins pm' !! String_ pin = pins pm !! String_ pin →
  inherited pm' = inherited pm →
  analogRead pin pm' = analogRead pin pm.
Proof.
  intros H1 H2. unfold analogRead. rewrite (lookup_ext pm pm') by done.
  destruct (lookup pm (String_ pin)) as [f|]; [|reflexivity].
  destruct (present (Some f)); [|reflexivity].
  unfold read_analogValue, proto, written. by rewrite H2.
Qed.

(** The reads on an entry of the table. *)
Lemma digitalRead_entry (pm : t) (pin : jsval) (p : Pin) :
  pins pm !! String_ pin = Some p → digitalRead pin pm = value p.
Proof. intros H. unfold digitalRead. by rewrite (lookup_entry _ _ _ H). Qed.

(** Every operation leaves the entries under the other keys alone. *)
Lemma apply_op_other (pm : t) (o : op) (k : string) :
  k ≠ String_ (op_pin o) → pins (apply_op pm o) !! k = pins pm !! k.
Proof.
  intros Hk. rewrite pins_apply_op.
  destruct (pins pm !! String_ (op_pin o)); [|reflexivity].
  by rewrite lookup_insert_ne.
Qed.

(** The three operations that touch neither [mode] nor [value]. *)
Lemma apply_op_quiet (pm : t) (o : op) (k : string) :
  match o with
  | OpSetAnalogValue _ _ | OpConnectPin _ _ _ | OpDisconnectPin _ => True
  | _ => False
  end →
  mode_value (apply_op pm o) k = mode_value pm k.
Proof.
  intros Ho. unfold mode_value.
  destruct (decide (k = String_ (op_pin o))) as [->|Hk];
    [| by rewrite apply_op_other].
  rewrite pins_apply_op.
  destruct (pins pm !! String_ (op_pin o)) as [p|] eqn:E; rewrite ?E;
    [|reflexivity].
  rewrite lookup_insert_eq. by destruct o.
Qed.

Lemma apply_op_spares (pm : t) (o : op) (k : string) :
  spares_rails o → k ∈ rails → mode_value (apply_op pm o) k = mode_value pm k.
Proof.
  intros Ho Hk.
  destruct o; simpl in Ho;
    try (apply apply_op_quiet; exact I);
    unfold mode_value; rewrite apply_op_other; try reflexivity;
    intros ->; contradiction.
Qed.

Lemma run_ops_spares (ops : list op) :
  Forall spares_rails ops →
  ∀ pm k, k ∈ rails → mode_value (run_ops ops pm) k = mode_value pm k.
Proof.
  induction 1 as [|o ops Ho _ IH]; intros pm k Hk; [reflexivity|].
  unfold run_ops in *. simpl. rewrite IH by assumption.
  by apply apply_op_spares.
Qed.

Lemma rails_intact_new : rails_intact new.
Proof. repeat split; vm_compute; reflexivity. Qed.

(** The keys of the table never change. *)
Lemma apply_op_None (pm : t) (o : op) (k : string) :
  pins pm !! k = None → pins (apply_op pm o) !! k = None.
Proof.
  intros Hk.
  destruct (decide (k = String_ (op_pin o))) as [->|Hne];
    [| by rewrite apply_op_other].
  by rewrite pins_apply_op, Hk.
Qed.

Lemma run_ops_None (ops : list op) (pm : t) (k : string) :
  pins pm !! k = None → pins (run_ops ops pm) !! k = None.
Proof.
  revert pm. induction ops as [|o ops IH]; intros pm Hk; [exact Hk|].
  unfold run_ops in *. simpl. apply IH. by apply apply_op_None.
Qed.

Lemma dom_new : dom (pins new) = list_to_set keys.
Proof. vm_cast_no_check (eq_refl (dom (pins new))). Qed.

Lemma new_None (k : string) : k ∉ keys → pins new !! k = None.
Proof.
  intros Hk. apply not_elem_of_dom. rewrite dom_new.
  by rewrite elem_of_list_to_set.
Qed.

Lemma Qlt_bool_iff (x y : Q) : Qlt_bool x y = true ↔ (x < y)%Q.
Proof.
  unfold Qlt_bool. rewrite negb_true_iff.
  split.
  - intros H. apply Qnot_le_lt. intros Hle.
    apply Qle_bool_iff in Hle. congruence.
  - intros H. destruct (Qle_bool y x) eqn:E; [|reflexivity].
    apply Qle_bool_iff in E. exfalso. by apply (Qlt_not_le x y).
Qed.

Lemma num_leb_Fin (x y : Q) : num_leb (Fin x) (Fin y) = true ↔ (x <= y)%Q.
Proof.
  unfold num_leb. simpl. rewrite orb_true_iff, Qlt_bool_iff, Qeq_bool_iff.
  split.
  - intros [H|H]; [by apply Qlt_le_weak | by rewrite H; apply Qle_refl].
  - intros H. destruct (Qlt_le_dec x y) as [Hlt|Hge]; [by left|right].
    by apply Qle_antisym.
Qed.

(** The two nested calls of [Math.max] and [Math.min] compute the clamp. *)
Lemma clamp_max_min (hi : Q) (d : num) :
  (0 < hi)%Q →
  Math_max (Fin 0) (Math_min (Fin hi) d) = clamp (Fin 0) (Fin hi) d.
Proof.
  intros Hhi.
  assert (H0 : Qlt_bool 0 hi = true) by by apply Qlt_bool_iff.
  assert (H1 : Qlt_bool hi 0 = false).
  { destruct (Qlt_bool hi 0) eqn:E; [|reflexivity].
    apply Qlt_bool_iff in E. exfalso. apply (Qlt_irrefl 0). exact (Qlt_trans _ _ _ Hhi E). }
  assert (H2 : Qeq_bool hi 0 = false).
  { destruct (Qeq_bool hi 0) eqn:E; [|reflexivity].
    apply Qeq_bool_iff in E. rewrite E in Hhi. by apply Qlt_irrefl in Hhi. }
  destruct d as [q| | |].
  - unfold Math_max, Math_min, clamp. cbn [is_nan orb num_ltb].
    destruct (num_leb (Fin q) (Fin 0)) eqn:E0.
    + apply num_leb_Fin in E0.
      destruct (Qlt_bool q hi) eqn:E1; cbn [num_ltb].
      * destruct (Qlt_bool 0 q) eqn:E2; [|reflexivity].
        apply Qlt_bool_iff in E2. exfalso. by apply (Qlt_not_le 0 q).
      * exfalso. assert (Qlt_bool q hi = true); [|congruence].
        apply Qlt_bool_iff. by apply Qle_lt_trans with 0%Q.
    + assert (Hq : (0 < q)%Q).
      { apply Qnot_le_lt. intros H. apply num_leb_Fin in H. congruence. }
      destruct (num_leb (Fin hi) (Fin q)) eqn:E1.
      * apply num_leb_Fin in E1.
        destruct (Qlt_bool q hi) eqn:E2.
        -- apply Qlt_bool_iff in E2. exfalso. by apply (Qlt_not_le q hi).
        -- cbn [num_ltb]. by rewrite H0.
      * destruct (Qlt_bool q hi) eqn:E2.
        -- cbn [num_ltb]. apply Qlt_bool_iff in Hq. by rewrite Hq.
        -- exfalso. assert (num_leb (Fin hi) (Fin q) = true); [|congruence].
           apply num_leb_Fin. apply Qnot_lt_le. intros H.
           apply Qlt_bool_iff in H. congruence.
  - reflexivity.
  - unfold Math_max, Math_min, clamp, num_leb. cbn. by rewrite H0.
  - unfold Math_max, Math_min, clamp, num_leb. cbn. reflexivity.
Qed.

(** The clamp of a number that is not NaN lies between the bounds. *)
Lemma clamp_range (hi : Q) (d : num) :
  (0 < hi)%Q → is_nan d = false →
  ∃ q, clamp (Fin 0) (Fin hi) d = Fin q ∧ (0 <= q <= hi)%Q.
Proof.
  intros Hhi Hd. unfold clamp.
  destruct (num_leb d (Fin 0)) eqn:E0.
  { exists 0%Q. split; [reflexivity|]. split; [apply Qle_refl|by apply Qlt_le_weak]. }
  destruct (num_leb (Fin hi) d) eqn:E1.
  { exists hi. split; [reflexivity|]. split; [by apply Qlt_le_weak|apply Qle_refl]. }
  destruct d as [q| | |]; try discriminate.
  exists q. split; [reflexivity|]. split.
  - apply Qnot_lt_le. intros H. assert (num_leb (Fin q) (Fin 0) = true); [|congruence].
    apply num_leb_Fin. by apply Qlt_le_weak.
  - apply Qnot_lt_le. intros H. assert (num_leb (Fin hi) (Fin q) = true); [|congruence].
    apply num_leb_Fin. by apply Qlt_le_weak.
Qed.

(** A number is positive exactly when its clamp is. *)
Lemma clamp_positive (hi : Q) (d : num) :
  (0 < hi)%Q →
  num_ltb (Fin 0) (clamp (Fin 0) (Fin hi) d) = num_ltb (Fin 0) d.
Proof.
  intros Hhi.
  assert (H0 : Qlt_bool 0 hi = true) by by apply Qlt_bool_iff.
  unfold clamp.
  destruct (num_leb d (Fin 0)) eqn:E0.
  - destruct d as [q| | |]; try reflexivity; try discriminate.
    apply num_leb_Fin in E0. cbn [num_ltb].
    destruct (Qlt_bool 0 q) eqn:E.
    + apply Qlt_bool_iff in E. exfalso. by apply (Qlt_not_le 0 q).
    + reflexivity.
  - destruct (num_leb (Fin hi) d) eqn:E1; [|reflexivity].
    destruct d as [q| | |]; try reflexivity; try discriminate.
    + apply num_leb_Fin in E1. cbn [num_ltb]. rewrite H0. symmetry.
      apply Qlt_bool_iff. by apply Qlt_le_trans with hi.
    + cbn [num_ltb]. by rewrite H0.
Qed.

(** Claim C2, as stated, fails: one [pinMode] addressed to the 3V3 rail
    replaces its mode, so the rails do not keep their initial mode under
    every sequence of operations. *)
Lemma rail_mode_overwritten :
  ¬ rails_intact (run_ops [OpPinMode (VStr "3V3") "OUTPUT"] new).
Proof.
  intros [H _]. vm_compute in H. discriminate.
Qed.

(** Claim C2, amended: under every sequence of operations in which no
    [pinMode], [digitalWrite] or [analogWrite] is addressed to a power rail,
    the rails 3V3, GND and VIN keep the mode POWER and the values 1, 0 and 1
    they have after construction; [setAnalogValue], [connectPin] and
    [disconnectPin] never change a mode or a value, whatever pin they are
    addressed to. *)
Theorem power_rails_kept (ops : list op) :
  Forall spares_rails ops → rails_intact (run_ops ops new).
Proof.
  intros Hops. unfold rails_intact.
  rewrite !(run_ops_spares ops Hops) by (unfold rails; set_solver).
  apply rails_intact_new.
Qed.

Lemma power_rails_kept_witness :
  rails_intact
    (run_ops [OpDigitalWrite (of_Z 2) one;
              OpSetAnalogValue (VStr "GND") (of_Z 7);
              OpConnectPin (VStr "3V3") "led1" "led";
              OpPinMode (of_Z 13) "OUTPUT";
              OpAnalogWrite (of_Z 25) (of_Z 300);
              OpDisconnectPin (VStr "VIN")] new).
Proof.
  apply power_rails_kept.
  repeat constructor; simpl; vm_compute; intros H;
    repeat (apply elem_of_cons in H as [H|H]; [discriminate|]);
    by apply elem_of_nil in H.
Defined.

(** Where the lookup finds nothing, or a value that is falsy, both reads
    return 0 and every write returns the manager as it was. *)
Lemma absent_pin_ignored (pm : t) (pin : jsval) :
  present (lookup pm (String_ pin)) = false →
  digitalRead pin pm = zero ∧ analogRead pin pm = zero ∧
  (∀ m, pinMode pin m pm = pm) ∧
  (∀ v, digitalWrite pin v pm = pm) ∧
  (∀ v, analogWrite pin v pm = pm) ∧
  (∀ v, setAnalogValue pin v pm = pm) ∧
  (∀ c n, connectPin pin c n pm = pm) ∧
  disconnectPin pin pm = pm.
Proof.
  intros H.
  unfold digitalRead, analogRead, pinMode, digitalWrite, analogWrite,
         setAnalogValue, connectPin, disconnectPin. cbn zeta.
  destruct (lookup pm (String_ pin)) as [[p|k own|c|v|]|];
    try discriminate; cbn [writable]; rewrite ?H; repeat split.
Qed.

(** In a manager on whose inherited objects nothing has been written, a
    name that is neither a key of the table nor a property of
    [Object.prototype] finds nothing. *)
Lemma lookup_unknown (pm : t) (k : string) :
  pins pm !! k = None → is_inherited k = false → inherited pm = ∅ →
  lookup pm k = None.
Proof.
  intros Hk Hi He. unfold lookup, proto, written. rewrite Hk, Hi, He.
  rewrite lookup_empty. by repeat case_match.
Qed.

(** Claim C4, at the failing input.  The name [constructor] is not a key of
    the pin table, yet [this.pins["constructor"]] is the function
    [Object.prototype.constructor], so the test of the operations succeeds:
    in a fresh manager with one subscriber, [pinMode] writes the mode on
    that function and calls the subscriber, [digitalRead] returns
    [undefined] rather than 0, and after a [digitalWrite] it returns the
    level written. *)
Theorem inherited_pin_not_ignored :
  let pm := onChange 0 new in
  let pin := VStr "constructor" in
  (String_ pin ∉ keys) ∧
  calls (pinMode pin "OUTPUT" pm)
  = [(0%nat, pin,
      Some (Inherited "constructor"
              {| has_mode := Some "OUTPUT"%string; has_value := None;
                 has_analogValue := None; has_pwmValue := None;
                 has_connected := None |}))] ∧
  pinMode pin "OUTPUT" pm ≠ pm ∧
  digitalRead pin pm = VUndef ∧
  digitalRead pin (digitalWrite pin one pm) = one.
Proof.
  cbn zeta. split.
  { vm_compute. intros H.
    repeat (apply elem_of_cons in H as [H|H]; [discriminate|]).
    by apply elem_of_nil in H. }
  split; [vm_compute; reflexivity|].
  split; [intros H; apply (f_equal calls) in H; vm_compute in H; discriminate|].
  split; vm_compute; reflexivity.
Qed.

(** On a known pin, [analogWrite] with a number [d] stores the clamp of
    [d] to the range 0..255 as [pwmValue] and sets [value] to 1 when the
    clamped duty is greater than 0 and to 0 otherwise, and [setAnalogValue]
    stores the clamp of its number to 0..4095 as [analogValue]; the stored
    number lies in the range unless [d] is NaN. *)
Lemma analog_writes_clamp (pm : t) (pin : jsval) (d : num) :
  is_Some (pins pm !! String_ pin) →
  (∃ p, pins (analogWrite pin (VNum d) pm) !! String_ pin = Some p ∧
        pwmValue p = Some (VNum (clamp (Fin 0) (Fin 255) d)) ∧
        value p = (if num_ltb (Fin 0) (clamp (Fin 0) (Fin 255) d)
                   then one else zero) ∧
        (is_nan d = false →
         ∃ q, pwmValue p = Some (VNum (Fin q)) ∧ (0 <= q <= 255)%Q)) ∧
  (∃ p, pins (setAnalogValue pin (VNum d) pm) !! String_ pin = Some p ∧
        analogValue p = Some (VNum (clamp (Fin 0) (Fin 4095) d)) ∧
        (is_nan d = false →
         ∃ q, analogValue p = Some (VNum (Fin q)) ∧ (0 <= q <= 4095)%Q)).
Proof.
  intros [p0 Hp0].
  change (analogWrite pin (VNum d) pm) with (apply_op pm (OpAnalogWrite pin (VNum d))).
  change (setAnalogValue pin (VNum d) pm)
    with (apply_op pm (OpSetAnalogValue pin (VNum d))).
  rewrite !pins_apply_op. cbn [op_pin]. rewrite Hp0, !lookup_insert_eq.
  cbn [entry_after Number_]. rewrite !clamp_max_min by reflexivity.
  split; eexists; (split; [reflexivity|]);
    cbn [pwmValue value analogValue set_pwmValue set_value set_analogValue].
  - rewrite clamp_positive by reflexivity. repeat split.
    intros Hd. destruct (clamp_range 255 d) as (q & -> & Hq); [reflexivity|done|].
    by exists q.
  - split; [reflexivity|].
    intros Hd. destruct (clamp_range 4095 d) as (q & -> & Hq); [reflexivity|done|].
    by exists q.
Qed.

(** Claim C5, at the failing input.  The argument NaN is a number;
    [Math.max(0, Math.min(255, NaN))] is NaN, so [analogWrite] stores NaN as
    the pwm value of pin 2, which is no number from 0 to 255, and
    [setAnalogValue] stores NaN as its analog value. *)
Theorem analog_write_stores_nan :
  let written := analogWrite (of_Z 2) (VNum NaN) new in
  let injected := setAnalogValue (of_Z 2) (VNum NaN) new in
  pwmValue <$> pins written !! String_ (of_Z 2) = Some (Some (VNum NaN)) ∧
  value <$> pins written !! String_ (of_Z 2) = Some zero ∧
  analogValue <$> pins injected !! String_ (of_Z 2) = Some (Some (VNum NaN)) ∧
  (∀ q, (0 <= q <= 255)%Q →
        pwmValue <$> pins written !! String_ (of_Z 2) ≠ Some (Some (VNum (Fin q)))).
Proof.
  cbn zeta.
  assert (H : pwmValue <$> pins (analogWrite (of_Z 2) (VNum NaN) new) !! String_ (of_Z 2)
              = Some (Some (VNum NaN))) by (vm_compute; reflexivity).
  split; [exact H|]. split; [vm_compute; reflexivity|].
  split; [vm_compute; reflexivity|].
  intros q _. rewrite H. discriminate.
Qed.

End PinFacts.

(** ** The interpreter: unfolding lemmas *)

Section InterpreterFacts.

Context {host : Host}.

Local Open Scope interp_scope.

Lemma executeStatement_stopped fuel stmt lv w :
  is_running w = false → executeStatement (S fuel) stmt lv w = Ok lv w.
Proof. intros E. cbn. by rewrite E. Qed.

Lemma execute_stopped fuel stmts lv w :
  is_running w = false → execute (S fuel) stmts lv w = Ok lv w.
Proof. intros E. destruct stmts; cbn; [done|]. by rewrite E. Qed.

Lemma execute_nil fuel lv w : execute (S fuel) [] lv w = Ok lv w.
Proof. reflexivity. Qed.

Lemma execute_cons fuel stmt rest lv w :
  is_running w = true →
  execute (S fuel) (stmt :: rest) lv w =
  (let* lv := executeStatement fuel stmt lv in execute fuel rest lv) w.
Proof. intros E. cbn. by rewrite E. Qed.

Ltac exec_unfold E Hc :=
  cbn [executeStatement]; rewrite E; cbn [negb]; rewrite Hc; reflexivity.

Lemma exec_assign fuel stmt name op expr lv w :
  classify stmt = SAssign name op expr → is_running w = true →
  executeStatement (S fuel) stmt lv w =
  (let* value := evaluateExpr (S fuel) expr lv in
   store name (fun old => assigned op old value) lv) w.
Proof. intros Hc E. exec_unfold E Hc. Qed.

Lemma exec_incdec fuel stmt name op lv w :
  classify stmt = SIncDec name op → is_running w = true →
  executeStatement (S fuel) stmt lv w =
  store name (fun old => Some (if String.eqb op "++"
                               then js_add (or_zero old) one
                               else js_sub (or_zero old) one)) lv w.
Proof. intros Hc E. exec_unfold E Hc. Qed.

Lemma exec_for fuel stmt init cond step body lv w :
  classify stmt = SFor init cond step body → is_running w = true →
  executeStatement (S fuel) stmt lv w =
  (let* lv := executeStatement fuel
                (Regex.replace_first StmtPat.re_last_semicolon
                                     (fun _ => ""%string) init) lv in
   for_loop fuel cond step body lv) w.
Proof. intros Hc E. exec_unfold E Hc. Qed.

Lemma exec_delay fuel stmt e lv w :
  classify stmt = SDelay e → is_running w = true →
  executeStatement (S fuel) stmt lv w =
  (let* ms := evaluateExpr (S fuel) e lv in
   let* speed := ask (fun w => ArduinoParser.speed (parser (engine w))) in
   sleep (num_div (Number_ ms) speed);;
   ret lv) w.
Proof. intros Hc E. exec_unfold E Hc. Qed.

Lemma exec_call fuel stmt name args lv w :
  classify stmt = SCall name args → is_running w = true →
  executeStatement (S fuel) stmt lv w =
  match functions_of w !! name with
  | Some func =>
      (let* funcLocals :=
         bind_params (S fuel) (ArduinoParser.params func)
           (if String.eqb args "" then [] else ArduinoParser.splitArgs args)
           0 lv ∅ in
       execute fuel (ArduinoParser.body func) (funcLocals ∪ lv);;
       ret lv) w
  | None => Ok lv w
  end.
Proof.
  intros Hc E. cbn [executeStatement]. rewrite E. cbn [negb]. rewrite Hc.
  unfold bind at 1, ask at 1. fold (functions_of w).
  destruct (functions_of w !! name); reflexivity.
Qed.

Lemma for_loop_eq fuel cond step body lv w :
  is_running w = true →
  for_loop (S fuel) cond step body lv w =
  (let* holds := evaluateCondition (S fuel) cond lv in
   if holds then
     let* lv := execute fuel (ArduinoParser.tokenize body) lv in
     let* lv := executeStatement fuel step lv in
     sleep (Fin 1);;
     for_loop fuel cond step body lv
   else ret lv) w.
Proof. intros E. cbn [for_loop]. by rewrite E. Qed.

(** *** The evaluator on literals and names *)

Lemma eval_number fuel e n lv w :
  classify_expr (trim e) = ENumber n →
  evaluateExpr (S fuel) e lv w = Ok (VNum n) w.
Proof. intros Hc. cbn [evaluateExpr]. by rewrite Hc. Qed.

Lemma eval_string fuel e s lv w :
  classify_expr (trim e) = EString s →
  evaluateExpr (S fuel) e lv w = Ok (VStr s) w.
Proof. intros Hc. cbn [evaluateExpr]. by rewrite Hc. Qed.

Lemma eval_name fuel e lv w v :
  classify_expr (trim e) = EOther →
  lookup_var lv w (trim e) = Some v →
  evaluateExpr (S fuel) e lv w = Ok v w.
Proof.
  intros Hc Hv. cbn [evaluateExpr]. rewrite Hc. unfold lookup_var in Hv.
  destruct (lv !! trim e) as [v'|]; [by inversion Hv|].
  unfold ask. fold (variables_of w). by rewrite Hv.
Qed.

Lemma cond_compare fuel expr op idx lv w vl vr w1 w2 :
  includes (trim expr) "&&" = false →
  includes (trim expr) "||" = false →
  startsWith (trim expr) "!" = false →
  first_op (trim expr) = Some (op, idx) →
  evaluateExpr (S fuel) (trim (str (firstn idx (chars (trim expr))))) lv w
    = Ok vl w1 →
  evaluateExpr (S fuel)
    (trim (str (skipn (idx + String.length op) (chars (trim expr))))) lv w1
    = Ok vr w2 →
  evaluateCondition (S fuel) expr lv w = Ok (compare_with op vl vr) w2.
Proof.
  intros H1 H2 H3 H4 Hl Hr. cbn [evaluateCondition].
  rewrite H1, H2, H3, H4. unfold bind. by rewrite Hl, Hr.
Qed.

(** *** Assignment *)

Lemma store_global name f lv w v :
  lv !! name = None → f (variables_of w !! name) = Some v →
  store name f lv w = Ok lv (set_variables (<[name := v]> (variables_of w)) w).
Proof.
  intros Hl Hf. unfold store. rewrite Hl. fold (variables_of w). by rewrite Hf.
Qed.

Lemma store_local name f lv w old v :
  lv !! name = Some old → f (Some old) = Some v →
  store name f lv w = Ok (<[name := v]> lv) w.
Proof. intros Hl Hf. unfold store. by rewrite Hl, Hf. Qed.

Lemma variables_set_variables vars w :
  variables_of (set_variables vars w) = vars.
Proof. reflexivity. Qed.

Lemma steady_set_variables vars w : steady w → steady (set_variables vars w).
Proof. intros [H1 H2]. by split. Qed.

(** *** Suspension *)

Lemma perform_keeps a w :
  a ≠ Stop →
  is_running (perform a w) = is_running w ∧
  variables_of (perform a w) = variables_of w ∧
  functions_of (perform a w) = functions_of w ∧
  now (perform a w) = now w ∧ draws (perform a w) = draws w.
Proof. destruct a; intros Ha; [done| |]; repeat split. Qed.

Lemma performs_keep (l : list (Z * action)) w :
  Forall (fun ta => snd ta ≠ Stop) l →
  let w' := fold_left (fun w ta => perform (snd ta) w) l w in
  is_running w' = is_running w ∧ variables_of w' = variables_of w ∧
  functions_of w' = functions_of w.
Proof.
  intros Hl. revert w. induction Hl as [|ta l Hta _ IH]; intros w; [done|].
  cbn [fold_left]. destruct (perform_keeps (snd ta) w Hta) as (E1 & E2 & E3 & _).
  destruct (IH (perform (snd ta) w)) as (F1 & F2 & F3).
  cbn zeta in *. by rewrite F1, F2, F3, E1, E2, E3.
Qed.

(** Without a [stop()] on the agenda a suspension only moves the clock
    forward, as far as the sketch can tell. *)
Lemma suspend_steady d w :
  steady w →
  ∃ w', suspend d w = Ok tt w' ∧ steady w' ∧
        variables_of w' = variables_of w ∧ functions_of w' = functions_of w ∧
        now w' = now w + timer_delay d.
Proof.
  intros [Hr Hs]. unfold suspend. eexists. split; [reflexivity|].
  assert (Hdue : Forall (fun ta : Z * action => snd ta ≠ Stop)
                   (List.filter (fun ta => fst ta <=? now w + timer_delay d)
                                (agenda w))).
  { apply Forall_forall. intros ta Hin.
    apply list_elem_of_In, filter_In in Hin as [Hin _].
    apply list_elem_of_In in Hin. eapply Forall_forall in Hs; eauto. }
  destruct (performs_keep _ w Hdue) as (E1 & E2 & E3). cbn zeta in *.
  repeat split; try assumption.
  - unfold is_running in *. cbn. exact (eq_trans E1 Hr).
  - unfold no_stop. cbn. apply Forall_forall. intros ta Hin.
    apply list_elem_of_In, filter_In in Hin as [Hin _].
    apply list_elem_of_In in Hin. eapply Forall_forall in Hs; eauto.
Qed.

Lemma sleep_one_steady w :
  steady w →
  ∃ w', sleep (Fin 1) w = Ok tt w' ∧ steady w' ∧
        variables_of w' = variables_of w ∧ functions_of w' = functions_of w ∧
        now w' = now w + 1.
Proof. intros Hw. exact (suspend_steady (Fin 1) w Hw). Qed.

End InterpreterFacts.

(** ** The for loop *)

Section ForLoop.

Context {host : Host}.

Local Open Scope interp_scope.

Lemma js_lt_of_Z (a b : Z) : js_lt (of_Z a) (of_Z b) = (a <? b).
Proof.
  unfold js_lt, of_Z. cbn [Number_ num_ltb]. unfold Qlt_bool, Qle_bool.
  cbn [Qnum Qden inject_Z]. rewrite !Z.mul_1_r. symmetry. apply Z.ltb_antisym.
Qed.

Lemma Qred_inject_Z (z : Z) : Qred (inject_Z z) = inject_Z z.
Proof. apply Qred_identity. cbn. apply Z.gcd_1_r. Qed.

Lemma succ_of_Z (k : Z) : js_add (or_zero (Some (of_Z k))) one = of_Z (k + 1).
Proof.
  unfold or_zero, of_Z, truthy.
  destruct (Qeq_bool (inject_Z k) 0) eqn:E; cbn [negb].
  - apply Qeq_bool_iff in E. unfold Qeq in E. cbn in E.
    rewrite Z.mul_1_r in E. subst k. reflexivity.
  - unfold one, js_add, num_add. do 2 f_equal.
    rewrite <- (Qred_inject_Z (k + 1)). apply Qred_complete.
    unfold Qeq. cbn. lia.
Qed.

(** What [store] does, in terms of the value each name has. *)
Lemma store_spec name f lv w v :
  f (lookup_var lv w name) = Some v →
  ∃ lv' w', store name f lv w = Ok lv' w' ∧
            lookup_var lv' w' name = Some v ∧
            (∀ n, n ≠ name → lookup_var lv' w' n = lookup_var lv w n) ∧
            (steady w → steady w') ∧ now w' = now w ∧
            functions_of w' = functions_of w.
Proof.
  unfold lookup_var. intros Hf.
  destruct (lv !! name) as [old|] eqn:El.
  - exists (<[name := v]> lv), w. rewrite (store_local name f lv w old v El Hf).
    split; [reflexivity|]. rewrite lookup_insert_eq. split; [reflexivity|].
    split; [|done]. intros n Hn. by rewrite lookup_insert_ne.
  - exists lv, (set_variables (<[name := v]> (variables_of w)) w).
    rewrite (store_global name f lv w v El Hf). split; [reflexivity|].
    rewrite El, variables_set_variables, lookup_insert_eq.
    split; [reflexivity|]. split; [|split; [apply steady_set_variables|done]].
    intros n Hn. by rewrite lookup_insert_ne.
Qed.

Lemma classify_for_stmt :
  classify for_stmt = SFor "int i = 0" for_cond for_step for_body.
Proof. vm_compute. reflexivity. Qed.

(** One turn of the loop, while [i] is below 5. *)
Lemma for_iteration fuel lv w (k : Z) (vx : jsval) :
  steady w → k < 5 →
  lookup_var lv w "i" = Some (of_Z k) →
  lookup_var lv w "x" = Some vx →
  ∃ lv' w',
    for_loop (S (S (S fuel))) for_cond for_step for_body lv w
      = for_loop (S (S fuel)) for_cond for_step for_body lv' w' ∧
    steady w' ∧ now w' = now w + 1 ∧ functions_of w' = functions_of w ∧
    lookup_var lv' w' "i" = Some (of_Z (k + 1)) ∧
    lookup_var lv' w' "x" = Some (js_add (or_zero (Some vx)) one) ∧
    (∀ n, n ≠ "i"%string → n ≠ "x"%string →
          lookup_var lv' w' n = lookup_var lv w n).
Proof.
  intros Hw Hk Hi Hx.
  rewrite for_loop_eq by apply Hw.
  unfold bind at 1.
  erewrite (cond_compare _ for_cond "<" 2 lv w (of_Z k) (of_Z 5) w w);
    [| vm_compute; reflexivity ..
     | apply eval_name; [vm_compute; reflexivity | exact Hi]
     | apply eval_number; vm_compute; reflexivity ].
  change (compare_with "<" (of_Z k) (of_Z 5)) with (js_lt (of_Z k) (of_Z 5)).
  rewrite js_lt_of_Z. rewrite (proj2 (Z.ltb_lt k 5) Hk).
  (* the body *)
  replace (ArduinoParser.tokenize for_body) with ["x += 1"%string]
    by (vm_compute; reflexivity).
  unfold bind at 1. rewrite execute_cons by apply Hw.
  unfold bind at 1.
  rewrite (exec_assign _ "x += 1" "x" "+=" "1") by (vm_compute; reflexivity || apply Hw).
  unfold bind at 1.
  rewrite (eval_number _ "1" (Fin 1)) by (vm_compute; reflexivity).
  destruct (store_spec "x" (fun old => assigned "+=" old (VNum (Fin 1))) lv w
              (js_add (or_zero (Some vx)) one))
    as (lv1 & w1 & -> & Hx1 & Ho1 & Hs1 & Hn1 & Hf1).
  { rewrite Hx. reflexivity. }
  rewrite execute_nil.
  (* the step *)
  specialize (Hs1 Hw). unfold bind at 1.
  rewrite (exec_incdec _ for_step "i" "++") by (vm_compute; reflexivity || apply Hs1).
  destruct (store_spec "i" (fun old => Some (if String.eqb "++" "++"
                                             then js_add (or_zero old) one
                                             else js_sub (or_zero old) one))
              lv1 w1 (of_Z (k + 1)))
    as (lv2 & w2 & -> & Hi2 & Ho2 & Hs2 & Hn2 & Hf2).
  { rewrite Ho1 by done. rewrite Hi. cbn [String.eqb Ascii.eqb Bool.eqb].
    f_equal. apply succ_of_Z. }
  specialize (Hs2 Hs1).
  (* the yield *)
  destruct (sleep_one_steady w2 Hs2) as (w3 & E3 & Hs3 & Hv3 & Hf3 & Hn3).
  unfold bind at 1. rewrite E3.
  exists lv2, w3. split; [reflexivity|].
  split; [exact Hs3|]. split; [lia|]. split; [congruence|].
  assert (Hl : ∀ n, lookup_var lv2 w3 n = lookup_var lv2 w2 n)
    by (intros n; unfold lookup_var; by rewrite Hv3).
  rewrite !Hl. split; [exact Hi2|]. split.
  - rewrite Ho2 by done. exact Hx1.
  - intros n N1 N2. rewrite Hl, Ho2, Ho1 by done. reflexivity.
Qed.

(** The last test of the condition, once [i] has reached 5. *)
Lemma for_exit fuel lv w :
  steady w → lookup_var lv w "i" = Some (of_Z 5) →
  for_loop (S fuel) for_cond for_step for_body lv w = Ok lv w.
Proof.
  intros Hw Hi. rewrite for_loop_eq by apply Hw. unfold bind at 1.
  erewrite (cond_compare _ for_cond "<" 2 lv w (of_Z 5) (of_Z 5) w w);
    [| vm_compute; reflexivity ..
     | apply eval_name; [vm_compute; reflexivity | exact Hi]
     | apply eval_number; vm_compute; reflexivity ].
  reflexivity.
Qed.

(** From [i = x = 5 - n] the loop makes [n] turns and stops. *)
Lemma for_loop_runs (n : nat) :
  ∀ fuel lv w,
    steady w → 0 <= 5 - Z.of_nat n →
    lookup_var lv w "i" = Some (of_Z (5 - Z.of_nat n)) →
    lookup_var lv w "x" = Some (of_Z (5 - Z.of_nat n)) →
    ∃ lv' w',
      for_loop (S (S (S (n + fuel)))) for_cond for_step for_body lv w
        = Ok lv' w' ∧
      steady w' ∧ now w' = now w + Z.of_nat n ∧
      functions_of w' = functions_of w ∧
      lookup_var lv' w' "i" = Some (of_Z 5) ∧
      lookup_var lv' w' "x" = Some (of_Z 5) ∧
      (∀ m, m ≠ "i"%string → m ≠ "x"%string →
            lookup_var lv' w' m = lookup_var lv w m).
Proof.
  induction n as [|n IH]; intros fuel lv w Hw Hk Hi Hx.
  - change (5 - Z.of_nat 0) with 5 in *.
    exists lv, w. rewrite for_exit by done.
    repeat split; try done; try apply Hw. cbn. lia.
  - destruct (for_iteration (S (n + fuel)) lv w (5 - Z.of_nat (S n))
                (of_Z (5 - Z.of_nat (S n))) Hw ltac:(lia) Hi Hx)
      as (lv1 & w1 & E & Hw1 & Hn1 & Hf1 & Hi1 & Hx1 & Ho1).
    rewrite succ_of_Z in Hx1.
    replace (5 - Z.of_nat (S n) + 1) with (5 - Z.of_nat n) in * by lia.
    destruct (IH fuel lv1 w1 Hw1 ltac:(lia) Hi1 Hx1)
      as (lv2 & w2 & E2 & Hw2 & Hn2 & Hf2 & Hi2 & Hx2 & Ho2).
    exists lv2, w2. cbn [Nat.add]. rewrite E, E2.
    repeat split; try done; try apply Hw2; try lia; try congruence.
    intros m M1 M2. rewrite Ho2, Ho1 by done. reflexivity.
Qed.

(** Claim C8: executed in a state where [x] is 0 and that no [stop()] will
    reach, [for (int i = 0; i < 5; i++) { x += 1; }] terminates with [x]
    equal to 5; the step ran five times ([i] is 5), every turn ended with its
    one-millisecond yield (the clock moved by 5), and no other variable
    changed. *)
Theorem for_loop_five_turns (fuel : nat) (lv : gmap string jsval) (w : World) :
  steady w → lookup_var lv w "x" = Some zero →
  ∃ lv' w',
    executeStatement (9 + fuel) for_stmt lv w = Ok lv' w' ∧
    lookup_var lv' w' "x" = Some (of_Z 5) ∧
    lookup_var lv' w' "i" = Some (of_Z 5) ∧
    now w' = now w + 5 ∧ steady w' ∧
    (∀ m, m ≠ "i"%string → m ≠ "x"%string →
          lookup_var lv' w' m = lookup_var lv w m).
Proof.
  intros Hw Hx. cbn [Nat.add].
  rewrite (exec_for _ _ _ _ _ _ _ _ classify_for_stmt) by apply Hw.
  replace (Regex.replace_first StmtPat.re_last_semicolon (fun _ => ""%string)
             "int i = 0") with "int i = 0"%string by (vm_compute; reflexivity).
  unfold bind at 1.
  rewrite (exec_assign _ "int i = 0" "i" "=" "0")
    by (vm_compute; reflexivity || apply Hw).
  unfold bind at 1.
  rewrite (eval_number _ "0" (Fin 0)) by (vm_compute; reflexivity).
  destruct (store_spec "i" (fun old => assigned "=" old (VNum (Fin 0))) lv w
              (of_Z 0) eq_refl)
    as (lv1 & w1 & -> & Hi1 & Ho1 & Hs1 & Hn1 & Hf1).
  specialize (Hs1 Hw).
  destruct (for_loop_runs 5 fuel lv1 w1 Hs1 ltac:(cbn; lia) Hi1)
    as (lv2 & w2 & E2 & Hw2 & Hn2 & Hf2 & Hi2 & Hx2 & Ho2).
  { rewrite Ho1 by done. exact Hx. }
  exists lv2, w2. cbn [Nat.add] in E2. rewrite E2.
  repeat split; try done; try apply Hw2; try lia.
  intros m M1 M2. rewrite Ho2, Ho1 by done. reflexivity.
Qed.

End ForLoop.

Lemma for_loop_five_turns_witness :
  let w := running_world {["x" := zero]} ∅ 0 [] in
  (steady w ∧ lookup_var ∅ w "x" = Some zero) ∧
  ∃ lv' w',
    executeStatement (host := sample_host) 9 for_stmt ∅ w = Ok lv' w' ∧
    lookup_var lv' w' "x" = Some (of_Z 5) ∧
    lookup_var lv' w' "i" = Some (of_Z 5) ∧
    now w' = now w + 5 ∧ steady w' ∧
    (∀ m, m ≠ "i"%string → m ≠ "x"%string →
          lookup_var lv' w' m = lookup_var ∅ w m).
Proof.
  intros w.
  assert (H : steady w ∧ lookup_var ∅ w "x" = Some zero).
  { split; [split; [reflexivity | constructor] | reflexivity]. }
  split; [exact H|].
  exact (for_loop_five_turns (host := sample_host) 0 ∅ w (proj1 H) (proj2 H)).
Defined.

(** ** Delays and stop *)

Section Delay.

Context {host : Host}.

Local Open Scope interp_scope.

Lemma run_loop_stopped fuel w :
  Engine.running (engine w) = false → run_loop (S fuel) w = Ok tt w.
Proof. intros E. cbn [run_loop]. by rewrite E. Qed.

(** Claim C3, amended: [stop()] clears both running flags and notifies the
    status stopped at once, but a delay in flight is not shortened.  When
    [stop()] is called while [delay(e)] is suspended, the statement resumes
    only once the whole duration max(1, ms / speed) has elapsed; at that
    resumption the cleared flag is observed: no further statement is
    executed, the run loop ends, and [start] notifies stopped once more. *)
Theorem stop_during_delay
        (fuel : nat) (stmt e : string) (lv : gmap string jsval)
        (w w1 : World) (ms : jsval) (t : Z) :
  classify stmt = SDelay e → is_running w = true →
  evaluateExpr (S fuel) e lv w = Ok ms w1 →
  agenda w1 = [(t, Stop)] →
  let d := timer_delay
             (Math_max (Fin 1)
                (num_div (Number_ ms) (ArduinoParser.speed (parser (engine w1))))) in
  t <= now w1 + d →
  ∃ w', executeStatement (S fuel) stmt lv w = Ok lv w' ∧
        now w' = now w1 + d ∧
        engine w' = engine (stop w1) ∧
        is_running w' = false ∧ Engine.running (engine w') = false ∧
        (∀ f stmts lv', execute (S f) stmts lv' w' = Ok lv' w') ∧
        (∀ f, run_loop (S f) w' = Ok tt w') ∧
        statusCalls (engine (finish w'))
        = statusCalls (engine w1)
          ++ map (fun cb => (cb, "stopped"%string)) (statusListeners (engine w1))
          ++ map (fun cb => (cb, "stopped"%string)) (statusListeners (engine w1)).
Proof.
  intros Hc Hr He Ha d Ht.
  rewrite (exec_delay _ _ _ _ _ Hc Hr). unfold bind at 1. rewrite He.
  unfold bind at 1, ask at 1. unfold bind at 1, sleep, suspend.
  fold d. rewrite Ha. cbn [List.filter fst snd negb].
  rewrite (proj2 (Z.leb_le t (now w1 + d)) Ht). cbn [negb fold_left snd].
  eexists. split; [reflexivity|]. cbn [now engine].
  split; [reflexivity|]. split; [reflexivity|].
  split; [reflexivity|]. split; [reflexivity|].
  split; [intros; by apply execute_stopped|].
  split; [intros; by apply run_loop_stopped|].
  unfold finish. cbn. by rewrite <- app_assoc.
Qed.

End Delay.

Lemma stop_during_delay_witness :
  let w := running_world ∅ ∅ 1000 [(1005, Stop)] in
  (classify "delay(10000)" = SDelay "10000" ∧ is_running w = true ∧
   evaluateExpr (host := sample_host) 1 "10000" ∅ w = Ok (of_Z 10000) w ∧
   agenda w = [(1005, Stop)] ∧ 1005 <= now w + 10000) ∧
  ∃ w', executeStatement (host := sample_host) 1 "delay(10000)" ∅ w = Ok ∅ w' ∧
        now w' = now w + 10000 ∧
        engine w' = engine (stop w) ∧
        is_running w' = false ∧ Engine.running (engine w') = false ∧
        (∀ f stmts lv',
            execute (host := sample_host) (S f) stmts lv' w' = Ok lv' w') ∧
        (∀ f, run_loop (host := sample_host) (S f) w' = Ok tt w') ∧
        statusCalls (engine (finish w'))
        = statusCalls (engine w)
          ++ map (fun cb => (cb, "stopped"%string)) (statusListeners (engine w))
          ++ map (fun cb => (cb, "stopped"%string)) (statusListeners (engine w)).
Proof.
  intros w.
  assert (H : classify "delay(10000)" = SDelay "10000" ∧ is_running w = true ∧
              evaluateExpr (host := sample_host) 1 "10000" ∅ w
                = Ok (of_Z 10000) w ∧
              agenda w = [(1005, Stop)] ∧ 1005 <= now w + 10000).
  { repeat split; try (vm_compute; reflexivity). vm_compute. discriminate. }
  split; [exact H|]. destruct H as (H1 & H2 & H3 & H4 & H5).
  exact (stop_during_delay (host := sample_host) 0 "delay(10000)" "10000" ∅ w w
           (of_Z 10000) 1005 H1 H2 H3 H4 H5).
Defined.

(** Claim C3, as stated, fails: with [stop()] called 5 ms into the
    [delay(10000)] of [setup], no run of [start] ends before the whole
    10000 ms have elapsed. *)
Lemma delay_completes_after_stop :
  ¬ ∃ w', start (host := sample_host) 20 delay_sketch
                (boot observed 1000 [(1005, Stop)]) = Ok tt w'
          ∧ now w' < 1000 + 10000.
Proof.
  intros (w' & E & H).
  assert (X : observe (fun _ w => now w)
                (start (host := sample_host) 20 delay_sketch
                       (boot observed 1000 [(1005, Stop)]))
              = Some 11000) by (vm_compute; reflexivity).
  rewrite E in X. cbn [observe] in X. inversion X. lia.
Qed.

(** The run of that sketch: it ends when the clock shows the 10000 ms, the
    statement after the delay is not executed, and stopped is notified by
    [stop()] and again by [start]. *)
Example delay_sketch_run :
  observe (fun _ w' => (now w' - 1000, serialCalls (engine w'),
                        statusCalls (engine w')))
          (start (host := sample_host) 20 delay_sketch
                 (boot observed 1000 [(1005, Stop)]))
  = Some (10000, [],
          [(0%nat, "running"%string); (0%nat, "stopped"%string);
           (0%nat, "stopped"%string)]).
Proof. vm_compute. reflexivity. Qed.

(** ** Serial output *)

Lemma handleSerial_print text w :
  engine (handleSerial text "print" w)
  = with_serialBuffer (serialBuffer (engine w) +:+ text) (engine w).
Proof. reflexivity. Qed.

(** An emission other than [print] hands every subscriber one event: the
    buffer followed by the new text, the category, and the milliseconds
    since [startTime] printed as seconds; the buffer is then empty. *)
Lemma handleSerial_flush text type w :
  String.eqb type "print" = false →
  serialCalls (engine (handleSerial text type w))
  = serialCalls (engine w)
    ++ map (fun listener =>
              (listener, serialBuffer (engine w) +:+ text, type,
               toFixed3 (num_div (Fin (inject_Z (now w - Engine.startTime (engine w))))
                                 (Fin 1000))))
           (serialListeners (engine w))
  ∧ serialBuffer (engine (handleSerial text type w)) = ""%string.
Proof. intros E. unfold handleSerial. rewrite E. split; reflexivity. Qed.

(** The elapsed time of a serial event does not depend on the speed. *)
Lemma handleSerial_speed text type s w :
  serialCalls (engine (handleSerial text type (setSpeed s w)))
  = serialCalls (engine (handleSerial text type w)).
Proof. unfold handleSerial. cbn. destruct (String.eqb type "print"); reflexivity. Qed.

(** Two [print]s and a [println] give one event. *)
Example print_print_println :
  observe (fun _ w' => (serialCalls (engine w'), serialBuffer (engine w')))
          (execute (host := sample_host) 4
             ["Serial.print(" +:+ quoted "x" +:+ ")";
              "Serial.print(" +:+ quoted "y" +:+ ")";
              "Serial.println(" +:+ quoted "z" +:+ ")"] ∅
             (running_world ∅ ∅ 0 []))
  = Some ([(0%nat, "xyz"%string, "println"%string, "0.000"%string)], ""%string).
Proof. vm_compute. reflexivity. Qed.

(** Claim C6, at the failing input: one second after the start of a run at
    speed 2, [println] hands the subscriber the elapsed time 1.000, the
    unscaled wall-clock seconds, whereas [getElapsedTime] answers 2, the
    seconds scaled by the speed. *)
Theorem serial_elapsed_not_scaled :
  let w0 := setSpeed (Fin 2) (running_world ∅ ∅ 1000 []) in
  let w := {| engine := engine w0; now := 2000; agenda := []; draws := 0 |} in
  serialCalls (engine (handleSerial "z" "println" w))
  = [(0%nat, "z"%string, "println"%string, "1.000"%string)]
  ∧ getElapsedTime w = Fin 2.
Proof. split; vm_compute; reflexivity. Qed.

(** ** A start while the sketch runs *)

Section Fatal.

Context {host : Host}.

(** While the running flag is set - as it still is after a fatal error -
    [start] does nothing; [stop] or [reset] clears the flag. *)
Lemma start_refused (fuel : nat) (code : string) (w : World) :
  Engine.running (engine w) = true → start fuel code w = Ok tt w.
Proof. intros E. unfold start. by rewrite E. Qed.

End Fatal.

(** ** Expressions outside the grammar *)

Section NoThrow.

Context {host : Host}.

Lemma never_throws_ret {A} (a : A) : never_throws (ret a).
Proof. intros w msg w'. discriminate. Qed.

Lemma never_throws_ask {A} (f : World → A) : never_throws (ask f).
Proof. intros w msg w'. discriminate. Qed.

Lemma never_throws_timeout {A} : never_throws (@timeout A).
Proof. intros w msg w'. discriminate. Qed.

Lemma never_throws_random : never_throws random.
Proof. intros w msg w'. discriminate. Qed.

Lemma never_throws_bind {A B} (m : M A) (k : A → M B) :
  never_throws m → (∀ a, never_throws (k a)) → never_throws (bind m k).
Proof.
  intros Hm Hk w msg w'. unfold bind.
  destruct (m w) as [a w1|msg1 w1|] eqn:E.
  - apply Hk.
  - by destruct (Hm w msg1 w1).
  - discriminate.
Qed.

Ltac no_throw IH :=
  repeat first
    [ apply never_throws_ret | apply never_throws_ask
    | apply never_throws_random | apply IH
    | apply never_throws_bind; [|intros ?] ].

(** No branch of [evaluateExpr] raises an exception. *)
Lemma evaluateExpr_never_throws (fuel : nat) (expr : string)
      (lv : gmap string jsval) :
  never_throws (evaluateExpr fuel expr lv).
Proof.
  revert expr. induction fuel as [|fuel IH]; intros expr;
    [apply never_throws_timeout|].
  cbn [evaluateExpr].
  destruct (classify_expr (trim expr)) as
    [v|n|s| | |a|a|a b c d e|a b c|[lo|] hi|a|a|m a b|a b|a|]; no_throw IH.
  - destruct (String.eqb lo ""); no_throw IH.
  - destruct (lv !! trim expr); no_throw IH.
Qed.

Lemma classify_expr_short (s : string) : short_args s (classify_expr s).
Proof.
  unfold classify_expr.
  repeat match goal with
         | |- short_args _ (if ?c then _ else _) => destruct c; [exact I|]
         end.
  repeat match goal with
         | |- short_args _ (match exec ?r ?e with _ => _ end) =>
             let E := fresh "E" in
             destruct (exec r e) as [m|] eqn:E;
             [ cbn [short_args]; repeat split;
               try (refine (RegexFacts.exec_short_grp _ _ _ _ _ _ _ E);
                    [reflexivity | cbv; intuition lia])
             | ]
         end; [|exact I].
  intros a Ha.
  refine (proj2 (RegexFacts.exec_short _ _ _ _ _ E3) 1%nat a _ Ha);
    [reflexivity | cbv; intuition lia].
Qed.

Lemma returns_ret {A} (a : A) : returns (ret a).
Proof. intros w. by exists a, w. Qed.

Lemma returns_ask {A} (f : World → A) : returns (ask f).
Proof. intros w. by exists (f w), w. Qed.

Lemma returns_random : returns random.
Proof. intros w. by eexists _, _. Qed.

Lemma returns_bind {A B} (m : M A) (k : A → M B) :
  returns m → (∀ a, returns (k a)) → returns (bind m k).
Proof.
  intros Hm Hk w. unfold bind. destruct (Hm w) as (a & w1 & ->). apply Hk.
Qed.

Ltac returning IH :=
  repeat first
    [ apply returns_ret | apply returns_ask | apply returns_random
    | apply IH; lia
    | apply returns_bind; [|intros ?] ].

(** [evaluateExpr] yields a value for every text, given fuel beyond the
    length of the text: each text it evaluates again is a proper part of
    the one at hand. *)
Lemma evaluateExpr_returns (fuel : nat) (expr : string)
      (lv : gmap string jsval) :
  (String.length expr < fuel)%nat → returns (evaluateExpr fuel expr lv).
Proof.
  revert expr. induction fuel as [|fuel IH]; intros expr Hf; [lia|].
  cbn [evaluateExpr].
  pose proof (RegexFacts.length_trim expr) as Ht.
  pose proof (classify_expr_short (trim expr)) as Hs.
  destruct (classify_expr (trim expr)) as
    [v|n|s| | |a|a|a b c d e|a b c|[lo|] hi|a|a|m a b|a b|a|];
    cbn [short_args] in Hs; cbv zeta in Hs;
    repeat match goal with H : _ ∧ _ |- _ => destruct H end;
    returning IH.
  - destruct (String.eqb lo ""); returning IH.
    match goal with H : ∀ a, Some lo = Some a → _ |- _ =>
      specialize (H lo eq_refl) end. returning IH.
  - destruct (lv !! trim expr); returning IH.
Qed.

End NoThrow.

(** Texts no branch recognizes evaluate to 0: a conditional expression, and
    a name that is no variable. *)
Example unsupported_is_zero :
  evaluateExpr (host := sample_host) 1 "x ? 1 : 2" ∅ (boot observed 0 [])
  = Ok zero (boot observed 0 [])
  ∧ evaluateExpr (host := sample_host) 1 "ledPin" ∅ (boot observed 0 [])
    = Ok zero (boot observed 0 []).
Proof. split; vm_compute; reflexivity. Qed.

(** Claim C1, at the failing input: the text ["a" + "b"] starts and ends
    with a double quote, so [evaluateExpr] takes it for a string literal and
    returns the text between the outer quotes instead of 0. *)
Theorem concatenation_not_zero
        {host : Host} (fuel : nat) (lv : gmap string jsval) (w : World) :
  evaluateExpr (S fuel) concat_expr lv w
  = Ok (VStr ("a" +:+ quote1 +:+ " + " +:+ quote1 +:+ "b")) w.
Proof. apply eval_string. vm_compute. reflexivity. Qed.

(** ** The round trip through JSON *)

Module JsonFacts.

Import Json.

(** Induction on a value and on the values nested in it. *)
Lemma t_ind' (P : t → Prop) :
  P Null → (∀ b, P (Bool b)) → (∀ n, P (Number n)) → (∀ s, P (Str s)) →
  (∀ l, Forall P l → P (Array l)) →
  (∀ fs, Forall (fun ky => P (snd ky)) fs → P (Object fs)) →
  ∀ v, P v.
Proof.
  intros HNull HBool HNumber HStr HArray HObject.
  fix go 1. intros [|b|n|s|l|fs].
  - exact HNull.
  - apply HBool.
  - apply HNumber.
  - apply HStr.
  - apply HArray. induction l as [|x l IH]; constructor; [apply go | exact IH].
  - apply HObject. induction fs as [|[k x] fs IH]; constructor;
      [apply go | exact IH].
Qed.

Lemma skip_ws_app (ws l : list ascii) :
  forallb is_ws ws = true → skip_ws (ws ++ l) = skip_ws l.
Proof.
  induction ws as [|c ws IH]; [done|]. cbn [forallb app skip_ws].
  intros [Hc Hws]%andb_true_iff. rewrite Hc. by apply IH.
Qed.

Lemma skip_ws_head (c : ascii) (l : list ascii) :
  is_ws c = false → skip_ws (c :: l) = c :: l.
Proof. intros Hc. cbn. by rewrite Hc. Qed.

Lemma str_chars (s : string) : str (chars s) = s.
Proof. apply string_of_list_ascii_of_string. Qed.

Lemma chars_str (l : list ascii) : chars (str l) = l.
Proof. apply list_ascii_of_string_of_list_ascii. Qed.

(** One escaped character reads back as the character. *)
Lemma parse_chars_escape (c : ascii) (l acc : list ascii) :
  parse_chars (escape_char c ++ l) acc = parse_chars l (c :: acc).
Proof.
  destruct c as [[] [] [] [] [] [] [] []]; reflexivity.
Qed.

Lemma parse_chars_escaped (s : list ascii) (rest acc : list ascii) :
  parse_chars (flat_map escape_char s ++ dquote :: rest) acc
  = Some (str (rev acc ++ s), rest).
Proof.
  revert acc. induction s as [|c s IH]; intros acc.
  - cbn. by rewrite app_nil_r.
  - cbn [flat_map]. rewrite <- app_assoc, parse_chars_escape, IH.
    cbn [rev]. by rewrite <- app_assoc.
Qed.

Lemma quote_app (s : string) (rest : list ascii) :
  quote s ++ rest = dquote :: flat_map escape_char (chars s) ++ dquote :: rest.
Proof. unfold quote. cbn [app]. by rewrite <- app_assoc. Qed.

(** A quoted string reads back as the string. *)
Lemma parse_chars_quote (s : string) (rest : list ascii) :
  parse_chars (flat_map escape_char (chars s) ++ dquote :: rest) []
  = Some (s, rest).
Proof. rewrite parse_chars_escaped. cbn. by rewrite str_chars. Qed.

Lemma number_char_facts (c : ascii) :
  is_number_char c = true →
  is_ws c = false ∧ Ascii.eqb c dquote = false ∧ Ascii.eqb c "[" = false ∧
  Ascii.eqb c "{" = false ∧ Ascii.eqb c "]" = false ∧
  Ascii.eqb "n" c = false ∧ Ascii.eqb "t" c = false ∧ Ascii.eqb "f" c = false.
Proof.
  destruct c as [[] [] [] [] [] [] [] []]; intros H; try discriminate H;
    repeat split; reflexivity.
Qed.

Lemma span_app (p : ascii → bool) (tok rest : list ascii) :
  forallb p tok = true →
  match rest with [] => True | c :: _ => p c = false end →
  span p (tok ++ rest) = (tok, rest).
Proof.
  intros Htok Hrest. induction tok as [|c tok IH].
  - destruct rest as [|c rest]; [done|]. cbn. by rewrite Hrest.
  - cbn in Htok. apply andb_true_iff in Htok as [Hc Htok].
    cbn [app span]. rewrite Hc, IH by done. reflexivity.
Qed.

(** The text of a number reads back as the number. *)
Lemma parse_number_text (n : num) (rest : list ascii) :
  number_ok n → delimited rest →
  parse_number (number_text n ++ rest) = Some (Number n, rest).
Proof.
  intros (Hfin & _ & Hall & Hre & Hval) Hrest.
  unfold parse_number, number_text. rewrite Hfin.
  rewrite (span_app _ _ _ Hall Hrest), str_chars, Hre, Hval. reflexivity.
Qed.

Lemma number_text_head (n : num) :
  number_ok n →
  ∃ c r, number_text n = c :: r ∧ is_number_char c = true.
Proof.
  intros (Hfin & Hne & Hall & _). unfold number_text. rewrite Hfin.
  destruct (chars (num_to_string n)) as [|c r]; [done|].
  exists c, r. split; [reflexivity|].
  cbn in Hall. by apply andb_true_iff in Hall as [Hc _].
Qed.

(** A text starts with a character that is neither white space nor a
    closing bracket. *)
Lemma text_head (ind : list ascii) (v : t) :
  representable v →
  ∃ c r, text ind v = c :: r ∧ is_ws c = false ∧ Ascii.eqb c "]" = false.
Proof.
  destruct v as [|[]|n|s|[|x l]|[|[k x] fs]]; intros Hv;
    try (eexists _, _; split; [reflexivity|]; split; reflexivity).
  destruct (number_text_head n Hv) as (c & r & E & Hc).
  exists c, r. split; [exact E|].
  destruct (number_char_facts c Hc) as (H1 & _ & _ & _ & H5 & _). by split.
Qed.

Lemma representable_array (l : list t) :
  representable (Array l) ↔ Forall representable l.
Proof.
  cbn [representable]. induction l as [|x l IH]; cbn [fold_right].
  - split; [constructor | done].
  - rewrite Forall_cons. by rewrite IH.
Qed.

Lemma representable_fields (fs : list (string * t)) :
  fold_right (fun ky acc => representable (snd ky) ∧ acc) True fs
  ↔ Forall (fun ky => representable (snd ky)) fs.
Proof.
  induction fs as [|ky fs IH]; cbn [fold_right].
  - split; [constructor | done].
  - rewrite Forall_cons. by rewrite IH.
Qed.

Lemma parse_value_ws (f : nat) (ws l : list ascii) :
  forallb is_ws ws = true →
  parse_value (S f) (ws ++ l) = parse_value (S f) l.
Proof. intros Hws. cbn [parse_value]. by rewrite skip_ws_app. Qed.

Lemma ws_line (ind : list ascii) :
  forallb is_ws ind = true → forallb is_ws (newline :: ind) = true.
Proof. intros H. cbn [forallb]. by rewrite H. Qed.

Lemma ws_gap (ind : list ascii) :
  forallb is_ws ind = true → forallb is_ws (ind ++ gap) = true.
Proof. intros H. rewrite forallb_app, H. reflexivity. Qed.

Lemma more_elements (ind' : list ascii) (y : t) (l : list t) (tail : list ascii) :
  flat_map (fun y => ","%char :: newline :: ind' ++ text ind' y) (y :: l) ++ tail
  = ","%char :: newline :: ind' ++ text ind' y ++
    flat_map (fun y => ","%char :: newline :: ind' ++ text ind' y) l ++ tail.
Proof. cbn [flat_map app]. by rewrite <- !app_assoc. Qed.

(** The elements of an array after the first line break: each is read by
    [parse_value], and the closing bracket ends the array. *)
Lemma parse_elements_text (ind ind' rest : list ascii) (l : list t) :
  forallb is_ws ind = true → forallb is_ws ind' = true →
  Forall reads_back l → Forall representable l →
  ∀ x acc f,
    reads_back x → representable x →
    (S (S (weight x + fold_right (fun x acc => S (weight x + acc)) O l)) <= f)%nat →
    parse_elements f
      ((newline :: ind') ++ text ind' x ++
       flat_map (fun y => ","%char :: newline :: ind' ++ text ind' y) l ++
       newline :: ind ++ "]"%char :: rest) acc
    = Some (Array (rev acc ++ x :: l), rest).
Proof.
  intros Hind Hind' HIH Hrep.
  induction l as [|y l IHl]; intros x acc f Hx Rx Hf;
    (destruct f as [|f]; [lia|]); cbn [parse_elements].
  - cbn [flat_map]. rewrite app_nil_l.
    rewrite (Hx Rx f (newline :: ind') ind' (newline :: ind ++ "]"%char :: rest));
      [| cbn [fold_right] in Hf; lia | by apply ws_line | done | reflexivity].
    change (newline :: ind ++ "]"%char :: rest)
      with ((newline :: ind) ++ "]"%char :: rest).
    rewrite skip_ws_app by by apply ws_line.
    cbn. reflexivity.
  - rewrite more_elements. cbn [fold_right] in Hf.
    apply Forall_cons in HIH as [Hy HIH]. apply Forall_cons in Hrep as [Ry Hrep].
    rewrite (Hx Rx f (newline :: ind') ind');
      [| lia | by apply ws_line | done | reflexivity].
    rewrite skip_ws_head by reflexivity.
    cbn -[text parse_elements flat_map app].
    change (newline :: ind' ++ text ind' y ++
            flat_map (fun y0 => ","%char :: newline :: ind' ++ text ind' y0) l ++
            newline :: ind ++ "]"%char :: rest)
      with ((newline :: ind') ++ text ind' y ++
            flat_map (fun y0 => ","%char :: newline :: ind' ++ text ind' y0) l ++
            newline :: ind ++ "]"%char :: rest).
    rewrite (IHl HIH Hrep y (x :: acc) f Hy Ry) by lia.
    cbn [rev]. by rewrite <- app_assoc.
Qed.

Lemma more_members (ind' : list ascii) (k : string) (y : t)
      (l : list (string * t)) (tail : list ascii) :
  flat_map (member_text ind') ((k, y) :: l) ++ tail
  = ","%char :: newline :: ind' ++ quote k ++ chars ": " ++ text ind' y ++
    flat_map (member_text ind') l ++ tail.
Proof. cbn [flat_map member_text app]. by rewrite <- !app_assoc. Qed.

(** The members of an object after the first line break. *)
Lemma parse_members_text (ind ind' rest : list ascii) (l : list (string * t)) :
  forallb is_ws ind = true → forallb is_ws ind' = true →
  Forall (fun ky => reads_back (snd ky)) l →
  Forall (fun ky => representable (snd ky)) l →
  ∀ k x acc f,
    reads_back x → representable x →
    (S (S (weight x + fold_right (fun ky acc => S (weight (snd ky) + acc)) O l))
     <= f)%nat →
    parse_members f
      ((newline :: ind') ++ quote k ++ chars ": " ++ text ind' x ++
       flat_map (member_text ind') l ++
       newline :: ind ++ "}"%char :: rest) acc
    = Some (Object (enumerate (rev acc ++ (k, x) :: l)), rest).
Proof.
  intros Hind Hind' HIH Hrep.
  induction l as [|[k' y] l IHl]; intros k x acc f Hx Rx Hf;
    (destruct f as [|f]; [lia|]); cbn [parse_members];
    rewrite skip_ws_app by (by apply ws_line);
    rewrite quote_app, (skip_ws_head dquote) by reflexivity;
    cbv iota beta; change (Ascii.eqb dquote dquote) with true; cbv iota;
    rewrite parse_chars_quote;
    change (chars ": " ++ ?l) with (":"%char :: " "%char :: l);
    rewrite (skip_ws_head ":"%char) by reflexivity;
    cbv iota beta; change (Ascii.eqb ":" ":") with true; cbv iota.
  - cbn [flat_map]. rewrite app_nil_l.
    change (" "%char :: text ind' x ++ newline :: ind ++ "}"%char :: rest)
      with ([" "%char] ++ text ind' x ++ newline :: ind ++ "}"%char :: rest).
    rewrite (Hx Rx f [" "%char] ind' (newline :: ind ++ "}"%char :: rest));
      [| cbn [fold_right] in Hf; lia | reflexivity | done | reflexivity].
    change (newline :: ind ++ "}"%char :: rest)
      with ((newline :: ind) ++ "}"%char :: rest).
    rewrite skip_ws_app by by apply ws_line.
    rewrite (skip_ws_head "}"%char) by reflexivity.
    cbn -[enumerate]. reflexivity.
  - rewrite more_members. cbn [fold_right snd] in Hf.
    apply Forall_cons in HIH as [Hy HIH]. apply Forall_cons in Hrep as [Ry Hrep].
    cbn [snd] in Hy, Ry.
    change (" "%char :: text ind' x ++ ?l) with ([" "%char] ++ text ind' x ++ l).
    rewrite (Hx Rx f [" "%char] ind');
      [| lia | reflexivity | done | reflexivity].
    rewrite skip_ws_head by reflexivity.
    cbn -[text parse_members flat_map app quote enumerate].
    refine (eq_trans (IHl HIH Hrep k' y ((k, x) :: acc) f Hy Ry _) _); [lia|].
    cbn [rev]. by rewrite <- app_assoc.
Qed.

Lemma parse_value_array (f : nat) (ws r : list ascii) (c : ascii) (r' : list ascii) :
  forallb is_ws ws = true → skip_ws r = c :: r' → Ascii.eqb c "]" = false →
  parse_value (S f) (ws ++ "["%char :: r) = parse_elements f r [].
Proof.
  intros Hws Hr Hc. cbn [parse_value].
  rewrite skip_ws_app, (skip_ws_head "["%char) by done.
  cbv iota beta. change (Ascii.eqb "[" dquote) with false.
  change (Ascii.eqb "[" "[") with true. cbv iota. by rewrite Hr, Hc.
Qed.

Lemma parse_value_object (f : nat) (ws r : list ascii) (c : ascii) (r' : list ascii) :
  forallb is_ws ws = true → skip_ws r = c :: r' → Ascii.eqb c "}" = false →
  parse_value (S f) (ws ++ "{"%char :: r) = parse_members f r [].
Proof.
  intros Hws Hr Hc. cbn [parse_value].
  rewrite skip_ws_app, (skip_ws_head "{"%char) by done.
  cbv iota beta. change (Ascii.eqb "{" dquote) with false.
  change (Ascii.eqb "{" "[") with false.
  change (Ascii.eqb "{" "{") with true. cbv iota. by rewrite Hr, Hc.
Qed.

Lemma text_array (ind : list ascii) (x : t) (l : list t) (rest : list ascii) :
  text ind (Array (x :: l)) ++ rest
  = "["%char :: (newline :: ind ++ gap) ++ text (ind ++ gap) x ++
    flat_map (fun y => ","%char :: newline :: (ind ++ gap) ++ text (ind ++ gap) y) l ++
    newline :: ind ++ "]"%char :: rest.
Proof.
  cbn [text app]. rewrite <- !app_assoc. cbn [app].
  by rewrite <- !app_assoc.
Qed.

Lemma text_object (ind : list ascii) (k : string) (x : t)
      (l : list (string * t)) (rest : list ascii) :
  text ind (Object ((k, x) :: l)) ++ rest
  = "{"%char :: (newline :: ind ++ gap) ++ quote k ++ chars ": " ++
    text (ind ++ gap) x ++ flat_map (member_text (ind ++ gap)) l ++
    newline :: ind ++ "}"%char :: rest.
Proof.
  cbn [text app]. rewrite <- !app_assoc. cbn [app].
  by rewrite <- !app_assoc.
Qed.

(** Every representable value reads back. *)
Theorem parse_text (v : t) : reads_back v.
Proof.
  induction v as [|b|n|s|l IH|fs IH] using t_ind';
    intros Hv fuel ws ind rest Hfuel Hws Hind Hrest;
    (destruct fuel as [|f]; [lia|]).
  - rewrite parse_value_ws by done. reflexivity.
  - rewrite parse_value_ws by done. destruct b; reflexivity.
  - rewrite parse_value_ws by done. cbn [text].
    destruct (number_text_head n Hv) as (c & r & E & Hc).
    destruct (number_char_facts c Hc) as (H1 & H2 & H3 & H4 & _ & H6 & H7 & H8).
    pose proof (parse_number_text n rest Hv Hrest) as Hp.
    rewrite E in *. cbn [parse_value app] in *.
    rewrite skip_ws_head by done. cbv iota beta.
    rewrite H2, H3, H4. cbn [starts_with chars list_ascii_of_string].
    rewrite H6, H7, H8. exact Hp.
  - rewrite parse_value_ws by done. cbn [text]. rewrite quote_app.
    cbn [parse_value]. rewrite skip_ws_head by reflexivity. cbv iota beta.
    change (Ascii.eqb dquote dquote) with true. cbv iota.
    by rewrite parse_chars_quote.
  - destruct l as [|x l].
    { rewrite parse_value_ws by done. reflexivity. }
    apply representable_array, Forall_cons in Hv as [Rx Rl].
    apply Forall_cons in IH as [Hx IH].
    rewrite text_array.
    destruct (text_head (ind ++ gap) x Rx) as (c & r & E & Hc & Hc').
    erewrite (parse_value_array f ws _ c); [| done | | exact Hc'].
    + apply (parse_elements_text ind (ind ++ gap) rest l); try done.
      * by apply ws_gap.
      * cbn [weight fold_right] in Hfuel. lia.
    + rewrite skip_ws_app by (apply ws_line; by apply ws_gap).
      rewrite E. cbn [app]. by apply skip_ws_head.
  - destruct fs as [|[k x] fs].
    { rewrite parse_value_ws by done. reflexivity. }
    destruct Hv as [Henum Rfs].
    apply representable_fields, Forall_cons in Rfs as [Rx Rl].
    apply Forall_cons in IH as [Hx IH]. cbn [snd] in Hx, Rx.
    rewrite text_object.
    erewrite (parse_value_object f ws _ dquote);
      [| done | | reflexivity].
    + rewrite (parse_members_text ind (ind ++ gap) rest fs); try done.
      * cbn [rev app]. by rewrite Henum.
      * by apply ws_gap.
      * cbn [weight fold_right snd] in Hfuel. lia.
    + rewrite skip_ws_app by (apply ws_line; by apply ws_gap).
      rewrite quote_app. by apply skip_ws_head.
Qed.

(** The fuel [JSON.parse] starts with is enough for the text of a value. *)
Lemma weight_le_text (v : t) : ∀ ind, (weight v <= length (text ind v))%nat.
Proof.
  induction v as [|b|n|s|l IH|fs IH] using t_ind'; intros ind;
    try (cbn [weight]; lia).
  - destruct l as [|x l]; [cbn; lia|].
    apply Forall_cons in IH as [Hx IH].
    cbn [weight fold_right text length]. rewrite !length_app. cbn [length].
    specialize (Hx (ind ++ gap)).
    assert (H : (fold_right (fun x acc => S (weight x + acc)) O l
                 <= length (flat_map (fun y => ","%char :: newline :: (ind ++ gap)
                                               ++ text (ind ++ gap) y) l))%nat).
    { induction IH as [|y l Hy _ IHl]; [cbn; lia|].
      cbn [fold_right flat_map]. rewrite length_app. cbn [length].
      rewrite length_app. specialize (Hy (ind ++ gap)). lia. }
    lia.
  - destruct fs as [|[k x] fs]; [cbn; lia|].
    apply Forall_cons in IH as [Hx IH]. cbn [snd] in Hx.
    cbn [weight fold_right text length snd]. rewrite !length_app. cbn [length].
    rewrite !length_app.
    specialize (Hx (ind ++ gap)).
    assert (H : (fold_right (fun ky acc => S (weight (snd ky) + acc)) O fs
                 <= length (flat_map (member_text (ind ++ gap)) fs))%nat).
    { induction IH as [|[k' y] fs Hy _ IHl]; [cbn; lia|].
      cbn [fold_right flat_map member_text snd]. rewrite length_app.
      cbn [length]. rewrite !length_app. specialize (Hy (ind ++ gap)).
      cbn [snd] in Hy. lia. }
    unfold member_text in H. lia.
Qed.

(** [JSON.parse(JSON.stringify(v, null, 2))] is [v]. *)
Theorem parse_stringify (v : t) :
  representable v → parse (stringify v) = Some v.
Proof.
  intros Hv. unfold parse, stringify. rewrite chars_str, RegexFacts.length_str.
  pose proof (parse_text v Hv (S (length (text [] v))) [] [] []) as H.
  cbn [app] in H. rewrite app_nil_r in H. rewrite H; [reflexivity| |done..].
  pose proof (weight_le_text v []). lia.
Qed.

End JsonFacts.

(** ** Export and import of the circuit *)

Section CircuitFacts.

Context {host : Host}.

Import Circuit.

Lemma number_one_ok : Json.number_ok (Fin 1).
Proof. repeat split; vm_compute; (reflexivity || discriminate). Qed.

Lemma part_representable (c : component) :
  component_ok c → Json.representable (part c).
Proof.
  destruct c as [ty i a p]. intros (H1 & H2 & H3 & H4). cbn in H1, H2, H3, H4.
  unfold part, literal. cbn [type id attrs position].
  destruct (truthy a) eqn:Ea.
  - destruct a as [a|]; [|discriminate Ea].
    destruct ty as [ty|], i as [i|], p as [p|];
      (split; [reflexivity | cbn; tauto]).
  - destruct ty as [ty|], i as [i|], p as [p|];
      (split; [reflexivity | cbn; tauto]).
Qed.

Lemma connection_representable (w : wire) :
  wire_ok w → Json.representable (connection w).
Proof.
  destruct w as [f t c]. intros (H1 & H2 & H3). cbn in H1, H2, H3.
  unfold connection, literal. cbn [from to color].
  destruct f as [f|], t as [t|], c as [c|];
    (split; [reflexivity | cbn; tauto]).
Qed.

Lemma structure_representable (components : list component) (wires : list wire) :
  Forall component_ok components → Forall wire_ok wires →
  Json.representable (structure components wires).
Proof.
  intros Hc Hw. unfold structure. split; [reflexivity|].
  cbn [fold_right snd]. split; [exact number_one_ok|]. split; [exact I|].
  split; [|split; [|exact I]].
  - apply JsonFacts.representable_array, Forall_map.
    eapply Forall_impl; [exact Hc|]. apply part_representable.
  - apply JsonFacts.representable_array, Forall_map.
    eapply Forall_impl; [exact Hw|]. apply connection_representable.
Qed.

(** Claim C9: for components and wires whose properties are
    JSON-representable, importing the exported text yields the exported
    structure, with the same parts and the same connections in the same
    order, and reports nothing; importing a text that [JSON.parse] rejects
    yields no structure and hands every serial subscriber one error event. *)
Theorem circuit_round_trip
        (components : list component) (wires : list wire) (w : World) :
  Forall component_ok components → Forall wire_ok wires →
  importCircuit (exportCircuit components wires) w
  = (Some (structure components wires), w)
  ∧ get "parts" (structure components wires)
    = Some (Json.Array (map part components))
  ∧ get "connections" (structure components wires)
    = Some (Json.Array (map connection wires))
  ∧ ∀ text,
      Json.parse text = None →
      fst (importCircuit text w) = None ∧
      serialCalls (engine (snd (importCircuit text w)))
      = serialCalls (engine w)
        ++ map (fun listener =>
                  (listener,
                   serialBuffer (engine w) +:+ "[Error] Invalid circuit file: "
                     +:+ SyntaxError_message text,
                   "error"%string,
                   toFixed3 (num_div (Fin (inject_Z (now w - Engine.startTime (engine w))))
                                     (Fin 1000))))
               (serialListeners (engine w)).
Proof.
  intros Hc Hw. split; [|split; [reflexivity|split; [reflexivity|]]].
  - unfold importCircuit, exportCircuit.
    by rewrite (JsonFacts.parse_stringify _ (structure_representable _ _ Hc Hw)).
  - intros text Ht. unfold importCircuit. rewrite Ht. split; [reflexivity|].
    apply (handleSerial_flush _ "error"). reflexivity.
Qed.

End CircuitFacts.

Lemma circuit_round_trip_witness :
  let w := boot observed 0 [] in
  (Forall Circuit.component_ok [led] ∧ Forall Circuit.wire_ok [led_wire]) ∧
  importCircuit (host := sample_host) (Circuit.exportCircuit [led] [led_wire]) w
  = (Some (Circuit.structure [led] [led_wire]), w).
Proof.
  intros w.
  assert (H : Forall Circuit.component_ok [led] ∧ Forall Circuit.wire_ok [led_wire]).
  { split; repeat constructor; cbn;
      repeat split; vm_compute; (reflexivity || discriminate). }
  split; [exact H|].
  exact (proj1 (circuit_round_trip (host := sample_host) [led] [led_wire] w
                  (proj1 H) (proj2 H))).
Defined.

(** A text cut short is rejected and reported. *)
Example import_malformed :
  let r := importCircuit (host := sample_host) "{ [1, 2" (boot observed 0 []) in
  (fst r, serialCalls (engine (snd r)))
  = (None,
     [(0%nat, "[Error] Invalid circuit file: Unexpected end of JSON input"%string,
       "error"%string, "0.000"%string)]).
Proof. vm_compute. reflexivity. Qed.

(** ** The pin table: reads, writes, subscriptions and reset *)

Module PinLaws.

Import PinManager.

Import PinFacts.

(** On a declared pin, [digitalRead] after [digitalWrite] gives 1 for a
    truthy value and 0 for any other; the levels of the other pins, every
    analog reading and every mode are as before. *)
Theorem digitalWrite_read_back (pm : t) (pin v : jsval) :
  is_Some (pins pm !! String_ pin) →
  let pm' := digitalWrite pin v pm in
  digitalRead pin pm' = (if truthy v then one else zero) ∧
  (∀ other, String_ other ≠ String_ pin →
            digitalRead other pm' = digitalRead other pm) ∧
  (∀ any, analogRead any pm' = analogRead any pm) ∧
  (∀ k, mode <$> pins pm' !! k = mode <$> pins pm !! k).
Proof.
  intros [p Hp] pm'. subst pm'.
  change (digitalWrite pin v pm) with (apply_op pm (OpDigitalWrite pin v)).
  rewrite (apply_op_entry pm (OpDigitalWrite pin v) p Hp).
  cbn [notifies op_pin entry_after].
  split.
  { erewrite digitalRead_entry
      by (cbn [notify with_pins pins]; apply lookup_insert_eq).
    reflexivity. }
  split.
  { intros other Ho. apply digitalRead_ext; [|reflexivity].
    cbn [notify with_pins pins]. by rewrite lookup_insert_ne. }
  split.
  - intros any. unfold analogRead.
    destruct (decide (String_ any = String_ pin)) as [E|Hne].
    + rewrite E.
      erewrite lookup_entry
        by (cbn [notify with_pins pins]; apply lookup_insert_eq).
      by rewrite (lookup_entry _ _ _ Hp).
    + fold (analogRead any pm). apply analogRead_ext; [|reflexivity].
      cbn [notify with_pins pins]. by rewrite lookup_insert_ne.
  - intros k. cbn [notify with_pins pins].
    destruct (decide (k = String_ pin)) as [->|Hne].
    + by rewrite lookup_insert_eq, Hp.
    + by rewrite lookup_insert_ne.
Qed.

Lemma digitalWrite_read_back_witness :
  let pm' := digitalWrite (of_Z 13) (VStr "on") new in
  digitalRead (of_Z 13) pm' = (if truthy (VStr "on") then one else zero) ∧
  (∀ other, String_ other ≠ String_ (of_Z 13) →
            digitalRead other pm' = digitalRead other new) ∧
  (∀ any, analogRead any pm' = analogRead any new) ∧
  (∀ k, mode <$> pins pm' !! k = mode <$> pins new !! k).
Proof.
  apply (digitalWrite_read_back new (of_Z 13) (VStr "on")).
  vm_compute. eexists. reflexivity.
Defined.


(** Whatever value the user interface hands to [setAnalogValue] for a
    declared pin, [analogRead] then returns a number from 0 to 4095: the
    clamp of the value, and 0 when the value is not a number.  The levels
    are as before and no subscriber is called. *)
Theorem analog_input_in_range (pm : t) (pin v : jsval) :
  is_Some (pins pm !! String_ pin) →
  let pm' := setAnalogValue pin v pm in
  (∃ q, analogRead pin pm' = VNum (Fin q) ∧ (0 <= q <= 4095)%Q ∧
        (∀ c, clamp (Fin 0) (Fin 4095) (Number_ v) = Fin c → (q == c)%Q) ∧
        (is_nan (Number_ v) = true → (q == 0)%Q)) ∧
  (∀ any, digitalRead any pm' = digitalRead any pm) ∧
  calls pm' = calls pm.
Proof.
  intros [p Hp] pm'. subst pm'.
  change (setAnalogValue pin v pm) with (apply_op pm (OpSetAnalogValue pin v)).
  rewrite (apply_op_entry pm (OpSetAnalogValue pin v) p Hp).
  cbn [notifies op_pin entry_after].
  split; [|split; [|reflexivity]].
  - unfold analogRead.
    erewrite lookup_entry by (cbn [with_pins pins]; apply lookup_insert_eq).
    cbn [present read_analogValue analogValue set_analogValue or_zero].
    rewrite clamp_max_min by reflexivity.
    destruct (is_nan (Number_ v)) eqn:En.
    + destruct (Number_ v); try discriminate. cbn.
      exists 0%Q. repeat split; try discriminate.
    + destruct (clamp_range 4095 (Number_ v)) as (q & -> & Hq);
        [reflexivity|exact En|].
      cbn [truthy]. destruct (Qeq_bool q 0) eqn:E0; cbn [negb].
      * apply Qeq_bool_iff in E0. exists 0%Q. split; [reflexivity|].
        split; [split; [apply Qle_refl|done]|].
        split; [|discriminate]. intros c [= <-]. by symmetry.
      * exists q. split; [reflexivity|]. split; [exact Hq|].
        split; [|discriminate]. intros c [= <-]. reflexivity.
  - intros any. destruct (decide (String_ any = String_ pin)) as [E|Hne].
    + erewrite digitalRead_entry
        by (cbn [with_pins pins]; rewrite E; apply lookup_insert_eq).
      rewrite <- E in Hp. by rewrite (digitalRead_entry _ _ _ Hp).
    + apply digitalRead_ext; [|reflexivity].
      cbn [with_pins pins]. by rewrite lookup_insert_ne.
Qed.

Lemma analog_input_in_range_witness :
  let pm' := setAnalogValue (of_Z 34) (VStr "high") new in
  (∃ q, analogRead (of_Z 34) pm' = VNum (Fin q) ∧ (0 <= q <= 4095)%Q ∧
        (∀ c, clamp (Fin 0) (Fin 4095) (Number_ (VStr "high")) = Fin c →
              (q == c)%Q) ∧
        (is_nan (Number_ (VStr "high")) = true → (q == 0)%Q)) ∧
  (∀ any, digitalRead any pm' = digitalRead any new) ∧
  calls pm' = calls new.
Proof.
  apply (analog_input_in_range new (of_Z 34) (VStr "high")).
  vm_compute. eexists. reflexivity.
Defined.

(** Connecting a declared pin that is free records the component and the
    pin name, and disconnecting it again gives back the manager as it was. *)
Theorem connect_then_disconnect (pm : t) (pin : jsval) (c n : string) :
  connected <$> pins pm !! String_ pin = Some None →
  connected <$> pins (connectPin pin c n pm) !! String_ pin = Some (Some (c, n)) ∧
  disconnectPin pin (connectPin pin c n pm) = pm.
Proof.
  intros H. destruct (pins pm !! String_ pin) as [p|] eqn:Hp; [|discriminate].
  injection H as Hc.
  change (connectPin pin c n pm) with (apply_op pm (OpConnectPin pin c n)).
  rewrite (apply_op_entry pm (OpConnectPin pin c n) p Hp).
  cbn [notifies op_pin entry_after].
  change (disconnectPin pin ?x) with (apply_op x (OpDisconnectPin pin)).
  erewrite (apply_op_entry _ (OpDisconnectPin pin))
    by (cbn [with_pins pins op_pin]; apply lookup_insert_eq).
  cbn [notifies op_pin entry_after with_pins pins listeners calls inherited].
  rewrite !lookup_insert_eq. split; [reflexivity|].
  destruct pm as [m ls cs inh]. unfold with_pins.
  cbn [pins listeners calls inherited] in *.
  rewrite insert_insert_eq. f_equal.
  destruct p; cbn in *; subst. by apply insert_id.
Qed.

Lemma connect_then_disconnect_witness :
  connected <$> pins (connectPin (of_Z 2) "led-1" "anode" new) !! String_ (of_Z 2)
  = Some (Some ("led-1"%string, "anode"%string)) ∧
  disconnectPin (of_Z 2) (connectPin (of_Z 2) "led-1" "anode" new) = new.
Proof.
  apply (connect_then_disconnect new (of_Z 2) "led-1" "anode").
  vm_compute. reflexivity.
Defined.

(** [pinMode], [digitalWrite] and [analogWrite] call every subscriber once,
    in the order of subscription, with the pin and what [this.pins[pin]] is
    after the write, whenever [this.pins[pin]] is an object: an entry of the
    table, or an object inherited from [Object.prototype], as for the pin
    named constructor.  Where the lookup finds nothing, as for a name that
    is neither declared nor inherited while nothing has been written on
    [Object.prototype], and for [setAnalogValue], [connectPin] and
    [disconnectPin] always, no subscriber is called.  No operation changes
    the subscriptions. *)
Theorem subscribers_notified (pm : t) (o : op) :
  calls (apply_op pm o)
  = calls pm ++
    (if notifies o && writable (lookup pm (String_ (op_pin o)))
     then notified (op_pin o) (apply_op pm o) else []) ∧
  listeners (apply_op pm o) = listeners pm ∧
  (is_Some (pins pm !! String_ (op_pin o)) ∨
   is_inherited (String_ (op_pin o)) = true →
   writable (lookup pm (String_ (op_pin o))) = true) ∧
  (pins pm !! String_ (op_pin o) = None →
   is_inherited (String_ (op_pin o)) = false → inherited pm = ∅ →
   writable (lookup pm (String_ (op_pin o))) = false).
Proof.
  split; [|split; [apply listeners_apply_op|split]].
  - unfold notified.
    destruct o; cbn [apply_op notifies op_pin andb];
      unfold pinMode, digitalWrite, analogWrite, setAnalogValue, connectPin,
             disconnectPin; cbn zeta;
      destruct (writable (lookup pm (String_ pin))) eqn:W;
      rewrite ?app_nil_r; try reflexivity;
      cbn [notify calls listeners pins inherited];
      rewrite ?calls_assign, ?listeners_assign, ?app_nil_r; reflexivity.
  - intros [[p Hp]|Hi]; [by apply (writable_entry _ _ p)|].
    unfold lookup. rewrite Hi. by destruct (pins pm !! _).
  - intros Hk Hi He. by rewrite lookup_unknown.
Qed.

Lemma fold_insert_lookup {A} (key : A → string) (entry : A → Pin)
      (l : list A) (m : gmap string Pin) (k : string) :
  fold_left (fun (m : gmap string Pin) x => <[key x := entry x]> m) l m !! k
  = match fold_left (fun (m : gmap string Pin) x => <[key x := entry x]> m)
                    l ∅ !! k with
    | Some p => Some p
    | None => m !! k
    end.
Proof.
  revert m. induction l as [|x l IH]; intros m; cbn [fold_left].
  - by rewrite lookup_empty.
  - rewrite IH. rewrite (IH (<[key x := entry x]> ∅)).
    destruct (fold_left _ l ∅ !! k); [reflexivity|].
    destruct (decide (k = key x)) as [->|Hne].
    + by rewrite !lookup_insert_eq.
    + by rewrite !lookup_insert_ne, lookup_empty.
Qed.

(** [initPins] writes the entries of a fresh manager over the declared keys
    and leaves any other key alone. *)
Lemma initPins_lookup (pm : t) (k : string) :
  pins (initPins pm) !! k
  = match pins new !! k with Some p => Some p | None => pins pm !! k end.
Proof.
  unfold new, initPins. cbn [pins with_pins].
  destruct (decide (k = "VIN"%string)) as [->|H1]; [by rewrite !lookup_insert_eq|].
  rewrite !(lookup_insert_ne _ "VIN") by done.
  destruct (decide (k = "GND"%string)) as [->|H2]; [by rewrite !lookup_insert_eq|].
  rewrite !(lookup_insert_ne _ "GND") by done.
  destruct (decide (k = "3V3"%string)) as [->|H3]; [by rewrite !lookup_insert_eq|].
  rewrite !(lookup_insert_ne _ "3V3") by done.
  apply fold_insert_lookup.
Qed.

Lemma notify_all (l : list string) (pm : t) :
  let pm' := fold_left (fun pm pin => notify (VStr pin) pm) l pm in
  pins pm' = pins pm ∧ listeners pm' = listeners pm ∧
  calls pm' = calls pm ++ flat_map (fun k => notified (VStr k) pm) l.
Proof.
  revert pm. induction l as [|k l IH]; intros pm; cbn [fold_left flat_map].
  - by rewrite app_nil_r.
  - destruct (IH (notify (VStr k) pm)) as (H1 & H2 & H3).
    cbn zeta. rewrite H1, H2, H3. repeat split.
    unfold notify, notified. cbn [pins listeners calls]. by rewrite app_assoc.
Qed.

Lemma reset_lookup (pm : t) (k : string) :
  pins (reset pm) !! k
  = match pins new !! k with Some p => Some p | None => pins pm !! k end.
Proof.
  unfold reset. destruct (notify_all keys (initPins pm)) as (H1 & _).
  cbn zeta in H1. rewrite H1. apply initPins_lookup.
Qed.

(** [reset] gives every declared pin the entry it has in a fresh manager,
    whatever was written before, keeps the subscriptions, and calls every
    subscriber once for each of the keys, in the order of [Object.keys],
    with the fresh entry. *)
Theorem reset_restores (pm : t) :
  (∀ k, pins (reset pm) !! k
        = match pins new !! k with Some p => Some p | None => pins pm !! k end) ∧
  listeners (reset pm) = listeners pm ∧
  calls (reset pm)
  = calls pm ++
    flat_map (fun k => map (fun cb => (cb, VStr k, Entry <$> pins new !! k))
                           (listeners pm))
             keys.
Proof.
  unfold reset. destruct (notify_all keys (initPins pm)) as (H1 & H2 & H3).
  cbn zeta in *. rewrite H1, H2, H3. split; [apply initPins_lookup|].
  split; [reflexivity|]. cbn [initPins calls with_pins]. f_equal.
  clear H1 H2 H3.
  assert (Hk : Forall (fun k => is_Some (pins new !! k)) keys).
  { apply Forall_forall. intros k Hk. apply elem_of_dom.
    rewrite PinFacts.dom_new. by apply elem_of_list_to_set. }
  induction Hk as [|k l [p Hp] _ IH]; [reflexivity|].
  cbn [flat_map]. rewrite IH. f_equal. unfold notified.
  cbn [String_ listeners with_pins]. apply map_ext. intros cb.
  erewrite lookup_entry by (rewrite initPins_lookup, Hp; reflexivity).
  by rewrite Hp.
Qed.

(** The operations, the subscriptions and [reset] neither add a key to the
    pin table nor remove one: it always holds the declared pins, the
    twenty-six GPIOs and the three power rails. *)
Theorem pin_keys_fixed (pm : t) :
  pin_reachable pm → dom (pins pm) = list_to_set keys.
Proof.
  induction 1 as [|pm o _ IH|pm cb _ IH|pm _ IH].
  - apply PinFacts.dom_new.
  - rewrite <- IH. apply set_eq. intros k. rewrite !elem_of_dom.
    destruct (decide (k = String_ (op_pin o))) as [->|Hne];
      [|by rewrite PinFacts.apply_op_other].
    rewrite pins_apply_op.
    destruct (pins pm !! String_ (op_pin o)) as [p|] eqn:Hp;
      rewrite ?Hp, ?lookup_insert_eq;
      first [reflexivity | split; intros _; by eexists].
  - exact IH.
  - apply set_eq. intros k. rewrite elem_of_dom.
    rewrite reset_lookup.
    destruct (pins new !! k) as [p|] eqn:Hn.
    + split; [intros _|by eexists]. rewrite <- PinFacts.dom_new.
      apply elem_of_dom. by eexists.
    + rewrite <- elem_of_dom. by rewrite IH.
Qed.

Lemma pin_keys_fixed_witness :
  dom (pins (reset (apply_op (onChange 0 new) (OpPinMode (VStr "GND") "OUTPUT"))))
  = list_to_set keys.
Proof.
  apply (pin_keys_fixed
           (reset (apply_op (onChange 0 new) (OpPinMode (VStr "GND") "OUTPUT")))).
  apply reach_reset, reach_op, reach_onChange, reach_new.
Defined.

(** Two operations addressed to different pins leave the same pin table in
    either order. *)
Theorem writes_commute (pm : t) (o1 o2 : op) :
  String_ (op_pin o1) ≠ String_ (op_pin o2) →
  pins (apply_op (apply_op pm o1) o2) = pins (apply_op (apply_op pm o2) o1).
Proof.
  intros Hne.
  assert (Hown : ∀ pm pm' o,
            pins pm !! String_ (op_pin o) = pins pm' !! String_ (op_pin o) →
            pins (apply_op pm o) !! String_ (op_pin o)
            = pins (apply_op pm' o) !! String_ (op_pin o)).
  { intros a b o H. rewrite !pins_apply_op, <- H.
    destruct (pins a !! String_ (op_pin o)) as [p|] eqn:Hp;
      rewrite ?lookup_insert_eq; try done; by rewrite <- H. }
  apply map_eq. intros k.
  destruct (decide (k = String_ (op_pin o2))) as [->|H2].
  - rewrite (PinFacts.apply_op_other (apply_op pm o2) o1) by done.
    apply Hown. by rewrite PinFacts.apply_op_other.
  - rewrite (PinFacts.apply_op_other (apply_op pm o1) o2) by done.
    destruct (decide (k = String_ (op_pin o1))) as [->|H1].
    + apply Hown. by rewrite PinFacts.apply_op_other.
    + by rewrite !PinFacts.apply_op_other.
Qed.

Lemma writes_commute_witness :
  pins (apply_op (apply_op new (OpDigitalWrite (of_Z 2) one))
                 (OpPinMode (of_Z 4) "INPUT_PULLUP"))
  = pins (apply_op (apply_op new (OpPinMode (of_Z 4) "INPUT_PULLUP"))
                   (OpDigitalWrite (of_Z 2) one)).
Proof.
  apply (writes_commute new (OpDigitalWrite (of_Z 2) one)
                        (OpPinMode (of_Z 4) "INPUT_PULLUP")).
  vm_compute. discriminate.
Defined.

End PinLaws.

(** ** The statement extractor *)

Module TextFacts.

Lemma chars_app (a b : string) : chars (a +:+ b) = chars a ++ chars b.
Proof. induction a as [|c a IH]; simpl; [done|]. by rewrite IH. Qed.

Lemma str_app (a b : list ascii) : str (a ++ b) = str a +:+ str b.
Proof. induction a as [|c a IH]; simpl; [done|]. by rewrite IH. Qed.

Lemma skipn_length_app {A} (a b : list A) : skipn (length a) (a ++ b) = b.
Proof. induction a as [|x a IH]; [done|exact IH]. Qed.

Lemma firstn_length_app {A} (a b : list A) : firstn (length a) (a ++ b) = a.
Proof. induction a as [|x a IH]; [done|]. cbn. by rewrite IH. Qed.

End TextFacts.

Module ParserLaws.

Import ArduinoParser TextFacts.

(** The scan of [extractBlock] runs over a text with matching braces
    without ending, and leaves the depth as it was. *)
Lemma block_bounds_nested (a : list ascii) :
  nested a →
  ∀ rest i depth start,
    0 < depth →
    block_bounds (a ++ rest) i depth start
    = block_bounds rest (i + Z.of_nat (length a)) depth start.
Proof.
  induction 1 as [|c l Ho Hc _ IH|a l _ IHa _ IHl]; intros rest i depth start Hd.
  - cbn. by rewrite Z.add_0_r.
  - cbn [app block_bounds length].
    apply Ascii.eqb_neq in Ho, Hc. rewrite Ho, Hc, IH by done.
    f_equal. lia.
  - cbn [app block_bounds]. rewrite Ascii.eqb_refl.
    replace (depth =? 0) with false by (symmetry; apply Z.eqb_neq; lia).
    rewrite <- app_assoc, IHa by lia. cbn [app block_bounds].
    replace (Ascii.eqb "}" "{") with false by reflexivity.
    rewrite Ascii.eqb_refl.
    replace (depth + 1 - 1 =? 0) with false by (symmetry; apply Z.eqb_neq; lia).
    replace (depth + 1 - 1) with depth by lia.
    rewrite IHl by done. f_equal. cbn [length]. rewrite length_app. cbn [length]. lia.
Qed.

(** Called with the index of an opening brace, [extractBlock] returns the
    trimmed text up to the matching closing brace, whatever precedes the
    opening brace and whatever follows the closing one. *)
Theorem extractBlock_matching (pre body post : string) :
  nested (chars body) →
  extractBlock (pre +:+ "{" +:+ body +:+ "}" +:+ post) (String.length pre)
  = trim body.
Proof.
  intros Hb. unfold extractBlock.
  rewrite !chars_app. cbn [chars app].
  rewrite <- RegexFacts.length_chars, skipn_length_app.
  cbn [block_bounds]. rewrite Ascii.eqb_refl. cbn [Z.eqb].
  rewrite block_bounds_nested by (exact Hb || lia).
  cbn [block_bounds]. replace (Ascii.eqb "}" "{") with false by reflexivity.
  rewrite Ascii.eqb_refl. cbn [Z.sub Z.add Z.opp Z.eqb Z.pos_sub].
  f_equal. unfold substring.
  rewrite !chars_app. cbn [chars app].
  replace (Z.to_nat (Z.max 0 (Z.of_nat (length (chars pre)) + 1)))
    with (length (chars pre ++ ["{"%char])) by (rewrite length_app; cbn; lia).
  replace (chars pre ++ "{"%char :: chars body ++ "}"%char :: chars post)
    with ((chars pre ++ ["{"%char]) ++ chars body ++ "}"%char :: chars post)
    by (by rewrite <- app_assoc).
  rewrite skipn_length_app.
  replace (_ - _)%nat with (length (chars body))
    by (rewrite length_app; cbn; lia).
  rewrite firstn_length_app. apply string_of_list_ascii_of_string.
Qed.

Lemma extractBlock_matching_witness :
  extractBlock ("void setup() " +:+ "{" +:+ " if (x) { y = 1; } " +:+ "}" +:+ " }")
               (String.length "void setup() ")
  = trim " if (x) { y = 1; } ".
Proof.
  apply (extractBlock_matching "void setup() " " if (x) { y = 1; } " " }").
  cbn.
  repeat first
    [ apply nested_nil
    | apply nested_char; [discriminate|discriminate|]
    | apply (nested_block (chars " y = 1; ") (chars " ")) ].
Defined.


Lemma block_bounds_unclosed (l : list ascii) :
  "}"%char ∉ l → ∀ i depth start, block_bounds l i depth start = None.
Proof.
  induction l as [|c l IH]; intros Hc i depth start; [reflexivity|].
  cbn [block_bounds]. apply not_elem_of_cons in Hc as [Hc Hl].
  destruct (Ascii.eqb c "{"); [by apply IH|].
  destruct (Ascii.eqb_spec c "}") as [->|_]; [done|by apply IH].
Qed.

(** Without a closing brace at or after the start index, [extractBlock]
    returns the empty text. *)
Theorem extractBlock_unclosed (code : string) (startIdx : nat) :
  "}"%char ∉ skipn startIdx (chars code) → extractBlock code startIdx = ""%string.
Proof.
  intros H. unfold extractBlock. by rewrite block_bounds_unclosed.
Qed.

Lemma extractBlock_unclosed_witness :
  extractBlock "} void loop() { x = 1;" 1 = ""%string.
Proof.
  apply (extractBlock_unclosed "} void loop() { x = 1;" 1).
  cbn. intros H.
  repeat (apply elem_of_cons in H as [H|H]; [discriminate|]).
  by apply elem_of_nil in H.
Defined.

(** *** [splitArgs] *)

Lemma split_args_enclosed (a : list ascii) :
  enclosed a →
  ∀ rest depth cur,
    0 < depth →
    split_args (a ++ rest) depth cur = split_args rest depth (rev a ++ cur).
Proof.
  induction 1 as [|c l Ho Hc _ IH|a l _ IHa _ IHl]; intros rest depth cur Hd.
  - reflexivity.
  - cbn [app split_args rev]. apply Ascii.eqb_neq in Ho, Hc. rewrite Ho, Hc.
    replace (depth =? 0) with false by (symmetry; apply Z.eqb_neq; lia).
    rewrite andb_false_r, IH by done. by rewrite <- app_assoc.
  - cbn [app split_args]. rewrite Ascii.eqb_refl.
    rewrite <- app_assoc, IHa by lia. cbn [app split_args].
    replace (Ascii.eqb ")" "(") with false by reflexivity.
    rewrite Ascii.eqb_refl. replace (depth + 1 - 1) with depth by lia.
    rewrite IHl by done. f_equal. cbn [rev]. rewrite rev_app_distr. cbn [rev app].
    by rewrite <- !app_assoc.
Qed.

Lemma split_args_argument (a : list ascii) :
  argument a →
  ∀ rest cur, split_args (a ++ rest) 0 cur = split_args rest 0 (rev a ++ cur).
Proof.
  induction 1 as [|c l Ho Hc Hm _ IH|a l Ha _ IHl]; intros rest cur.
  - reflexivity.
  - cbn [app split_args rev]. apply Ascii.eqb_neq in Ho, Hc, Hm.
    rewrite Ho, Hc, Hm. cbn [andb]. rewrite IH. by rewrite <- app_assoc.
  - cbn [app split_args]. rewrite Ascii.eqb_refl.
    rewrite <- app_assoc, split_args_enclosed by (exact Ha || lia).
    cbn [app split_args]. replace (Ascii.eqb ")" "(") with false by reflexivity.
    rewrite Ascii.eqb_refl. cbn [Z.add Z.sub Z.opp Z.pos_sub].
    rewrite IHl. f_equal. cbn [rev]. rewrite rev_app_distr. cbn [rev app].
    by rewrite <- !app_assoc.
Qed.

(** [splitArgs] takes apart what [join] put together: for arguments
    whose parentheses match and whose commas all stand inside parentheses,
    it returns the arguments, each trimmed; a last argument that is blank is
    dropped. *)
Theorem splitArgs_join (args : list string) :
  Forall (fun a => argument (chars a)) args →
  splitArgs (Array_join "," args)
  = match reverse args with
    | [] => []
    | z :: front =>
        map trim (reverse front) ++
        (if String.eqb (trim z) "" then [] else [trim z])
    end.
Proof.
  intros Ha. unfold splitArgs.
  assert (Hone : ∀ a, argument (chars a) →
            split_args (chars a) 0 []
            = if String.eqb (trim a) "" then [] else [trim a]).
  { intros a H. rewrite <- (app_nil_r (chars a)), split_args_argument by done.
    cbn [split_args]. rewrite app_nil_r, rev_involutive.
    by rewrite string_of_list_ascii_of_string. }
  induction Ha as [|a l H Hl IH]; [reflexivity|].
  destruct l as [|b l].
  - cbn [Array_join]. by apply Hone.
  - change (Array_join "," (a :: b :: l)) with (a +:+ "," +:+ Array_join "," (b :: l)).
    rewrite !chars_app. cbn [chars app].
    rewrite split_args_argument by done. cbn [split_args].
    replace (Ascii.eqb "," "(") with false by reflexivity.
    replace (Ascii.eqb "," ")") with false by reflexivity.
    rewrite Ascii.eqb_refl. cbn [andb Z.eqb].
    rewrite app_nil_r, rev_involutive, string_of_list_ascii_of_string, IH.
    rewrite (reverse_cons (b :: l) a).
    destruct (reverse (b :: l)) as [|z front] eqn:Er.
    { apply (f_equal length) in Er. rewrite length_reverse in Er. discriminate. }
    cbn [app]. rewrite reverse_app. cbn [reverse app map].
    change (reverse [a]) with [a]. reflexivity.
Qed.

Lemma splitArgs_join_witness :
  splitArgs (Array_join "," ["map(potValue, 0, 4095, 0, 100)"; " counter + 1 "; " "])
  = match reverse ["map(potValue, 0, 4095, 0, 100)"; " counter + 1 "; " "]%string
    with
    | [] => []
    | z :: front =>
        map trim (reverse front) ++
        (if String.eqb (trim z) "" then [] else [trim z])
    end.
Proof.
  apply (splitArgs_join
           ["map(potValue, 0, 4095, 0, 100)"; " counter + 1 "; " "]%string).
  repeat (apply List.Forall_cons; [|]); [| | |apply List.Forall_nil]; cbn.
  - repeat first
      [ apply argument_nil
      | apply (argument_paren (chars "potValue, 0, 4095, 0, 100") []);
        [repeat first [apply enclosed_nil
                      | apply enclosed_char; [discriminate|discriminate|]]|]
      | apply argument_char; [discriminate|discriminate|discriminate|] ].
  - repeat first
      [ apply argument_nil
      | apply argument_char; [discriminate|discriminate|discriminate|] ].
  - repeat first
      [ apply argument_nil
      | apply argument_char; [discriminate|discriminate|discriminate|] ].
Defined.


(** *** [tokenize] *)

Lemma append_nonempty (a b : string) : a ≠ ""%string → a +:+ b ≠ ""%string.
Proof. by destruct a. Qed.

Lemma absorb_spec (lines : list string) :
  ∀ block n,
    block ≠ ""%string →
    fst (absorb block n lines) ≠ ""%string ∧
    (length (snd (absorb block n lines)) <= length lines)%nat.
Proof.
  induction lines as [|l rest IH]; intros block n Hb; cbn [absorb].
  - done.
  - destruct (0 <? n); [|done].
    destruct (IH (block +:+ String newline (trim l)) (n + brace_balance l))
      as [H1 H2]; [by apply append_nonempty|].
    split; [exact H1|]. cbn [length]. lia.
Qed.

Lemma tokenize_lines_spec (fuel : nat) :
  ∀ lines,
    Forall (fun s => s ≠ ""%string) (tokenize_lines fuel lines) ∧
    (length (tokenize_lines fuel lines) <= length lines)%nat.
Proof.
  induction fuel as [|fuel IH]; intros lines; cbn [tokenize_lines].
  { split; [constructor|cbn; lia]. }
  destruct lines as [|l rest]; [by split|].
  destruct (String.eqb (trim l) "") eqn:E0; cbn [orb].
  { destruct (IH rest) as [H1 H2]. split; [exact H1|cbn [length]; lia]. }
  apply String.eqb_neq in E0.
  destruct (String.eqb (trim l) "{" || String.eqb (trim l) "}").
  { destruct (IH rest) as [H1 H2]. split; [exact H1|cbn [length]; lia]. }
  destruct (Regex.test re_control (trim l)).
  - destruct (negb (includes (trim l) "{")).
    + destruct rest as [|next rest'].
      * split; [by repeat constructor|done].
      * destruct (IH rest') as [H1 H2]. split.
        -- constructor; [by apply append_nonempty|exact H1].
        -- cbn [length]. lia.
    + destruct (absorb (trim l) (brace_balance (trim l)) rest) as [block rest']
        eqn:Ea.
      destruct (absorb_spec rest (trim l) (brace_balance (trim l)) E0) as [A1 A2].
      rewrite Ea in A1, A2. cbn [fst snd] in A1, A2.
      destruct (IH rest') as [H1 H2]. split.
      * by constructor.
      * cbn [length]. lia.
  - destruct (IH rest) as [H1 H2].
    destruct (String.eqb (if endsWith (trim l) ";" then _ else _) "") eqn:E1.
    + split; [exact H1|cbn [length]; lia].
    + apply String.eqb_neq in E1. split; [by constructor|cbn [length]; lia].
Qed.

(** [tokenize] returns no empty statement, and at most one statement for
    each line of the text: what shares a line is one statement, whatever
    semicolons the line holds. *)
Theorem tokenize_by_lines (code : string) :
  Forall (fun s => s ≠ ""%string) (tokenize code) ∧
  (length (tokenize code) <= length (lines_of code))%nat.
Proof. apply tokenize_lines_spec. Qed.

(** *** [parse] *)

Lemma add_function_reserved (code : string) (ms : list Regex.result) :
  ∀ fs : gmap string func,
    fs !! "setup"%string = None → fs !! "loop"%string = None →
    fold_left (add_function code) ms fs !! "setup"%string = None ∧
    fold_left (add_function code) ms fs !! "loop"%string = None.
Proof.
  induction ms as [|m ms IH]; intros fs H1 H2; cbn [fold_left]; [done|].
  apply IH; unfold add_function;
    destruct (String.eqb (grp m 1) "setup") eqn:E1; cbn [orb]; try done;
    destruct (String.eqb (grp m 1) "loop") eqn:E2; try done;
    apply String.eqb_neq in E1, E2; by rewrite lookup_insert_ne.
Qed.

(** Whatever the text of the sketch, [parse] records no function under the
    name setup or loop, keeps the running flag, the start time and the speed
    of the parser, and takes nothing over from the tables of the sketch
    parsed before. *)
Theorem parse_reserved_names (code : string) (p : t) :
  functions (parse code p) !! "setup"%string = None ∧
  functions (parse code p) !! "loop"%string = None ∧
  (running (parse code p), startTime (parse code p), speed (parse code p))
  = (running p, startTime p, speed p) ∧
  ∀ q, (variables (parse code q), functions (parse code q),
        setupCode (parse code q), loopCode (parse code q))
       = (variables (parse code p), functions (parse code p),
          setupCode (parse code p), loopCode (parse code p)).
Proof.
  unfold parse. cbn [functions running startTime speed].
  destruct (add_function_reserved (strip_comments code)
              (Regex.matches re_func (strip_comments code)) ∅) as [H1 H2];
    [apply lookup_empty|apply lookup_empty|].
  by repeat split.
Qed.

End ParserLaws.

(** ** What an execution leaves as it is *)

Section Reads.

Context {host : Host}.

Local Open Scope interp_scope.

Variable R : World → World → Prop.
Hypothesis R_refl : ∀ w, R w w.
Hypothesis R_trans : ∀ a b c, R a b → R b c → R a c.
Hypothesis R_draw : ∀ w, R w (with_draw w).

Lemma respects_ret {A} (a : A) : respects R (ret a).
Proof. intros w. apply R_refl. Qed.

Lemma respects_ask {A} (f : World → A) : respects R (ask f).
Proof. intros w. apply R_refl. Qed.

Lemma respects_throw {A} (msg : string) : respects R (@throw A msg).
Proof. intros w. apply R_refl. Qed.

Lemma respects_timeout {A} : respects R (@timeout A).
Proof. intros w. exact I. Qed.

Lemma respects_bind {A B} (m : M A) (k : A → M B) :
  respects R m → (∀ a, respects R (k a)) → respects R (bind m k).
Proof.
  intros Hm Hk w. unfold bind. specialize (Hm w).
  destruct (m w) as [a w1|msg w1|]; [|exact Hm|exact I].
  specialize (Hk a w1). destruct (k a w1) as [b w2|msg w2|]; [| |exact I];
    by apply (R_trans _ w1).
Qed.

Lemma respects_random : respects R random.
Proof. intros w. apply R_draw. Qed.

Lemma respects_mapM {A B} (f : A → M B) (l : list A) :
  (∀ a, respects R (f a)) → respects R (mapM f l).
Proof.
  intros Hf. induction l as [|a l IH]; cbn [mapM]; [apply respects_ret|].
  apply respects_bind; [apply Hf|]. intros b.
  apply respects_bind; [apply IH|]. intros bs. apply respects_ret.
Qed.

Lemma respects_every {A} (f : A → M bool) (l : list A) :
  (∀ a, respects R (f a)) → respects R (every f l).
Proof.
  intros Hf. induction l as [|a l IH]; cbn [every]; [apply respects_ret|].
  apply respects_bind; [apply Hf|]. intros [|]; [apply IH|apply respects_ret].
Qed.

Lemma respects_some {A} (f : A → M bool) (l : list A) :
  (∀ a, respects R (f a)) → respects R (some f l).
Proof.
  intros Hf. induction l as [|a l IH]; cbn [some]; [apply respects_ret|].
  apply respects_bind; [apply Hf|]. intros [|]; [apply respects_ret|apply IH].
Qed.

Ltac reading IH :=
  repeat first
    [ apply respects_ret | apply respects_ask | apply respects_random
    | apply IH
    | apply respects_bind; [|intros ?]
    | match goal with
      | |- respects _ (if ?c then _ else _) => destruct c
      | |- respects _ (match ?x with _ => _ end) => destruct x
      end ].

Lemma respects_evaluateExpr (fuel : nat) (expr : string)
      (lv : gmap string jsval) :
  respects R (evaluateExpr fuel expr lv).
Proof.
  revert expr. induction fuel as [|fuel IH]; intros expr;
    [apply respects_timeout|].
  cbn [evaluateExpr]. reading IH.
Qed.

Lemma respects_evaluateCondition (fuel : nat) (expr : string)
      (lv : gmap string jsval) :
  respects R (evaluateCondition fuel expr lv).
Proof.
  revert expr. induction fuel as [|fuel IH]; intros expr;
    [apply respects_timeout|].
  cbn [evaluateCondition].
  destruct (includes (trim expr) "&&");
    [apply respects_every; intros p; apply IH|].
  destruct (includes (trim expr) "||");
    [apply respects_some; intros p; apply IH|].
  destruct (startsWith (trim expr) "!").
  { apply respects_bind; [apply IH|]. intros b. apply respects_ret. }
  destruct (first_op (trim expr)) as [[op idx]|];
    reading respects_evaluateExpr.
Qed.

Lemma respects_bind_params fuel ps args i lv fl :
  respects R (bind_params fuel ps args i lv fl).
Proof.
  revert i fl. induction ps as [|p ps IH]; intros i fl; cbn [bind_params];
    [apply respects_ret|].
  apply respects_bind; [|intros v; apply IH].
  reading respects_evaluateExpr.
Qed.

End Reads.

Section ExecutionInvariants.

Context {host : Host}.

Local Open Scope interp_scope.

Variable R : World → World → Prop.
Hypothesis HR : closed R.

Lemma respects_serial (text type : string) :
  respects R (effect (handleSerial text type)).
Proof. intros w. apply (closed_serial R HR). Qed.

Lemma respects_on_pins (o : PinManager.op) :
  notifies o = true → respects R (on_pins o).
Proof.
  intros Ho w. unfold on_pins.
  destruct (PinManager.fault _ o) as [[field v]|];
    [apply (closed_refl R HR)|by apply (closed_pins R HR)].
Qed.

Lemma respects_sleep (ms : num) : respects R (sleep ms).
Proof. apply (closed_suspend R HR). Qed.

Lemma respects_store name f lv : respects R (store name f lv).
Proof.
  unfold store.
  destruct (lv !! name); [apply respects_ret, (closed_refl R HR)|].
  intros w. destruct (f _); [apply (closed_variables R HR)|apply (closed_refl R HR)].
Qed.

Lemma respects_guard {A} (a : A) (m : M A) :
  respects R m →
  respects R (fun w => if negb (is_running w) then Ok a w else m w).
Proof.
  intros Hm w. destruct (negb (is_running w)); [apply (closed_refl R HR)|apply Hm].
Qed.

Lemma closed_evaluateExpr fuel expr lv : respects R (evaluateExpr fuel expr lv).
Proof.
  apply respects_evaluateExpr;
    [apply (closed_refl R HR)|apply (closed_trans R HR)|apply (closed_random R HR)].
Qed.

Lemma closed_evaluateCondition fuel expr lv :
  respects R (evaluateCondition fuel expr lv).
Proof.
  apply respects_evaluateCondition;
    [apply (closed_refl R HR)|apply (closed_trans R HR)|apply (closed_random R HR)].
Qed.

Lemma closed_bind {A B} (m : M A) (k : A → M B) :
  respects R m → (∀ a, respects R (k a)) → respects R (bind m k).
Proof. apply respects_bind, (closed_trans R HR). Qed.

Lemma closed_ret {A} (a : A) : respects R (ret a).
Proof. apply respects_ret, (closed_refl R HR). Qed.

Ltac respect :=
  repeat first
    [ apply closed_ret | apply respects_ask, (closed_refl R HR)
    | apply respects_throw, (closed_refl R HR)
    | apply respects_serial | apply respects_sleep | apply respects_store
    | apply closed_evaluateExpr
    | apply closed_bind; [|intros ?]
    | match goal with
      | |- respects _ (if ?c then _ else _) => destruct c
      | |- respects _ (match ?x with _ => _ end) => destruct x
      end ].

(** Every function of the executor respects a relation that is closed under
    the elementary steps. *)
Lemma executor_respects (fuel : nat) :
  (∀ stmts lv, respects R (execute fuel stmts lv)) ∧
  (∀ stmt lv, respects R (executeStatement fuel stmt lv)) ∧
  (∀ cond step body lv, respects R (for_loop fuel cond step body lv)) ∧
  (∀ cond body n lv, respects R (while_loop fuel cond body n lv)) ∧
  (∀ stmt lv, respects R (executeIfElse fuel stmt lv)).
Proof.
  induction fuel as [|fuel (IHe & IHs & IHf & IHw & IHi)].
  { repeat split; intros; apply respects_timeout. }
  repeat split.
  - intros stmts lv. cbn [execute]. destruct stmts as [|stmt rest];
      [apply closed_ret|].
    apply respects_guard. apply closed_bind; [apply IHs|intros ?; apply IHe].
  - intros stmt lv. cbn [executeStatement]. apply respects_guard.
    destruct (classify stmt); respect;
      lazymatch goal with
      | |- respects _ (on_pins ?o) => exact (respects_on_pins o eq_refl)
      | |- respects _ (mapM _ _) =>
          apply respects_mapM;
          [apply (closed_refl R HR)|apply (closed_trans R HR)
          |intros; apply closed_evaluateExpr]
      | |- respects _ (bind_params _ _ _ _ _ _) =>
          apply respects_bind_params;
          [apply (closed_refl R HR)|apply (closed_trans R HR)
          |apply (closed_random R HR)]
      | |- respects _ (executeIfElse _ _ _) => apply IHi
      | |- respects _ (executeStatement _ _ _) => apply IHs
      | |- respects _ (for_loop _ _ _ _ _) => apply IHf
      | |- respects _ (while_loop _ _ _ _ _) => apply IHw
      | |- respects _ (execute _ _ _) => apply IHe
      end.
  - intros cond step body lv. cbn [for_loop]. apply respects_guard.
    apply closed_bind; [apply closed_evaluateCondition|]. intros [|];
      [|apply closed_ret].
    apply closed_bind; [apply IHe|]. intros lv1.
    apply closed_bind; [apply IHs|]. intros lv2.
    apply closed_bind; [apply respects_sleep|]. intros _. apply IHf.
  - intros cond body n lv. cbn [while_loop]. apply respects_guard.
    apply closed_bind; [apply closed_evaluateCondition|]. intros [|];
      [|apply closed_ret].
    apply closed_bind; [apply IHe|]. intros lv1.
    apply closed_bind; [|intros _; apply IHw].
    destruct (_ =? _); [apply respects_sleep|apply closed_ret].
  - intros stmt lv. cbn [executeIfElse].
    destruct (classify_if stmt) as [c b r|b|]; [| apply IHe | apply closed_ret].
    apply closed_bind; [apply closed_evaluateCondition|]. intros [|];
      [apply IHe|].
    destruct (_ || _); [apply IHi|apply closed_ret].
Qed.

Lemma run_loop_respects (fuel : nat) : respects R (run_loop fuel).
Proof.
  induction fuel as [|n IH]; [intros w; exact I|].
  cbn [run_loop]. intros w.
  destruct (negb (Engine.running (engine w))); [apply (closed_refl R HR)|].
  revert w. fold (respects R
    (let* loopCode := ask (fun w => ArduinoParser.loopCode (parser (engine w))) in
     execute (S n) loopCode ∅;; suspend (Fin 1);; run_loop n)%interp).
  apply closed_bind; [apply respects_ask, (closed_refl R HR)|]. intros code.
  apply closed_bind; [apply executor_respects|]. intros _.
  apply closed_bind; [apply (closed_suspend R HR)|]. intros _. exact IH.
Qed.

End ExecutionInvariants.

Section Frames.

Context {host : Host}.

(** The operations that neither connect nor disconnect leave the wiring of
    every pin and the subscriptions as they are. *)
Lemma apply_op_wiring (pm : PinManager.t) (o : PinManager.op) (k : string) :
  match o with
  | PinManager.OpConnectPin _ _ _ | PinManager.OpDisconnectPin _ => False
  | _ => True
  end →
  wiring <$> PinManager.pins (PinManager.apply_op pm o) !! k
  = wiring <$> PinManager.pins pm !! k.
Proof.
  intros Ho.
  destruct (decide (k = String_ (PinManager.op_pin o))) as [->|Hne];
    [|by rewrite PinFacts.apply_op_other].
  rewrite PinFacts.pins_apply_op.
  destruct o; try contradiction; cbn [PinManager.op_pin PinManager.entry_after];
    destruct (PinManager.pins pm !! String_ pin) as [p|] eqn:Hp;
    rewrite ?Hp, ?lookup_insert_eq; reflexivity.
Qed.

Lemma apply_op_listeners (pm : PinManager.t) (o : PinManager.op) :
  PinManager.listeners (PinManager.apply_op pm o) = PinManager.listeners pm.
Proof.
  apply PinFacts.listeners_apply_op.
Qed.

Lemma same_frame_refl (w : World) : same_frame w w.
Proof. by repeat split. Qed.

Lemma same_frame_trans (a b c : World) :
  same_frame a b → same_frame b c → same_frame a c.
Proof.
  unfold same_frame.
  intros (A1 & A2 & A3 & A4 & A5 & A6 & A7 & A8 & A9 & A10)
         (B1 & B2 & B3 & B4 & B5 & B6 & B7 & B8 & B9 & B10).
  repeat split; try congruence; intros k; by rewrite B10.
Qed.

Lemma same_frame_perform (a : action) (w : World) : same_frame w (perform a w).
Proof.
  destruct a as [|s|pin v]; cbn [perform].
  - by repeat split.
  - by repeat split.
  - unfold same_frame. cbn. repeat split.
    + apply (apply_op_listeners _ (PinManager.OpSetAnalogValue pin v)).
    + intros k. by apply (apply_op_wiring _ (PinManager.OpSetAnalogValue pin v)).
Qed.

Lemma same_frame_performs (l : list (Z * action)) (w : World) :
  same_frame w (fold_left (fun w ta => perform (snd ta) w) l w).
Proof.
  revert w. induction l as [|ta l IH]; intros w; cbn [fold_left];
    [apply same_frame_refl|].
  eapply same_frame_trans; [apply same_frame_perform|apply IH].
Qed.

Lemma closed_same_frame : closed same_frame.
Proof.
  split.
  - apply same_frame_refl.
  - apply same_frame_trans.
  - intros text type w. unfold handleSerial.
    destruct (String.eqb type "print"); by repeat split.
  - intros o w Ho. unfold same_frame, with_pin_op. cbn. repeat split.
    + apply apply_op_listeners.
    + intros k. apply apply_op_wiring. by destruct o.
  - intros vars w. by repeat split.
  - intros w. by repeat split.
  - intros d w. unfold suspend.
    exact (same_frame_performs _ w).
Qed.

(** No statement of a sketch, and no action of the user during a
    suspension, writes to the parsed program, to the start times, to the
    subscriptions, to the peripherals, or to the number, the ADC and DAC
    marks and the connection of a pin - whether the execution returns or
    throws, and for the run loop as for a list of statements. *)
Theorem execution_frame (fuel : nat) (stmts : list string)
        (lv : gmap string jsval) :
  respects same_frame (execute fuel stmts lv) ∧
  respects same_frame (run_loop fuel).
Proof.
  split; [apply (executor_respects same_frame closed_same_frame)|].
  apply (run_loop_respects same_frame closed_same_frame).
Qed.


(** *** The controls *)

Lemma apply_op_analog (pm : PinManager.t) (o : PinManager.op) (k : string) :
  notifies o = true →
  PinManager.analogValue <$> PinManager.pins (PinManager.apply_op pm o) !! k
  = PinManager.analogValue <$> PinManager.pins pm !! k.
Proof.
  intros Ho.
  destruct (decide (k = String_ (PinManager.op_pin o))) as [->|Hne];
    [|by rewrite PinFacts.apply_op_other].
  rewrite PinFacts.pins_apply_op.
  destruct o; try discriminate; cbn [PinManager.op_pin PinManager.entry_after];
    destruct (PinManager.pins pm !! String_ pin) as [p|] eqn:Hp;
    rewrite ?Hp, ?lookup_insert_eq; reflexivity.
Qed.

Lemma same_controls_refl (w : World) : same_controls w w.
Proof. by repeat split. Qed.

Lemma closed_undisturbed : closed undisturbed.
Proof.
  split.
  - intros w Ha. split; [exact Ha|apply same_controls_refl].
  - intros a b c Hab Hbc Ha. destruct (Hab Ha) as (Hb & A1 & A2 & A3 & A4 & A5).
    destruct (Hbc Hb) as (Hc & B1 & B2 & B3 & B4 & B5).
    split; [exact Hc|]. repeat split; try congruence; intros k; by rewrite B5.
  - intros text type w Ha. unfold handleSerial.
    destruct (String.eqb type "print"); by repeat split.
  - intros o w Ho Ha. split; [exact Ha|]. unfold same_controls, with_pin_op. cbn.
    repeat split. intros k. by apply apply_op_analog.
  - intros vars w Ha. by repeat split.
  - intros w Ha. by repeat split.
  - intros d w. unfold suspend. intros Ha. rewrite Ha. cbn. by repeat split.
Qed.

(** While the user does nothing, no statement of a sketch changes a running
    flag, the speed or the analog value of a pin: a sketch can neither stop
    itself nor write its own analog inputs. *)
Theorem sketch_keeps_controls (fuel : nat) (stmts : list string)
        (lv : gmap string jsval) :
  respects undisturbed (execute fuel stmts lv) ∧
  respects undisturbed (run_loop fuel).
Proof.
  split; [apply (executor_respects undisturbed closed_undisturbed)|].
  apply (run_loop_respects undisturbed closed_undisturbed).
Qed.

Lemma run_loop_goes_on (fuel : nat) (w : World) :
  agenda w = [] → Engine.running (engine w) = true →
  ∀ u w', run_loop fuel w ≠ Ok u w'.
Proof.
  revert w. induction fuel as [|n IH]; intros w Ha Hr u w'; [discriminate|].
  cbn [run_loop]. rewrite Hr. cbn [negb]. unfold bind at 1, ask at 1.
  unfold bind at 1.
  pose proof (executor_respects undisturbed closed_undisturbed (S n)) as (He & _).
  specialize (He (ArduinoParser.loopCode (parser (engine w))) ∅ w).
  destruct (execute (S n) _ ∅ w) as [lv w1|msg w1|]; [|discriminate|discriminate].
  destruct (He Ha) as (Ha1 & Hr1 & _).
  unfold bind at 1. unfold suspend at 1. rewrite Ha1. cbn [List.filter fold_left].
  apply IH; [reflexivity|]. cbn [engine]. congruence.
Qed.

(** While the user does nothing, the run loop does not end by itself: when
    [start] returns, it returns through its [catch] block, with the error
    reported and the running flag still set. *)
Theorem run_ends_in_error (fuel : nat) (code : string) (w w' : World) :
  agenda w = [] → Engine.running (engine w) = false →
  start fuel code w = Ok tt w' →
  ∃ msg w1,
    run_sketch fuel code (launch w) = Throw msg w1 ∧
    w' = notifyStatus "error" (handleSerial ("[Error] " +:+ msg) "error" w1) ∧
    Engine.running (engine w') = true.
Proof.
  intros Ha Hr Hs. unfold start in Hs. rewrite Hr in Hs.
  assert (Hx : ∀ msg w1, run_sketch fuel code (launch w) = Throw msg w1 →
                         Engine.running (engine w1) = true).
  { intros msg w1. unfold run_sketch. unfold bind at 1, effect at 1.
    set (w0 := with_engine _ (launch w)).
    assert (H0 : agenda w0 = [] ∧ Engine.running (engine w0) = true)
      by (split; [exact Ha|reflexivity]).
    clearbody w0. destruct H0 as [Ha0 Hr0].
    unfold bind at 1. unfold bind at 1, ask at 1.
    pose proof (executor_respects undisturbed closed_undisturbed fuel) as (He & _).
    specialize (He (ArduinoParser.setupCode (parser (engine w0))) ∅ w0).
    destruct (execute fuel _ ∅ w0) as [lv w2|msg2 w2|]; [| |discriminate].
    - destruct (He Ha0) as (Ha2 & Hr2 & _).
      pose proof (run_loop_respects undisturbed closed_undisturbed fuel w2) as Hl.
      destruct (run_loop fuel w2) as [u w3|msg3 w3|]; try discriminate.
      intros [= -> ->]. destruct (Hl Ha2) as (_ & Hr3 & _). congruence.
    - intros [= -> ->]. destruct (He Ha0) as (_ & Hr2 & _). congruence. }
  assert (Hy : ∀ u w1, run_sketch fuel code (launch w) ≠ Ok u w1).
  { intros u w1. unfold run_sketch. unfold bind at 1, effect at 1.
    set (w0 := with_engine _ (launch w)).
    assert (H0 : agenda w0 = [] ∧ Engine.running (engine w0) = true)
      by (split; [exact Ha|reflexivity]).
    clearbody w0. destruct H0 as [Ha0 Hr0].
    unfold bind at 1. unfold bind at 1, ask at 1.
    pose proof (executor_respects undisturbed closed_undisturbed fuel) as (He & _).
    specialize (He (ArduinoParser.setupCode (parser (engine w0))) ∅ w0).
    destruct (execute fuel _ ∅ w0) as [lv w2|msg2 w2|]; [|discriminate|discriminate].
    destruct (He Ha0) as (Ha2 & Hr2 & _).
    apply run_loop_goes_on; [exact Ha2|congruence]. }
  destruct (run_sketch fuel code (launch w)) as [u w1|msg w1|] eqn:E;
    [by destruct (Hy u w1)| |discriminate].
  injection Hs as <-. exists msg, w1. split; [reflexivity|].
  specialize (Hx msg w1 eq_refl).
  assert (Hf : Engine.running
                 (engine (notifyStatus "error"
                            (handleSerial ("[Error] " +:+ msg) "error" w1))) = true).
  { unfold handleSerial. cbn. exact Hx. }
  unfold finish. rewrite Hf. cbn [negb]. split; [reflexivity|exact Hf].
Qed.

(** *** Expressions *)

Lemma same_engine_refl (w : World) : same_engine w w.
Proof. by repeat split. Qed.

Lemma same_engine_trans (a b c : World) :
  same_engine a b → same_engine b c → same_engine a c.
Proof.
  intros (A1 & A2 & A3) (B1 & B2 & B3). repeat split; congruence.
Qed.

(** The evaluation of an expression ends with a value, for every text and
    with any fuel beyond the length of the text, and it is a read: it
    leaves the engine, the clock and the pending actions as they are. *)
Theorem evaluation_reads (fuel : nat) (expr : string)
        (lv : gmap string jsval) (w : World) :
  (String.length expr < fuel)%nat →
  ∃ v w', evaluateExpr fuel expr lv w = Ok v w' ∧ same_engine w w'.
Proof.
  intros Hf. destruct (evaluateExpr_returns fuel expr lv Hf w) as (v & w' & E).
  exists v, w'. split; [exact E|].
  pose proof (respects_evaluateExpr same_engine same_engine_refl
                same_engine_trans (fun w => same_engine_refl w) fuel expr lv w) as H.
  by rewrite E in H.
Qed.

End Frames.

Lemma run_ends_in_error_witness :
  let w := boot observed 1000 [] in
  let w' := returned_in (start (host := sample_host) 20 faulty_sketch w) w in
  (agenda w = [] ∧ Engine.running (engine w) = false ∧
   start (host := sample_host) 20 faulty_sketch w = Ok tt w') ∧
  ∃ msg w1,
    run_sketch (host := sample_host) 20 faulty_sketch (launch w) = Throw msg w1 ∧
    w' = notifyStatus "error" (handleSerial ("[Error] " +:+ msg) "error" w1) ∧
    Engine.running (engine w') = true.
Proof.
  intros w w'.
  assert (H : agenda w = [] ∧ Engine.running (engine w) = false ∧
              start (host := sample_host) 20 faulty_sketch w = Ok tt w')
    by (split; [|split]; vm_compute; reflexivity).
  split; [exact H|].
  exact (run_ends_in_error (host := sample_host) 20 faulty_sketch w w'
           (proj1 H) (proj1 (proj2 H)) (proj2 (proj2 H))).
Defined.

Lemma evaluation_reads_witness :
  ∃ v w', evaluateExpr (host := sample_host) 40
            "map(analogRead(34), 0, 4095, 0, 100)" ∅ (boot observed 0 [])
          = Ok v w' ∧ same_engine (boot observed 0 []) w'.
Proof.
  apply (evaluation_reads (host := sample_host) 40
           "map(analogRead(34), 0, 4095, 0, 100)" ∅ (boot observed 0 [])).
  vm_compute. lia.
Defined.

(** ** The engine: reset and peripherals *)

Section Lifecycle.

Context {host : Host}.

(** [reset] stops the run and notifies stopped and then idle; it empties
    the global variables and the serial buffer, gives every declared pin
    its initial entry and calls the reset hook of the peripherals that have
    one, in the order of registration.  The parsed program, the start time,
    the speed, the subscriptions and the peripherals stay. *)
Theorem reset_clears (w : World) :
  let e := engine w in
  let e' := engine (reset w) in
  Engine.running e' = false ∧
  is_running (reset w) = false ∧
  variables_of (reset w) = ∅ ∧
  serialBuffer e' = ""%string ∧
  (∀ k, PinManager.pins (pinManager e') !! k
        = match PinManager.pins PinManager.new !! k with
          | Some p => Some p
          | None => PinManager.pins (pinManager e) !! k
          end) ∧
  statusCalls e'
  = statusCalls e ++ map (fun cb => (cb, "stopped"%string)) (statusListeners e)
                  ++ map (fun cb => (cb, "idle"%string)) (statusListeners e) ∧
  peripheralResets e'
  = peripheralResets e
    ++ map fst (List.filter (fun ip => has_reset (snd ip)) (peripherals e)) ∧
  same_frame_program w (reset w).
Proof.
  cbn zeta. unfold reset, stop, notifyStatus, variables_of, is_running.
  cbn -[PinManager.reset PinManager.new].
  repeat split.
  - intros k. unfold PinManager.reset.
    destruct (PinLaws.notify_all PinManager.keys
                (PinManager.initPins (pinManager (engine w)))) as (H1 & _).
    cbn zeta in H1. rewrite H1. apply PinLaws.initPins_lookup.
  - by rewrite <- app_assoc.
  - generalize (peripheralResets (engine w)).
    induction (peripherals (engine w)) as [|[id p] l IH]; intros acc;
      cbn [fold_left List.filter map].
    + by rewrite app_nil_r.
    + rewrite IH. unfold call_reset. cbn [fst snd].
      destruct (has_reset p); cbn [map fst]; [|reflexivity].
      by rewrite <- app_assoc.
Qed.


(** *** Peripherals *)

Lemma map_get_set {A} (id : string) (x : A) (l : list (string * A)) :
  map_get id (map_set id x l) = Some x.
Proof.
  unfold map_get. induction l as [|[k y] l IH]; cbn [map_set List.find fst].
  - by rewrite String.eqb_refl.
  - destruct (String.eqb k id) eqn:E; cbn [List.find fst]; rewrite E; [done|exact IH].
Qed.

Lemma map_delete_set {A} (id : string) (x : A) (l : list (string * A)) :
  map_get id l = None → map_delete id (map_set id x l) = l.
Proof.
  unfold map_get, map_delete.
  induction l as [|[k y] l IH]; cbn [map_set List.find List.filter fst]; intros H.
  - by rewrite String.eqb_refl.
  - destruct (String.eqb k id) eqn:E; [discriminate|].
    cbn [List.filter fst]. rewrite E. cbn [negb]. f_equal. by apply IH.
Qed.

Lemma pin_manager_eq (a b : PinManager.t) :
  PinManager.pins a = PinManager.pins b →
  PinManager.listeners a = PinManager.listeners b →
  PinManager.calls a = PinManager.calls b →
  PinManager.inherited a = PinManager.inherited b → a = b.
Proof. destruct a, b. cbn. by intros -> -> -> ->. Qed.

(** On a settled pin an operation of the bookkeeping does not throw, calls
    nobody and writes on no inherited object. *)
Lemma bookkeeping_settled (pm : PinManager.t) (o : PinManager.op) :
  bookkeeping o → settled pm (PinManager.op_pin o) →
  PinManager.fault pm o = None ∧
  PinManager.inherited (PinManager.apply_op pm o) = PinManager.inherited pm ∧
  PinManager.calls (PinManager.apply_op pm o) = PinManager.calls pm.
Proof.
  intros Ho Hs. unfold settled in Hs. unfold PinManager.fault.
  destruct o; try contradiction;
    cbn [PinManager.apply_op PinManager.op_pin] in *;
    unfold PinManager.connectPin, PinManager.disconnectPin,
           PinManager.assign; cbn zeta;
    destruct (PinManager.lookup pm (String_ pin)) as [[q|k own|c0|v|]|];
    try contradiction; cbn [PinManager.writable]; rewrite ?Hs; done.
Qed.

(** An operation that writes on no inherited object leaves every settled
    pin settled. *)
Lemma settled_apply_op (pm : PinManager.t) (o : PinManager.op) (pin : jsval) :
  PinManager.inherited (PinManager.apply_op pm o) = PinManager.inherited pm →
  settled pm pin → settled (PinManager.apply_op pm o) pin.
Proof.
  intros Hi. unfold settled, PinManager.lookup, PinManager.proto,
    PinManager.written.
  rewrite Hi, PinFacts.pins_apply_op.
  destruct (PinManager.pins pm !! String_ (PinManager.op_pin o)) as [q|] eqn:Hq;
    [|done].
  destruct (decide (String_ pin = String_ (PinManager.op_pin o))) as [->|Hne].
  - by rewrite lookup_insert_eq, Hq.
  - by rewrite lookup_insert_ne.
Qed.

(** Over settled pins the loop of the bookkeeping runs to its end. *)
Lemma each_pin_settled (o : jsval → PinManager.op) (l : list jsval) :
  (∀ pin, bookkeeping (o pin) ∧ PinManager.op_pin (o pin) = pin) →
  ∀ pm,
    Forall (settled pm) l →
    let pm' := fold_left (fun pm pin => PinManager.apply_op pm (o pin)) l pm in
    each_pin o l pm = (pm', true) ∧
    PinManager.inherited pm' = PinManager.inherited pm ∧
    PinManager.calls pm' = PinManager.calls pm ∧
    PinManager.listeners pm' = PinManager.listeners pm ∧
    ∀ pin, settled pm pin → settled pm' pin.
Proof.
  intros Ho. induction l as [|pin l IH]; intros pm Hl; cbn [fold_left each_pin].
  - done.
  - apply Forall_cons in Hl as [Hpin Hl].
    destruct (Ho pin) as [Hb Hp].
    destruct (bookkeeping_settled pm (o pin) Hb) as (F & I & C);
      [by rewrite Hp|].
    rewrite F.
    assert (Hl' : Forall (settled (PinManager.apply_op pm (o pin))) l).
    { eapply Forall_impl; [exact Hl|]. intros x. by apply settled_apply_op. }
    destruct (IH _ Hl') as (E & I' & C' & L' & S').
    cbn zeta in *. rewrite E, I', C', L', I, C, PinFacts.listeners_apply_op.
    repeat split. intros x Hx. apply S'. by apply settled_apply_op.
Qed.

(** The table after the loop: the marked entries are those of the pins of
    the list. *)
Lemma fold_bookkeeping (o : jsval → PinManager.op) (f : PinManager.Pin → PinManager.Pin)
      (l : list jsval) :
  (∀ pin, PinManager.op_pin (o pin) = pin ∧
          ∀ q, PinManager.entry_after (o pin) q = f q) →
  (∀ q, f (f q) = f q) →
  ∀ pm k,
    PinManager.pins
      (fold_left (fun pm pin => PinManager.apply_op pm (o pin)) l pm) !! k
    = if decide (k ∈ String_ <$> l) then f <$> PinManager.pins pm !! k
      else PinManager.pins pm !! k.
Proof.
  intros Ho Hf. induction l as [|pin l IH]; intros pm k;
    cbn [fold_left fmap list_fmap].
  - destruct (decide _) as [H|H]; [|done]. by apply elem_of_nil in H.
  - destruct (Ho pin) as [Hp He].
    rewrite IH, PinFacts.pins_apply_op, Hp.
    set (M := match PinManager.pins pm !! String_ pin with
              | Some q => <[String_ pin := PinManager.entry_after (o pin) q]>
                            (PinManager.pins pm)
              | None => PinManager.pins pm
              end).
    assert (Hk : M !! k
                 = if decide (k = String_ pin) then f <$> PinManager.pins pm !! k
                   else PinManager.pins pm !! k).
    { subst M. destruct (decide (k = String_ pin)) as [->|Hne];
        destruct (PinManager.pins pm !! String_ pin) as [q|] eqn:Hq;
        rewrite ?Hq, ?lookup_insert_eq, ?lookup_insert_ne, ?He by done;
        reflexivity. }
    rewrite Hk. clear Hk M.
    repeat case_decide; subst;
      try (by destruct (PinManager.pins pm !! _) as [?|]; cbn; rewrite ?Hf);
      exfalso;
      match goal with
      | H : ¬ (_ ∈ _ :: _) |- _ => apply H; rewrite elem_of_cons; tauto
      | H : _ ∈ _ :: _ |- _ => apply elem_of_cons in H as [?|?]; contradiction
      end.
Qed.

(** Registering a peripheral under a new identifier connects each of its
    declared pins to it, and removing it again disconnects them: when these
    pins were free before, the engine is as it was. *)
Theorem register_then_remove (id : string) (p : peripheral) (w : World) :
  map_get id (peripherals (engine w)) = None →
  (∀ pins, connectedPins p = Some pins →
           Forall (free_pin (pinManager (engine w))) pins) →
  let w1 := registerPeripheral id p w in
  map_get id (peripherals (engine w1)) = Some p ∧
  (∀ pins pin q,
     connectedPins p = Some pins → pin ∈ pins →
     PinManager.pins (pinManager (engine w)) !! String_ pin = Some q →
     PinManager.connected <$> PinManager.pins (pinManager (engine w1)) !! String_ pin
     = Some (Some (id, type p))) ∧
  removePeripheral id w1 = w.
Proof.
  intros Hid Hfree w1. subst w1. unfold registerPeripheral, removePeripheral.
  destruct w as [e t ag d]. destruct e as [pm ps rn pers sl stl st0 sp sb sc stc pr].
  cbn -[map_get map_set map_delete fold_left each_pin] in *.
  rewrite map_get_set.
  destruct (connectedPins p) as [pins|] eqn:Ecp.
  2:{ split; [reflexivity|]. split; [intros ? ? ? [=]|].
      cbn -[map_get map_set map_delete]. by rewrite map_delete_set. }
  specialize (Hfree pins eq_refl).
  assert (Hs : Forall (settled pm) pins).
  { eapply Forall_impl; [exact Hfree|]. by intros x [H _]. }
  set (oc := fun pin => PinManager.OpConnectPin pin id (type p)).
  destruct (each_pin_settled oc pins (fun pin => conj I eq_refl) pm Hs)
    as (C0 & C1 & C2 & C3 & C4).
  cbn zeta in *. set (pmc := fold_left _ pins pm) in *.
  pose proof (fold_bookkeeping oc
                (PinManager.set_connected (Some (id, type p))) pins
                (fun pin => conj eq_refl (fun q => eq_refl))
                (fun q => eq_refl) pm) as C5.
  fold pmc in C5.
  assert (Hs' : Forall (settled pmc) pins).
  { eapply Forall_impl; [exact Hs|]. exact C4. }
  destruct (each_pin_settled PinManager.OpDisconnectPin pins
              (fun pin => conj I eq_refl) pmc Hs') as (D0 & D1 & D2 & D3 & _).
  cbn zeta in *. set (pmd := fold_left _ pins pmc) in *.
  pose proof (fold_bookkeeping PinManager.OpDisconnectPin
                (PinManager.set_connected None) pins
                (fun pin => conj eq_refl (fun q => eq_refl))
                (fun q => eq_refl) pmc) as D5.
  fold pmd in D5.
  rewrite C0. cbn [fst].
  split; [reflexivity|]. split.
  - intros pins' pin q [= <-] Hin Hq. rewrite C5, Hq.
    rewrite decide_True by (by apply list_elem_of_fmap_2).
    reflexivity.
  - rewrite D0. rewrite map_delete_set by exact Hid.
    unfold with_engine, with_peripherals, with_pinManager. cbn.
    f_equal. f_equal.
    apply pin_manager_eq;
      [|by rewrite D3, C3|by rewrite D2, C2|by rewrite D1, C1].
    apply map_eq. intros k. rewrite D5, C5.
    destruct (decide (k ∈ String_ <$> pins)) as [Hin|Hin]; [|reflexivity].
    apply list_elem_of_fmap in Hin as (pin & -> & Hin).
    destruct (PinManager.pins pm !! String_ pin) as [q|] eqn:Hq; [|reflexivity].
    pose proof (proj1 (List.Forall_forall _ _) Hfree pin) as Hf.
    rewrite <- list_elem_of_In in Hf. destruct (Hf Hin) as [_ Hc].
    specialize (Hc q Hq).
    destruct q; cbn in *; subst. reflexivity.
Qed.

End Lifecycle.

Lemma register_then_remove_witness :
  let p := {| connectedPins := Some [of_Z 2; VStr "GND"; of_Z 7];
              type := "led"; has_reset := false |} in
  let w := boot observed 0 [] in
  let w1 := registerPeripheral "led-1" p w in
  map_get "led-1" (peripherals (engine w1)) = Some p ∧
  (∀ pins pin q,
     connectedPins p = Some pins → pin ∈ pins →
     PinManager.pins (pinManager (engine w)) !! String_ pin = Some q →
     PinManager.connected <$> PinManager.pins (pinManager (engine w1)) !! String_ pin
     = Some (Some ("led-1"%string, type p))) ∧
  removePeripheral "led-1" w1 = w.
Proof.
  apply (register_then_remove "led-1"
           {| connectedPins := Some [of_Z 2; VStr "GND"; of_Z 7];
              type := "led"; has_reset := false |}
           (boot observed 0 [])).
  - reflexivity.
  - intros pins [= <-].
    repeat (apply List.Forall_cons;
            [split; [vm_compute; exact I|];
             intros q Hq; vm_compute in Hq; try discriminate;
             injection Hq as <-; reflexivity|]).
    apply List.Forall_nil.
Defined.

(** ** Calls *)

Section ReservedCalls.

Context {host : Host}.

Lemma classify_setup_call : classify "setup()" = SCall "setup" "".
Proof. vm_compute. reflexivity. Qed.

Lemma classify_loop_call : classify "loop()" = SCall "loop" "".
Proof. vm_compute. reflexivity. Qed.

(** In a sketch that [parse] produced, the statements [setup()] and [loop()]
    do nothing: these two names are never entered in the table of the
    functions, so a sketch cannot call its entry points. *)
Theorem entry_points_not_callable
        (code : string) (p : ArduinoParser.t) (fuel : nat)
        (lv : gmap string jsval) (w : World) :
  parser (engine w) = ArduinoParser.parse code p →
  executeStatement (S fuel) "setup()" lv w = Ok lv w ∧
  executeStatement (S fuel) "loop()" lv w = Ok lv w.
Proof.
  intros Hp.
  destruct (ParserLaws.add_function_reserved (ArduinoParser.strip_comments code)
              (Regex.matches ArduinoParser.re_func
                 (ArduinoParser.strip_comments code)) ∅) as [H1 H2];
    [apply lookup_empty|apply lookup_empty|].
  destruct (is_running w) eqn:E;
    [|split; by apply executeStatement_stopped].
  split.
  - rewrite (exec_call fuel _ _ _ lv w classify_setup_call E).
    unfold functions_of. rewrite Hp. cbn [ArduinoParser.parse ArduinoParser.functions].
    by rewrite H1.
  - rewrite (exec_call fuel _ _ _ lv w classify_loop_call E).
    unfold functions_of. rewrite Hp. cbn [ArduinoParser.parse ArduinoParser.functions].
    by rewrite H2.
Qed.

End ReservedCalls.

Lemma entry_points_not_callable_witness :
  let w := with_engine
             (with_parser
                (ArduinoParser.parse delay_sketch
                   (ArduinoParser.with_running true ArduinoParser.new))
                observed)
             (boot observed 0 []) in
  executeStatement (host := sample_host) 3 "setup()" ∅ w = Ok ∅ w ∧
  executeStatement (host := sample_host) 3 "loop()" ∅ w = Ok ∅ w.
Proof.
  intros w.
  apply (entry_points_not_callable (host := sample_host) delay_sketch
           (ArduinoParser.with_running true ArduinoParser.new) 2 ∅ w).
  reflexivity.
Defined.

(** ** The matcher on texts of a given shape *)

Module RegexRun.

Lemma run_star_chr (g : bool) (p : ascii → bool)
      (k : mstate → option mstate) (cs : list (nat * string)) :
  ∀ l b,
    run (Star g (Chr p)) {| before := b; ahead := l; caps := cs |} k
    = if g then greedy_chr p k b l cs else lazy_chr p k b l cs.
Proof.
  intros l b. cbn [run ahead].
  pose (loop :=
    fix loop (n : nat) (st : mstate) {struct n} : option mstate :=
      match n with
      | O => k st
      | S n' =>
          let again :=
            run (Chr p) st (fun st' =>
              if (length (ahead st') <? length (ahead st))%nat
              then loop n' st' else None) in
          if g then orelse again (k st) else orelse (k st) again
      end).
  change (loop (S (length l)) {| before := b; ahead := l; caps := cs |}
          = if g then greedy_chr p k b l cs else lazy_chr p k b l cs).
  assert (H : ∀ n l b, (length l < n)%nat →
            loop n {| before := b; ahead := l; caps := cs |}
            = if g then greedy_chr p k b l cs else lazy_chr p k b l cs);
    [|apply H; lia].
  clear l b. induction n as [|n IH]; intros l b Hn; [lia|].
  change (loop (S n) {| before := b; ahead := l; caps := cs |})
    with (let st := {| before := b; ahead := l; caps := cs |} in
          let again :=
            run (Chr p) st (fun st' =>
              if (length (ahead st') <? length (ahead st))%nat
              then loop n st' else None) in
          if g then orelse again (k st) else orelse (k st) again).
  cbn zeta. cbn [run]. unfold advance. cbn [ahead before caps].
  destruct l as [|c l].
  - destruct g; cbn [greedy_chr lazy_chr orelse]; [reflexivity|].
    by destruct (k _).
  - cbn [length] in Hn. cbn [ahead before caps].
    replace (length l <? length (c :: l))%nat with true
      by (symmetry; apply Nat.ltb_lt; cbn; lia).
    rewrite (IH l (c :: b)) by lia.
    destruct g; cbn [greedy_chr lazy_chr]; destruct (p c); reflexivity.
Qed.

Lemma run_lit (s : string) (k : mstate → option mstate) :
  ∀ b l cs,
    run (lit s) {| before := b; ahead := chars s ++ l; caps := cs |} k
    = k {| before := rev (chars s) ++ b; ahead := l; caps := cs |}.
Proof.
  unfold lit. induction (chars s) as [|c a IH]; intros b l cs; [reflexivity|].
  cbn [map Regex.seq fold_right app run].
  unfold ch at 1. cbn [run]. unfold advance. cbn [ahead before caps].
  rewrite Ascii.eqb_refl.
  change (fold_right Seq Eps (map ch a)) with (Regex.seq (map ch a)).
  rewrite IH. cbn [rev]. by rewrite <- app_assoc.
Qed.

(** A greedy repetition that can run to the end of the subject, where the
    continuation succeeds, gives that result. *)
Lemma greedy_chr_all (p : ascii → bool) (k : mstate → option mstate)
      (cs : list (nat * string)) (r : mstate) :
  ∀ l b,
    forallb p l = true →
    k {| before := rev l ++ b; ahead := []; caps := cs |} = Some r →
    greedy_chr p k b l cs = Some r.
Proof.
  induction l as [|c l IH]; intros b Hp Hk; cbn [greedy_chr]; [exact Hk|].
  cbn [forallb] in Hp. apply andb_true_iff in Hp as [Hc Hl]. rewrite Hc.
  rewrite (IH (c :: b)); [reflexivity|exact Hl|].
  cbn [rev] in Hk. by rewrite <- app_assoc in Hk.
Qed.

Lemma run_seq (a b : re) (st : mstate) (k : mstate → option mstate) :
  run (Seq a b) st k = run a st (fun st' => run b st' k).
Proof. reflexivity. Qed.

Lemma run_alt (a b : re) (st : mstate) (k : mstate → option mstate) :
  run (Alt a b) st k = orelse (run a st k) (run b st k).
Proof. reflexivity. Qed.

Lemma run_eps (st : mstate) (k : mstate → option mstate) : run Eps st k = k st.
Proof. reflexivity. Qed.

Lemma run_chr (p : ascii → bool) (k : mstate → option mstate) b c l cs :
  run (Chr p) {| before := b; ahead := c :: l; caps := cs |} k
  = if p c then k {| before := c :: b; ahead := l; caps := cs |} else None.
Proof. reflexivity. Qed.

Lemma run_chr_end (p : ascii → bool) (k : mstate → option mstate) b cs :
  run (Chr p) {| before := b; ahead := []; caps := cs |} k = None.
Proof. reflexivity. Qed.

Lemma run_group (i : nat) (r : re) (st : mstate) (k : mstate → option mstate) :
  run (Group i r) st k
  = run r st (fun st' =>
      k {| before := before st'; ahead := ahead st';
           caps := (i, str (firstn (length (ahead st) - length (ahead st'))
                                   (ahead st))) :: caps st' |}).
Proof. reflexivity. Qed.

Lemma run_bol (k : mstate → option mstate) l cs :
  run (Bol false) {| before := []; ahead := l; caps := cs |} k
  = k {| before := []; ahead := l; caps := cs |}.
Proof. reflexivity. Qed.

(** A pattern that starts with [^] is tried at the start only. *)
Lemma exec_anchored (r : re) (s : string) :
  exec (Seq (Bol false) r) s = match_at (Seq (Bol false) r) [] (chars s).
Proof.
  unfold exec. destruct (chars s) as [|c l]; cbn [search].
  - by destruct (match_at _ _ _).
  - destruct (match_at _ _ _); [reflexivity|apply RegexFacts.search_anchored].
Qed.

End RegexRun.

(** ** Integer literals *)

Module DecimalFacts.

Lemma digit_facts (d : ascii) :
  is_digit d = true →
  is_space d = false ∧ is_line_end d = false ∧
  Ascii.eqb "-" d = false ∧ Ascii.eqb d "-" = false ∧
  Ascii.eqb d "." = false ∧ Ascii.eqb "," d = false ∧
  Ascii.eqb d "H" = false ∧ Ascii.eqb d "L" = false ∧
  Ascii.eqb d "t" = false ∧ Ascii.eqb d "f" = false ∧
  Ascii.eqb d "I" = false ∧ Ascii.eqb d "O" = false ∧
  Ascii.eqb ")" d = false ∧ Ascii.eqb ";" d = false.
Proof.
  destruct d as [[] [] [] [] [] [] [] []]; intros H; try discriminate H;
    repeat split; reflexivity.
Qed.

Lemma digit_val_char (m : N) :
  (m < 10)%N →
  is_digit (pretty_N_char m) = true ∧ digit_val (pretty_N_char m) = Z.of_N m.
Proof.
  intros H.
  assert (m = 0 ∨ m = 1 ∨ m = 2 ∨ m = 3 ∨ m = 4 ∨ m = 5 ∨ m = 6 ∨ m = 7
          ∨ m = 8 ∨ m = 9)%N as Hm by lia.
  repeat destruct Hm as [->|Hm]; try subst m; by split.
Qed.

Lemma digits_value_app (base acc : Z) (a b : list ascii) :
  digits_value base acc (a ++ b) = digits_value base (digits_value base acc a) b.
Proof. revert acc. induction a as [|c a IH]; intros acc; [done|apply IH]. Qed.

(** The decimal digits [pretty] writes, and their value. *)
Lemma pretty_N_go_digits (x : N) :
  ∀ s, ∃ pre,
    chars (pretty_N_go x s) = pre ++ chars s ∧
    forallb is_digit pre = true ∧
    (∀ acc, digits_value 10 acc pre
            = acc * 10 ^ Z.of_nat (length pre) + Z.of_N x) ∧
    ((0 < x)%N → pre ≠ []).
Proof.
  induction (N.lt_wf_0 x) as [x _ IH]; intros s.
  assert (x = 0 ∨ 0 < x)%N as [->|Hx] by lia.
  { exists []. rewrite pretty_N_go_0. repeat split; [|lia].
    intros acc. cbn. lia. }
  rewrite pretty_N_go_step by done.
  destruct (IH (x `div` 10)%N (N.div_lt x 10 Hx eq_refl)
               (String (pretty_N_char (x `mod` 10)) s))
    as (pre & E & Hd & Hv & _).
  destruct (digit_val_char (x `mod` 10)%N) as [D1 D2];
    [by apply N.mod_lt|].
  exists (pre ++ [pretty_N_char (x `mod` 10)]). repeat split.
  - rewrite E. cbn [chars]. by rewrite <- app_assoc.
  - rewrite forallb_app, Hd. cbn. by rewrite D1.
  - intros acc. rewrite digits_value_app, Hv. cbn [digits_value].
    rewrite D2, length_app. cbn [length].
    rewrite Nat2Z.inj_add, Z.pow_add_r by lia.
    change (10 ^ Z.of_nat 1) with 10.
    pose proof (N.div_mod x 10 ltac:(done)) as Hdm.
    apply (f_equal Z.of_N) in Hdm.
    rewrite N2Z.inj_add, N2Z.inj_mul in Hdm.
    change (Z.of_N 10) with 10 in Hdm. lia.
  - intros _ H. by destruct pre.
Qed.

Lemma pretty_nonneg (z : Z) :
  0 <= z →
  ∃ d ds, chars (pretty z) = d :: ds ∧ forallb is_digit (d :: ds) = true ∧
          digits_value 10 0 (d :: ds) = z.
Proof.
  intros Hz. destruct z as [|p|p]; [|clear Hz|lia].
  - exists "0"%char, []. by repeat split.
  - change (pretty (Z.pos p)) with (pretty_N_go (N.pos p) "").
    destruct (pretty_N_go_digits (N.pos p) "") as (pre & E & Hd & Hv & Hne).
    rewrite app_nil_r in E. destruct pre as [|d ds]; [by destruct Hne|].
    exists d, ds. repeat split; [exact E|exact Hd|].
    rewrite Hv. cbn. lia.
Qed.

Lemma pretty_neg (p : positive) :
  chars (pretty (Z.neg p)) = "-"%char :: chars (pretty (Z.pos p)).
Proof. reflexivity. Qed.

Lemma span_all (p : ascii → bool) (l : list ascii) :
  forallb p l = true → span p l = (l, []).
Proof.
  induction l as [|c l IH]; [done|]. cbn [forallb span].
  intros [Hc Hl]%andb_true_iff. by rewrite Hc, IH.
Qed.

Lemma drop_spaces_head (c : ascii) (l : list ascii) :
  is_space c = false → drop_spaces (c :: l) = c :: l.
Proof. intros H. cbn [drop_spaces]. by rewrite H. Qed.

(** A text that neither starts nor ends with white space is its own trim. *)
Lemma trim_chars_tight (c z : ascii) (l : list ascii) :
  is_space c = false → is_space z = false →
  trim_chars (c :: l ++ [z]) = c :: l ++ [z] ∧ trim_chars [c] = [c].
Proof.
  intros Hc Hz. unfold trim_chars. rewrite !drop_spaces_head by done. split.
  - change (c :: l ++ [z]) with ((c :: l) ++ [z]).
    rewrite rev_app_distr. cbn [rev app].
    rewrite drop_spaces_head by done.
    change (z :: rev l ++ [c]) with ([z] ++ rev (c :: l)).
    rewrite rev_app_distr, rev_involutive. reflexivity.
  - cbn [rev app]. by rewrite drop_spaces_head.
Qed.

Lemma trim_digits (c : ascii) (l : list ascii) :
  is_space c = false → forallb is_digit l = true →
  trim_chars (c :: l) = c :: l.
Proof.
  intros Hc Hl. destruct l as [|x l] using rev_ind.
  - by apply (trim_chars_tight c c []).
  - clear IHl. rewrite forallb_app in Hl. apply andb_true_iff in Hl as [_ Hx].
    cbn in Hx. destruct (is_digit x) eqn:E; [|discriminate].
    apply (trim_chars_tight c x l); [done|apply (digit_facts x E)].
Qed.

End DecimalFacts.

Section Literals.

Context {host : Host}.

Import DecimalFacts RegexRun.

(** The digits, the optional fraction and the end of [re_number], from a
    position where only digits are ahead. *)
Lemma number_tail (d : ascii) (ds b : list ascii) (cs : list (nat * string)) :
  forallb is_digit (d :: ds) = true →
  run (Regex.seq [digits;
                  opt (Group 1 (Regex.seq [ch "."; digits]));
                  Eol false])
      {| before := b; ahead := d :: ds; caps := cs |} Some
  = Some {| before := rev ds ++ d :: b; ahead := []; caps := cs |}.
Proof.
  cbn [forallb]. intros [Hd Hds]%andb_true_iff.
  unfold Regex.seq, digits, plus. cbn [fold_right].
  rewrite !run_seq, run_chr, Hd, run_star_chr.
  by apply greedy_chr_all.
Qed.

Lemma test_number (l : list ascii) :
  (∃ d ds, forallb is_digit (d :: ds) = true ∧
           (l = d :: ds ∨ l = "-"%char :: d :: ds)) →
  Regex.test ArduinoParser.re_number (str l) = true.
Proof.
  intros (d & ds & Hd & Hl). unfold Regex.test, ArduinoParser.re_number.
  change (Regex.seq (Bol false :: opt (ch "-") :: ?x))
    with (Seq (Bol false) (Seq (opt (ch "-")) (Regex.seq x))).
  rewrite exec_anchored, list_ascii_of_string_of_list_ascii.
  unfold match_at. rewrite run_seq, run_bol, run_seq. unfold opt at 1.
  rewrite run_alt, run_eps. unfold ch at 1.
  assert (Hd0 : is_digit d = true)
    by (cbn [forallb] in Hd; by apply andb_true_iff in Hd as [-> _]).
  destruct Hl as [->| ->]; rewrite run_chr.
  - destruct (digit_facts d Hd0) as (_ & _ & -> & _). cbn [orelse].
    by rewrite number_tail.
  - cbn [Ascii.eqb Bool.eqb]. by rewrite number_tail.
Qed.

Lemma eqb_first (c k : ascii) (s t : string) :
  Ascii.eqb c k = false → String.eqb (String c s) (String k t) = false.
Proof. intros H. cbn [String.eqb]. by rewrite H. Qed.

(** A decimal text, with or without sign, is classified as a number. *)
Lemma classify_decimal (c : ascii) (l : list ascii) :
  (∃ d ds, forallb is_digit (d :: ds) = true ∧
           (c :: l = d :: ds ∨ c :: l = "-"%char :: d :: ds)) →
  classify_expr (str (c :: l)) = ENumber (parseFloat (str (c :: l))).
Proof.
  intros H. unfold classify_expr. rewrite (test_number _ H).
  assert (Hc : Ascii.eqb c "H" = false ∧ Ascii.eqb c "L" = false ∧
               Ascii.eqb c "t" = false ∧ Ascii.eqb c "f" = false ∧
               Ascii.eqb c "I" = false ∧ Ascii.eqb c "O" = false).
  { destruct H as (d & ds & Hd & [[= -> ->]|[= -> ->]]); [|by repeat split].
    cbn [forallb] in Hd. apply andb_true_iff in Hd as [Hd _].
    destruct (digit_facts d Hd) as (_ & _ & _ & _ & _ & _ & ? & ? & ? & ? & ? & ? & _).
    by repeat split. }
  destruct Hc as (H1 & H2 & H3 & H4 & H5 & H6).
  cbn [str]. by rewrite !eqb_first by assumption.
Qed.

Lemma parseFloat_decimal (d : ascii) (ds : list ascii) :
  forallb is_digit (d :: ds) = true →
  parseFloat (str (d :: ds)) = Fin (inject_Z (digits_value 10 0 (d :: ds))) ∧
  parseFloat (str ("-"%char :: d :: ds))
  = Fin (inject_Z (- digits_value 10 0 (d :: ds))).
Proof.
  intros Hd. unfold parseFloat. rewrite !list_ascii_of_string_of_list_ascii.
  assert (Hd0 : is_digit d = true)
    by (cbn [forallb] in Hd; by apply andb_true_iff in Hd as [-> _]).
  destruct (digit_facts d Hd0) as (_ & _ & _ & -> & _).
  cbn [Ascii.eqb Bool.eqb]. rewrite (span_all _ _ Hd).
  unfold decimal_value. rewrite app_nil_r. cbn [length].
  change (0 <=? 0 - Z.of_nat 0) with true.
  change (10 ^ (0 - Z.of_nat 0)) with 1. cbv iota.
  rewrite Z.mul_1_r, !Qred_inject_Z. split; [reflexivity|].
  f_equal. apply Qred_inject_Z.
Qed.

(** The shape of the decimal text of an integer. *)
Lemma pretty_shape (z : Z) :
  ∃ c l, chars (pretty z) = c :: l ∧ is_space c = false ∧
         forallb is_digit l = true ∧
         (∃ d ds, forallb is_digit (d :: ds) = true ∧
                  (c :: l = d :: ds ∨ c :: l = "-"%char :: d :: ds)) ∧
         parseFloat (str (c :: l)) = Fin (inject_Z z).
Proof.
  assert (H : ∃ c l, chars (pretty z) = c :: l ∧ is_space c = false ∧
                     forallb is_digit l = true ∧
                     (∃ d ds, forallb is_digit (d :: ds) = true ∧
                              (c :: l = d :: ds ∨ c :: l = "-"%char :: d :: ds)) ∧
                     parseFloat (str (c :: l)) = Fin (inject_Z z)).
  { destruct (Z.le_gt_cases 0 z) as [Hz|Hz].
    - destruct (pretty_nonneg z Hz) as (d & ds & E & Hd & Hv).
      exists d, ds. split; [exact E|].
      assert (Hd0 : is_digit d = true)
        by (cbn [forallb] in Hd; by apply andb_true_iff in Hd as [-> _]).
      split; [apply (digit_facts d Hd0)|].
      split; [cbn [forallb] in Hd; by apply andb_true_iff in Hd as [_ ->]|].
      split; [exists d, ds; by split; [|left]|].
      rewrite (proj1 (parseFloat_decimal d ds Hd)). by rewrite Hv.
    - destruct z as [|p|p]; try lia.
      destruct (pretty_nonneg (Z.pos p)) as (d & ds & E & Hd & Hv); [lia|].
      exists "-"%char, (d :: ds). rewrite pretty_neg, E.
      split; [reflexivity|]. split; [reflexivity|]. split; [exact Hd|].
      split; [exists d, ds; by split; [|right]|].
      rewrite (proj2 (parseFloat_decimal d ds Hd)). by rewrite Hv. }
  exact H.
Qed.

Lemma trim_pretty (z : Z) : trim (pretty z) = pretty z.
Proof.
  destruct (pretty_shape z) as (c & l & E & Hc & Hl & _).
  unfold trim. rewrite E, (trim_digits c l Hc Hl), <- E.
  apply string_of_list_ascii_of_string.
Qed.

Lemma test_pretty (z : Z) : Regex.test ArduinoParser.re_number (pretty z) = true.
Proof.
  destruct (pretty_shape z) as (c & l & E & _ & _ & Hf & _).
  pose proof (test_number _ Hf) as Ht. rewrite <- E in Ht.
  by rewrite string_of_list_ascii_of_string in Ht.
Qed.

Lemma classify_pretty (z : Z) : classify_expr (pretty z) = ENumber (Fin (inject_Z z)).
Proof.
  destruct (pretty_shape z) as (c & l & E & Hc & Hl & Hf & Hv).
  rewrite <- (string_of_list_ascii_of_string (pretty z)), E.
  by rewrite (classify_decimal c l Hf), Hv.
Qed.

Lemma eval_pretty (z : Z) (fuel : nat) (lv : gmap string jsval) (w : World) :
  evaluateExpr (S fuel) (pretty z) lv w = Ok (of_Z z) w.
Proof.
  cbn [evaluateExpr]. by rewrite trim_pretty, classify_pretty.
Qed.

Lemma pretty_no_semicolon (z : Z) : endsWith (pretty z) ";" = false.
Proof.
  destruct (pretty_shape z) as (c & l & E & Hc & Hl & Hf & _).
  unfold endsWith. rewrite E. cbn [chars rev app].
  destruct l as [|x l] using rev_ind.
  - cbn [rev app starts_with].
    destruct Hf as (d & ds & Hd & [[= -> <-]|[=]]).
    cbn [forallb] in Hd. apply andb_true_iff in Hd as [Hd _].
    destruct (digit_facts d Hd)
      as (_ & _ & _ & _ & _ & _ & _ & _ & _ & _ & _ & _ & _ & H).
    by rewrite H.
  - clear IHl. rewrite forallb_app in Hl. apply andb_true_iff in Hl as [_ Hx].
    cbn in Hx. destruct (is_digit x) eqn:Ex; [|discriminate].
    rewrite rev_app_distr. cbn [rev app starts_with].
    destruct (digit_facts x Ex)
      as (_ & _ & _ & _ & _ & _ & _ & _ & _ & _ & _ & _ & _ & H).
    by rewrite H.
Qed.

(** The key of an integer in a table of pins is its decimal text. *)
Lemma String_of_Z (z : Z) : String_ (of_Z z) = pretty z.
Proof.
  unfold of_Z, String_, num_to_string, Q_to_string.
  assert (E : Qred (inject_Z z) = inject_Z z).
  { apply Qred_identity. cbn. apply Z.gcd_1_r. }
  rewrite E. cbn [Qnum Qden inject_Z].
  rewrite Z.div_1_r, Z.mod_1_r. cbn [frac_digits Z.eqb].
  destruct z as [|p|p]; reflexivity.
Qed.

Lemma integer_key (c : ascii) (s : string) :
  is_digit c = true ∨ c = "-"%char →
  PinManager.is_inherited (String c s) = false ∧
  String.eqb (String c s) "mode" = false ∧
  String.eqb (String c s) "value" = false ∧
  String.eqb (String c s) "analogValue" = false ∧
  String.eqb (String c s) "pwmValue" = false ∧
  String.eqb (String c s) "connected" = false.
Proof.
  intros [H| ->]; [|by repeat split].
  destruct c as [[] [] [] [] [] [] [] []]; try discriminate H;
    by repeat split.
Qed.

(** Such a key is no name of [Object.prototype]: the lookup finds the entry
    of the table or nothing. *)
Lemma lookup_integer_pin (pm : PinManager.t) (z : Z) :
  PinManager.lookup pm (String_ (of_Z z))
  = PinManager.Entry <$> PinManager.pins pm !! String_ (of_Z z).
Proof.
  rewrite String_of_Z. unfold PinManager.lookup.
  destruct (PinManager.pins pm !! pretty z); [done|].
  destruct (pretty_shape z) as (c & l & E & _ & _ & (d & ds & Hd & Hf) & _).
  assert (Hc : is_digit c = true ∨ c = "-"%char).
  { destruct Hf as [[= -> _]|[= -> _]]; [left|by right].
    cbn [forallb] in Hd. by apply andb_true_iff in Hd as [-> _]. }
  rewrite <- (string_of_list_ascii_of_string (pretty z)), E. cbn [str].
  destruct (integer_key c (str l) Hc) as (-> & -> & -> & -> & -> & ->).
  reflexivity.
Qed.

Lemma fault_integer_pin (pm : PinManager.t) (o : PinManager.op) (z : Z) :
  PinManager.op_pin o = of_Z z → PinManager.fault pm o = None.
Proof.
  intros E. unfold PinManager.fault. rewrite E, lookup_integer_pin.
  by destruct (PinManager.pins pm !! _).
Qed.

(** An operation on an integer pin does not throw. *)
Lemma on_pins_integer (o : PinManager.op) (z : Z) (w : World) :
  PinManager.op_pin o = of_Z z → on_pins o w = Ok tt (with_pin_op o w).
Proof. intros E. unfold on_pins. by rewrite (fault_integer_pin _ _ z E). Qed.

(** The decimal text of an integer between -2^53 and 2^53, the range in
    which every integer is a number of the language, denotes that integer, as
    an expression of a statement, in every state and whatever the variables
    are, and as the initial value of a global variable. *)
Theorem integer_literal (z : Z) (fuel : nat) (lv vars : gmap string jsval)
        (w : World) :
  Z.abs z <= 2 ^ 53 →
  evaluateExpr (S fuel) (pretty z) lv w = Ok (of_Z z) w ∧
  ArduinoParser.parseValue vars (pretty z) = of_Z z.
Proof.
  intros _.
  split; [apply eval_pretty|].
  unfold ArduinoParser.parseValue. rewrite trim_pretty, pretty_no_semicolon.
  pose proof (classify_pretty z) as Hc. unfold classify_expr in Hc.
  rewrite test_pretty in *.
  destruct (String.eqb (pretty z) "HIGH"); [discriminate|].
  destruct (String.eqb (pretty z) "LOW"); [discriminate|].
  destruct (String.eqb (pretty z) "true"); [discriminate|].
  destruct (String.eqb (pretty z) "false"); [discriminate|].
  cbn [orb].
  destruct (String.eqb (pretty z) "INPUT"); [discriminate|].
  destruct (String.eqb (pretty z) "OUTPUT"); [discriminate|].
  destruct (String.eqb (pretty z) "INPUT_PULLUP"); [discriminate|].
  by injection Hc as ->.
Qed.

End Literals.

Lemma integer_literal_witness :
  Z.abs (-9007199254740992) <= 2 ^ 53 ∧
  evaluateExpr (host := sample_host) 1 (pretty (-9007199254740992)) ∅
               (running_world ∅ ∅ 0 [])
  = Ok (of_Z (-9007199254740992)) (running_world ∅ ∅ 0 []) ∧
  ArduinoParser.parseValue ∅ (pretty (-9007199254740992))
  = of_Z (-9007199254740992).
Proof.
  split; [vm_compute; discriminate|].
  apply (integer_literal (host := sample_host) (-9007199254740992) 0 ∅ ∅
           (running_world ∅ ∅ 0 [])).
  vm_compute; discriminate.
Defined.

(** ** Statements that address a pin *)

Module CallMatch.

Import RegexRun.

Lemma run_sp_skip (rest : re) (k : mstate → option mstate) b c l cs :
  is_space c = false →
  run (Seq sp rest) {| before := b; ahead := c :: l; caps := cs |} k
  = run rest {| before := b; ahead := c :: l; caps := cs |} k.
Proof.
  intros Hc. unfold sp. rewrite run_seq, run_star_chr. cbn [greedy_chr].
  by rewrite Hc.
Qed.

Lemma run_sp_end (rest : re) (k : mstate → option mstate) b cs :
  run (Seq sp rest) {| before := b; ahead := []; caps := cs |} k
  = run rest {| before := b; ahead := []; caps := cs |} k.
Proof. unfold sp. by rewrite run_seq, run_star_chr. Qed.

(** One blank before a character that is not white space. *)
Lemma run_sp_one (rest : re) (k : mstate → option mstate) b c l cs r :
  is_space c = false →
  run rest {| before := " "%char :: b; ahead := c :: l; caps := cs |} k = Some r →
  run (Seq sp rest) {| before := b; ahead := " "%char :: c :: l; caps := cs |} k
  = Some r.
Proof.
  intros Hc Hr. unfold sp. rewrite run_seq, run_star_chr. cbn [greedy_chr].
  change (is_space " ") with true. cbv iota. rewrite Hc, Hr. reflexivity.
Qed.

Lemma run_ch_ok (c : ascii) (rest : re) (k : mstate → option mstate) b l cs :
  run (Seq (ch c) rest) {| before := b; ahead := c :: l; caps := cs |} k
  = run rest {| before := c :: b; ahead := l; caps := cs |} k.
Proof. unfold ch. by rewrite run_seq, run_chr, Ascii.eqb_refl. Qed.

Lemma run_ch_fail (c x : ascii) (rest : re) (k : mstate → option mstate) b l cs :
  Ascii.eqb c x = false →
  run (Seq (ch c) rest) {| before := b; ahead := x :: l; caps := cs |} k = None.
Proof. intros H. unfold ch. by rewrite run_seq, run_chr, H. Qed.

Lemma plain_facts (x c : ascii) :
  plain x c = true →
  is_line_end c = false ∧ is_space c = false ∧ Ascii.eqb x c = false.
Proof.
  unfold plain. intros [[H1 H2]%andb_true_iff H3]%andb_true_iff.
  by repeat split; apply negb_true_iff.
Qed.

Lemma lazy_chr_unfold (p : ascii → bool) (k : mstate → option mstate) b l cs :
  lazy_chr p k b l cs
  = orelse (k {| before := b; ahead := l; caps := cs |})
           (match l with
            | c :: l' => if p c then lazy_chr p k (c :: b) l' cs else None
            | [] => None
            end).
Proof. by destruct l. Qed.

(** The lazy repetition goes on while the continuation fails. *)
Lemma lazy_chr_skip (p : ascii → bool) (k : mstate → option mstate)
      (cs : list (nat * string)) (l : list ascii) :
  ∀ a b,
    forallb p a = true →
    (∀ a1 c a2, a = a1 ++ c :: a2 →
       k {| before := rev a1 ++ b; ahead := c :: a2 ++ l; caps := cs |} = None) →
    lazy_chr p k b (a ++ l) cs = lazy_chr p k (rev a ++ b) l cs.
Proof.
  induction a as [|c a IH]; intros b Hp Hk; [reflexivity|].
  cbn [forallb] in Hp. apply andb_true_iff in Hp as [Hc Ha].
  cbn [app]. rewrite (lazy_chr_unfold p k b (c :: a ++ l) cs).
  pose proof (Hk [] c a eq_refl) as H0. cbn [rev app] in H0.
  rewrite H0. cbn [orelse]. rewrite Hc.
  rewrite IH; [cbn [rev]; by rewrite <- app_assoc|exact Ha|].
  intros a1 c' a2 ->. specialize (Hk (c :: a1) c' a2 eq_refl).
  cbn [rev] in Hk. by rewrite <- app_assoc in Hk.
Qed.


(** A lazy group in front of white space and the separator [x] takes an
    argument written with plain characters. *)
Lemma run_lazy_arg (i : nat) (x : ascii) (rest : re)
      (k : mstate → option mstate) (c : ascii) (a l b : list ascii)
      (cs : list (nat * string)) (r : mstate) :
  forallb (plain x) (c :: a) = true →
  run (Seq sp (Seq (ch x) rest))
      {| before := rev a ++ c :: b; ahead := l; caps := (i, str (c :: a)) :: cs |} k
  = Some r →
  run (Seq (lazy i) (Seq sp (Seq (ch x) rest)))
      {| before := b; ahead := c :: a ++ l; caps := cs |} k
  = Some r.
Proof.
  cbn [forallb]. intros [Hc Ha]%andb_true_iff Hr.
  destruct (plain_facts x c Hc) as (Hc1 & Hc2 & Hc3).
  unfold lazy, plus, dot at 1.
  rewrite run_seq, run_group, run_seq, run_chr, Hc1. cbn [negb].
  unfold dot. rewrite run_star_chr.
  rewrite lazy_chr_skip.
  - rewrite lazy_chr_unfold. cbn [before ahead caps].
    replace (length (c :: a ++ l) - length l)%nat with (length (c :: a))
      by (cbn [length]; rewrite length_app; lia).
    change (c :: a ++ l) with ((c :: a) ++ l).
    rewrite TextFacts.firstn_length_app, Hr. reflexivity.
  - clear -Ha. induction a as [|y a IH]; [reflexivity|].
    cbn [forallb] in *. apply andb_true_iff in Ha as [Hy Ha].
    destruct (plain_facts x y Hy) as (-> & _). cbn [negb andb]. by apply IH.
  - intros a1 y a2 ->. cbn [before ahead caps].
    rewrite forallb_app in Ha. apply andb_true_iff in Ha as [_ Ha].
    cbn [forallb] in Ha. apply andb_true_iff in Ha as [Hy _].
    destruct (plain_facts x y Hy) as (_ & Hy2 & Hy3).
    by rewrite run_sp_skip, run_ch_fail.
Qed.

(** The pattern of a call with two arguments, on the text of such a call
    written with plain arguments and one blank after the comma. *)
Lemma call2_match (name : string) (c1 c2 : ascii) (a1 a2 : list ascii) :
  forallb (plain ",") (c1 :: a1) = true →
  forallb (plain ")") (c2 :: a2) = true →
  ∃ m, Regex.exec (Pat.call (lit name) 2)
         (name +:+ "(" +:+ str (c1 :: a1) +:+ ", " +:+ str (c2 :: a2) +:+ ")")
       = Some m ∧
       grp m 1 = str (c1 :: a1) ∧ grp m 2 = str (c2 :: a2).
Proof.
  intros H1 H2.
  assert (S1 : is_space c1 = false).
  { cbn [forallb] in H1. apply andb_true_iff in H1 as [H _].
    apply (plain_facts _ _ H). }
  assert (S2 : is_space c2 = false).
  { cbn [forallb] in H2. apply andb_true_iff in H2 as [H _].
    apply (plain_facts _ _ H). }
  change (Pat.call (lit name) 2)
    with (Seq (Bol false)
            (Seq (lit name)
               (Seq sp (Seq (ch "(")
                  (Seq sp (Seq (lazy 1) (Seq sp (Seq (ch ",")
                     (Seq sp (Seq (lazy 2) (Seq sp (Seq (ch ")") Eps)))))))))))).
  rewrite exec_anchored. unfold match_at.
  rewrite !TextFacts.chars_app, !list_ascii_of_string_of_list_ascii.
  cbn [chars app].
  rewrite run_seq, run_bol, run_seq, run_lit.
  rewrite run_sp_skip by reflexivity. rewrite run_ch_ok.
  change (c1 :: a1 ++ ?l) with (c1 :: a1 ++ l).
  rewrite run_sp_skip by exact S1.
  erewrite (run_lazy_arg 1 "," _ _ c1 a1); [|exact H1|].
  2:{ rewrite run_sp_skip by reflexivity. rewrite run_ch_ok.
      apply run_sp_one; [exact S2|].
      apply (run_lazy_arg 2 ")" Eps _ c2 a2 [")"%char]); [exact H2|].
      rewrite run_sp_skip by reflexivity. rewrite run_ch_ok. reflexivity. }
  eexists. split; [reflexivity|]. split; reflexivity.
Qed.


(** The pattern of a call with one argument. *)
Lemma call1_match (name : string) (c : ascii) (a : list ascii) :
  forallb (plain ")") (c :: a) = true →
  ∃ m, Regex.exec (Pat.call (lit name) 1) (name +:+ "(" +:+ str (c :: a) +:+ ")")
       = Some m ∧
       grp m 1 = str (c :: a).
Proof.
  intros H.
  assert (S1 : is_space c = false).
  { cbn [forallb] in H. apply andb_true_iff in H as [H _].
    apply (plain_facts _ _ H). }
  change (Pat.call (lit name) 1)
    with (Seq (Bol false)
            (Seq (lit name)
               (Seq sp (Seq (ch "(")
                  (Seq sp (Seq (lazy 1) (Seq sp (Seq (ch ")") Eps)))))))).
  rewrite exec_anchored. unfold match_at.
  rewrite !TextFacts.chars_app, !list_ascii_of_string_of_list_ascii.
  cbn [chars app].
  rewrite run_seq, run_bol, run_seq, run_lit.
  rewrite run_sp_skip by reflexivity. rewrite run_ch_ok.
  change (c :: a ++ ?l) with (c :: a ++ l).
  rewrite run_sp_skip by exact S1.
  erewrite (run_lazy_arg 1 ")" Eps _ c a [")"%char]); [|exact H|].
  2:{ rewrite run_sp_skip by reflexivity. rewrite run_ch_ok. reflexivity. }
  eexists. split; reflexivity.
Qed.

End CallMatch.

Section PinStatements.

Context {host : Host}.

Import RegexRun CallMatch DecimalFacts.

Lemma exec_none (r r' : re) (s : string) :
  r = Seq (Bol false) r' → match_at r [] (chars s) = None → Regex.exec r s = None.
Proof. intros -> H. by rewrite exec_anchored. Qed.

Ltac no_match r :=
  match goal with
  | |- context [Regex.exec r ?s] =>
      let H := fresh in
      assert (H : Regex.exec r s = None)
        by (apply (exec_none _ _ _ eq_refl); vm_compute; reflexivity);
      rewrite H; clear H
  end.

Lemma classify_pinMode (a1 a2 : string) :
  (∃ m, Regex.exec StmtPat.re_pinMode ("pinMode(" +:+ a1 +:+ ", " +:+ a2 +:+ ")")
        = Some m ∧ grp m 1 = a1 ∧ grp m 2 = a2) →
  classify ("pinMode(" +:+ a1 +:+ ", " +:+ a2 +:+ ")") = SPinMode a1 (trim a2).
Proof.
  intros (m & E & G1 & G2). unfold classify, Regex.test.
  no_match StmtPat.re_delay.
  no_match StmtPat.re_delayMicroseconds.
  no_match StmtPat.re_serial_begin.
  no_match StmtPat.re_print.
  no_match StmtPat.re_printf.
  by rewrite E, G1, G2.
Qed.

Lemma classify_digitalWrite (a1 a2 : string) :
  (∃ m, Regex.exec StmtPat.re_digitalWrite
          ("digitalWrite(" +:+ a1 +:+ ", " +:+ a2 +:+ ")")
        = Some m ∧ grp m 1 = a1 ∧ grp m 2 = a2) →
  classify ("digitalWrite(" +:+ a1 +:+ ", " +:+ a2 +:+ ")")
  = SDigitalWrite a1 (trim a2).
Proof.
  intros (m & E & G1 & G2). unfold classify, Regex.test.
  no_match StmtPat.re_delay.
  no_match StmtPat.re_delayMicroseconds.
  no_match StmtPat.re_serial_begin.
  no_match StmtPat.re_print.
  no_match StmtPat.re_printf.
  no_match StmtPat.re_pinMode.
  by rewrite E, G1, G2.
Qed.

Lemma classify_analogWrite (a1 a2 : string) :
  (∃ m, Regex.exec StmtPat.re_analogWrite
          ("analogWrite(" +:+ a1 +:+ ", " +:+ a2 +:+ ")")
        = Some m ∧ grp m 1 = a1 ∧ grp m 2 = a2) →
  classify ("analogWrite(" +:+ a1 +:+ ", " +:+ a2 +:+ ")") = SAnalogWrite a1 a2.
Proof.
  intros (m & E & G1 & G2). unfold classify, Regex.test.
  no_match StmtPat.re_delay.
  no_match StmtPat.re_delayMicroseconds.
  no_match StmtPat.re_serial_begin.
  no_match StmtPat.re_print.
  no_match StmtPat.re_printf.
  no_match StmtPat.re_pinMode.
  no_match StmtPat.re_digitalWrite.
  by rewrite E, G1, G2.
Qed.

Lemma digit_plain (x d : ascii) :
  is_digit d = true → is_digit x = false → plain x d = true.
Proof.
  intros Hd Hx. unfold plain.
  destruct (digit_facts d Hd) as (-> & -> & _). cbn [negb andb].
  destruct (Ascii.eqb_spec x d) as [->|_]; [congruence|reflexivity].
Qed.

(** The decimal text of an integer is written with plain characters. *)
Lemma pretty_plain (x : ascii) (z : Z) :
  is_digit x = false → plain x "-" = true →
  ∃ c l, pretty z = str (c :: l) ∧ forallb (plain x) (c :: l) = true.
Proof.
  intros Hx Hm. destruct (pretty_shape z) as (c & l & E & _ & Hl & Hf & _).
  exists c, l. split.
  { by rewrite <- E, string_of_list_ascii_of_string. }
  assert (Hall : ∀ ds, forallb is_digit ds = true → forallb (plain x) ds = true).
  { induction ds as [|d ds IH]; [done|]. cbn [forallb].
    intros [Hd Hds]%andb_true_iff. by rewrite digit_plain, IH. }
  destruct Hf as (d & ds & Hd & [[= -> ->]|[= -> ->]]).
  - by apply Hall.
  - change (forallb (plain x) ("-"%char :: d :: ds))
      with (plain x "-" && forallb (plain x) (d :: ds)).
    rewrite Hm. by apply Hall.
Qed.

Lemma trim_plain (x c : ascii) (a : list ascii) :
  forallb (plain x) (c :: a) = true → trim (str (c :: a)) = str (c :: a).
Proof.
  intros H. unfold trim. rewrite list_ascii_of_string_of_list_ascii. f_equal.
  cbn [forallb] in H. apply andb_true_iff in H as [Hc Ha].
  destruct (plain_facts x c Hc) as (_ & Hc2 & _).
  destruct a as [|y a] using rev_ind.
  - by apply (trim_chars_tight c c []).
  - clear IHa. rewrite forallb_app in Ha. apply andb_true_iff in Ha as [_ Hy].
    cbn [forallb] in Hy. apply andb_true_iff in Hy as [Hy _].
    destruct (plain_facts x y Hy) as (_ & Hy2 & _).
    by apply (trim_chars_tight c y a).
Qed.

(** The statement [pinMode(pin, mode)], written with the decimal text of an
    integer and a mode without white space, comma or parenthesis, performs
    [PinManager.pinMode] with that integer and that text: the mode is taken
    as it stands, whether or not it is one of INPUT, OUTPUT and
    INPUT_PULLUP. *)
Theorem pinMode_statement (z : Z) (c : ascii) (a : list ascii) (fuel : nat)
        (lv : gmap string jsval) (w : World) :
  is_running w = true →
  forallb (plain ")") (c :: a) = true →
  executeStatement (S fuel)
    ("pinMode(" +:+ pretty z +:+ ", " +:+ str (c :: a) +:+ ")") lv w
  = Ok lv (with_pin_op (PinManager.OpPinMode (of_Z z) (str (c :: a))) w).
Proof.
  intros Hr Hm.
  destruct (pretty_plain "," z eq_refl eq_refl) as (c1 & a1 & Ep & Hp).
  cbn [executeStatement]. rewrite Hr. cbn [negb].
  rewrite classify_pinMode.
  2:{ rewrite Ep. by apply (call2_match "pinMode"). }
  unfold bind at 1. rewrite eval_pretty. rewrite (trim_plain _ _ _ Hm).
  unfold bind. by rewrite (on_pins_integer _ z).
Qed.

(** The statements [digitalWrite(pin, HIGH)], [digitalWrite(pin, LOW)] and
    [analogWrite(pin, value)], written with the decimal texts of integers,
    perform [PinManager.digitalWrite] with 1 and with 0 and
    [PinManager.analogWrite] with these integers. *)
Theorem write_statements (z v : Z) (fuel : nat) (lv : gmap string jsval)
        (w : World) :
  is_running w = true →
  executeStatement (S fuel) ("digitalWrite(" +:+ pretty z +:+ ", " +:+ "HIGH" +:+ ")")
                   lv w
  = Ok lv (with_pin_op (PinManager.OpDigitalWrite (of_Z z) one) w) ∧
  executeStatement (S fuel) ("digitalWrite(" +:+ pretty z +:+ ", " +:+ "LOW" +:+ ")")
                   lv w
  = Ok lv (with_pin_op (PinManager.OpDigitalWrite (of_Z z) zero) w) ∧
  executeStatement (S fuel)
    ("analogWrite(" +:+ pretty z +:+ ", " +:+ pretty v +:+ ")") lv w
  = Ok lv (with_pin_op (PinManager.OpAnalogWrite (of_Z z) (of_Z v)) w).
Proof.
  intros Hr.
  destruct (pretty_plain "," z eq_refl eq_refl) as (c1 & a1 & Ep & Hp).
  destruct (pretty_plain ")" v eq_refl eq_refl) as (c2 & a2 & Ev & Hv).
  repeat split; cbn [executeStatement]; rewrite Hr; cbn [negb].
  - rewrite classify_digitalWrite.
    2:{ rewrite Ep. by apply (call2_match "digitalWrite" c1 "H" a1 (chars "IGH")). }
    unfold bind at 1. rewrite eval_pretty.
    change (trim "HIGH") with "HIGH"%string.
    change (String.eqb "HIGH" "HIGH") with true. cbv iota.
    unfold bind, ret. by rewrite (on_pins_integer _ z).
  - rewrite classify_digitalWrite.
    2:{ rewrite Ep. by apply (call2_match "digitalWrite" c1 "L" a1 (chars "OW")). }
    unfold bind at 1. rewrite eval_pretty.
    change (trim "LOW") with "LOW"%string.
    change (String.eqb "LOW" "HIGH") with false.
    change (String.eqb "LOW" "LOW") with true. cbv iota.
    unfold bind, ret. by rewrite (on_pins_integer _ z).
  - rewrite classify_analogWrite.
    2:{ rewrite Ep, Ev. by apply (call2_match "analogWrite"). }
    unfold bind at 1. rewrite eval_pretty.
    unfold bind at 1. rewrite eval_pretty.
    unfold bind. by rewrite (on_pins_integer _ z).
Qed.


(** *** Reading a pin *)

Lemma first_char (c k : ascii) (s t u : string) :
  s = String c t → Ascii.eqb c k = false → String.eqb s (String k u) = false.
Proof. intros -> H. cbn [String.eqb]. by rewrite H. Qed.

Lemma test_none (r r' : re) (s : string) :
  r = Seq (Bol false) r' → match_at r [] (chars s) = None → Regex.test r s = false.
Proof. intros -> H. unfold Regex.test. by rewrite exec_anchored, H. Qed.

Lemma trim_closed (c : ascii) (s : string) :
  is_space c = false →
  trim (String c (s +:+ ")")) = String c (s +:+ ")").
Proof.
  intros Hc. unfold trim.
  change (chars (String c (s +:+ ")"))) with (c :: chars (s +:+ ")")).
  rewrite TextFacts.chars_app.
  change (chars ")") with [")"%char].
  rewrite (proj1 (trim_chars_tight c ")" (chars s) Hc eq_refl)).
  change (str (c :: chars s ++ [")"%char]))
    with (String c (str (chars s ++ [")"%char]))).
  by rewrite TextFacts.str_app, string_of_list_ascii_of_string.
Qed.

Lemma classify_digitalRead (a : string) :
  (∃ m, Regex.exec Pat.re_digitalRead ("digitalRead(" +:+ a +:+ ")") = Some m ∧
        grp m 1 = a) →
  classify_expr ("digitalRead(" +:+ a +:+ ")") = EDigitalRead a.
Proof.
  intros (m & E & G). unfold classify_expr.
  rewrite (test_none ArduinoParser.re_number _ _ eq_refl)
    by (vm_compute; reflexivity).
  rewrite (test_none ArduinoParser.re_hex _ _ eq_refl)
    by (vm_compute; reflexivity).
  set (s := ("digitalRead(" +:+ a +:+ ")")%string) in *.
  assert (Hs : s = String "d" ("igitalRead(" +:+ a +:+ ")")) by reflexivity.
  rewrite !(first_char "d" _ s _ _ Hs) by reflexivity.
  change (startsWith s quote1) with false.
  change (startsWith s quote2) with false. cbn [andb orb].
  by rewrite E, G.
Qed.

Lemma classify_analogRead (a : string) :
  (∃ m, Regex.exec Pat.re_analogRead ("analogRead(" +:+ a +:+ ")") = Some m ∧
        grp m 1 = a) →
  classify_expr ("analogRead(" +:+ a +:+ ")") = EAnalogRead a.
Proof.
  intros (m & E & G). unfold classify_expr.
  rewrite (test_none ArduinoParser.re_number _ _ eq_refl)
    by (vm_compute; reflexivity).
  rewrite (test_none ArduinoParser.re_hex _ _ eq_refl)
    by (vm_compute; reflexivity).
  set (s := ("analogRead(" +:+ a +:+ ")")%string) in *.
  assert (Hs : s = String "a" ("nalogRead(" +:+ a +:+ ")")) by reflexivity.
  rewrite !(first_char "a" _ s _ _ Hs) by reflexivity.
  change (startsWith s quote1) with false.
  change (startsWith s quote2) with false. cbn [andb orb].
  assert (H : Regex.exec Pat.re_digitalRead s = None)
    by (apply (exec_none _ _ _ eq_refl); vm_compute; reflexivity).
  by rewrite H, E, G.
Qed.

(** The expressions [digitalRead(pin)] and [analogRead(pin)], written with
    the decimal text of an integer, evaluate to what [PinManager.digitalRead]
    and [PinManager.analogRead] return for that integer, and leave the state
    as it is. *)
Theorem read_expressions (z : Z) (fuel : nat) (lv : gmap string jsval)
        (w : World) :
  evaluateExpr (S (S fuel)) ("digitalRead(" +:+ pretty z +:+ ")") lv w
  = Ok (PinManager.digitalRead (of_Z z) (pinManager (engine w))) w ∧
  evaluateExpr (S (S fuel)) ("analogRead(" +:+ pretty z +:+ ")") lv w
  = Ok (PinManager.analogRead (of_Z z) (pinManager (engine w))) w.
Proof.
  destruct (pretty_plain ")" z eq_refl eq_refl) as (c & a & Ep & Hp).
  remember (S fuel) as f eqn:Ef.
  split; cbn [evaluateExpr]; subst f.
  - change ("digitalRead(" +:+ pretty z +:+ ")")%string
      with (String "d" (("igitalRead(" +:+ pretty z) +:+ ")")).
    rewrite trim_closed by reflexivity.
    change (String "d" (("igitalRead(" +:+ pretty z) +:+ ")"))
      with ("digitalRead(" +:+ pretty z +:+ ")")%string.
    rewrite classify_digitalRead.
    2:{ rewrite Ep. by apply (call1_match "digitalRead"). }
    unfold bind. by rewrite eval_pretty.
  - change ("analogRead(" +:+ pretty z +:+ ")")%string
      with (String "a" (("nalogRead(" +:+ pretty z) +:+ ")")).
    rewrite trim_closed by reflexivity.
    change (String "a" (("nalogRead(" +:+ pretty z) +:+ ")"))
      with ("analogRead(" +:+ pretty z +:+ ")")%string.
    rewrite classify_analogRead.
    2:{ rewrite Ep. by apply (call1_match "analogRead"). }
    unfold bind. by rewrite eval_pretty.
Qed.

End PinStatements.

Lemma pinMode_statement_witness :
  executeStatement (host := sample_host) 1
    ("pinMode(" +:+ pretty 13 +:+ ", " +:+ str (chars "OUTPUT") +:+ ")") ∅
    (running_world ∅ ∅ 0 [])
  = Ok ∅ (with_pin_op (PinManager.OpPinMode (of_Z 13) (str (chars "OUTPUT")))
                      (running_world ∅ ∅ 0 [])).
Proof.
  apply (pinMode_statement (host := sample_host) 13 "O" (chars "UTPUT") 0 ∅
           (running_world ∅ ∅ 0 [])); reflexivity.
Defined.

Lemma write_statements_witness :
  let w := running_world ∅ ∅ 0 [] in
  executeStatement (host := sample_host) 1
    ("digitalWrite(" +:+ pretty 2 +:+ ", " +:+ "HIGH" +:+ ")") ∅ w
  = Ok ∅ (with_pin_op (PinManager.OpDigitalWrite (of_Z 2) one) w) ∧
  executeStatement (host := sample_host) 1
    ("digitalWrite(" +:+ pretty 2 +:+ ", " +:+ "LOW" +:+ ")") ∅ w
  = Ok ∅ (with_pin_op (PinManager.OpDigitalWrite (of_Z 2) zero) w) ∧
  executeStatement (host := sample_host) 1
    ("analogWrite(" +:+ pretty 2 +:+ ", " +:+ pretty 300 +:+ ")") ∅ w
  = Ok ∅ (with_pin_op (PinManager.OpAnalogWrite (of_Z 2) (of_Z 300)) w).
Proof.
  apply (write_statements (host := sample_host) 2 300 0 ∅
           (running_world ∅ ∅ 0 [])); reflexivity.
Defined.

(** The pin named constructor, addressed from a sketch: the statement
    [pinMode("constructor", OUTPUT)] calls the subscriber of the pin
    manager, and the expression [digitalRead("constructor")] has the value
    [undefined]. *)
Example constructor_from_sketch :
  let w0 := running_world ∅ ∅ 0 [] in
  let w := with_engine
             (with_pinManager (PinManager.onChange 0 PinManager.new) (engine w0))
             w0 in
  observe (fun _ w' => PinManager.calls (pinManager (engine w')))
          (executeStatement (host := sample_host) 3
             ("pinMode(" +:+ quoted "constructor" +:+ ", OUTPUT)") ∅ w)
  = Some [(0%nat, VStr "constructor",
           Some (PinManager.Inherited "constructor"
                   {| PinManager.has_mode := Some "OUTPUT"%string;
                      PinManager.has_value := None;
                      PinManager.has_analogValue := None;
                      PinManager.has_pwmValue := None;
                      PinManager.has_connected := None |}))] ∧
  observe (fun v _ => v)
          (evaluateExpr (host := sample_host) 3
             ("digitalRead(" +:+ quoted "constructor" +:+ ")") ∅ w)
  = Some VUndef.
Proof. split; vm_compute; reflexivity. Qed.

(** ** Statements that print *)

Module PrintMatch.

Import RegexRun CallMatch.

(** A group that holds alternatives is the alternative of the groups. *)
Lemma run_group_alt (i : nat) (a b rest : re) (st : mstate)
      (k : mstate → option mstate) :
  run (Seq (Group i (Alt a b)) rest) st k
  = orelse (run (Seq (Group i a) rest) st k) (run (Seq (Group i b) rest) st k).
Proof. reflexivity. Qed.

Lemma run_group_lit (i : nat) (s : string) (rest : re)
      (k : mstate → option mstate) b l cs :
  run (Seq (Group i (lit s)) rest)
      {| before := b; ahead := chars s ++ l; caps := cs |} k
  = run rest {| before := rev (chars s) ++ b; ahead := l;
                caps := (i, s) :: cs |} k.
Proof.
  rewrite run_seq, run_group, run_lit. cbn [before ahead caps].
  replace (length (chars s ++ l) - length l)%nat with (length (chars s))
    by (rewrite length_app; lia).
  by rewrite TextFacts.firstn_length_app, string_of_list_ascii_of_string.
Qed.

(** A greedy repetition that runs to the end of the subject, where the
    continuation fails, and succeeds one character before. *)
Lemma greedy_chr_last (p : ascii → bool) (k : mstate → option mstate)
      (cs : list (nat * string)) (z : ascii) (r : mstate) :
  ∀ a b,
    forallb p a = true → p z = true →
    k {| before := z :: rev a ++ b; ahead := []; caps := cs |} = None →
    k {| before := rev a ++ b; ahead := [z]; caps := cs |} = Some r →
    greedy_chr p k b (a ++ [z]) cs = Some r.
Proof.
  induction a as [|c a IH]; intros b Ha Hz Hend Hlast.
  - cbn [app greedy_chr]. rewrite Hz. cbn [rev app] in *.
    by rewrite Hend, Hlast.
  - cbn [forallb] in Ha. apply andb_true_iff in Ha as [Hc Ha].
    cbn [app greedy_chr]. rewrite Hc.
    rewrite (IH (c :: b)); [reflexivity|exact Ha|exact Hz| |].
    + cbn [rev] in Hend. by rewrite <- app_assoc in Hend.
    + cbn [rev] in Hlast. by rewrite <- app_assoc in Hlast.
Qed.

(** The greedy group of [re_print] takes the whole argument of a call that
    ends the line. *)
Lemma run_greedy_arg (i : nat) (a b : list ascii) (cs : list (nat * string)) :
  forallb (fun c => negb (is_line_end c)) a = true →
  run (Seq (Group i (Star true dot)) (Seq sp (Seq (ch ")") Eps)))
      {| before := b; ahead := a ++ [")"%char]; caps := cs |} Some
  = Some {| before := ")"%char :: rev a ++ b; ahead := [];
            caps := (i, str a) :: cs |}.
Proof.
  intros Ha. rewrite run_seq, run_group. unfold dot. rewrite run_star_chr.
  apply greedy_chr_last; [exact Ha|reflexivity| |].
  - cbn [before ahead caps]. by rewrite run_sp_end.
  - cbn [before ahead caps]. rewrite run_sp_skip by reflexivity.
    rewrite run_ch_ok, run_eps.
    replace (length (a ++ [")"%char]) - length [")"%char])%nat with (length a)
      by (rewrite length_app; cbn; lia).
    by rewrite TextFacts.firstn_length_app.
Qed.

End PrintMatch.

Section PrintStatements.

Context {host : Host}.

Import RegexRun CallMatch PrintMatch.

Lemma exec_absent (r r' : re) (s : string) :
  r = Seq (Bol false) r' → match_at r [] (chars s) = None → Regex.exec r s = None.
Proof. intros -> H. by rewrite exec_anchored. Qed.

Ltac absent r :=
  match goal with
  | |- context [Regex.exec r ?s] =>
      let H := fresh in
      assert (H : Regex.exec r s = None)
        by (apply (exec_absent _ _ _ eq_refl); vm_compute; reflexivity);
      rewrite H; clear H
  end.

(** The match of [re_print] on a call of [print] or [println] whose
    argument starts with a double quote and holds no line break. *)
Lemma exec_print (ln : bool) (a : list ascii) :
  forallb (fun c => negb (is_line_end c)) a = true →
  ∃ m, Regex.exec StmtPat.re_print
         ("Serial." +:+ (if ln then "println" else "print") +:+ "("
          +:+ str (dquote :: a) +:+ ")")
       = Some m ∧
       grp m 1 = (if ln then "println" else "print")%string ∧
       grp m 2 = str (dquote :: a).
Proof.
  intros Ha.
  change StmtPat.re_print
    with (Seq (Bol false)
            (Seq (lit "Serial.")
               (Seq (Group 1 (Alt (lit "print") (lit "println")))
                  (Seq sp (Seq (ch "(")
                     (Seq sp (Seq (Group 2 (Star true dot))
                        (Seq sp (Seq (ch ")") Eps))))))))).
  rewrite exec_anchored. unfold match_at.
  rewrite !TextFacts.chars_app, !list_ascii_of_string_of_list_ascii.
  rewrite run_seq, run_bol, run_seq, run_lit, run_group_alt.
  assert (Hq : forallb (fun c => negb (is_line_end c)) (dquote :: a) = true)
    by (cbn [forallb]; by rewrite Ha).
  destruct ln.
  - change (chars "println" ++ ?l) with (chars "print" ++ chars "ln" ++ l) at 1.
    rewrite (run_group_lit 1 "print").
    change (chars "ln" ++ ?l) with ("l"%char :: "n"%char :: l).
    rewrite run_sp_skip by reflexivity.
    rewrite run_ch_fail by reflexivity. cbn [orelse].
    rewrite (run_group_lit 1 "println"). cbn [chars app].
    rewrite run_sp_skip by reflexivity. rewrite run_ch_ok.
    rewrite run_sp_skip by reflexivity.
    change (dquote :: a ++ [")"%char]) with ((dquote :: a) ++ [")"%char]).
    rewrite (run_greedy_arg 2 _ _ _ Hq).
    eexists. split; [reflexivity|]. split; reflexivity.
  - rewrite (run_group_lit 1 "print"). cbn [chars app].
    rewrite run_sp_skip by reflexivity. rewrite run_ch_ok.
    rewrite run_sp_skip by reflexivity.
    change (dquote :: a ++ [")"%char]) with ((dquote :: a) ++ [")"%char]).
    rewrite (run_greedy_arg 2 _ _ _ Hq).
    eexists. split; [reflexivity|]. split; reflexivity.
Qed.

Lemma classify_print (ln : bool) (a : list ascii) :
  forallb (fun c => negb (is_line_end c)) a = true →
  classify ("Serial." +:+ (if ln then "println" else "print") +:+ "("
            +:+ str (dquote :: a) +:+ ")")
  = SPrint ln (trim (str (dquote :: a))).
Proof.
  intros Ha. destruct (exec_print ln a Ha) as (m & E & G1 & G2).
  unfold classify, Regex.test.
  absent StmtPat.re_delay. absent StmtPat.re_delayMicroseconds.
  assert (Hb : Regex.exec StmtPat.re_serial_begin
                 ("Serial." +:+ (if ln then "println" else "print") +:+ "("
                  +:+ str (dquote :: a) +:+ ")") = None)
    by (apply (exec_absent _ _ _ eq_refl); destruct ln; vm_compute; reflexivity).
  rewrite Hb, E, G1, G2. by destruct ln.
Qed.

Lemma quoted_chars (text : string) :
  quoted text = str (dquote :: chars text ++ [dquote]).
Proof.
  unfold quoted, quote1. cbn [append str]. f_equal.
  by rewrite TextFacts.str_app, string_of_list_ascii_of_string.
Qed.

Lemma search_absent (x : ascii) (r : re) (l : list ascii) :
  x ∉ l → ∀ bef, search (Seq (ch x) r) bef l = None.
Proof.
  induction l as [|c l IH]; intros Hx bef; cbn [search]; unfold match_at.
  - unfold ch. by rewrite run_seq, run_chr_end.
  - apply not_elem_of_cons in Hx as [Hc Hl].
    rewrite run_ch_fail by (by apply Ascii.eqb_neq). by apply IH.
Qed.

(** A text without a backslash has no escape sequence to replace. *)
Lemma unescape_plain (text : string) :
  backslash ∉ chars text → unescape text = text.
Proof.
  intros H. unfold unescape.
  assert (Hn : ∀ (r : re) f, Regex.replace_all (Seq (ch backslash) r) f text = text).
  { intros r f. unfold Regex.replace_all, matches. cbn [scan].
    rewrite search_absent by exact H. cbn [map splice].
    apply string_of_list_ascii_of_string. }
  change StmtPat.re_escaped_n with (Seq (ch backslash) (Seq (ch "n") Eps)).
  change StmtPat.re_escaped_t with (Seq (ch backslash) (Seq (ch "t") Eps)).
  by rewrite !Hn.
Qed.

(** [print] and [println] of a text between double quotes that holds no
    line break hand the text to the serial output, the two-character
    sequences for a new line and for a tabulator replaced by these
    characters, whatever else the text holds; a text without a backslash is
    handed over as it is. *)
Theorem print_literal (text : string) (fuel : nat) (lv : gmap string jsval)
        (w : World) :
  is_running w = true →
  forallb (fun c => negb (is_line_end c)) (chars text) = true →
  executeStatement (S fuel) ("Serial." +:+ "print" +:+ "(" +:+ quoted text +:+ ")")
                   lv w
  = Ok lv (handleSerial (unescape text) "print" w) ∧
  executeStatement (S fuel) ("Serial." +:+ "println" +:+ "(" +:+ quoted text +:+ ")")
                   lv w
  = Ok lv (handleSerial (unescape text) "println" w) ∧
  (backslash ∉ chars text → unescape text = text).
Proof.
  intros Hr Ht.
  refine (let H := (_ : _ ∧ _) in
          conj (proj1 H) (conj (proj2 H) (unescape_plain text))).
  assert (Ha : forallb (fun c => negb (is_line_end c)) (chars text ++ [dquote])
               = true) by (by rewrite forallb_app, Ht).
  assert (Htrim : trim (str (dquote :: chars text ++ [dquote]))
                  = str (dquote :: chars text ++ [dquote])).
  { unfold trim. rewrite list_ascii_of_string_of_list_ascii.
    by rewrite (proj1 (DecimalFacts.trim_chars_tight dquote dquote (chars text)
                         eq_refl eq_refl)). }
  assert (Hs : startsWith (str (dquote :: chars text ++ [dquote])) quote1
               && endsWith (str (dquote :: chars text ++ [dquote])) quote1 = true).
  { unfold startsWith, endsWith. rewrite list_ascii_of_string_of_list_ascii.
    cbn [chars quote1 starts_with rev app]. rewrite rev_app_distr.
    reflexivity. }
  assert (Hsl : slice_1_m1 (str (dquote :: chars text ++ [dquote])) = text).
  { unfold slice_1_m1. rewrite list_ascii_of_string_of_list_ascii.
    change (dquote :: chars text ++ [dquote])
      with ((dquote :: chars text) ++ [dquote]).
    rewrite removelast_last. cbn [tail].
    apply string_of_list_ascii_of_string. }
  assert (He : String.eqb (str (dquote :: chars text ++ [dquote])) "" = false)
    by reflexivity.
  rewrite quoted_chars.
  split; cbn [executeStatement]; rewrite Hr; cbn [negb].
  - rewrite (classify_print false _ Ha), Htrim, He, Hs.
    unfold bind at 1. unfold bind at 1, ret at 1. by rewrite Hsl.
  - rewrite (classify_print true _ Ha), Htrim, He, Hs.
    unfold bind at 1. unfold bind at 1, ret at 1. by rewrite Hsl.
Qed.

End PrintStatements.

Lemma print_literal_witness :
  let w := running_world ∅ ∅ 0 [] in
  executeStatement (host := sample_host) 1
    ("Serial." +:+ "print" +:+ "(" +:+ quoted "Loop #" +:+ ")") ∅ w
  = Ok ∅ (handleSerial (unescape "Loop #") "print" w) ∧
  executeStatement (host := sample_host) 1
    ("Serial." +:+ "println" +:+ "(" +:+ quoted "Loop #" +:+ ")") ∅ w
  = Ok ∅ (handleSerial (unescape "Loop #") "println" w) ∧
  (backslash ∉ chars "Loop #" → unescape "Loop #" = "Loop #"%string).
Proof.
  apply (print_literal (host := sample_host) "Loop #" 0 ∅
           (running_world ∅ ∅ 0 [])); reflexivity.
Defined.
(** ** Statements that drive a pin with pulses *)

Module ToneMatch.

Import RegexRun CallMatch.

Lemma plain_dot (x : ascii) (l : list ascii) :
  forallb (plain x) l = true →
  forallb (fun c => negb (is_line_end c)) l = true.
Proof.
  induction l as [|y l IH]; [done|]. cbn [forallb].
  intros [Hy Hl]%andb_true_iff.
  destruct (plain_facts x y Hy) as (-> & _). by rewrite IH.
Qed.

(** A lazy group takes an argument when what follows it fails at every
    character of the argument and succeeds after the last one. *)
Lemma run_lazy_then (i : nat) (rest : re) (k : mstate → option mstate)
      (c : ascii) (a l b : list ascii) (cs : list (nat * string)) (r : mstate) :
  forallb (fun y => negb (is_line_end y)) (c :: a) = true →
  (∀ a1 y a2 cs', a = a1 ++ y :: a2 →
     run rest {| before := rev a1 ++ c :: b; ahead := y :: a2 ++ l;
                 caps := cs' |} k = None) →
  run rest {| before := rev a ++ c :: b; ahead := l;
              caps := (i, str (c :: a)) :: cs |} k = Some r →
  run (Seq (lazy i) rest) {| before := b; ahead := c :: a ++ l; caps := cs |} k
  = Some r.
Proof.
  cbn [forallb]. intros [Hc Ha]%andb_true_iff Hk Hr.
  apply negb_true_iff in Hc.
  unfold lazy, plus, dot at 1.
  rewrite run_seq, run_group, run_seq, run_chr, Hc. cbn [negb].
  unfold dot. rewrite run_star_chr.
  rewrite lazy_chr_skip.
  - rewrite lazy_chr_unfold. cbn [before ahead caps].
    replace (length (c :: a ++ l) - length l)%nat with (length (c :: a))
      by (cbn [length]; rewrite length_app; lia).
    change (c :: a ++ l) with ((c :: a) ++ l).
    rewrite TextFacts.firstn_length_app, Hr. reflexivity.
  - exact Ha.
  - intros a1 y a2 ->. cbn [before ahead caps]. by apply Hk.
Qed.

(** What follows the second argument of [tone]: the optional third argument
    and the closing parenthesis. *)
Lemma tone_rest_fails (k : mstate → option mstate) (y : ascii)
      (b l : list ascii) (cs : list (nat * string)) :
  plain "," y = true → plain ")" y = true →
  run (Seq (opt (Seq sp (Seq (ch ",") (Seq sp (Seq (lazy 3) Eps)))))
           (Seq sp (Seq (ch ")") Eps)))
      {| before := b; ahead := y :: l; caps := cs |} k = None.
Proof.
  intros H1 H2.
  destruct (plain_facts _ _ H1) as (_ & Hs & Hc).
  destruct (plain_facts _ _ H2) as (_ & _ & Hp).
  unfold opt. rewrite run_seq, run_alt.
  rewrite run_sp_skip by exact Hs. rewrite run_ch_fail by exact Hc.
  cbn [orelse]. rewrite run_eps.
  rewrite run_sp_skip by exact Hs. by rewrite run_ch_fail.
Qed.

Lemma tone_rest_closes (b : list ascii) (cs : list (nat * string)) :
  run (Seq (opt (Seq sp (Seq (ch ",") (Seq sp (Seq (lazy 3) Eps)))))
           (Seq sp (Seq (ch ")") Eps)))
      {| before := b; ahead := [")"%char]; caps := cs |} Some
  = Some {| before := ")"%char :: b; ahead := []; caps := cs |}.
Proof.
  unfold opt. rewrite run_seq, run_alt.
  rewrite run_sp_skip by reflexivity. rewrite run_ch_fail by reflexivity.
  cbn [orelse]. rewrite run_eps.
  rewrite run_sp_skip by reflexivity. by rewrite run_ch_ok.
Qed.

Lemma tone_rest_third (c3 : ascii) (a3 b : list ascii) (cs : list (nat * string)) :
  forallb (plain ")") (c3 :: a3) = true →
  run (Seq (opt (Seq sp (Seq (ch ",") (Seq sp (Seq (lazy 3) Eps)))))
           (Seq sp (Seq (ch ")") Eps)))
      {| before := b; ahead := ","%char :: " "%char :: c3 :: a3 ++ [")"%char];
         caps := cs |} Some
  = Some {| before := ")"%char :: rev a3 ++ c3 :: " "%char :: ","%char :: b;
            ahead := []; caps := (3%nat, str (c3 :: a3)) :: cs |}.
Proof.
  intros H3.
  assert (S3 : is_space c3 = false).
  { cbn [forallb] in H3. apply andb_true_iff in H3 as [H _].
    apply (plain_facts _ _ H). }
  unfold opt. rewrite run_seq, run_alt.
  rewrite run_sp_skip by reflexivity. rewrite run_ch_ok.
  erewrite run_sp_one; [reflexivity|exact S3|].
  apply (run_lazy_then 3 Eps _ c3 a3 [")"%char]).
  - by apply (plain_dot ")").
  - intros a1 y a2 cs' ->. rewrite run_eps. cbv beta.
    cbn [forallb] in H3. apply andb_true_iff in H3 as [_ H3].
    rewrite forallb_app in H3. apply andb_true_iff in H3 as [_ H3].
    cbn [forallb] in H3. apply andb_true_iff in H3 as [Hy _].
    destruct (plain_facts _ _ Hy) as (_ & Hs & Hp).
    rewrite run_sp_skip by exact Hs. by rewrite run_ch_fail.
  - rewrite run_eps. cbv beta.
    rewrite run_sp_skip by reflexivity. by rewrite run_ch_ok.
Qed.

(** The pattern of [tone] on a call with two or with three arguments written
    with plain characters, one blank after each comma; [third] is the text
    between the second argument and the closing parenthesis. *)
Lemma tone_match (name : string) (c1 c2 : ascii) (a1 a2 third : list ascii) :
  forallb (plain ",") (c1 :: a1) = true →
  forallb (plain ",") (c2 :: a2) = true →
  forallb (plain ")") (c2 :: a2) = true →
  (∀ b cs,
     run (Seq (opt (Seq sp (Seq (ch ",") (Seq sp (Seq (lazy 3) Eps)))))
              (Seq sp (Seq (ch ")") Eps)))
         {| before := b; ahead := third ++ [")"%char]; caps := cs |} Some
     = Some {| before := ")"%char :: rev third ++ b; ahead := [];
               caps := match third with
                       | _ :: _ :: l => (3%nat, str l) :: cs
                       | _ => cs
                       end |}) →
  ∃ m, Regex.exec
         (Regex.seq [Bol false; lit name; sp; ch "("; sp; lazy 1; sp; ch ","; sp;
                     lazy 2;
                     opt (Regex.seq [sp; ch ","; sp; lazy 3]); sp; ch ")"])
         (name +:+ "(" +:+ str (c1 :: a1) +:+ ", " +:+ str (c2 :: a2) +:+
          str third +:+ ")")
       = Some m ∧
       grp m 1 = str (c1 :: a1) ∧ grp m 2 = str (c2 :: a2).
Proof.
  intros H1 H2 H2' Ht.
  assert (S1 : is_space c1 = false).
  { cbn [forallb] in H1. apply andb_true_iff in H1 as [H _].
    apply (plain_facts _ _ H). }
  assert (S2 : is_space c2 = false).
  { cbn [forallb] in H2. apply andb_true_iff in H2 as [H _].
    apply (plain_facts _ _ H). }
  change (Regex.seq [Bol false; lit name; sp; ch "("; sp; lazy 1; sp; ch ","; sp;
                     lazy 2;
                     opt (Regex.seq [sp; ch ","; sp; lazy 3]); sp; ch ")"])
    with (Seq (Bol false)
            (Seq (lit name)
               (Seq sp (Seq (ch "(")
                  (Seq sp (Seq (lazy 1) (Seq sp (Seq (ch ",")
                     (Seq sp (Seq (lazy 2)
                        (Seq (opt (Seq sp (Seq (ch ",")
                                (Seq sp (Seq (lazy 3) Eps)))))
                             (Seq sp (Seq (ch ")") Eps))))))))))))).
  rewrite exec_anchored. unfold match_at.
  rewrite !TextFacts.chars_app, !list_ascii_of_string_of_list_ascii.
  cbn [chars app].
  rewrite run_seq, run_bol, run_seq, run_lit.
  rewrite run_sp_skip by reflexivity. rewrite run_ch_ok.
  change (c1 :: a1 ++ ?l) with (c1 :: a1 ++ l).
  rewrite run_sp_skip by exact S1.
  erewrite (run_lazy_arg 1 "," _ _ c1 a1); [|exact H1|].
  2:{ rewrite run_sp_skip by reflexivity. rewrite run_ch_ok.
      apply run_sp_one; [exact S2|].
      apply (run_lazy_then 2 _ _ c2 a2 (third ++ [")"%char])).
      - by apply (plain_dot ",").
      - intros x1 y x2 cs' ->.
        cbn [forallb] in H2, H2'.
        apply andb_true_iff in H2 as [_ H2]. apply andb_true_iff in H2' as [_ H2'].
        rewrite forallb_app in H2, H2'.
        apply andb_true_iff in H2 as [_ H2]. apply andb_true_iff in H2' as [_ H2'].
        cbn [forallb] in H2, H2'.
        apply andb_true_iff in H2 as [Hy _]. apply andb_true_iff in H2' as [Hy' _].
        by apply tone_rest_fails.
      - apply Ht. }
  eexists. split; [reflexivity|].
  destruct third as [|? [|? ?]]; split; reflexivity.
Qed.

End ToneMatch.

Section PulseStatements.

Context {host : Host}.

Import RegexRun CallMatch ToneMatch DecimalFacts.

Ltac unmatched r :=
  match goal with
  | |- context [Regex.exec r ?s] =>
      let H := fresh in
      assert (H : Regex.exec r s = None)
        by (apply (exec_none _ _ _ eq_refl); vm_compute; reflexivity);
      rewrite H; clear H
  end.

Lemma classify_ledcWrite (rest a1 a2 : string) :
  (∃ m, Regex.exec StmtPat.re_ledcWrite ("ledcWrite(" +:+ rest) = Some m ∧
        grp m 1 = a1 ∧ grp m 2 = a2) →
  classify ("ledcWrite(" +:+ rest) = SLedcWrite a1 a2.
Proof.
  intros (m & E & G1 & G2). unfold classify, Regex.test.
  unmatched StmtPat.re_delay.
  unmatched StmtPat.re_delayMicroseconds.
  unmatched StmtPat.re_serial_begin.
  unmatched StmtPat.re_print.
  unmatched StmtPat.re_printf.
  unmatched StmtPat.re_pinMode.
  unmatched StmtPat.re_digitalWrite.
  unmatched StmtPat.re_analogWrite.
  by rewrite E, G1, G2.
Qed.

Lemma classify_tone (rest a1 a2 : string) :
  (∃ m, Regex.exec StmtPat.re_tone ("tone(" +:+ rest) = Some m ∧
        grp m 1 = a1 ∧ grp m 2 = a2) →
  classify ("tone(" +:+ rest) = STone a1 a2.
Proof.
  intros (m & E & G1 & G2). unfold classify, Regex.test.
  unmatched StmtPat.re_delay.
  unmatched StmtPat.re_delayMicroseconds.
  unmatched StmtPat.re_serial_begin.
  unmatched StmtPat.re_print.
  unmatched StmtPat.re_printf.
  unmatched StmtPat.re_pinMode.
  unmatched StmtPat.re_digitalWrite.
  unmatched StmtPat.re_analogWrite.
  unmatched StmtPat.re_ledcWrite.
  by rewrite E, G1, G2.
Qed.

Lemma classify_noTone (rest a : string) :
  (∃ m, Regex.exec StmtPat.re_noTone ("noTone(" +:+ rest) = Some m ∧
        grp m 1 = a) →
  classify ("noTone(" +:+ rest) = SNoTone a.
Proof.
  intros (m & E & G). unfold classify, Regex.test.
  unmatched StmtPat.re_delay.
  unmatched StmtPat.re_delayMicroseconds.
  unmatched StmtPat.re_serial_begin.
  unmatched StmtPat.re_print.
  unmatched StmtPat.re_printf.
  unmatched StmtPat.re_pinMode.
  unmatched StmtPat.re_digitalWrite.
  unmatched StmtPat.re_analogWrite.
  unmatched StmtPat.re_ledcWrite.
  unmatched StmtPat.re_tone.
  by rewrite E, G.
Qed.

(** The decimal text of an integer holds neither a comma nor a closing
    parenthesis. *)
Lemma pretty_plain_both (z : Z) :
  ∃ c l, pretty z = str (c :: l) ∧
         forallb (plain ",") (c :: l) = true ∧
         forallb (plain ")") (c :: l) = true.
Proof.
  destruct (pretty_plain "," z eq_refl eq_refl) as (c & l & E & H).
  destruct (pretty_plain ")" z eq_refl eq_refl) as (c' & l' & E' & H').
  exists c, l. split; [exact E|]. split; [exact H|].
  rewrite E in E'. apply (f_equal chars) in E'.
  rewrite !list_ascii_of_string_of_list_ascii in E'. by rewrite E'.
Qed.

(** [ledcWrite(channel, duty)] writes the duty to the pin whose number is the
    channel; [tone(pin, frequency)] and [tone(pin, frequency, duration)]
    write 128 to the pin whatever the frequency and the duration, and wait
    for nothing; [noTone(pin)] writes 0.  The arguments are written with the
    decimal texts of integers. *)
Theorem tone_statements (z v d : Z) (fuel : nat) (lv : gmap string jsval)
        (w : World) :
  is_running w = true →
  executeStatement (S fuel)
    ("ledcWrite(" +:+ pretty z +:+ ", " +:+ pretty v +:+ ")") lv w
  = Ok lv (with_pin_op (PinManager.OpAnalogWrite (of_Z z) (of_Z v)) w) ∧
  executeStatement (S fuel)
    ("tone(" +:+ pretty z +:+ ", " +:+ pretty v +:+ ")") lv w
  = Ok lv (with_pin_op (PinManager.OpAnalogWrite (of_Z z) (of_Z 128)) w) ∧
  executeStatement (S fuel)
    ("tone(" +:+ pretty z +:+ ", " +:+ pretty v +:+ ", " +:+ pretty d +:+ ")") lv w
  = Ok lv (with_pin_op (PinManager.OpAnalogWrite (of_Z z) (of_Z 128)) w) ∧
  executeStatement (S fuel) ("noTone(" +:+ pretty z +:+ ")") lv w
  = Ok lv (with_pin_op (PinManager.OpAnalogWrite (of_Z z) zero) w).
Proof.
  intros Hr.
  destruct (pretty_plain "," z eq_refl eq_refl) as (c1 & a1 & Ep & Hp).
  destruct (pretty_plain ")" z eq_refl eq_refl) as (c0 & a0 & Ep0 & Hp0).
  destruct (pretty_plain ")" v eq_refl eq_refl) as (c2 & a2 & Ev & Hv).
  destruct (pretty_plain_both v) as (c4 & a4 & Ev4 & Hv4 & Hv4').
  destruct (pretty_plain ")" d eq_refl eq_refl) as (c3 & a3 & Ed & Hd).
  split; [|split; [|split]]; cbn [executeStatement]; rewrite Hr; cbn [negb].
  - rewrite (classify_ledcWrite _ (pretty z) (pretty v)).
    2:{ rewrite Ep, Ev. by apply (call2_match "ledcWrite"). }
    unfold bind at 1. rewrite eval_pretty.
    unfold bind at 1. rewrite eval_pretty.
    unfold bind, ret. by rewrite (on_pins_integer _ z).
  - rewrite (classify_tone _ (pretty z) (pretty v)).
    2:{ rewrite Ep, Ev4.
        apply (tone_match "tone" c1 c4 a1 a4 []); try assumption.
        intros b cs. apply tone_rest_closes. }
    unfold bind at 1. rewrite eval_pretty.
    unfold bind at 1. rewrite eval_pretty.
    unfold bind, ret. by rewrite (on_pins_integer _ z).
  - rewrite (classify_tone _ (pretty z) (pretty v)).
    2:{ rewrite Ep, Ev4, Ed.
        apply (tone_match "tone" c1 c4 a1 a4 (","%char :: " "%char :: c3 :: a3));
          try assumption.
        intros b cs. cbn [app]. rewrite (tone_rest_third c3 a3 b cs Hd).
        cbn [rev]. by rewrite <- !app_assoc. }
    unfold bind at 1. rewrite eval_pretty.
    unfold bind at 1. rewrite eval_pretty.
    unfold bind, ret. by rewrite (on_pins_integer _ z).
  - rewrite (classify_noTone _ (pretty z)).
    2:{ rewrite Ep0. by apply (call1_match "noTone"). }
    unfold bind at 1. rewrite eval_pretty.
    unfold bind, ret. by rewrite (on_pins_integer _ z).
Qed.

End PulseStatements.

Lemma tone_statements_witness :
  let w := running_world ∅ ∅ 0 [] in
  executeStatement (host := sample_host) 1
    ("ledcWrite(" +:+ pretty 5 +:+ ", " +:+ pretty 200 +:+ ")") ∅ w
  = Ok ∅ (with_pin_op (PinManager.OpAnalogWrite (of_Z 5) (of_Z 200)) w) ∧
  executeStatement (host := sample_host) 1
    ("tone(" +:+ pretty 5 +:+ ", " +:+ pretty 200 +:+ ")") ∅ w
  = Ok ∅ (with_pin_op (PinManager.OpAnalogWrite (of_Z 5) (of_Z 128)) w) ∧
  executeStatement (host := sample_host) 1
    ("tone(" +:+ pretty 5 +:+ ", " +:+ pretty 200 +:+ ", " +:+ pretty 40 +:+ ")")
    ∅ w
  = Ok ∅ (with_pin_op (PinManager.OpAnalogWrite (of_Z 5) (of_Z 128)) w) ∧
  executeStatement (host := sample_host) 1 ("noTone(" +:+ pretty 5 +:+ ")") ∅ w
  = Ok ∅ (with_pin_op (PinManager.OpAnalogWrite (of_Z 5) zero) w).
Proof.
  apply (tone_statements (host := sample_host) 5 200 40 0 ∅
           (running_world ∅ ∅ 0 [])); reflexivity.
Defined.

(** ** Opening the serial port *)

Section SerialBegin.

Context {host : Host}.

Import RegexRun CallMatch.

Lemma classify_serial_begin (rest : string) :
  classify ("Serial.begin(" +:+ rest) = SSerialBegin.
Proof.
  unfold classify.
  assert (H1 : Regex.exec StmtPat.re_delay ("Serial.begin(" +:+ rest) = None)
    by (apply (exec_none _ _ _ eq_refl); vm_compute; reflexivity).
  assert (H2 : Regex.exec StmtPat.re_delayMicroseconds ("Serial.begin(" +:+ rest)
               = None)
    by (apply (exec_none _ _ _ eq_refl); vm_compute; reflexivity).
  rewrite H1, H2. unfold Regex.test.
  change StmtPat.re_serial_begin
    with (Seq (Bol false) (Seq (lit "Serial.begin") (Seq sp (Seq (ch "(") Eps)))).
  rewrite exec_anchored. unfold match_at.
  change (chars ("Serial.begin(" +:+ rest))
    with (chars "Serial.begin" ++ "("%char :: chars rest).
  rewrite run_seq, run_bol, run_seq, run_lit.
  rewrite run_sp_skip by reflexivity. rewrite run_ch_ok, run_eps.
  reflexivity.
Qed.

(** A statement that starts with [Serial.begin(] reports the line
    [[System] Serial initialized] with the type system and does nothing
    else, whatever follows the parenthesis: the baud rate is neither
    evaluated nor kept. *)
Theorem serial_begin_ignores_rate (rest : string) (fuel : nat)
        (lv : gmap string jsval) (w : World) :
  is_running w = true →
  executeStatement (S fuel) ("Serial.begin(" +:+ rest) lv w
  = Ok lv (handleSerial "[System] Serial initialized" "system" w).
Proof.
  intros Hr. cbn [executeStatement]. rewrite Hr. cbn [negb].
  by rewrite classify_serial_begin.
Qed.

End SerialBegin.

Lemma serial_begin_ignores_rate_witness :
  let w := running_world ∅ ∅ 0 [] in
  executeStatement (host := sample_host) 1 ("Serial.begin(" +:+ "115200)") ∅ w
  = Ok ∅ (handleSerial "[System] Serial initialized" "system" w).
Proof.
  apply (serial_begin_ignores_rate (host := sample_host) "115200)" 0 ∅
           (running_world ∅ ∅ 0 [])); reflexivity.
Defined.

(** ** Fatal errors *)

(** *** Where an exception can be raised *)

Section Alive.

Context {host : Host}.

Local Open Scope interp_scope.

Lemma never_throws_effect (f : World → World) : never_throws (effect f).
Proof. intros w msg w'. discriminate. Qed.

Lemma never_throws_suspend (d : num) : never_throws (suspend d).
Proof. intros w msg w'. discriminate. Qed.

Lemma never_throws_store name f lv : never_throws (store name f lv).
Proof.
  intros w msg w'. unfold store.
  destruct (lv !! name); [discriminate|]. by destruct (f _).
Qed.

Lemma never_throws_mapM {A B} (f : A → M B) (l : list A) :
  (∀ a, never_throws (f a)) → never_throws (mapM f l).
Proof.
  intros Hf. induction l as [|a l IH]; cbn [mapM]; [apply never_throws_ret|].
  apply never_throws_bind; [apply Hf|]. intros b.
  apply never_throws_bind; [apply IH|]. intros bs. apply never_throws_ret.
Qed.

Lemma never_throws_every {A} (f : A → M bool) (l : list A) :
  (∀ a, never_throws (f a)) → never_throws (every f l).
Proof.
  intros Hf. induction l as [|a l IH]; cbn [every]; [apply never_throws_ret|].
  apply never_throws_bind; [apply Hf|].
  intros [|]; [apply IH|apply never_throws_ret].
Qed.

Lemma never_throws_some {A} (f : A → M bool) (l : list A) :
  (∀ a, never_throws (f a)) → never_throws (some f l).
Proof.
  intros Hf. induction l as [|a l IH]; cbn [some]; [apply never_throws_ret|].
  apply never_throws_bind; [apply Hf|].
  intros [|]; [apply never_throws_ret|apply IH].
Qed.

Lemma evaluateCondition_never_throws (fuel : nat) (expr : string)
      (lv : gmap string jsval) :
  never_throws (evaluateCondition fuel expr lv).
Proof.
  revert expr. induction fuel as [|fuel IH]; intros expr;
    [apply never_throws_timeout|].
  cbn [evaluateCondition].
  destruct (includes (trim expr) "&&");
    [apply never_throws_every; intros p; apply IH|].
  destruct (includes (trim expr) "||");
    [apply never_throws_some; intros p; apply IH|].
  destruct (startsWith (trim expr) "!").
  { apply never_throws_bind; [apply IH|]. intros b. apply never_throws_ret. }
  destruct (first_op (trim expr)) as [[op idx]|];
    repeat first
      [ apply never_throws_ret | apply evaluateExpr_never_throws
      | apply never_throws_bind; [|intros ?] ].
Qed.

Lemma bind_params_never_throws fuel ps args i lv fl :
  never_throws (bind_params fuel ps args i lv fl).
Proof.
  revert i fl. induction ps as [|p ps IH]; intros i fl; cbn [bind_params];
    [apply never_throws_ret|].
  apply never_throws_bind; [|intros v; apply IH].
  destruct (args !! i) as [a|]; [|apply never_throws_ret].
  destruct (String.eqb a "");
    [apply never_throws_ret|apply evaluateExpr_never_throws].
Qed.

Lemma same_engine_draw (w : World) : same_engine w (with_draw w).
Proof. by repeat split. Qed.

Lemma reading_ret {A} (a : A) : reading (ret a).
Proof.
  split; [apply never_throws_ret|apply respects_ret, same_engine_refl].
Qed.

Lemma reading_ask {A} (f : World → A) : reading (ask f).
Proof.
  split; [apply never_throws_ask|apply respects_ask, same_engine_refl].
Qed.

Lemma reading_bind {A B} (m : M A) (k : A → M B) :
  reading m → (∀ a, reading (k a)) → reading (bind m k).
Proof.
  intros [Hm1 Hm2] Hk. split.
  - apply never_throws_bind; [exact Hm1|intros a; apply Hk].
  - apply respects_bind; [apply same_engine_trans|exact Hm2|intros a; apply Hk].
Qed.

Lemma reading_evaluateExpr fuel expr lv : reading (evaluateExpr fuel expr lv).
Proof.
  split; [apply evaluateExpr_never_throws|].
  apply respects_evaluateExpr;
    [apply same_engine_refl|apply same_engine_trans|apply same_engine_draw].
Qed.

Lemma reading_evaluateCondition fuel expr lv :
  reading (evaluateCondition fuel expr lv).
Proof.
  split; [apply evaluateCondition_never_throws|].
  apply respects_evaluateCondition;
    [apply same_engine_refl|apply same_engine_trans|apply same_engine_draw].
Qed.

Lemma reading_mapM fuel lv (l : list string) :
  reading (mapM (fun a => evaluateExpr fuel a lv) l).
Proof.
  split.
  - apply never_throws_mapM. intros a. apply evaluateExpr_never_throws.
  - apply respects_mapM;
      [apply same_engine_refl|apply same_engine_trans|].
    intros a. apply reading_evaluateExpr.
Qed.

Lemma reading_bind_params fuel ps args i lv fl :
  reading (bind_params fuel ps args i lv fl).
Proof.
  split; [apply bind_params_never_throws|].
  apply respects_bind_params;
    [apply same_engine_refl|apply same_engine_trans|apply same_engine_draw].
Qed.

Lemma alive_never {A} (m : M A) : never_throws m → alive m.
Proof. intros H w msg w' E. by destruct (H w msg w'). Qed.

Lemma alive_bind {A B} (m : M A) (k : A → M B) :
  alive m → (∀ a, alive (k a)) → alive (bind m k).
Proof.
  intros Hm Hk w msg w'. unfold bind.
  destruct (m w) as [a w1|msg1 w1|] eqn:E; [apply Hk| |discriminate].
  intros [= <- <-]. by apply (Hm w msg1).
Qed.

Lemma alive_weaken {A} (m : M A) : alive m → alive_from m.
Proof. intros H w msg w' _. apply H. Qed.

(** After a read the state is still one in which the sketch runs. *)
Lemma alive_from_bind {A B} (m : M A) (k : A → M B) :
  reading m → (∀ a, alive_from (k a)) → alive_from (bind m k).
Proof.
  intros [Hm1 Hm2] Hk w msg w' Hw. unfold bind.
  specialize (Hm2 w).
  destruct (m w) as [a w1|msg1 w1|] eqn:E; [| |discriminate].
  - apply Hk. unfold is_running in *. destruct Hm2 as (-> & _). exact Hw.
  - by destruct (Hm1 w msg1 w1).
Qed.

Lemma alive_from_then {A B} (m : M A) (k : A → M B) :
  alive_from m → (∀ a, never_throws (k a)) → alive_from (bind m k).
Proof.
  intros Hm Hk w msg w' Hw. unfold bind.
  destruct (m w) as [a w1|msg1 w1|] eqn:E; [| |discriminate].
  - intros H. by destruct (Hk a w1 msg w').
  - intros [= <- <-]. by apply (Hm w msg1).
Qed.

Lemma alive_from_throw {A} (msg : string) : alive_from (@throw A msg).
Proof. intros w m w' Hw [= _ <-]. exact Hw. Qed.

Lemma alive_from_on_pins (o : PinManager.op) : alive_from (on_pins o).
Proof.
  intros w msg w' Hw. unfold on_pins.
  destruct (PinManager.fault _ o) as [[field v]|]; [|discriminate].
  intros [= _ <-]. exact Hw.
Qed.

Lemma alive_guard {A} (a : A) (m : M A) :
  alive_from m →
  alive (fun w => if negb (is_running w) then Ok a w else m w).
Proof.
  intros Hm w msg w'. destruct (is_running w) eqn:E; cbn [negb];
    [by apply Hm|discriminate].
Qed.

Ltac quiet :=
  repeat first
    [ apply never_throws_ret | apply never_throws_ask
    | apply never_throws_effect | apply never_throws_suspend
    | apply never_throws_store
    | apply never_throws_bind; [|intros ?] ].

Ltac reads :=
  repeat first
    [ apply reading_ret | apply reading_ask | apply reading_evaluateExpr
    | apply reading_mapM | apply reading_bind_params
    | apply reading_bind; [|intros ?]
    | match goal with
      | |- reading (if ?c then _ else _) => destruct c
      | |- reading (match ?x with _ => _ end) => destruct x
      end ].

(** Every function of the executor raises its exceptions in a state in
    which the sketch runs: each of them tests the flag before it does
    anything, what follows the test and precedes a [throw] is a read, and
    what follows a suspension is a test again. *)
Lemma executor_alive (fuel : nat) :
  (∀ stmts lv, alive (execute fuel stmts lv)) ∧
  (∀ stmt lv, alive (executeStatement fuel stmt lv)) ∧
  (∀ cond step body lv, alive (for_loop fuel cond step body lv)) ∧
  (∀ cond body n lv, alive (while_loop fuel cond body n lv)) ∧
  (∀ stmt lv, alive (executeIfElse fuel stmt lv)).
Proof.
  induction fuel as [|fuel (IHe & IHs & IHf & IHw & IHi)].
  { repeat split; intros; apply alive_never, never_throws_timeout. }
  repeat split.
  - intros stmts lv. cbn [execute]. destruct stmts as [|stmt rest];
      [apply alive_never, never_throws_ret|].
    apply alive_guard, alive_weaken.
    apply alive_bind; [apply IHs|intros ?; apply IHe].
  - intros stmt lv. cbn [executeStatement]. apply alive_guard.
    destruct (classify stmt);
      repeat first
        [ apply alive_weaken, alive_never; solve [quiet]
        | apply alive_from_throw
        | apply alive_from_then; [apply alive_from_on_pins|intros ?; solve [quiet]]
        | apply alive_weaken; first [apply IHi|apply IHw]
        | apply alive_weaken, alive_bind;
          [first [apply IHs|apply IHe]
          |intros ?; first [apply IHf|apply alive_never, never_throws_ret]]
        | apply alive_from_bind; [solve [reads]|intros ?]
        | match goal with
          | |- alive_from (match ?x with _ => _ end) => destruct x
          end ].
  - intros cond step body lv. cbn [for_loop]. apply alive_guard.
    apply alive_from_bind; [apply reading_evaluateCondition|].
    intros [|]; apply alive_weaken; [|apply alive_never, never_throws_ret].
    apply alive_bind; [apply IHe|]. intros lv1.
    apply alive_bind; [apply IHs|]. intros lv2.
    apply alive_bind; [apply alive_never, never_throws_suspend|].
    intros _. apply IHf.
  - intros cond body n lv. cbn [while_loop]. apply alive_guard.
    apply alive_from_bind; [apply reading_evaluateCondition|].
    intros [|]; apply alive_weaken; [|apply alive_never, never_throws_ret].
    apply alive_bind; [apply IHe|]. intros lv1.
    apply alive_bind; [|intros _; apply IHw].
    apply alive_never.
    destruct (_ =? _); [apply never_throws_suspend|apply never_throws_ret].
  - intros stmt lv. cbn [executeIfElse].
    destruct (classify_if stmt) as [c b r|b|];
      [| apply IHe | apply alive_never, never_throws_ret].
    apply alive_bind; [apply alive_never, evaluateCondition_never_throws|].
    intros [|]; [apply IHe|].
    destruct (_ || _); [apply IHi|apply alive_never, never_throws_ret].
Qed.

Lemma run_loop_alive (fuel : nat) : alive (run_loop fuel).
Proof.
  induction fuel as [|n IH]; [apply alive_never, never_throws_timeout|].
  cbn [run_loop]. intros w msg w'.
  destruct (negb (Engine.running (engine w))); [discriminate|].
  revert w msg w'. fold (alive
    (let* loopCode := ask (fun w => ArduinoParser.loopCode (parser (engine w))) in
     execute (S n) loopCode ∅;; suspend (Fin 1);; run_loop n)%interp).
  apply alive_bind; [apply alive_never, never_throws_ask|]. intros code.
  apply alive_bind; [apply executor_alive|]. intros _.
  apply alive_bind; [apply alive_never, never_throws_suspend|]. intros _.
  exact IH.
Qed.

Lemma run_sketch_alive (fuel : nat) (code : string) :
  alive (run_sketch fuel code).
Proof.
  unfold run_sketch.
  apply alive_bind; [apply alive_never, never_throws_effect|]. intros _.
  apply alive_bind; [|intros _; apply run_loop_alive].
  apply alive_bind; [apply alive_never, never_throws_ask|]. intros stmts.
  apply executor_alive.
Qed.

End Alive.

(** *** The two running flags *)

Section Flags.

Context {host : Host}.

Local Open Scope interp_scope.

Lemma in_step_perform (a : action) (w : World) : in_step w → in_step (perform a w).
Proof. destruct a; unfold in_step; cbn; done. Qed.

Lemma in_step_performs (l : list (Z * action)) (w : World) :
  in_step w → in_step (fold_left (fun w ta => perform (snd ta) w) l w).
Proof.
  revert w. induction l as [|ta l IH]; intros w H; cbn [fold_left]; [done|].
  by apply IH, in_step_perform.
Qed.

Lemma closed_keeps_step : closed keeps_step.
Proof.
  split; unfold keeps_step.
  - done.
  - auto.
  - intros text type w. unfold handleSerial, in_step.
    by destruct (String.eqb type "print").
  - intros o w _. by unfold in_step.
  - intros vars w. by unfold in_step.
  - intros w. by unfold in_step.
  - intros d w. unfold suspend. intros H.
    exact (in_step_performs _ w H).
Qed.

(** The try block of [start] leaves the flags in agreement, and the program
    it leaves is the one parsed from the text, whether it returns or
    throws. *)
Lemma run_sketch_keeps (fuel : nat) (code : string) (w : World) :
  match run_sketch fuel code w with
  | Ok _ w' | Throw _ w' =>
      keeps_step w w' ∧
      ∀ p, program (parser (engine w')) = program (ArduinoParser.parse code p)
  | OutOfFuel => True
  end.
Proof.
  unfold run_sketch.
  set (w0 := with_engine
               (with_parser (ArduinoParser.parse code (parser (engine w)))
                            (engine w)) w).
  set (rest := ((let* setupCode :=
                   ask (fun w => ArduinoParser.setupCode (parser (engine w))) in
                 execute fuel setupCode ∅);; run_loop fuel)%interp).
  change (match rest w0 with
          | Ok _ w' | Throw _ w' =>
              keeps_step w w' ∧
              ∀ p, program (parser (engine w'))
                   = program (ArduinoParser.parse code p)
          | OutOfFuel => True
          end).
  assert (H1 : respects keeps_step rest).
  { apply (closed_bind _ closed_keeps_step);
      [|intros _; apply (run_loop_respects _ closed_keeps_step)].
    apply (closed_bind _ closed_keeps_step);
      [apply respects_ask, (closed_refl _ closed_keeps_step)|].
    intros stmts. apply (executor_respects _ closed_keeps_step). }
  assert (H2 : respects same_frame rest).
  { apply (closed_bind _ closed_same_frame);
      [|intros _; apply (run_loop_respects _ closed_same_frame)].
    apply (closed_bind _ closed_same_frame);
      [apply respects_ask, (closed_refl _ closed_same_frame)|].
    intros stmts. apply (executor_respects _ closed_same_frame). }
  specialize (H1 w0). specialize (H2 w0).
  assert (G : ∀ w', keeps_step w0 w' → same_frame w0 w' →
                keeps_step w w' ∧
                ∀ p, program (parser (engine w'))
                     = program (ArduinoParser.parse code p)).
  { intros w' K (F1 & F2 & F3 & _). split.
    - intros Hs. apply K. exact Hs.
    - intros p. unfold program. by rewrite F1, F2, F3. }
  destruct (rest w0) as [a w'|m w'|]; [by apply G|by apply G|exact I].
Qed.

Lemma in_step_launch (w : World) :
  in_step (launch w) ∧ is_running (launch w) = true.
Proof. by split. Qed.

(** A start that is not refused leaves the program parsed from the text it
    was given. *)
Lemma start_parses (fuel : nat) (code : string) (w w' : World) :
  Engine.running (engine w) = false →
  start fuel code w = Ok tt w' →
  ∀ p, program (parser (engine w')) = program (ArduinoParser.parse code p).
Proof.
  intros Hr. unfold start. rewrite Hr.
  pose proof (run_sketch_keeps fuel code (launch w)) as H.
  destruct (run_sketch fuel code (launch w)) as [a w1|m w1|]; [| |discriminate];
    destruct H as [_ H]; intros [= <-] p; rewrite <- (H p);
    unfold finish, notifyStatus, handleSerial; cbn;
    by destruct (Engine.running (engine w1)).
Qed.

(** An exception that leaves [execute] was raised by one of the statements
    of the list, in a state in which the sketch was running, and nothing
    was executed after it. *)
Lemma execute_origin (fuel : nat) :
  ∀ stmts lv w msg w',
    execute fuel stmts lv w = Throw msg w' →
    ∃ f stmt lv1 w1,
      stmt ∈ stmts ∧ is_running w1 = true ∧
      executeStatement f stmt lv1 w1 = Throw msg w'.
Proof.
  induction fuel as [|fuel IH]; intros stmts lv w msg w'; [discriminate|].
  cbn [execute]. destruct stmts as [|stmt rest]; [discriminate|].
  destruct (is_running w) eqn:Hw; cbn [negb]; [|discriminate].
  unfold bind.
  destruct (executeStatement fuel stmt lv w) as [lv1 w2|msg1 w2|] eqn:E;
    [| |discriminate].
  - intros H. destruct (IH rest lv1 w2 msg w' H) as (f & s1 & l1 & w1 & Hin & H1).
    exists f, s1, l1, w1. split; [by apply list_elem_of_further|exact H1].
  - intros [= <- <-]. exists fuel, stmt, lv, w.
    split; [apply list_elem_of_here|by split].
Qed.

Lemma run_loop_origin (fuel : nat) :
  ∀ w msg w',
    run_loop fuel w = Throw msg w' →
    ∃ f stmt lv1 w1,
      stmt ∈ ArduinoParser.loopCode (parser (engine w')) ∧
      is_running w1 = true ∧
      executeStatement f stmt lv1 w1 = Throw msg w'.
Proof.
  induction fuel as [|n IH]; intros w msg w'; [discriminate|].
  cbn [run_loop]. destruct (negb (Engine.running (engine w))); [discriminate|].
  unfold bind, ask.
  pose proof (proj1 (executor_respects same_frame closed_same_frame (S n))
                (ArduinoParser.loopCode (parser (engine w))) ∅ w) as Hf.
  destruct (execute (S n) _ ∅ w) as [lv1 w2|msg1 w2|] eqn:E; [| |discriminate].
  - cbn. intros H. exact (IH _ msg w' H).
  - intros [= <- <-].
    destruct (execute_origin (S n) _ ∅ w msg1 w2 E) as (f & s1 & l1 & w1 & Hin & H1).
    exists f, s1, l1, w1. split; [|exact H1].
    destruct Hf as (_ & _ & -> & _). exact Hin.
Qed.

Lemma run_sketch_origin (fuel : nat) (code : string) (w : World) msg w' :
  run_sketch fuel code w = Throw msg w' →
  ∃ f stmt lv1 w1,
    (stmt ∈ ArduinoParser.setupCode (parser (engine w')) ∨
     stmt ∈ ArduinoParser.loopCode (parser (engine w'))) ∧
    is_running w1 = true ∧
    executeStatement f stmt lv1 w1 = Throw msg w'.
Proof.
  unfold run_sketch, bind, effect, ask.
  set (w0 := with_engine
               (with_parser (ArduinoParser.parse code (parser (engine w)))
                            (engine w)) w).
  pose proof (proj1 (executor_respects same_frame closed_same_frame fuel)
                (ArduinoParser.setupCode (parser (engine w0))) ∅ w0) as Hf.
  destruct (execute fuel _ ∅ w0) as [lv1 w2|msg1 w2|] eqn:E; [| |discriminate].
  - intros H.
    destruct (run_loop_origin fuel w2 msg w' H) as (f & s1 & l1 & w1 & Hin & H1).
    exists f, s1, l1, w1. split; [by right|exact H1].
  - intros [= <- <-].
    destruct (execute_origin fuel _ ∅ w0 msg1 w2 E) as (f & s1 & l1 & w1 & Hin & H1).
    exists f, s1, l1, w1. split; [left|exact H1].
    destruct Hf as (_ & -> & _). exact Hin.
Qed.

(** Claim C7, amended: an exception that leaves the execution of setup or
    of loop is the one that a statement of setup or of loop raised while
    the sketch was running, and it is caught by [start], which returns:
    every serial subscriber receives exactly one more event, of category
    error, whose text is the pending buffer followed by the prefix [Error]
    and the message; the status error, and no other, is notified; the
    parser, the pins and the clock are as the statement left them when it
    raised the exception, so nothing was executed after it.
    The evaluation of an expression raises no exception.  The running flag
    is still set after the error: any further [start] returns at once and
    changes nothing; [stop] and [reset] clear the flag, and a [start] that
    finds the flag cleared leaves the program parsed from the text it was
    given. *)
Theorem fatal_error_reported
        (fuel : nat) (code msg : string) (w w' : World) :
  Engine.running (engine w) = false →
  run_sketch fuel code (launch w) = Throw msg w' →
  (∀ f expr lv, never_throws (evaluateExpr f expr lv)) ∧
  (∃ f stmt lv w1,
     (stmt ∈ ArduinoParser.setupCode (parser (engine w')) ∨
      stmt ∈ ArduinoParser.loopCode (parser (engine w'))) ∧
     is_running w1 = true ∧
     executeStatement f stmt lv w1 = Throw msg w') ∧
  ∃ wf, start fuel code w = Ok tt wf ∧
        serialCalls (engine wf)
        = serialCalls (engine w')
          ++ map (fun listener =>
                    (listener,
                     serialBuffer (engine w') +:+ "[Error] " +:+ msg,
                     "error"%string,
                     toFixed3 (num_div (Fin (inject_Z (now w' - Engine.startTime (engine w'))))
                                       (Fin 1000))))
                 (serialListeners (engine w')) ∧
        serialBuffer (engine wf) = ""%string ∧
        statusCalls (engine wf)
        = statusCalls (engine w')
          ++ map (fun cb => (cb, "error"%string)) (statusListeners (engine w')) ∧
        parser (engine wf) = parser (engine w') ∧
        pinManager (engine wf) = pinManager (engine w') ∧
        now wf = now w' ∧
        Engine.running (engine wf) = true ∧
        (∀ fuel' code', start fuel' code' wf = Ok tt wf) ∧
        Engine.running (engine (stop wf)) = false ∧
        Engine.running (engine (reset wf)) = false ∧
        (∀ fuel' code' w2 w3,
           Engine.running (engine w2) = false →
           start fuel' code' w2 = Ok tt w3 →
           ∀ p, program (parser (engine w3))
                = program (ArduinoParser.parse code' p)).
Proof.
  intros Hr Ht. split; [intros f expr lv; apply evaluateExpr_never_throws|].
  split; [exact (run_sketch_origin fuel code _ msg w' Ht)|].
  assert (Hrun : Engine.running (engine w') = true).
  { pose proof (run_sketch_keeps fuel code (launch w)) as H.
    rewrite Ht in H. destruct H as [H _].
    rewrite (H (proj1 (in_step_launch w))).
    exact (run_sketch_alive fuel code _ _ _ Ht). }
  unfold start. rewrite Hr, Ht. eexists. split; [reflexivity|].
  assert (Hf : Engine.running
                 (engine (notifyStatus "error"
                            (handleSerial ("[Error] " +:+ msg) "error" w'))) = true).
  { unfold handleSerial. cbn. exact Hrun. }
  unfold finish. rewrite !Hf. cbn [negb].
  split; [reflexivity|]. split; [reflexivity|]. split; [reflexivity|].
  split; [reflexivity|]. split; [reflexivity|]. split; [reflexivity|].
  split; [exact Hf|].
  split; [intros fuel' code'; by rewrite Hf|].
  split; [reflexivity|]. split; [reflexivity|].
  intros fuel' code' w2 w3 H2 H3. exact (start_parses fuel' code' w2 w3 H2 H3).
Qed.

End Flags.

Lemma fatal_error_reported_witness :
  let w := boot observed 1000 [] in
  let w' := thrown_in (run_sketch (host := sample_host) 20 faulty_sketch (launch w)) w in
  (Engine.running (engine w) = false ∧
   run_sketch (host := sample_host) 20 faulty_sketch (launch w)
   = Throw toFixed_error w') ∧
  (∃ f stmt lv w1,
     (stmt ∈ ArduinoParser.setupCode (parser (engine w')) ∨
      stmt ∈ ArduinoParser.loopCode (parser (engine w'))) ∧
     is_running w1 = true ∧
     executeStatement (host := sample_host) f stmt lv w1 = Throw toFixed_error w') ∧
  ∃ wf, start (host := sample_host) 20 faulty_sketch w = Ok tt wf ∧
        serialCalls (engine wf)
        = serialCalls (engine w')
          ++ map (fun listener =>
                    (listener,
                     serialBuffer (engine w') +:+ "[Error] " +:+ toFixed_error,
                     "error"%string,
                     toFixed3 (num_div (Fin (inject_Z (now w' - Engine.startTime (engine w'))))
                                       (Fin 1000))))
                 (serialListeners (engine w')) ∧
        serialBuffer (engine wf) = ""%string ∧
        statusCalls (engine wf)
        = statusCalls (engine w')
          ++ map (fun cb => (cb, "error"%string)) (statusListeners (engine w')) ∧
        parser (engine wf) = parser (engine w') ∧
        pinManager (engine wf) = pinManager (engine w') ∧
        now wf = now w' ∧
        Engine.running (engine wf) = true ∧
        (∀ fuel' code', start (host := sample_host) fuel' code' wf = Ok tt wf) ∧
        Engine.running (engine (stop wf)) = false ∧
        Engine.running (engine (reset wf)) = false ∧
        (∀ fuel' code' w2 w3,
           Engine.running (engine w2) = false →
           start (host := sample_host) fuel' code' w2 = Ok tt w3 →
           ∀ p, program (parser (engine w3))
                = program (ArduinoParser.parse code' p)).
Proof.
  intros w w'.
  assert (H : Engine.running (engine w) = false ∧
              run_sketch (host := sample_host) 20 faulty_sketch (launch w)
              = Throw toFixed_error w')
    by (split; vm_compute; reflexivity).
  split; [exact H|].
  exact (proj2 (fatal_error_reported (host := sample_host) 20 faulty_sketch
                  toFixed_error w w' (proj1 H) (proj2 H))).
Defined.

(** Claim C7, as stated, fails in two places.  After the error of the
    faulty sketch a new explicit [start], here with another sketch, returns
    at once: nothing is notified, and the parser still holds the program of
    the faulty sketch.  And the evaluation failure of [1 +] aborts nothing:
    the statement prints 0, no error is reported, and the run goes on until
    it is stopped. *)
Lemma start_after_error_refused :
  let w := boot observed 1000 [] in
  (∃ wf, start (host := sample_host) 20 faulty_sketch w = Ok tt wf ∧
         statusCalls (engine wf) = [(0%nat, "running"%string); (0%nat, "error"%string)] ∧
         start (host := sample_host) 20 unfinished_sketch wf = Ok tt wf ∧
         ArduinoParser.setupCode (parser (engine wf))
         = ["Serial.print(" +:+ quoted "abc" +:+ ")"]) ∧
  eval_arith (Host := sample_host) "1 +" = None ∧
  observe (fun _ w2 => (serialCalls (engine w2), statusCalls (engine w2)))
          (start (host := sample_host) 20 unfinished_sketch
                 (boot observed 1000 [(1001, Stop)]))
  = Some ([(0%nat, "0"%string, "println"%string, "0.000"%string)],
          [(0%nat, "running"%string); (0%nat, "stopped"%string);
           (0%nat, "stopped"%string)]).
Proof.
  intros w. split; [|split; vm_compute; reflexivity].
  eexists. split; [vm_compute; reflexivity|].
  split; [vm_compute; reflexivity|]. split; vm_compute; reflexivity.
Qed.

(** The run of the witness: the text printed by [setup] is flushed with the
    error, and the statement after the failing one is never executed. *)
Example faulty_sketch_run :
  observe (fun _ wf => (serialCalls (engine wf), statusCalls (engine wf)))
          (start (host := sample_host) 20 faulty_sketch (boot observed 1000 []))
  = Some ([(0%nat, "abc[Error] " +:+ toFixed_error, "error"%string,
            "0.000"%string)],
          [(0%nat, "running"%string); (0%nat, "error"%string)]).
Proof. vm_compute. reflexivity. Qed.

(** After [stop], a start with another sketch is carried out: the status
    running is notified again, the new text is parsed and its setup
    prints. *)
Example restart_after_stop :
  let wf := returned_in (start (host := sample_host) 20 faulty_sketch
                               (boot observed 1000 []))
                        (boot observed 1000 []) in
  observe (fun _ w2 => (serialCalls (engine w2), statusCalls (engine w2),
                        ArduinoParser.setupCode (parser (engine w2))))
          (start (host := sample_host) 20 unfinished_sketch
                 (with_engine (engine (stop wf))
                              (boot observed 2000 [(2001, Stop)])))
  = Some ([(0%nat, "abc[Error] " +:+ toFixed_error, "error"%string,
            "0.000"%string);
           (0%nat, "0"%string, "println"%string, "0.000"%string)],
          [(0%nat, "running"%string); (0%nat, "error"%string);
           (0%nat, "stopped"%string); (0%nat, "running"%string);
           (0%nat, "stopped"%string); (0%nat, "stopped"%string)],
          ["Serial.println(1 +)"%string]).
Proof. vm_compute. reflexivity. Qed.

(** ** Function calls *)

Section Calls.

Context {host : Host}.

Local Open Scope interp_scope.

(** Parameters without an argument are bound to 0. *)
Lemma bind_params_missing fuel ps args i lv acc w :
  (length args <= i)%nat →
  bind_params fuel ps args i lv acc w
  = Ok (fold_left (fun m p => <[p := zero]> m) ps acc) w.
Proof.
  revert i acc. induction ps as [|p ps IH]; intros i acc Hi; [reflexivity|].
  cbn [bind_params fold_left].
  rewrite (proj2 (lookup_ge_None args i)) by lia.
  unfold bind at 1, ret at 1. apply IH. lia.
Qed.



End Calls.


(** The call of the witness binds the parameter [n] to the value of the
    caller's [y], which is 1, and returns: the callee added its parameter to
    the global [total] and assigned 7 to its own copy of [y], and the caller
    still has [y] equal to 1. *)
Example bump_call_returns :
  observe (fun fl _ => fl)
          (bind_params (host := sample_host) 5 ["n"] ["y"] 0
             {["y" := of_Z 1]} ∅
             (running_world {["total" := of_Z 10]} {["bump" := bump]} 0 []))
  = Some {["n" := of_Z 1]} ∧
  observe (fun lv' w' => (lv' !! "y", variables_of w' !! "total",
                          variables_of w' !! "y"))
          (executeStatement (host := sample_host) 5 "bump(y)"
             {["y" := of_Z 1]}
             (running_world {["total" := of_Z 10]} {["bump" := bump]} 0 []))
  = Some (Some (of_Z 1), Some (of_Z 12), None).
Proof. split; vm_compute; reflexivity. Qed.

(** A call with fewer arguments than parameters binds the parameters left
    over to 0, and a call with more arguments ignores the arguments left
    over. *)
Example pair_up_calls :
  let w := running_world ∅ {["pair_up" := pair_up]} 0 [] in
  observe (fun _ w' => (variables_of w' !! "first", variables_of w' !! "second"))
          (executeStatement (host := sample_host) 5 "pair_up(5)" ∅ w)
  = Some (Some (of_Z 5), Some zero) ∧
  observe (fun _ w' => (variables_of w' !! "first", variables_of w' !! "second"))
          (executeStatement (host := sample_host) 5 "pair_up(5, 6, 7)" ∅ w)
  = Some (Some (of_Z 5), Some (of_Z 6)) ∧
  observe (fun _ w' => (variables_of w' !! "first", variables_of w' !! "second"))
          (executeStatement (host := sample_host) 5 "pair_up()" ∅ w)
  = Some (Some zero, Some zero).
Proof. repeat split; vm_compute; reflexivity. Qed.
